(** * PySPH box-sort neighbour search and parallel manager

    A shallow embedding of [pysph/base/nnps.pyx] and
    [pysph/parallel/parallel_manager.pyx].

    Conventions of the embedding.
    - A C [double] is an exact rational ([Q]); rounding is not modelled.
      Where the source computes a value by one arithmetic expression the
      embedding has the same expression, so such values are compared with
      Leibniz equality; values obtained by evaluation are compared with
      [Qeq] ([==]).
    - C [int], [unsigned int] and [size_t] values are integers ([Z]) or
      naturals ([nat], for row numbers that index an array); the one place
      where the source narrows a Python integer to a C [int]
      ([update_particle_gids]) has the range check written out.
    - A Python [dict] is a [gmap]; the typed [carray] vectors are lists.
    - Python exceptions are [None] in an [option]; text written by [print]
      is appended to a [console] field of the object's state. *)

From Stdlib Require Import ZArith QArith Qround Lia Lqa.
From stdpp Require Import gmap strings list.

Local Open Scope Z_scope.

(** ** Doubles as rationals *)

#[global] Instance Q_inhabited : Inhabited Q := populate 0%Q.

(** The C comparison [a < b] on doubles. *)
Definition Qltb (a b : Q) : bool :=
  match (a ?= b)%Q with Lt => true | _ => false end.

(** ** Points *)

Record cPoint := cPoint_new { px : Q; py : Q; pz : Q }.

Record cIntPoint := cIntPoint_new { ix : Z; iy : Z; iz : Z }.

#[global] Instance cIntPoint_eq_dec : EqDecision cIntPoint.
Proof. solve_decision. Defined.

#[global] Instance cIntPoint_countable : Countable cIntPoint :=
  inj_countable'
    (λ p, (ix p, iy p, iz p))
    (λ t, cIntPoint_new t.1.1 t.1.2 t.2)
    (λ p, match p with cIntPoint_new _ _ _ => eq_refl end).

(** Modelled from the spec: [cPoint_distance] is declared with the point
    types in a file that is not part of the sources at hand.  The spec takes
    [d = |xi - xj|], the Euclidean distance.  A rational model has no square
    root, so the distance is kept as its square and the only use the code
    makes of it, the test [d < r], is decided on squares: [sqrt s < r] holds
    exactly when [0 < r] and [s < r * r]. *)
Definition cPoint_distance2 (a b : cPoint) : Q :=
  ((px a - px b) * (px a - px b) + (py a - py b) * (py a - py b)
   + (pz a - pz b) * (pz a - pz b))%Q.

Definition distance_lt (a b : cPoint) (r : Q) : bool :=
  Qltb 0 r && Qltb (cPoint_distance2 a b) (r * r).

(** ** Box sort primitives (identical in both source files) *)

Definition real_to_int (real_val step : Q) : Z := Qfloor (real_val / step).

Definition find_cell_id (pnt : cPoint) (cell_size : Q) : cIntPoint :=
  cIntPoint_new (real_to_int (px pnt) cell_size)
                (real_to_int (py pnt) cell_size)
                0.

Definition _get_centroid (cell_size : Q) (cid : cIntPoint) : cPoint :=
  let centroid := cPoint_new 0 0 0 in
  let centroid := cPoint_new ((inject_Z (ix cid) + 0.5) * cell_size)
                             (py centroid) (pz centroid) in
  let centroid := cPoint_new (px centroid)
                             ((inject_Z (iy cid) + 0.5) * cell_size)
                             (pz centroid) in
  centroid.

(** [arange_uint(start, stop=-1)] *)
Definition arange_uint (start : Z) (stop : Z) : list nat :=
  if stop =? -1 then seq 0 (Z.to_nat start)
  else seq (Z.to_nat start) (Z.to_nat (stop - start)).

(** ** Particle tags *)

(** Modelled from the spec: [ParticleTAGS] is imported from a module that is
    not part of the sources at hand.  The spec classifies a row as Local (0),
    Remote or Ghost, in this order. *)
Inductive ParticleTAGS := Local | Remote | Ghost.

Definition tag_value (t : ParticleTAGS) : Z :=
  match t with Local => 0 | Remote => 1 | Ghost => 2 end.

(** ** Particle arrays *)

(** Modelled from the spec: the particle-array container is an external
    collaborator: a mapping from property name to a dense vector of one of
    four element kinds, all vectors of one length. *)
Inductive carray :=
| DoubleArray (data : list Q)
| UIntArray (data : list Z)
| IntArray (data : list Z)
| LongArray (data : list Z).

Definition carray_length (a : carray) : nat :=
  match a with
  | DoubleArray d => length d
  | UIntArray d | IntArray d | LongArray d => length d
  end.

Record ParticleArray := mkParticleArray {
  pa_name : string;
  pa_props : gmap string carray
}.

Definition get_carray (pa : ParticleArray) (prop : string) : option carray :=
  pa_props pa !! prop.

Definition doubles (pa : ParticleArray) (prop : string) : list Q :=
  match get_carray pa prop with Some (DoubleArray d) => d | _ => [] end.

Definition uints (pa : ParticleArray) (prop : string) : list Z :=
  match get_carray pa prop with Some (UIntArray d) => d | _ => [] end.

Definition ints (pa : ParticleArray) (prop : string) : list Z :=
  match get_carray pa prop with Some (IntArray d) => d | _ => [] end.

Definition get_number_of_particles (pa : ParticleArray) : nat :=
  length (doubles pa "x").

(** The cached references of [NNPSParticleArrayWrapper] and
    [ParticleArrayWrapper] alias the vectors of the particle array itself,
    so a wrapper attribute is a read of the array. *)
Definition w_x (pa : ParticleArray) := doubles pa "x".
Definition w_y (pa : ParticleArray) := doubles pa "y".
Definition w_z (pa : ParticleArray) := doubles pa "z".
Definition w_h (pa : ParticleArray) := doubles pa "h".
Definition w_gid (pa : ParticleArray) := uints pa "gid".
Definition w_tag (pa : ParticleArray) := ints pa "tag".

(** ** Cells *)

Record Cell := mkCell {
  _cid : cIntPoint;
  c_cell_size : Q;
  c_narrays : nat;
  lindices : list (list nat);
  gindices : list (list Z);
  nparticles : list nat;
  is_boundary : bool;
  centroid : cPoint;
  layers : Z;
  boxmin : cPoint;
  boxmax : cPoint;
  nbrprocs : list Z
}.

(** [Cell._compute_bounding_box] *)
Definition _compute_bounding_box (self : Cell) (cell_size : Q) (layers : Z)
  : Cell :=
  let centroid := centroid self in
  let bmin := cPoint_new (px centroid - (inject_Z layers + 0.5) * cell_size)
                         (py centroid - (inject_Z layers + 0.5) * cell_size)
                         0 in
  let bmax := cPoint_new (px centroid + (inject_Z layers + 0.5) * cell_size)
                         (py centroid + (inject_Z layers + 0.5) * cell_size)
                         0 in
  mkCell (_cid self) (c_cell_size self) (c_narrays self) (lindices self)
         (gindices self) (nparticles self) (is_boundary self) centroid
         layers bmin bmax (nbrprocs self).

(** [Cell.__init__]; [layers] defaults to 2 at the call sites that omit it. *)
Definition Cell_init (cid : cIntPoint) (cell_size : Q) (narrays : nat)
    (layers : Z) : Cell :=
  let self :=
    mkCell cid cell_size narrays (replicate narrays []) (replicate narrays [])
           (replicate narrays 0%nat) false (_get_centroid cell_size cid)
           layers (cPoint_new 0 0 0) (cPoint_new 0 0 0) [] in
  let self := _compute_bounding_box self cell_size layers in
  mkCell (_cid self) (c_cell_size self) (c_narrays self) (lindices self)
         (gindices self) (nparticles self) (is_boundary self) (centroid self)
         (layers) (boxmin self) (boxmax self) [].

Definition Cell_default_layers : Z := 2.

(** ** Console output *)

Inductive stream := Stdout | Stderr.

Inductive message :=
| CellSizeTooSmall (cell_size : Q)
| ExtendingNeighborList (new_length : nat).

Definition Output : Type := stream * message.

(** The Python 2 [print] statement writes to the standard output. *)
Definition print (msg : message) (console : list Output) : list Output :=
  console ++ [(Stdout, msg)].

(** Modelled from the spec: [update_min_max] and the [maximum] and [minimum]
    attributes belong to the [carray] vectors, which are not part of the
    sources at hand: the extrema of the stored values.  An empty vector has
    none. *)
Fixpoint maximum (l : list Q) : option Q :=
  match l with
  | [] => None
  | a :: l' =>
      match maximum l' with
      | None => Some a
      | Some m => Some (if Qltb m a then a else m)
      end
  end.

Fixpoint minimum (l : list Q) : option Q :=
  match l with
  | [] => None
  | a :: l' =>
      match minimum l' with
      | None => Some a
      | Some m => Some (if Qltb a m then a else m)
      end
  end.

(** A loop whose body may raise. *)
Fixpoint for_each {A S : Type} (body : S → A → option S) (l : list A) (s : S)
  : option S :=
  match l with
  | [] => Some s
  | a :: l' => s' ← body s a; for_each body l' s'
  end.

(** The threshold below which a cell size counts as degenerate. *)
Definition cell_size_floor : Q := 1e-6.

(** [lindices.append(i)] on the [pa_index]-th list of a cell. *)
Definition append_lindex (pa_index i : nat) (c : Cell) : Cell :=
  mkCell (_cid c) (c_cell_size c) (c_narrays c)
         (alter (λ l, l ++ [i]) pa_index (lindices c))
         (gindices c) (nparticles c) (is_boundary c) (centroid c)
         (layers c) (boxmin c) (boxmax c) (nbrprocs c).

(** [gindices.append(g)] on the [pa_index]-th list of a cell. *)
Definition append_gindex (pa_index : nat) (g : Z) (c : Cell) : Cell :=
  mkCell (_cid c) (c_cell_size c) (c_narrays c) (lindices c)
         (alter (λ l, l ++ [g]) pa_index (gindices c))
         (nparticles c) (is_boundary c) (centroid c)
         (layers c) (boxmin c) (boxmax c) (nbrprocs c).

(** The neighbour buffer of a query: the data of the [UIntArray] passed in,
    the count of neighbours written so far and the console. *)
Record nbr_buffer := mkBuf {
  nbrs_data : list nat;
  nnbrs : nat;
  buf_console : list Output
}.

(** The body of the innermost loop of both [get_nearest_particles]: the
    distance test and the guarded write into the buffer.  [xj] is the source
    point the caller built for row [j]. *)
Definition visit_row (radius_scale : Q) (s_h : list Q) (xi : cPoint)
    (hi : Q) (mk_xj : nat → cPoint) (b : nbr_buffer) (j : nat) : nbr_buffer :=
  let xj := mk_xj j in
  let hj := (radius_scale * (s_h !!! j))%Q in
  if distance_lt xi xj hi || distance_lt xi xj hj then
    let b :=
      if (nnbrs b =? length (nbrs_data b))%nat then
        let n := (length (nbrs_data b) + 50)%nat in
        mkBuf (resize n 0%nat (nbrs_data b)) (nnbrs b)
              (print (ExtendingNeighborList n) (buf_console b))
      else b in
    mkBuf (<[nnbrs b := j]> (nbrs_data b)) (S (nnbrs b)) (buf_console b)
  else b.

(** The 3x3 block of cell ids around [cid], in the order of the two nested
    loops over [ix] and [iy]. *)
Definition block3x3 (cid : cIntPoint) : list cIntPoint :=
  x ← [ix cid - 1; ix cid; ix cid + 1];
  y ← [iy cid - 1; iy cid; iy cid + 1];
  [cIntPoint_new x y 0].

(** The visit of one cell of the block: nothing when the cell map has no
    such key, else the rows of its [src_index]-th list in order.  [None]
    when the cell has no [src_index]-th list. *)
Definition visit_cell (cells : gmap cIntPoint Cell) (src_index : nat)
    (visit : nbr_buffer → nat → nbr_buffer)
    (b : nbr_buffer) (cellid : cIntPoint) : option nbr_buffer :=
  match cells !! cellid with
  | None => Some b
  | Some cell =>
      lind ← lindices cell !! src_index;
      Some (foldl visit b lind)
  end.

(** ** [DomainLimits] *)

Record DomainLimits := mkDomainLimits {
  xmin : Q; xmax : Q; ymin : Q; ymax : Q; zmin : Q; zmax : Q;
  is_periodic : bool;
  xtranslate : Q; ytranslate : Q; ztranslate : Q;
  d_dim : Z
}.

(** [DomainLimits._check_limits] raises [ValueError] on inverted limits. *)
Definition _check_limits (xmin xmax ymin ymax zmin zmax : Q) : option unit :=
  if Qltb xmax xmin || Qltb ymax ymin || Qltb zmax zmin then None
  else Some tt.

Definition DomainLimits_init (dim : Z) (xmin xmax ymin ymax zmin zmax : Q)
    (is_periodic : bool) : option DomainLimits :=
  _ ← _check_limits xmin xmax ymin ymax zmin zmax;
  Some (mkDomainLimits xmin xmax ymin ymax zmin zmax is_periodic
          (xmax - xmin) (ymax - ymin) (zmax - zmin) dim).

(** [DomainLimits(dim)]: every other argument at its default, which passes
    the check. *)
Definition DomainLimits_default (dim : Z) : DomainLimits :=
  mkDomainLimits (-1000) 1000 0 0 0 0 false
                 (1000 - -1000) (0 - 0) (0 - 0) dim.

(** ** The serial neighbour search, [nnps.pyx] *)

Module NNPS.

Record t := mk {
  particles : list ParticleArray;
  narrays : nat;
  radius_scale : Q;
  dim : Z;
  domain : DomainLimits;
  cells : gmap cIntPoint Cell;
  cell_size : Q;
  console : list Output
}.

Definition set_cells (self : t) (c : gmap cIntPoint Cell) : t :=
  mk (particles self) (narrays self) (radius_scale self) (dim self)
     (domain self) c (cell_size self) (console self).

Definition set_console (self : t) (c : list Output) : t :=
  mk (particles self) (narrays self) (radius_scale self) (dim self)
     (domain self) (cells self) (cell_size self) c.

(** One turn of the loop of [_compute_cell_size] over the wrappers. *)
Definition hmax_step (hmax : Q) (pa : ParticleArray) : Q :=
  match maximum (w_h pa) with
  | Some _hmax => if Qltb hmax _hmax then _hmax else hmax
  | None => hmax
  end.

Definition _compute_cell_size (self : t) : t :=
  let hmax := foldl hmax_step (-1.0)%Q (particles self) in
  let cell_size := (radius_scale self * hmax)%Q in
  let '(cell_size, console) :=
    if Qltb cell_size cell_size_floor
    then (1.0%Q, print (CellSizeTooSmall cell_size) (console self))
    else (cell_size, console self) in
  mk (particles self) (narrays self) (radius_scale self) (dim self)
     (domain self) (cells self) cell_size console.

(** One turn of the loop of [_bin]: the cell is created with the default
    layer count, and only the local index is appended (the append of the
    global index is commented out in the source). *)
Definition bin_row (pa_index : nat) (x y : list Q) (cell_size : Q)
    (narrays : nat) (cells : gmap cIntPoint Cell) (i : nat)
  : gmap cIntPoint Cell :=
  let pnt := cPoint_new (x !!! i) (y !!! i) 0.0 in
  let cid := find_cell_id pnt cell_size in
  let cells :=
    match cells !! cid with
    | None => <[cid := Cell_init cid cell_size narrays Cell_default_layers]> cells
    | Some _ => cells
    end in
  alter (append_lindex pa_index i) cid cells.

(** [_bin]; [None] when [pa_wrappers] has no [pa_index]-th entry. *)
Definition _bin (self : t) (pa_index : nat) (indices : list nat) : option t :=
  pa_wrapper ← particles self !! pa_index;
  let x := w_x pa_wrapper in
  let y := w_y pa_wrapper in
  Some (set_cells self
          (foldl (bin_row pa_index x y (cell_size self) (narrays self))
                 (cells self) indices)).

Definition update (self : t) : option t :=
  let self := set_cells self ∅ in
  let self := _compute_cell_size self in
  for_each
    (λ self i,
       pa ← particles self !! i;
       let num_particles := get_number_of_particles pa in
       let indices := arange_uint (Z.of_nat num_particles) (-1) in
       _bin self i indices)
    (seq 0 (narrays self)) self.

(** [NNPS.__init__]; the argument [ghost_layers] is accepted and not used. *)
Definition init (dim : Z) (particles : list ParticleArray)
    (radius_scale : Q) (ghost_layers : Z) (domain : option DomainLimits)
  : option t :=
  let domain :=
    match domain with Some d => d | None => DomainLimits_default dim end in
  update (mk particles (length particles) radius_scale dim domain ∅ 0 []).

(** [get_nearest_particles]; returns the state (the console may have grown)
    and the array [nbrs] as the caller sees it afterwards: its first
    [_length] entries. *)
Definition get_nearest_particles (self : t) (src_index dst_index : nat)
    (d_idx : nat) (nbrs : list nat) : option (t * list nat) :=
  src ← particles self !! src_index;
  dst ← particles self !! dst_index;
  let s_x := w_x src in let s_y := w_y src in
  let s_z := w_z src in let s_h := w_h src in
  let d_x := w_x dst in let d_y := w_y dst in
  let d_z := w_z dst in let d_h := w_h dst in
  let xi := cPoint_new (d_x !!! d_idx) (d_y !!! d_idx) (d_z !!! d_idx) in
  let cid := find_cell_id xi (cell_size self) in
  let hi := (radius_scale self * (d_h !!! d_idx))%Q in
  let mk_xj j := cPoint_new (s_x !!! j) (s_y !!! j) (s_z !!! j) in
  b ← for_each
        (visit_cell (cells self) src_index
           (visit_row (radius_scale self) s_h xi hi mk_xj))
        (block3x3 cid) (mkBuf nbrs 0 (console self));
  Some (set_console self (buf_console b), take (nnbrs b) (nbrs_data b)).

(** One turn of the loop of [brute_force_neighbors]; the source compares
    squares and does not scale [hj]. *)
Definition brute_row (s_x s_y s_z s_h : list Q) (xi yi zi hi2 : Q)
    (nbrs : list nat) (j : nat) : list nat :=
  let xj := s_x !!! j in let yj := s_y !!! j in let zj := s_z !!! j in
  let hj := s_h !!! j in
  let xij2 := ((xi - xj) * (xi - xj) + (yi - yj) * (yi - yj)
               + (zi - zj) * (zi - zj))%Q in
  let hj2 := (hj * hj)%Q in
  if Qltb xij2 hi2 || Qltb xij2 hj2 then nbrs ++ [j] else nbrs.

Definition brute_force_neighbors (self : t) (src_index dst_index : nat)
    (d_idx : nat) (nbrs : list nat) : option (list nat) :=
  src ← particles self !! src_index;
  dst ← particles self !! dst_index;
  let s_x := w_x src in let s_y := w_y src in
  let s_z := w_z src in let s_h := w_h src in
  let d_x := w_x dst in let d_y := w_y dst in
  let d_z := w_z dst in let d_h := w_h dst in
  let num_particles := length d_x in
  let xi := d_x !!! d_idx in
  let yi := d_y !!! d_idx in
  let zi := d_z !!! d_idx in
  let hi := ((d_h !!! d_idx) * radius_scale self)%Q in
  let hi2 := (hi * hi)%Q in
  let nbrs : list nat := [] in
  Some (foldl (brute_row s_x s_y s_z s_h xi yi zi hi2) nbrs
              (seq 0 num_particles)).

End NNPS.

(** ** The exchange of one particle array, [parallel_manager.pyx] *)

(** The values of rows that [resize] leaves uninitialised: row [i] of the
    vector of property [prop]. *)
Record Junk := mkJunk {
  junk_q : string → nat → Q;
  junk_z : string → nat → Z
}.

Definition grow {A} (n : nat) (fill : nat → A) (d : list A) : list A :=
  take n d ++ (fill <$> seq (length d) (n - length d)).

(** Modelled from the spec: [ParticleArray.resize(newN)] preserves the
    existing rows in place; new rows are uninitialised. *)
Definition carray_resize (junk : Junk) (prop : string) (n : nat) (a : carray)
  : carray :=
  match a with
  | DoubleArray d => DoubleArray (grow n (junk_q junk prop) d)
  | UIntArray d => UIntArray (grow n (junk_z junk prop) d)
  | IntArray d => IntArray (grow n (junk_z junk prop) d)
  | LongArray d => LongArray (grow n (junk_z junk prop) d)
  end.

Definition pa_resize (junk : Junk) (n : nat) (pa : ParticleArray)
  : ParticleArray :=
  mkParticleArray (pa_name pa)
    (map_imap (λ prop a, Some (carray_resize junk prop n a)) (pa_props pa)).

(** Modelled from the spec: [remove_particles(ids)] removes the listed rows
    in one pass; the removal is stable.  Row [i] of the input is row
    [from + i] of the vector. *)
Fixpoint remove_rows {A} (from : nat) (ids : list nat) (d : list A) : list A :=
  match d with
  | [] => []
  | a :: d' =>
      if bool_decide (from ∈ ids) then remove_rows (S from) ids d'
      else a :: remove_rows (S from) ids d'
  end.

Definition carray_remove (ids : list nat) (a : carray) : carray :=
  match a with
  | DoubleArray d => DoubleArray (remove_rows 0 ids d)
  | UIntArray d => UIntArray (remove_rows 0 ids d)
  | IntArray d => IntArray (remove_rows 0 ids d)
  | LongArray d => LongArray (remove_rows 0 ids d)
  end.

Definition remove_particles (ids : list nat) (pa : ParticleArray)
  : ParticleArray :=
  mkParticleArray (pa_name pa) (carray_remove ids <$> pa_props pa).

(** Modelled from the spec: [parallel_utils.Recv] receives one source's
    contribution for one property and stores it at the write cursor
    [localbufsize] of the local vector.  [None] when the element kinds
    differ. *)
Definition Recv (localbuf : carray) (localbufsize : nat) (recvbuf : carray)
  : option carray :=
  match localbuf, recvbuf with
  | DoubleArray d, DoubleArray v => Some (DoubleArray (list_inserts localbufsize v d))
  | UIntArray d, UIntArray v => Some (UIntArray (list_inserts localbufsize v d))
  | IntArray d, IntArray v => Some (IntArray (list_inserts localbufsize v d))
  | LongArray d, LongArray v => Some (LongArray (list_inserts localbufsize v d))
  | _, _ => None
  end.

(** What the other ranks contribute to one exchange: the dictionary [recv]
    filled by [parallel_utils.count_recv_data] (source rank and row count,
    in key order) and, for each source and property, the rows that arrive. *)
Record Incoming := mkIncoming {
  recv : list (Z * nat);
  inbox : Z → string → carray
}.

(** The integers of [range(start, stop)]. *)
Definition zrange (start stop : Z) : list Z :=
  (λ k, start + Z.of_nat k) <$> seq 0 (Z.to_nat (stop - start)).

Definition INT_MIN : Z := - 2 ^ 31.
Definition INT_MAX : Z := 2 ^ 31 - 1.

(** The conversion of a Python integer to a C [int]; [OverflowError] out of
    range. *)
Definition as_int (v : Z) : option Z :=
  if (INT_MIN <=? v) && (v <=? INT_MAX) then Some v else None.

(** The cast [<ZOLTAN_ID_TYPE>] to an unsigned 32-bit integer. *)
Definition to_ZOLTAN_ID_TYPE (v : Z) : Z := v mod 2 ^ 32.

Definition sum_list_Z (l : list Z) : Z := foldr Z.add 0 l.

Module ParticleArrayExchange.

Record t := mk {
  pa : ParticleArray;
  rank : Z;
  size : Z;
  num_local : Z;
  num_remote : Z;
  num_global : Z;
  num_ghost : Z;
  exportParticleGlobalids : list Z;
  exportParticleLocalids : list nat;
  exportParticleProcs : list Z;
  numParticleExport : Z;
  importParticleGlobalids : list Z;
  importParticleLocalids : list nat;
  importParticleProcs : list Z;
  numParticleImport : Z;
  lb_props : list string
}.

Definition default_lb_props : list string :=
  ["x"; "y"; "z"; "ax"; "ay"; "az"; "u"; "v"; "w"; "au"; "av"; "aw";
   "rho"; "arho"; "m"; "h"; "gid"; "tag"].

Definition set_pa (self : t) (p : ParticleArray) : t :=
  mk p (rank self) (size self) (num_local self) (num_remote self)
     (num_global self) (num_ghost self)
     (exportParticleGlobalids self) (exportParticleLocalids self)
     (exportParticleProcs self) (numParticleExport self)
     (importParticleGlobalids self) (importParticleLocalids self)
     (importParticleProcs self) (numParticleImport self) (lb_props self).

Definition set_num_local (self : t) (n : Z) : t :=
  mk (pa self) (rank self) (size self) n (num_remote self)
     (num_global self) (num_ghost self)
     (exportParticleGlobalids self) (exportParticleLocalids self)
     (exportParticleProcs self) (numParticleExport self)
     (importParticleGlobalids self) (importParticleLocalids self)
     (importParticleProcs self) (numParticleImport self) (lb_props self).

Definition set_num_remote (self : t) (n : Z) : t :=
  mk (pa self) (rank self) (size self) (num_local self) n
     (num_global self) (num_ghost self)
     (exportParticleGlobalids self) (exportParticleLocalids self)
     (exportParticleProcs self) (numParticleExport self)
     (importParticleGlobalids self) (importParticleLocalids self)
     (importParticleProcs self) (numParticleImport self) (lb_props self).

Definition set_num_global (self : t) (n : Z) : t :=
  mk (pa self) (rank self) (size self) (num_local self) (num_remote self)
     n (num_ghost self)
     (exportParticleGlobalids self) (exportParticleLocalids self)
     (exportParticleProcs self) (numParticleExport self)
     (importParticleGlobalids self) (importParticleLocalids self)
     (importParticleProcs self) (numParticleImport self) (lb_props self).

(** [tag[i] = value] on the tag vector of the array. *)
Definition tag_store (value : Z) (tag : list Z) (i : Z) : list Z :=
  if 0 <=? i then <[Z.to_nat i := value]> tag else tag.

(** [set_tag(start, end, value)] *)
Definition set_tag (self : t) (start stop value : Z) : t :=
  match get_carray (pa self) "tag" with
  | Some (IntArray tag) =>
      set_pa self
        (mkParticleArray (pa_name (pa self))
           (<["tag" := IntArray (foldl (tag_store value) tag (zrange start stop))]>
              (pa_props (pa self))))
  | _ => self
  end.

(** One [Recv] of [_exchange_data]: the rows of property [prop] from source
    [i], [n] of them by the count exchanged before, stored at [count].
    [None] for an unknown property or when the rows that arrive are not
    [n]. *)
Definition recv_prop (inc : Incoming) (i : Z) (n count : nat)
    (p : ParticleArray) (prop : string) : option ParticleArray :=
  localbuf ← get_carray p prop;
  let recvbuf := inbox inc i prop in
  if bool_decide (carray_length recvbuf = n) then
    a ← Recv localbuf count recvbuf;
    Some (mkParticleArray (pa_name p) (<[prop := a]> (pa_props p)))
  else None.

(** One of the two receive loops of [_exchange_data]: the sources selected
    by [sel], each advancing the cursor by its row count. *)
Definition recv_from (inc : Incoming) (props : list string) (sel : Z → bool)
    (st : ParticleArray * nat) (src : Z * nat) : option (ParticleArray * nat) :=
  let '(p, count) := st in
  let '(i, n) := src in
  if sel i then
    p' ← for_each (recv_prop inc i n count) props p;
    Some (p', (count + n)%nat)
  else Some (p, count).

(** [_exchange_data]: receive from the lower ranks, send, receive from the
    higher ranks.  The sends leave the state of this rank as it is. *)
Definition _exchange_data (self : t) (count : nat) (inc : Incoming)
  : option t :=
  let props := remove_dups (lb_props self) in
  _ ← mapM (get_carray (pa self)) props;
  st ← for_each (recv_from inc props (λ i, i <? rank self)) (recv inc)
          (pa self, count);
  st ← for_each (recv_from inc props (λ i, rank self <? i)) (recv inc) st;
  Some (set_pa self st.1).

(** [lb_exchange_data], up to and including the call of [set_tag]. *)
Definition lb_prepare (junk : Junk) (self : t) : t * Z :=
  let exportLocalids := exportParticleLocalids self in
  let numExport := numParticleExport self in
  let numImport := numParticleImport self in
  let current_size := num_local self in
  let self := set_pa self (remove_particles exportLocalids (pa self)) in
  let newsize := current_size - numExport + numImport in
  let count := current_size - numExport in
  let self := set_pa self (pa_resize junk (Z.to_nat newsize) (pa self)) in
  (set_tag self count newsize 0, count).

Definition lb_exchange_data (junk : Junk) (inc : Incoming) (self : t)
  : option t :=
  let newsize :=
    num_local self - numParticleExport self + numParticleImport self in
  let '(self, count) := lb_prepare junk self in
  self ← _exchange_data self (Z.to_nat count) inc;
  Some (set_num_local self newsize).

(** [remote_exchange_data], up to and including the call of [set_tag]. *)
Definition remote_prepare (junk : Junk) (self : t) : t * Z :=
  let numImport := numParticleImport self in
  let current_size := num_local self in
  let newsize := current_size + numImport in
  let count := current_size in
  let self := set_pa self (pa_resize junk (Z.to_nat newsize) (pa self)) in
  (set_tag self count newsize 0, count).

Definition remote_exchange_data (junk : Junk) (inc : Incoming) (self : t)
  : option t :=
  let current_size := num_local self in
  let newsize := current_size + numParticleImport self in
  let '(self, count) := remote_prepare junk self in
  self ← _exchange_data self (Z.to_nat count) inc;
  Some (set_num_remote self (newsize - current_size)).

(** [update_particle_gids].  [num_objects_data] is what
    [zoltan_utils.get_num_objects_per_proc] returns: the local counts of
    all ranks, gathered in rank order. *)
Definition update_particle_gids (num_objects_data : list Z) (self : t)
  : option t :=
  num_local_objects ← num_objects_data !! Z.to_nat (rank self);
  num_global_objects ← as_int (sum_list_Z num_objects_data);
  _sum ← as_int (sum_list_Z (take (Z.to_nat (rank self)) num_objects_data));
  match get_carray (pa self) "gid" with
  | Some (UIntArray _) =>
      let gid :=
        (λ i, to_ZOLTAN_ID_TYPE (_sum + i)) <$> zrange 0 num_local_objects in
      let self :=
        set_pa self
          (mkParticleArray (pa_name (pa self))
             (<["gid" := UIntArray gid]> (pa_props (pa self)))) in
      Some (set_num_global self num_global_objects)
  | _ => None
  end.

End ParticleArrayExchange.

(** ** The parallel manager, [parallel_manager.pyx] *)

(** The seven extrema that [_compute_bounds] maintains. *)
Record Bounds := mkBounds {
  b_mx : Q; b_my : Q; b_mz : Q;
  b_Mx : Q; b_My : Q; b_Mz : Q; b_Mh : Q
}.

Definition Qmin' (a b : Q) : Q := if Qltb b a then b else a.
Definition Qmax' (a b : Q) : Q := if Qltb a b then b else a.

(** Modelled from the spec: [comm.Allreduce] with [op=MIN] for the
    coordinate minima and [op=MAX] for the coordinate maxima and [h]; the
    reduction joins the value of this rank with those of the other ranks. *)
Definition Allreduce (op : Q → Q → Q) (sendbuf : Q) (others : list Q) : Q :=
  foldl op sendbuf others.

(** [if v.minimum < m: m = v.minimum] and [if v.maximum > M: M = v.maximum];
    a vector without extremum leaves the bound as it is. *)
Definition lower (m : Q) (v : list Q) : Q :=
  match minimum v with
  | Some vmin => if Qltb vmin m then vmin else m
  | None => m
  end.

Definition raise (M : Q) (v : list Q) : Q :=
  match maximum v with
  | Some vmax => if Qltb M vmax then vmax else M
  | None => M
  end.

Module ParallelManager.

Record t := mk {
  narrays : nat;
  pa_exchanges : list ParticleArrayExchange.t;
  num_local : list Z;
  num_global : list Z;
  num_remote : list Z;
  local_bounds : Bounds;    (* minx, miny, minz, maxx, maxy, maxz, maxh *)
  global_bounds : Bounds;   (* mx, my, mz, Mx, My, Mz, Mh *)
  in_parallel : bool;
  rank : Z;
  size : Z;
  cells : gmap cIntPoint Cell;
  radius_scale : Q;
  ghost_layers : Z;
  cell_size : Q;
  console : list Output
}.

(** [particles[i]], [pa_wrappers[i]] and [pa_exchanges[i].pa] are one
    object. *)
Definition particles (self : t) : list ParticleArray :=
  ParticleArrayExchange.pa <$> pa_exchanges self.

Definition set_cells (self : t) (c : gmap cIntPoint Cell) : t :=
  mk (narrays self) (pa_exchanges self) (num_local self) (num_global self)
     (num_remote self) (local_bounds self) (global_bounds self)
     (in_parallel self) (rank self) (size self) c (radius_scale self)
     (ghost_layers self) (cell_size self) (console self).

Definition set_console (self : t) (c : list Output) : t :=
  mk (narrays self) (pa_exchanges self) (num_local self) (num_global self)
     (num_remote self) (local_bounds self) (global_bounds self)
     (in_parallel self) (rank self) (size self) (cells self)
     (radius_scale self) (ghost_layers self) (cell_size self) c.

Definition set_counts (self : t) (nl ng nr : list Z) : t :=
  mk (narrays self) (pa_exchanges self) nl ng nr
     (local_bounds self) (global_bounds self)
     (in_parallel self) (rank self) (size self) (cells self)
     (radius_scale self) (ghost_layers self) (cell_size self) (console self).

(** One turn of the loop of [_compute_bounds] over the wrappers; an empty
    array is skipped. *)
Definition bounds_step (b : Bounds) (pa : ParticleArray) : Bounds :=
  if (0 <? length (w_x pa))%nat then
    mkBounds (lower (b_mx b) (w_x pa)) (lower (b_my b) (w_y pa))
             (lower (b_mz b) (w_z pa))
             (raise (b_Mx b) (w_x pa)) (raise (b_My b) (w_y pa))
             (raise (b_Mz b) (w_z pa)) (raise (b_Mh b) (w_h pa))
  else b.

(** [_compute_bounds].  [others] holds the local extrema of the other
    ranks of the communicator.  The receive buffers [_minx] ... [_maxh] are
    bound only inside [if self.in_parallel:], and are read after it
    unconditionally: without the branch the read raises. *)
Definition _compute_bounds (others : list Bounds) (self : t) : option t :=
  let high := (-1e20)%Q in
  let low := 1e20%Q in
  let l := foldl bounds_step (mkBounds low low low high high high high)
                 (particles self) in
  let recvbufs :=
    if in_parallel self then
      Some (mkBounds (Allreduce Qmin' (b_mx l) (b_mx <$> others))
                     (Allreduce Qmin' (b_my l) (b_my <$> others))
                     (Allreduce Qmin' (b_mz l) (b_mz <$> others))
                     (Allreduce Qmax' (b_Mx l) (b_Mx <$> others))
                     (Allreduce Qmax' (b_My l) (b_My <$> others))
                     (Allreduce Qmax' (b_Mz l) (b_Mz <$> others))
                     (Allreduce Qmax' (b_Mh l) (b_Mh <$> others)))
    else None in
  g ← recvbufs;
  Some (mk (narrays self) (pa_exchanges self) (num_local self)
           (num_global self) (num_remote self) l g
           (in_parallel self) (rank self) (size self) (cells self)
           (radius_scale self) (ghost_layers self) (cell_size self)
           (console self)).

Definition compute_cell_size (others : list Bounds) (self : t) : option t :=
  self ← _compute_bounds others self;
  let hmax := b_Mh (global_bounds self) in
  let cell_size := (radius_scale self * hmax)%Q in
  let '(cell_size, console) :=
    if Qltb cell_size cell_size_floor
    then (1.0%Q, print (CellSizeTooSmall cell_size) (console self))
    else (cell_size, console self) in
  Some (mk (narrays self) (pa_exchanges self) (num_local self)
           (num_global self) (num_remote self) (local_bounds self)
           (global_bounds self) (in_parallel self) (rank self) (size self)
           (cells self) (radius_scale self) (ghost_layers self) cell_size
           console).

(** One turn of the loop of [_bin]: the cell is created with the layer
    count of the manager, and the local index and the global id of the row
    are appended. *)
Definition bin_row (pa_index : nat) (x y : list Q) (gid : list Z)
    (cell_size : Q) (narrays : nat) (layers : Z)
    (cells : gmap cIntPoint Cell) (i : nat) : gmap cIntPoint Cell :=
  let pnt := cPoint_new (x !!! i) (y !!! i) 0.0 in
  let cid := find_cell_id pnt cell_size in
  let cells :=
    match cells !! cid with
    | None => <[cid := Cell_init cid cell_size narrays layers]> cells
    | Some _ => cells
    end in
  alter (λ c, append_gindex pa_index (gid !!! i) (append_lindex pa_index i c))
        cid cells.

(** [_bin]; [None] when [pa_wrappers] has no [pa_index]-th entry. *)
Definition _bin (self : t) (pa_index : nat) (indices : list nat) : option t :=
  pa_wrapper ← particles self !! pa_index;
  let x := w_x pa_wrapper in
  let y := w_y pa_wrapper in
  let gid := w_gid pa_wrapper in
  Some (set_cells self
          (foldl (bin_row pa_index x y gid (cell_size self) (narrays self)
                          (ghost_layers self))
                 (cells self) indices)).

Definition local_bin (others : list Bounds) (self : t) : option t :=
  let self := set_cells self ∅ in
  self ← compute_cell_size others self;
  for_each
    (λ self i,
       num_particles ← num_local self !! i;
       let indices := arange_uint num_particles (-1) in
       _bin self i indices)
    (seq 0 (narrays self)) self.

Definition update_local_data (self : t) : option t :=
  let self := set_cells self ∅ in
  for_each
    (λ self i,
       pa_exchange ← pa_exchanges self !! i;
       let num_particles := ParticleArrayExchange.num_local pa_exchange in
       if bool_decide (i < length (num_local self)
                       ∧ i < length (num_global self))%nat then
         let self :=
           set_counts self
             (<[i := ParticleArrayExchange.num_local pa_exchange]>
                (num_local self))
             (<[i := ParticleArrayExchange.num_global pa_exchange]>
                (num_global self))
             (num_remote self) in
         let indices := arange_uint num_particles (-1) in
         _bin self i indices
       else None)
    (seq 0 (narrays self)) self.

Definition update_remote_data (self : t) : option t :=
  for_each
    (λ self i,
       pa_exchange ← pa_exchanges self !! i;
       let num_local' := ParticleArrayExchange.num_local pa_exchange in
       let num_remote' := ParticleArrayExchange.num_remote pa_exchange in
       if bool_decide (i < length (num_local self)
                       ∧ i < length (num_remote self))%nat then
         let self :=
           set_counts self (<[i := num_local']> (num_local self))
                      (num_global self)
                      (<[i := num_remote']> (num_remote self)) in
         let indices := arange_uint num_local' (num_local' + num_remote') in
         _bin self i indices
       else None)
    (seq 0 (narrays self)) self.

(** [get_nearest_particles]: as in the serial search, with the third
    coordinate of both points fixed to zero. *)
Definition get_nearest_particles (self : t) (src_index dst_index : nat)
    (i : nat) (nbrs : list nat) : option (t * list nat) :=
  src ← particles self !! src_index;
  dst ← particles self !! dst_index;
  let s_x := w_x src in let s_y := w_y src in let s_h := w_h src in
  let d_x := w_x dst in let d_y := w_y dst in let d_h := w_h dst in
  let xi := cPoint_new (d_x !!! i) (d_y !!! i) 0.0 in
  let cid := find_cell_id xi (cell_size self) in
  let hi := (radius_scale self * (d_h !!! i))%Q in
  let mk_xj j := cPoint_new (s_x !!! j) (s_y !!! j) 0.0 in
  b ← for_each
        (visit_cell (cells self) src_index
           (visit_row (radius_scale self) s_h xi hi mk_xj))
        (block3x3 cid) (mkBuf nbrs 0 (console self));
  Some (set_console self (buf_console b), take (nnbrs b) (nbrs_data b)).

End ParallelManager.

(** ** Scenario A of the spec *)

Definition scenarioA_pa : ParticleArray :=
  mkParticleArray "fluid"
    (list_to_map
       [("x", DoubleArray [0.1; 0.4; 1.2; 0.3]%Q);
        ("y", DoubleArray [0.1; 0.2; 0.2; 1.1]%Q);
        ("z", DoubleArray [0; 0; 0; 0]%Q);
        ("h", DoubleArray [0.5; 0.5; 0.5; 0.5]%Q);
        ("gid", UIntArray [0; 1; 2; 3]);
        ("tag", IntArray [0; 0; 0; 0])]).

Definition scenarioA_nnps : option NNPS.t :=
  NNPS.init 2 [scenarioA_pa] 2.0 1 None.

(** The exchange object and the manager of Scenario A as
    [ParallelManager.__init__] has them when it calls [local_bin]: on a
    communicator of [size] ranks this one is rank 0 and holds the four
    particles. *)
Definition scenarioA_exchange (size : Z) : ParticleArrayExchange.t :=
  ParticleArrayExchange.mk scenarioA_pa 0 size 4 0 0 0 [] [] [] 0 [] [] [] 0
    ParticleArrayExchange.default_lb_props.

Definition zero_bounds : Bounds := mkBounds 0 0 0 0 0 0 0.

Definition scenarioA_pm (size : Z) : ParallelManager.t :=
  ParallelManager.mk 1 [scenarioA_exchange size] [4] [0] [0]
    zero_bounds zero_bounds (negb (size =? 1)) 0 size ∅ 2.0 2 0 [].

(** The extrema a rank without particles contributes to the reduction. *)
Definition empty_rank_bounds : Bounds :=
  mkBounds 1e20 1e20 1e20 (-1e20) (-1e20) (-1e20) (-1e20).

(** The rows of array [k] held by each cell of a map. *)
Definition rows_of (k : nat) (cells : gmap cIntPoint Cell)
  : gmap cIntPoint (list nat) :=
  (λ c, lindices c !!! k) <$> cells.

Definition scenarioA_rows : gmap cIntPoint (list nat) :=
  {[ cIntPoint_new 0 0 0 := [0; 1]%nat;
     cIntPoint_new 1 0 0 := [2]%nat;
     cIntPoint_new 0 1 0 := [3]%nat ]}.

(** The geometry of a cell as the data model words it: centroid and
    inflated box on all three axes. *)
Definition cell_geometry_3d (c : Cell) : Prop :=
  let k := ((inject_Z (layers c) + 0.5) * c_cell_size c)%Q in
  (px (centroid c) == (inject_Z (ix (_cid c)) + 0.5) * c_cell_size c
   ∧ py (centroid c) == (inject_Z (iy (_cid c)) + 0.5) * c_cell_size c
   ∧ pz (centroid c) == (inject_Z (iz (_cid c)) + 0.5) * c_cell_size c)%Q
  ∧ (px (boxmin c) == px (centroid c) - k
     ∧ py (boxmin c) == py (centroid c) - k
     ∧ pz (boxmin c) == pz (centroid c) - k)%Q
  ∧ (px (boxmax c) == px (centroid c) + k
     ∧ py (boxmax c) == py (centroid c) + k
     ∧ pz (boxmax c) == pz (centroid c) + k)%Q.

(** ** Runs of the serial search *)

(** What a client does with a search object: rebuild the index, ask for the
    neighbours of a row, or (the simulation) replace the particle data the
    object refers to. *)
Inductive call :=
| Update
| GetNearest (src_index dst_index d_idx : nat) (nbrs : list nat)
| Move (f : list ParticleArray → list ParticleArray).

Definition NNPS_set_particles (self : NNPS.t) (ps : list ParticleArray)
  : NNPS.t :=
  NNPS.mk ps (NNPS.narrays self) (NNPS.radius_scale self) (NNPS.dim self)
          (NNPS.domain self) (NNPS.cells self) (NNPS.cell_size self)
          (NNPS.console self).

(** A run returns the final state and the neighbour lists of the queries,
    latest first. *)
Definition run_call (st : NNPS.t * list (list nat)) (c : call)
  : option (NNPS.t * list (list nat)) :=
  match c with
  | Update => s ← NNPS.update st.1; Some (s, st.2)
  | GetNearest src dst d nbrs =>
      r ← NNPS.get_nearest_particles st.1 src dst d nbrs;
      Some (r.1, r.2 :: st.2)
  | Move f => Some (NNPS_set_particles st.1 (f (NNPS.particles st.1)), st.2)
  end.

Definition run (calls : list call) (s : NNPS.t)
  : option (NNPS.t * list (list nat)) :=
  for_each run_call calls (s, []).

(** A search object built with [ghost_layers], then driven by [calls]. *)
Definition NNPS_session (dim : Z) (particles : list ParticleArray)
    (radius_scale : Q) (ghost_layers : Z) (domain : option DomainLimits)
    (calls : list call) : option (NNPS.t * list (list nat)) :=
  s ← NNPS.init dim particles radius_scale ghost_layers domain;
  run calls s.

(** Every cell of the map has the default layer count of [Cell]. *)
Definition default_layers (cells : gmap cIntPoint Cell) : Prop :=
  map_Forall (λ _ c, layers c = Cell_default_layers) cells.

(** ** The neighbour criterion *)

(** The test of the innermost loop of [get_nearest_particles] for source row
    [j]: [xij < hi or xij < hj]. *)
Definition is_neighbor (radius_scale : Q) (s_h : list Q) (xi : cPoint)
    (hi : Q) (mk_xj : nat → cPoint) (j : nat) : bool :=
  distance_lt xi (mk_xj j) hi
  || distance_lt xi (mk_xj j) (radius_scale * (s_h !!! j))%Q.

(** The rows of array [src_index] in the cells of a block, in visiting
    order; a key without cell contributes nothing. *)
Definition block_rows (cells : gmap cIntPoint Cell) (src_index : nat)
    (block : list cIntPoint) : option (list nat) :=
  rows ← mapM (λ cellid,
                 match cells !! cellid with
                 | None => Some []
                 | Some cell => lindices cell !! src_index
                 end) block;
  Some (concat rows).

(** The part of the buffer that holds neighbours, and the invariant of
    the count. *)
Definition written (b : nbr_buffer) : list nat :=
  take (nnbrs b) (nbrs_data b).

Definition buffer_ok (b : nbr_buffer) : Prop :=
  (nnbrs b ≤ length (nbrs_data b))%nat.

(** ** The cell-size rule *)

(** The maximum that [NNPS._compute_cell_size] takes over the wrappers. *)
Definition NNPS_hmax (self : NNPS.t) : Q :=
  foldl NNPS.hmax_step (-1.0)%Q (NNPS.particles self).

(** The rule of the cell size: the product [radius_scale * Mh], unless it is
    below the floor, in which case 1.0 with a warning written to [chan]. *)
Definition cell_size_rule (chan : stream) (radius_scale Mh : Q)
    (before after : list Output) (cell_size : Q) : Prop :=
  (Qltb (radius_scale * Mh) cell_size_floor = false
   ∧ cell_size = (radius_scale * Mh)%Q ∧ after = before)
  ∨ (Qltb (radius_scale * Mh) cell_size_floor = true
     ∧ cell_size = 1.0%Q
     ∧ after = before ++ [(chan, CellSizeTooSmall (radius_scale * Mh))]).

(** A serial search object over one particle of smoothing length zero. *)
Definition degenerate_pa : ParticleArray :=
  mkParticleArray "fluid"
    (list_to_map
       [("x", DoubleArray [0]%Q); ("y", DoubleArray [0]%Q);
        ("z", DoubleArray [0]%Q); ("h", DoubleArray [0]%Q)]).

Definition degenerate_nnps : NNPS.t :=
  NNPS.mk [degenerate_pa] 1 2.0 2 (DomainLimits_default 2) ∅ 0 [].

(** [v] bounds the smoothing lengths of the arrays [ps] from above. *)
Definition bounds_h (ps : list ParticleArray) (v : Q) : Prop :=
  ∀ pa h, pa ∈ ps → h ∈ w_h pa → (h <= v)%Q.

(** The local extrema of a manager: the loop of [_compute_bounds]. *)
Definition PM_local_bounds (self : ParallelManager.t) : Bounds :=
  foldl ParallelManager.bounds_step
        (mkBounds 1e20 1e20 1e20 (-1e20) (-1e20) (-1e20) (-1e20))
        (ParallelManager.particles self).

(** The reduced maximum smoothing length over this rank and the others. *)
Definition PM_Mh (others : list Bounds) (self : ParallelManager.t) : Q :=
  Allreduce Qmax' (b_Mh (PM_local_bounds self)) (b_Mh <$> others).

(** [v] bounds the smoothing lengths of the non-empty arrays of [ps]. *)
Definition bounds_nonempty_h (ps : list ParticleArray) (v : Q) : Prop :=
  ∀ pa h, pa ∈ ps → w_x pa ≠ [] → h ∈ w_h pa → (h <= v)%Q.

(** ** Cell contents *)

(** The cell that row [r] of array [pa] belongs to at [cell_size]. *)
Definition home (pa : ParticleArray) (cell_size : Q) (r : nat) : cIntPoint :=
  find_cell_id (cPoint_new (w_x pa !!! r) (w_y pa !!! r) 0.0) cell_size.

(** The invariant of a cell as the data model words it, for the arrays [ps]
    binned at [cell_size]: the two index lists of every array have one
    length, every listed row lies in the cell, and the global index at a
    position is the [gid] of the row at that position. *)
Definition cell_invariant (ps : list ParticleArray) (cell_size : Q)
    (c : Cell) : Prop :=
  ∀ k pa lind, ps !! k = Some pa → lindices c !! k = Some lind →
    ∃ gind, gindices c !! k = Some gind
            ∧ length lind = length gind
            ∧ ∀ i r, lind !! i = Some r →
                     home pa cell_size r = _cid c
                     ∧ gind !! i = Some (w_gid pa !!! r).

Definition cells_invariant (ps : list ParticleArray) (cell_size : Q)
    (cells : gmap cIntPoint Cell) : Prop :=
  map_Forall (λ cid c, _cid c = cid ∧ cell_invariant ps cell_size c) cells.

(** What the serial search keeps of it: every listed row lies in the cell,
    and the lists of global indices stay empty. *)
Definition cell_rows_invariant (ps : list ParticleArray) (cell_size : Q)
    (c : Cell) : Prop :=
  ∀ k pa lind, ps !! k = Some pa → lindices c !! k = Some lind →
    gindices c !! k = Some []
    ∧ ∀ r, r ∈ lind → home pa cell_size r = _cid c.

Definition cells_rows_invariant (ps : list ParticleArray) (cell_size : Q)
    (cells : gmap cIntPoint Cell) : Prop :=
  map_Forall (λ cid c, _cid c = cid ∧ cell_rows_invariant ps cell_size c)
             cells.

(** A manager is well formed when its per-array lists have [narrays]
    entries. *)
Definition PM_wf (s : ParallelManager.t) : Prop :=
  length (ParallelManager.pa_exchanges s) = ParallelManager.narrays s
  ∧ length (ParallelManager.num_local s) = ParallelManager.narrays s
  ∧ length (ParallelManager.num_global s) = ParallelManager.narrays s
  ∧ length (ParallelManager.num_remote s) = ParallelManager.narrays s.

(** The state of a manager that [_bin] and the count updates leave alone. *)
Definition PM_frame (s0 s : ParallelManager.t) : Prop :=
  ParallelManager.pa_exchanges s = ParallelManager.pa_exchanges s0
  ∧ ParallelManager.cell_size s = ParallelManager.cell_size s0
  ∧ ParallelManager.narrays s = ParallelManager.narrays s0
  ∧ length (ParallelManager.num_local s) = length (ParallelManager.num_local s0)
  ∧ length (ParallelManager.num_global s) = length (ParallelManager.num_global s0)
  ∧ length (ParallelManager.num_remote s) = length (ParallelManager.num_remote s0).

(** The rows among [rows] of array [pa] that lie in cell [cid]. *)
Definition rows_at (pa : ParticleArray) (cell_size : Q) (cid : cIntPoint)
    (rows : list nat) : list nat :=
  filter (λ r, home pa cell_size r = cid) rows.

(** The cell map holds the rows [idx k] of every array [k], each in the
    cell it lies in; a key without cell has no such row. *)
Definition binned (ps : list ParticleArray) (cell_size : Q) (narrays : nat)
    (idx : nat → list nat) (cells : gmap cIntPoint Cell) : Prop :=
  ∀ cid k pa, ps !! k = Some pa → (k < narrays)%nat →
    match cells !! cid with
    | Some c => lindices c !! k = Some (rows_at pa cell_size cid (idx k))
    | None => rows_at pa cell_size cid (idx k) = []
    end.

(** All rows of array [k]. *)
Definition all_rows (ps : list ParticleArray) (k : nat) : list nat :=
  match ps !! k with
  | Some pa => seq 0 (get_number_of_particles pa)
  | None => []
  end.

(** The cell map is current: it holds every row of every array. *)
Definition current (ps : list ParticleArray) (cell_size : Q) (narrays : nat)
    (cells : gmap cIntPoint Cell) : Prop :=
  binned ps cell_size narrays (all_rows ps) cells.

(** The cell size covers the kernel radius of every row: no scaled
    smoothing length exceeds it, and it is positive. *)
Definition covers (ps : list ParticleArray) (radius_scale cell_size : Q)
  : Prop :=
  (0 < cell_size)%Q
  ∧ ∀ pa h, pa ∈ ps → h ∈ w_h pa → (radius_scale * h <= cell_size)%Q.

(** ** The scenarios as claims *)

(** Scenario B as the spec words it: the query for row 0 returns the set
    {0, 1, 3}. *)
Definition scenarioB_claim (out : list nat) : Prop :=
  ∀ j, j ∈ out ↔ j ∈ [0; 1; 3]%nat.

(** Two particles 0.7 apart with smoothing lengths 0.1 and 0.5, searched
    with the default radius scale 2. *)
Definition two_pa : ParticleArray :=
  mkParticleArray "fluid"
    (list_to_map
       [("x", DoubleArray [0; 0.7]%Q); ("y", DoubleArray [0; 0]%Q);
        ("z", DoubleArray [0; 0]%Q); ("h", DoubleArray [0.1; 0.5]%Q)]).

Definition two_nnps : option NNPS.t := NNPS.init 2 [two_pa] 2.0 1 None.

(** ** Global ids over a communicator *)

(** The exchange objects of one particle array on the ranks of a
    communicator, in rank order.

    Modelled from the spec: [zoltan_utils.get_num_objects_per_proc] is not
    part of the sources at hand; each rank reports its local count and an
    [Allgather] produces the vector of per-rank counts. *)
Definition get_num_objects_per_proc (world : list ParticleArrayExchange.t)
  : list Z :=
  ParticleArrayExchange.num_local <$> world.

(** [update_particle_gids] on every rank. *)
Definition update_particle_gids_all (world : list ParticleArrayExchange.t)
  : option (list ParticleArrayExchange.t) :=
  mapM (ParticleArrayExchange.update_particle_gids
          (get_num_objects_per_proc world)) world.

Definition has_gid (pa : ParticleArray) : Prop :=
  match get_carray pa "gid" with Some (UIntArray _) => True | _ => False end.

(** The objects from rank [r] on are numbered by their rank, hold a
    non-negative count and a [gid] vector. *)
Fixpoint ranks_from (r : nat) (world : list ParticleArrayExchange.t) : Prop :=
  match world with
  | [] => True
  | e :: w =>
      (ParticleArrayExchange.rank e = Z.of_nat r
       ∧ 0 <= ParticleArrayExchange.num_local e
       ∧ has_gid (ParticleArrayExchange.pa e))
      ∧ ranks_from (S r) w
  end.

(** The gid vectors of all ranks, one after the other in rank order. *)
Definition all_gids (world : list ParticleArrayExchange.t) : list Z :=
  concat ((λ e, w_gid (ParticleArrayExchange.pa e)) <$> world).

(** Two ranks of Scenario C and D, four particles each. *)
Definition four_pa : ParticleArray :=
  mkParticleArray "fluid" (list_to_map [("gid", UIntArray [7; 7; 7; 7])]).

Definition two_ranks : list ParticleArrayExchange.t :=
  [ParticleArrayExchange.mk four_pa 0 2 4 0 0 0 [] [] [] 0 [] [] [] 0 [];
   ParticleArrayExchange.mk four_pa 1 2 4 0 0 0 [] [] [] 0 [] [] [] 0 []].

(** ** Exchanges as claims *)

(** A polymorphic operation on rows, applied to a typed vector. *)
Definition carray_map (f : ∀ A, list A → list A) (a : carray) : carray :=
  match a with
  | DoubleArray d => DoubleArray (f _ d)
  | UIntArray d => UIntArray (f _ d)
  | IntArray d => IntArray (f _ d)
  | LongArray d => LongArray (f _ d)
  end.

(** The first [n] rows of a vector. *)
Definition carray_take (n : nat) : carray → carray :=
  carray_map (λ _, take n).

(** Every vector of the array has [n] rows. *)
Definition uniform_length (pa : ParticleArray) (n : nat) : Prop :=
  map_Forall (λ _ a, carray_length a = n) (pa_props pa).

(** The tag of row [i], when the array has an [int] vector [tag] with such a
    row. *)
Definition tag_of (pa : ParticleArray) (i : nat) : option Z := w_tag pa !! i.

Definition has_tag (pa : ParticleArray) : Prop :=
  match get_carray pa "tag" with Some (IntArray _) => True | _ => False end.

(** An array of two rows with the default load-balancing properties. *)
Definition two_rows_pa : ParticleArray :=
  mkParticleArray "fluid"
    (<["gid" := UIntArray [0; 1]]>
       (<["tag" := IntArray [0; 0]]>
          (list_to_map
             ((λ prop, (prop, DoubleArray [0.25; 0.75]%Q))
                <$> ParticleArrayExchange.default_lb_props)))).

(** Rank 1 of two ranks holds the two rows and imports one row from rank 0. *)
Definition importing_exchange : ParticleArrayExchange.t :=
  ParticleArrayExchange.mk two_rows_pa 1 2 2 0 2 0 [] [] [] 0
    [9] [0%nat] [0] 1 ParticleArrayExchange.default_lb_props.

(** What rank 0 sends: one of its Local rows, with gid 9 and the tag it has
    there. *)
Definition one_row_incoming : Incoming :=
  mkIncoming [(0, 1%nat)]
    (λ _ prop,
       if bool_decide (prop = "gid") then UIntArray [9]
       else if bool_decide (prop = "tag") then IntArray [tag_value Local]
       else DoubleArray [0.5]%Q).

Definition no_junk : Junk := mkJunk (λ _ _, 0%Q) (λ _ _, -1).

(** The three steps of [lb_exchange_data] before the exchange, on one
    vector: removal of the exported rows, resize, reset of the new tags. *)
Definition carray_set_tag (prop : string) (start stop value : Z) (a : carray)
  : carray :=
  match a with
  | IntArray t =>
      if decide (prop = "tag")
      then IntArray (foldl (ParticleArrayExchange.tag_store value) t
                           (zrange start stop))
      else a
  | _ => a
  end.

(** Two vectors of one element kind. *)
Definition same_kind (a b : carray) : Prop :=
  match a, b with
  | DoubleArray _, DoubleArray _ | UIntArray _, UIntArray _
  | IntArray _, IntArray _ | LongArray _, LongArray _ => True
  | _, _ => False
  end.

(** What an exchange that starts writing at row [count] may change of an
    array: no vector changes kind or length, the rows below [count] stay, and
    the vectors of properties that are not exchanged stay whole. *)
Definition exchanged (count : nat) (lbp : list string)
    (p p' : ParticleArray) : Prop :=
  ∀ prop,
    option_Forall2
      (λ a a', same_kind a a'
               ∧ carray_length a' = carray_length a
               ∧ carray_take count a' = carray_take count a
               ∧ (prop ∉ lbp → a' = a))
      (pa_props p !! prop) (pa_props p' !! prop).

(** The rows that arrive fit the vectors of the array [p]: every exchanged
    property exists, and every source delivers, for each of them, as many
    rows as it announced and of the kind of the local vector. *)
Definition kinds_fit (p : ParticleArray) (lbp : list string) (inc : Incoming)
  : Prop :=
  Forall (λ prop, is_Some (get_carray p prop)) lbp
  ∧ Forall (λ src,
       Forall (λ prop,
          ∀ a, get_carray p prop = Some a →
               same_kind a (inbox inc src.1 prop)
               ∧ carray_length (inbox inc src.1 prop) = src.2)
         lbp)
     (recv inc).

Definition incoming_ok (self : ParticleArrayExchange.t) (inc : Incoming)
  : Prop :=
  kinds_fit (ParticleArrayExchange.pa self)
            (ParticleArrayExchange.lb_props self) inc.

(** Two arrays with the same properties, of the same kinds. *)
Definition same_kinds (p p' : ParticleArray) : Prop :=
  ∀ prop, option_Forall2 same_kind (pa_props p !! prop) (pa_props p' !! prop).

(** What [lb_exchange_data] does to one vector before the exchange. *)
Definition lb_prepare_one (junk : Junk) (self : ParticleArrayExchange.t)
    (prop : string) (a : carray) : carray :=
  let newsize :=
    ParticleArrayExchange.num_local self
    - ParticleArrayExchange.numParticleExport self
    + ParticleArrayExchange.numParticleImport self in
  let count :=
    ParticleArrayExchange.num_local self
    - ParticleArrayExchange.numParticleExport self in
  carray_set_tag prop count newsize 0
    (carray_resize junk prop (Z.to_nat newsize)
       (carray_remove (ParticleArrayExchange.exportParticleLocalids self) a)).

(** What [remote_exchange_data] does to one vector before the exchange. *)
Definition remote_prepare_one (junk : Junk) (self : ParticleArrayExchange.t)
    (prop : string) (a : carray) : carray :=
  let newsize :=
    ParticleArrayExchange.num_local self
    + ParticleArrayExchange.numParticleImport self in
  carray_set_tag prop (ParticleArrayExchange.num_local self) newsize 0
    (carray_resize junk prop (Z.to_nat newsize) a).

(** The export and import lists fit an array of [num_local] rows. *)
Definition lists_ok (self : ParticleArrayExchange.t) : Prop :=
  0 <= ParticleArrayExchange.num_local self
  ∧ 0 <= ParticleArrayExchange.numParticleImport self
  ∧ ParticleArrayExchange.numParticleExport self
    = Z.of_nat (length (ParticleArrayExchange.exportParticleLocalids self))
  ∧ NoDup (ParticleArrayExchange.exportParticleLocalids self)
  ∧ Forall (λ i, Z.of_nat i < ParticleArrayExchange.num_local self)
           (ParticleArrayExchange.exportParticleLocalids self)
  ∧ uniform_length (ParticleArrayExchange.pa self)
                   (Z.to_nat (ParticleArrayExchange.num_local self)).

(** Rank 1 of two ranks holds the two rows, exports row 0 to rank 0 and
    imports one row from it. *)
Definition balancing_exchange : ParticleArrayExchange.t :=
  ParticleArrayExchange.mk two_rows_pa 1 2 2 0 2 0 [0] [0%nat] [0] 1
    [9] [0%nat] [0] 1 ParticleArrayExchange.default_lb_props.

(** The serial search object of Scenario A before its first [update]. *)
Definition scenarioA_nnps0 : NNPS.t :=
  NNPS.mk [scenarioA_pa] 1 2.0 2 (DomainLimits_default 2) ∅ 0 [].

(** The cached local counts of a manager are the row counts of its arrays. *)
Definition counts_current (s : ParallelManager.t) : Prop :=
  ∀ k pa, ParallelManager.particles s !! k = Some pa →
          ParallelManager.num_local s !! k
          = Some (Z.of_nat (get_number_of_particles pa)).

(** ** The maximum smoothing length *)

(** [m] is the greatest of the start value [m0] of a scan and of the values
    [vs] it runs over: it bounds them all and is one of them. *)
Definition greatest (m0 : Q) (vs : list Q) (m : Q) : Prop :=
  (m0 <= m)%Q ∧ (∀ v, v ∈ vs → (v <= m)%Q) ∧ (m = m0 ∨ m ∈ vs).

(** The smoothing lengths of all rows of the arrays [ps]. *)
Definition smoothing_lengths (ps : list ParticleArray) : list Q :=
  ps ≫= w_h.

(** The arrays of [ps] that hold a particle. *)
Definition populated (ps : list ParticleArray) : list ParticleArray :=
  filter (λ pa, w_x pa ≠ []) ps.

(** The local extrema that a rank holding the arrays [ps] contributes to
    the reduction: the loop of [_compute_bounds] over its wrappers. *)
Definition rank_bounds (ps : list ParticleArray) : Bounds :=
  foldl ParallelManager.bounds_step
        (mkBounds 1e20 1e20 1e20 (-1e20) (-1e20) (-1e20) (-1e20)) ps.

(** The smoothing lengths of the populated arrays of all ranks, each rank
    given by its arrays. *)
Definition global_smoothing_lengths (ranks : list (list ParticleArray))
  : list Q :=
  ranks ≫= (λ ps, smoothing_lengths (populated ps)).

(** ** Further operations of the box sort and of [Cell] *)

(** The module-level [get_centroid]: the centroid as a [Point]. *)
Definition get_centroid (cell_size : Q) (cid : cIntPoint) : cPoint :=
  let _centroid := _get_centroid cell_size cid in
  _centroid.

(** Item access on a Python list with a C [int] index: an index from [-len]
    to [len - 1] addresses a slot, the negative ones counting from the end;
    any other index raises [IndexError]. *)
Definition py_index {A} (l : list A) (index : Z) : option nat :=
  let n := Z.of_nat (length l) in
  if (0 <=? index) && (index <? n) then Some (Z.to_nat index)
  else if (- n <=? index) && (index <? 0) then Some (Z.to_nat (n + index))
  else None.

(** [l[index] = v] *)
Definition py_setitem {A} (l : list A) (index : Z) (v : A)
  : option (list A) :=
  i ← py_index l index;
  Some (<[i := v]> l).

(** [Cell.set_indices] *)
Definition set_indices (self : Cell) (index : Z) (lind : list nat)
    (gind : list Z) : option Cell :=
  l ← py_setitem (lindices self) index lind;
  g ← py_setitem (gindices self) index gind;
  n ← py_setitem (nparticles self) index (length lind);
  Some (mkCell (_cid self) (c_cell_size self) (c_narrays self) l g n
               (is_boundary self) (centroid self) (layers self)
               (boxmin self) (boxmax self) (nbrprocs self)).

(** [Cell.get_bounding_box]: the box is computed anew, stored in the cell
    together with [layers], and copied out.  [layers] defaults to 1 and
    [cell_size] to the size of the cell. *)
Definition get_bounding_box (self : Cell) (layers : Z) (cell_size : option Q)
  : Cell * cPoint * cPoint :=
  let cell_size :=
    match cell_size with None => c_cell_size self | Some c => c end in
  let self := _compute_bounding_box self cell_size layers in
  (self, boxmin self, boxmax self).


(** ** The serial search: statements *)

(** The messages of [k] extensions of a neighbour buffer of [n] slots. *)
Definition extension_messages (n k : nat) : list Output :=
  (λ m, (Stdout, ExtendingNeighborList (n + 50 * m)%nat)) <$> seq 1 k.


(** Two search objects that differ in the console at most. *)
Definition same_but_console (s t : NNPS.t) : Prop :=
  NNPS.particles s = NNPS.particles t ∧ NNPS.narrays s = NNPS.narrays t
  ∧ NNPS.radius_scale s = NNPS.radius_scale t ∧ NNPS.dim s = NNPS.dim t
  ∧ NNPS.domain s = NNPS.domain t ∧ NNPS.cells s = NNPS.cells t
  ∧ NNPS.cell_size s = NNPS.cell_size t.

(** The state of a buffer of [n0] slots and console [c0] after [k]
    extensions, none of them idle. *)
Definition grown (n0 : nat) (c0 : list Output) (b : nbr_buffer) (k : nat)
  : Prop :=
  length (nbrs_data b) = (n0 + 50 * k)%nat
  ∧ buf_console b = c0 ++ extension_messages n0 k
  ∧ (nnbrs b ≤ length (nbrs_data b))%nat
  ∧ (k = 0%nat ∨ n0 + 50 * (k - 1) < nnbrs b)%nat.


(** Row [r] of array [k] is listed in the cell under the key [cid]. *)
Definition listed (cells : gmap cIntPoint Cell) (k r : nat) (cid : cIntPoint)
  : Prop :=
  ∃ c rows, cells !! cid = Some c ∧ lindices c !! k = Some rows ∧ r ∈ rows.

(** A cell that lists a row of some array. *)
Definition occupied (c : Cell) : Prop :=
  ∃ k rows, lindices c !! k = Some rows ∧ rows ≠ [].

(** What binning leaves of a cell for [narrays] arrays besides its rows:
    one list per array, at least one row, and the particle counts of the
    constructor. *)
Definition binned_cell (narrays : nat) (c : Cell) : Prop :=
  length (lindices c) = narrays ∧ occupied c
  ∧ nparticles c = replicate narrays 0%nat.


(** One particle at (5.5, 5.5), away from the particles of Scenario A. *)
Definition far_pa : ParticleArray :=
  mkParticleArray "fluid"
    (list_to_map
       [("x", DoubleArray [5.5]%Q); ("y", DoubleArray [5.5]%Q);
        ("z", DoubleArray [0]%Q); ("h", DoubleArray [0.5]%Q)]).
(** ** Further operations of [ParticleArrayExchange] *)

(** The segment of a row in an aligned array: Local, Remote, Ghost, and
    last any other tag value. *)
Definition tag_class (t : Z) : nat :=
  if t =? tag_value Local then 0
  else if t =? tag_value Remote then 1
  else if t =? tag_value Ghost then 2
  else 3.

(** The rows of an array in aligned order. *)
Definition align_order (tag : list Z) : list nat :=
  c ← [0; 1; 2; 3]%nat;
  filter (λ i, tag_class <$> tag !! i = Some c) (seq 0 (length tag)).

(** The rows [order] of a vector, in this order. *)
Definition reorder {A} (order : list nat) (d : list A) : list A :=
  omap (λ i, d !! i) order.

(** Modelled from the spec: [align_particles()] is a stable partition of the
    rows into the segments Local, Remote and Ghost by the [tag] property. *)
Definition align_particles (pa : ParticleArray) : ParticleArray :=
  match get_carray pa "tag" with
  | Some (IntArray tag) =>
      mkParticleArray (pa_name pa)
        (carray_map (λ _, reorder (align_order tag)) <$> pa_props pa)
  | _ => pa
  end.

Module Exchange.

(** [ParticleArrayExchange.remove_remote_particles] *)
Definition remove_remote_particles (junk : Junk)
    (self : ParticleArrayExchange.t) : ParticleArrayExchange.t :=
  let num_local := ParticleArrayExchange.num_local self in
  let self :=
    ParticleArrayExchange.set_pa self
      (pa_resize junk (Z.to_nat num_local) (ParticleArrayExchange.pa self)) in
  let self :=
    ParticleArrayExchange.set_pa self
      (align_particles (ParticleArrayExchange.pa self)) in
  ParticleArrayExchange.set_num_remote self 0.

End Exchange.

(** The first [n] rows of the array are tagged Local. *)
Definition local_rows (pa : ParticleArray) (n : nat) : Prop :=
  ∀ i, (i < n)%nat → tag_of pa i = Some (tag_value Local).

(** The sources of an exchange on [rank] in the order of reception: those
    of lower rank, then those of higher rank, both in the order of the keys
    of [recv]. *)
Definition reception_order (rank : Z) (recv : list (Z * nat))
  : list (Z * nat) :=
  filter (λ s, s.1 < rank) recv ++ filter (λ s, rank < s.1) recv.

(** The write cursor of an exchange that starts at [count] when it turns to
    the [k]-th source. *)
Definition cursor_at (count : nat) (srcs : list (Z * nat)) (k : nat) : nat :=
  count + sum_list (snd <$> take k srcs).

(** The [n] rows of a vector from row [off] on. *)
Definition carray_slice (off n : nat) : carray → carray :=
  carray_map (λ _ d, take n (drop off d)).

(** ** The two passes of the manager over its cell map *)

(** The rows of array [k] that its exchange object counts as local, and the
    rows it counts as remote: the remote rows follow the local ones. *)
Definition local_range (s : ParallelManager.t) (k : nat) : list nat :=
  match ParallelManager.pa_exchanges s !! k with
  | Some e => seq 0 (Z.to_nat (ParticleArrayExchange.num_local e))
  | None => []
  end.

Definition remote_range (s : ParallelManager.t) (k : nat) : list nat :=
  match ParallelManager.pa_exchanges s !! k with
  | Some e => seq (Z.to_nat (ParticleArrayExchange.num_local e))
                  (Z.to_nat (ParticleArrayExchange.num_remote e))
  | None => []
  end.

(** The counts of the exchange objects are not negative and account for
    every row of their arrays. *)
Definition exchange_counts_ok (s : ParallelManager.t) : Prop :=
  ∀ k e, ParallelManager.pa_exchanges s !! k = Some e →
    0 <= ParticleArrayExchange.num_local e
    ∧ 0 <= ParticleArrayExchange.num_remote e
    ∧ Z.to_nat (ParticleArrayExchange.num_local e
                + ParticleArrayExchange.num_remote e)
      = get_number_of_particles (ParticleArrayExchange.pa e).

(** Rank 0 of two with the array of Scenario A, of which the exchange
    object counts three rows as local and the last one as remote. *)
Definition halo_exchange : ParticleArrayExchange.t :=
  ParticleArrayExchange.mk scenarioA_pa 0 2 3 1 0 0 [] [] [] 0 [] [] [] 0
    ParticleArrayExchange.default_lb_props.

Definition halo_pm : ParallelManager.t :=
  ParallelManager.mk 1 [halo_exchange] [4] [0] [0]
    zero_bounds zero_bounds true 0 2 ∅ 2.0 2 1 [].
(** ** The Zoltan manager, [parallel_manager.pyx] *)

(** Modelled from the spec: the partitioner adapter [PyZoltan] holds the
    export lists [(exportLocalIds, exportGlobalIds, exportProcs, numExport)]
    and their import counterparts. *)
Record PyZoltan := mkPyZoltan {
  numExport : Z;
  exportGlobalids : list Z;
  exportLocalids : list nat;
  exportProcs : list Z;
  numImport : Z;
  importGlobalids : list Z;
  importLocalids : list nat;
  importProcs : list Z
}.

(** Modelled from the spec: the operations of the adapter that the manager
    calls.  [Zoltan_LB_Box_PP_Assign] fills the buffer [procs] with the
    ranks whose sub-domain intersects the query box, [-1] marking the unused
    slots; the buffer after the call is its result here.
    [Zoltan_Invert_Lists], given one side of a transfer, returns the
    other. *)
Class Zoltan := {
  reset_Zoltan_lists : PyZoltan → PyZoltan;
  Zoltan_LB_Box_PP_Assign : cPoint → cPoint → list Z;
  Zoltan_Invert_Lists : PyZoltan → PyZoltan
}.

(** The order in which a dictionary of cells is iterated; [keys()],
    [values()] and the iteration of the dictionary itself follow it. *)
Class DictOrder := {
  dict_items : gmap cIntPoint Cell → list (cIntPoint * Cell)
}.

(** [dst.resize(n)] followed by [dst.copy_subset(src)] leaves a copy of
    [src] when [src] has [n] rows; the model has no result for a source of
    another length. *)
Definition resize_copy {A} (n : Z) (src : list A) : option (list A) :=
  if Z.of_nat (length src) =? n then Some src else None.

(** The three export lists under construction and the count of rows. *)
Record ExportLists := mkExportLists {
  _exportLocalids : list nat;
  _exportGlobalids : list Z;
  _exportProcs : list Z;
  _numExport : Z
}.

Module ZoltanParallelManager.

Record t := mk {
  manager : ParallelManager.t;
  pz : PyZoltan;
  exportCellGlobalids : list Z;
  exportCellLocalids : list nat;
  exportCellProcs : list Z;
  numCellExport : Z;
  importCellGlobalids : list Z;
  importCellLocalids : list nat;
  importCellProcs : list Z;
  numCellImport : Z
}.

(** The manager with another cell map and another [pa_index]-th exchange
    object. *)
Definition set_manager (m : ParallelManager.t) (cells : gmap cIntPoint Cell)
    (pa_index : nat) (pa_exchange : ParticleArrayExchange.t)
  : ParallelManager.t :=
  ParallelManager.mk (ParallelManager.narrays m)
    (<[pa_index := pa_exchange]> (ParallelManager.pa_exchanges m))
    (ParallelManager.num_local m) (ParallelManager.num_global m)
    (ParallelManager.num_remote m) (ParallelManager.local_bounds m)
    (ParallelManager.global_bounds m) (ParallelManager.in_parallel m)
    (ParallelManager.rank m) (ParallelManager.size m) cells
    (ParallelManager.radius_scale m) (ParallelManager.ghost_layers m)
    (ParallelManager.cell_size m) (ParallelManager.console m).

(** The copy of the lists of the adapter to the lists of the exchange
    object, with which both functions end. *)
Definition copy_lists (pz : PyZoltan) (e : ParticleArrayExchange.t)
  : option ParticleArrayExchange.t :=
  eg ← resize_copy (numExport pz) (exportGlobalids pz);
  el ← resize_copy (numExport pz) (exportLocalids pz);
  ep ← resize_copy (numExport pz) (exportProcs pz);
  ig ← resize_copy (numImport pz) (importGlobalids pz);
  il ← resize_copy (numImport pz) (importLocalids pz);
  ip ← resize_copy (numImport pz) (importProcs pz);
  Some (ParticleArrayExchange.mk
          (ParticleArrayExchange.pa e) (ParticleArrayExchange.rank e)
          (ParticleArrayExchange.size e) (ParticleArrayExchange.num_local e)
          (ParticleArrayExchange.num_remote e)
          (ParticleArrayExchange.num_global e)
          (ParticleArrayExchange.num_ghost e)
          eg el ep (numExport pz) ig il ip (numImport pz)
          (ParticleArrayExchange.lb_props e)).

(** One turn of the inner loop of [create_particle_lists]. *)
Definition export_row (lindices : list nat) (gindices : list Z)
    (export_proc : Z) (l : ExportLists) (j : nat) : ExportLists :=
  mkExportLists (_exportLocalids l ++ [lindices !!! j])
                (_exportGlobalids l ++ [gindices !!! j])
                (_exportProcs l ++ [export_proc])
                (_numExport l + 1).

(** One turn of the loop of [create_particle_lists] over the cell export
    list: the rows of the cell are listed for export and the cell is popped
    from the map; [pop] raises for a key that is not in the map. *)
Definition export_cell (pa_index : nat) (cellids : list cIntPoint)
    (cells : list Cell) (exportCellLocalids : list nat)
    (exportCellProcs : list Z)
    (st : gmap cIntPoint Cell * ExportLists) (indexi : nat)
  : option (gmap cIntPoint Cell * ExportLists) :=
  let '(cell_map, l) := st in
  let i := exportCellLocalids !!! indexi in
  cell ← cells !! i;
  let export_proc := exportCellProcs !!! indexi in
  lindices ← lindices cell !! pa_index;
  gindices ← gindices cell !! pa_index;
  let nindices := length lindices in
  let l := foldl (export_row lindices gindices export_proc) l
                 (seq 0 nindices) in
  cellid ← cellids !! i;
  _ ← cell_map !! cellid;
  Some (delete cellid cell_map, l).

(** [create_particle_lists]; [pa_index] counts from 0, as [update] passes
    it. *)
Definition create_particle_lists `{Zoltan} `{DictOrder} (pa_index : nat)
    (self : t) : option t :=
  let pz := pz self in
  let cell_map := ParallelManager.cells (manager self) in
  let cellids := (dict_items cell_map).*1 in
  let cells := (dict_items cell_map).*2 in
  pa_exchange ← ParallelManager.pa_exchanges (manager self) !! pa_index;
  '(cell_map, l) ←
    for_each (export_cell pa_index cellids cells (exportCellLocalids self)
                          (exportCellProcs self))
             (seq 0 (Z.to_nat (numCellExport self)))
             (cell_map, mkExportLists [] [] [] 0);
  el ← resize_copy (_numExport l) (_exportLocalids l);
  eg ← resize_copy (_numExport l) (_exportGlobalids l);
  ep ← resize_copy (_numExport l) (_exportProcs l);
  let pz := mkPyZoltan (_numExport l) eg el ep (numImport pz)
                       (importGlobalids pz) (importLocalids pz)
                       (importProcs pz) in
  let pz := Zoltan_Invert_Lists pz in
  pa_exchange ← copy_lists pz pa_exchange;
  Some (mk (set_manager (manager self) cell_map pa_index pa_exchange) pz
           (exportCellGlobalids self) (exportCellLocalids self)
           (exportCellProcs self) (numCellExport self)
           (importCellGlobalids self) (importCellLocalids self)
           (importCellProcs self) (numCellImport self)).

(** One turn of the inner loop of [compute_remote_particles]. *)
Definition export_remote_row (lindices : list nat) (gindices : list Z)
    (nbrproc : Z) (pz : PyZoltan) (indexi : nat) : PyZoltan :=
  let i := lindices !!! indexi in
  mkPyZoltan (numExport pz)
             (exportGlobalids pz ++ [gindices !!! indexi])
             (exportLocalids pz ++ [i])
             (exportProcs pz ++ [nbrproc])
             (numImport pz) (importGlobalids pz) (importLocalids pz)
             (importProcs pz).

(** The ranks of the buffer other than [-1] and the rank itself. *)
Definition neighbour_procs (rank : Z) (procs : list Z) : list Z :=
  filter (λ p, p ≠ -1 ∧ p ≠ rank) procs.

(** [cell.is_boundary = True] and the new content of [cell.nbrprocs]. *)
Definition set_boundary (cell : Cell) (nbrprocs : list Z) : Cell :=
  mkCell (_cid cell) (c_cell_size cell) (c_narrays cell) (lindices cell)
         (gindices cell) (nparticles cell) true (centroid cell) (layers cell)
         (boxmin cell) (boxmax cell) nbrprocs.

(** One turn of the loop of [compute_remote_particles] over the cells. *)
Definition remote_cell `{Zoltan} (rank : Z) (pa_index : nat)
    (st : gmap cIntPoint Cell * PyZoltan) (cid : cIntPoint)
  : option (gmap cIntPoint Cell * PyZoltan) :=
  let '(cells, pz) := st in
  cell ← cells !! cid;
  let procs := Zoltan_LB_Box_PP_Assign (boxmin cell) (boxmax cell) in
  let nbrprocs := neighbour_procs rank procs in
  if (0 <? length nbrprocs)%nat then
    lindices ← lindices cell !! pa_index;
    gindices ← gindices cell !! pa_index;
    let cell := set_boundary cell nbrprocs in
    let num_particles := length lindices in
    let pz :=
      foldl (λ pz nbrproc,
               foldl (export_remote_row lindices gindices nbrproc) pz
                     (seq 0 num_particles))
            pz nbrprocs in
    Some (<[cid := cell]> cells, pz)
  else Some (cells, pz).

(** [compute_remote_particles]; [pa_index] counts from 0, as [update]
    passes it. *)
Definition compute_remote_particles `{Zoltan} `{DictOrder} (pa_index : nat)
    (self : t) : option t :=
  let pz := pz self in
  let rank := ParallelManager.rank (manager self) in
  let cells := ParallelManager.cells (manager self) in
  pa_exchange ← ParallelManager.pa_exchanges (manager self) !! pa_index;
  let pz := reset_Zoltan_lists pz in
  '(cells, pz) ←
    for_each (remote_cell rank pa_index) (dict_items cells).*1 (cells, pz);
  let pz := mkPyZoltan (Z.of_nat (length (exportProcs pz)))
                       (exportGlobalids pz) (exportLocalids pz)
                       (exportProcs pz) 0 (importGlobalids pz)
                       (importLocalids pz) (importProcs pz) in
  let pz := Zoltan_Invert_Lists pz in
  pa_exchange ← copy_lists pz pa_exchange;
  Some (mk (set_manager (manager self) cells pa_index pa_exchange) pz
           (exportCellGlobalids self) (exportCellLocalids self)
           (exportCellProcs self) (numCellExport self)
           (importCellGlobalids self) (importCellLocalids self)
           (importCellProcs self) (numCellImport self)).

End ZoltanParallelManager.

(** What the manager relies on: [reset_Zoltan_lists] empties the export
    lists, and [Zoltan_Invert_Lists] keeps the export side and returns
    import lists of [numImport] rows each. *)
Definition Zoltan_ok `{Zoltan} : Prop :=
  (∀ pz, exportGlobalids (reset_Zoltan_lists pz) = []
         ∧ exportLocalids (reset_Zoltan_lists pz) = []
         ∧ exportProcs (reset_Zoltan_lists pz) = [])
  ∧ ∀ pz, let pz' := Zoltan_Invert_Lists pz in
          numExport pz' = numExport pz
          ∧ exportGlobalids pz' = exportGlobalids pz
          ∧ exportLocalids pz' = exportLocalids pz
          ∧ exportProcs pz' = exportProcs pz
          ∧ numImport pz' = Z.of_nat (length (importGlobalids pz'))
          ∧ numImport pz' = Z.of_nat (length (importLocalids pz'))
          ∧ numImport pz' = Z.of_nat (length (importProcs pz')).

(** The iteration of a dictionary visits every item once. *)
Definition DictOrder_ok `{DictOrder} : Prop :=
  ∀ m, dict_items m ≡ₚ map_to_list m.

(** Export entries: global id, local id and destination of a row. *)
Definition ExportEntry : Type := Z * nat * Z.

Definition entry_gid (t : ExportEntry) : Z := t.1.1.
Definition entry_lid (t : ExportEntry) : nat := t.1.2.
Definition entry_proc (t : ExportEntry) : Z := t.2.

(** The adapter with the entries [T] appended to its export lists. *)
Definition add_exports (pz : PyZoltan) (T : list ExportEntry) : PyZoltan :=
  mkPyZoltan (numExport pz)
             (exportGlobalids pz ++ (entry_gid <$> T))
             (exportLocalids pz ++ (entry_lid <$> T))
             (exportProcs pz ++ (entry_proc <$> T))
             (numImport pz) (importGlobalids pz) (importLocalids pz)
             (importProcs pz).

(** The entries of the rows of array [pa_index] in a cell, for the
    destination [p]. *)
Definition cell_exports (pa_index : nat) (c : Cell) (p : Z)
  : list ExportEntry :=
  match lindices c !! pa_index, gindices c !! pa_index with
  | Some l, Some g => (λ j, (g !!! j, l !!! j, p)) <$> seq 0 (length l)
  | _, _ => []
  end.

(** The ranks other than [rank] whose sub-domain meets the box of a cell. *)
Definition cell_nbrprocs `{Zoltan} (rank : Z) (c : Cell) : list Z :=
  ZoltanParallelManager.neighbour_procs rank
    (Zoltan_LB_Box_PP_Assign (boxmin c) (boxmax c)).

(** The entries of a cell for all its neighbour ranks. *)
Definition remote_cell_exports `{Zoltan} (rank : Z) (pa_index : nat)
    (c : Cell) : list ExportEntry :=
  p ← cell_nbrprocs rank c; cell_exports pa_index c p.

(** A cell with a neighbour rank is flagged as boundary cell and records the
    ranks; any other cell stays as it is. *)
Definition mark_boundary `{Zoltan} (rank : Z) (c : Cell) : Cell :=
  if (0 <? length (cell_nbrprocs rank c))%nat
  then ZoltanParallelManager.set_boundary c (cell_nbrprocs rank c)
  else c.

(** Every cell has the two index lists of array [pa_index], of one
    length. *)
Definition cell_lists (pa_index : nat) (cells : gmap cIntPoint Cell) : Prop :=
  map_Forall (λ _ c, ∃ l g, lindices c !! pa_index = Some l
                            ∧ gindices c !! pa_index = Some g
                            ∧ length l = length g) cells.

(** The entries that [compute_remote_particles] lists, in the order of the
    iteration over the cells. *)
Definition remote_exports `{Zoltan} `{DictOrder} (rank : Z) (pa_index : nat)
    (cells : gmap cIntPoint Cell) : list ExportEntry :=
  item ← dict_items cells; remote_cell_exports rank pa_index item.2.

(** The export lists with the entries [T] appended and counted. *)
Definition add_entries (l : ExportLists) (T : list ExportEntry)
  : ExportLists :=
  mkExportLists (_exportLocalids l ++ (entry_lid <$> T))
                (_exportGlobalids l ++ (entry_gid <$> T))
                (_exportProcs l ++ (entry_proc <$> T))
                (_numExport l + Z.of_nat (length T)).

(** The keys of the cells that the cell export list names by their
    position in the iteration of the dictionary. *)
Definition exported_cellids (items : list (cIntPoint * Cell))
    (exportCellLocalids : list nat) : list cIntPoint :=
  omap (λ i, items.*1 !! i) exportCellLocalids.

(** The entries of the [k]-th cell of the cell export list. *)
Definition cell_export_at (pa_index : nat) (items : list (cIntPoint * Cell))
    (exportCellLocalids : list nat) (exportCellProcs : list Z) (k : nat)
  : list ExportEntry :=
  match exportCellLocalids !! k, exportCellProcs !! k with
  | Some i, Some p =>
      match items !! i with
      | Some item => cell_exports pa_index item.2 p
      | None => []
      end
  | _, _ => []
  end.

(** The entries that [create_particle_lists] lists, in the order of the cell
    export list. *)
Definition balance_exports `{DictOrder} (pa_index : nat)
    (self : ZoltanParallelManager.t) : list ExportEntry :=
  let items :=
    dict_items (ParallelManager.cells (ZoltanParallelManager.manager self)) in
  k ← seq 0 (Z.to_nat (ZoltanParallelManager.numCellExport self));
  cell_export_at pa_index items
    (ZoltanParallelManager.exportCellLocalids self)
    (ZoltanParallelManager.exportCellProcs self) k.

(** The cell export list names cells of the map, each at most once, and
    gives a destination for each. *)
Definition cell_exports_ok `{DictOrder} (self : ZoltanParallelManager.t)
  : Prop :=
  ZoltanParallelManager.numCellExport self
  = Z.of_nat (length (ZoltanParallelManager.exportCellLocalids self))
  ∧ length (ZoltanParallelManager.exportCellProcs self)
    = length (ZoltanParallelManager.exportCellLocalids self)
  ∧ NoDup (ZoltanParallelManager.exportCellLocalids self)
  ∧ ∀ i, i ∈ ZoltanParallelManager.exportCellLocalids self →
         (i < size (ParallelManager.cells
                      (ZoltanParallelManager.manager self)))%nat.

(** Rank 0 of two ranks, of which rank 1 holds the half-plane from
    [x = 3.5] on; the adapter has nothing to import. *)
Definition two_rank_zoltan : Zoltan := {|
  reset_Zoltan_lists pz :=
    mkPyZoltan (numExport pz) [] [] [] (numImport pz) [] [] [];
  Zoltan_LB_Box_PP_Assign bmin bmax :=
    if Qle_bool 3.5 (px bmax) then [0; 1] else [0; -1];
  Zoltan_Invert_Lists pz :=
    mkPyZoltan (numExport pz) (exportGlobalids pz) (exportLocalids pz)
               (exportProcs pz) 0 [] [] []
|}.

(** The iteration in the order of the keys of the map. *)
Definition key_order : DictOrder := {| dict_items := map_to_list |}.

(** A Zoltan manager over the manager [s] with the cell export list
    [(ecl, ecp)]. *)
Definition zoltan_manager (s : ParallelManager.t) (ecl : list nat)
    (ecp : list Z) : ZoltanParallelManager.t :=
  ZoltanParallelManager.mk s (mkPyZoltan 0 [] [] [] 0 [] [] [])
    [] ecl ecp (Z.of_nat (length ecl)) [] [] [] 0.
(** ** Further operations of the manager *)

Module Manager.

(** [ParallelManager.remove_remote_particles]: every exchange object drops
    its remote rows, and the counts of the manager follow. *)
Definition remove_remote_particles (junk : Junk) (self : ParallelManager.t)
  : option ParallelManager.t :=
  for_each
    (λ self i,
       pa_exchange ← ParallelManager.pa_exchanges self !! i;
       let pa_exchange := Exchange.remove_remote_particles junk pa_exchange in
       if bool_decide (i < length (ParallelManager.num_local self)
                       ∧ i < length (ParallelManager.num_remote self))%nat
       then
         Some (ParallelManager.mk (ParallelManager.narrays self)
                 (<[i := pa_exchange]> (ParallelManager.pa_exchanges self))
                 (<[i := ParticleArrayExchange.num_local pa_exchange]>
                    (ParallelManager.num_local self))
                 (ParallelManager.num_global self)
                 (<[i := ParticleArrayExchange.num_remote pa_exchange]>
                    (ParallelManager.num_remote self))
                 (ParallelManager.local_bounds self)
                 (ParallelManager.global_bounds self)
                 (ParallelManager.in_parallel self)
                 (ParallelManager.rank self) (ParallelManager.size self)
                 (ParallelManager.cells self)
                 (ParallelManager.radius_scale self)
                 (ParallelManager.ghost_layers self)
                 (ParallelManager.cell_size self)
                 (ParallelManager.console self))
       else None)
    (seq 0 (ParallelManager.narrays self)) self.

End Manager.

(** The local rows of an exchange object are in place: its local count is
    not negative, every vector has at least that many rows, the first of
    them tagged Local, and the array has a vector of coordinates [x]. *)
Definition local_rows_in_place (e : ParticleArrayExchange.t) : Prop :=
  0 <= ParticleArrayExchange.num_local e
  ∧ map_Forall (λ _ a, (Z.to_nat (ParticleArrayExchange.num_local e)
                        ≤ carray_length a)%nat)
               (pa_props (ParticleArrayExchange.pa e))
  ∧ local_rows (ParticleArrayExchange.pa e)
               (Z.to_nat (ParticleArrayExchange.num_local e))
  ∧ ∃ d, get_carray (ParticleArrayExchange.pa e) "x" = Some (DoubleArray d).

(** * Properties *)

(** ** Comparison of doubles *)

Lemma Qltb_lt a b : Qltb a b = true ↔ (a < b)%Q.
Proof.
  unfold Qltb. rewrite Qlt_alt. destruct (a ?= b)%Q; split; congruence.
Qed.

Lemma Qltb_ge a b : Qltb a b = false ↔ (b <= a)%Q.
Proof.
  rewrite <- not_true_iff_false, Qltb_lt. split.
  - apply Qnot_lt_le.
  - intros H1 H2. exact (Qlt_not_le _ _ H2 H1).
Qed.


(** ** Cell geometry *)

(** C9, as stated, fails: the cell with index (0,0,0), size 1 and two layers
    has a centroid whose third coordinate is 0 and not 0.5. *)
Lemma cell_geometry_3d_fails :
  ¬ cell_geometry_3d (Cell_init (cIntPoint_new 0 0 0) 1 1 2).
Proof.
  intros [(_ & _ & Hz) _]. vm_compute in Hz. discriminate Hz.
Qed.

(** C9, amended: for every cell built by the constructor the centroid is
    [(cid + 0.5) * cell_size] on the x and y axes and the box is the centroid
    minus and plus [(layers + 0.5) * cell_size] on the x and y axes; the third
    coordinate of the centroid and of both box corners is zero. *)
Theorem cell_geometry_2d (cid : cIntPoint) (cell_size : Q) (narrays : nat)
    (nlayers : Z) :
  let c := Cell_init cid cell_size narrays nlayers in
  let k := ((inject_Z nlayers + 0.5) * cell_size)%Q in
  _cid c = cid ∧ c_cell_size c = cell_size ∧ layers c = nlayers
  ∧ centroid c = _get_centroid cell_size cid
  ∧ px (centroid c) = ((inject_Z (ix cid) + 0.5) * cell_size)%Q
  ∧ py (centroid c) = ((inject_Z (iy cid) + 0.5) * cell_size)%Q
  ∧ pz (centroid c) = 0%Q
  ∧ boxmin c = cPoint_new (px (centroid c) - k) (py (centroid c) - k) 0
  ∧ boxmax c = cPoint_new (px (centroid c) + k) (py (centroid c) + k) 0.
Proof. cbv zeta. repeat split. Qed.

(** ** The serial search does not depend on [ghost_layers] *)

Lemma for_each_inv {A S : Type} (P : S → Prop) (body : S → A → option S)
    (l : list A) (s s' : S) :
  (∀ s a s', a ∈ l → P s → body s a = Some s' → P s') →
  P s → for_each body l s = Some s' → P s'.
Proof.
  revert s. induction l as [|a l IH]; simpl; intros s Hstep Hs Hrun.
  - by simplify_eq.
  - destruct (body s a) as [s1|] eqn:Hb; simplify_eq/=.
    eapply IH; [| |done].
    + intros ??? Hin. apply Hstep. by right.
    + eapply Hstep; [by left|done..].
Qed.

Lemma foldl_inv {A B : Type} (P : B → Prop) (f : B → A → B) (l : list A)
    (b : B) :
  (∀ b a, a ∈ l → P b → P (f b a)) → P b → P (foldl f b l).
Proof.
  revert b. induction l as [|a l IH]; simpl; intros b Hstep Hb; [done|].
  apply IH.
  - intros ??? ?. apply Hstep; [by right|done].
  - apply Hstep; [by left|done].
Qed.

Lemma NNPS_bin_row_layers pa_index x y cs n cells i :
  default_layers cells →
  default_layers (NNPS.bin_row pa_index x y cs n cells i).
Proof.
  intros Hc. unfold NNPS.bin_row, default_layers.
  set (cid := find_cell_id _ _).
  apply map_Forall_lookup. intros k c.
  destruct (decide (k = cid)) as [->|Hne].
  - rewrite lookup_alter_eq.
    destruct (cells !! cid) as [c0|] eqn:Hl.
    + rewrite Hl. intros [= <-]. simpl. by eapply (Hc cid).
    + rewrite lookup_insert_eq. by intros [= <-].
  - rewrite lookup_alter_ne by done.
    destruct (cells !! cid) eqn:Hl.
    + apply Hc.
    + rewrite lookup_insert_ne by done. apply Hc.
Qed.

Lemma NNPS_bin_layers s k ind s' :
  default_layers (NNPS.cells s) → NNPS._bin s k ind = Some s' →
  default_layers (NNPS.cells s').
Proof.
  unfold NNPS._bin. intros Hs Hb.
  destruct (NNPS.particles s !! k); simplify_eq/=.
  apply foldl_inv; [|done]. intros. by apply NNPS_bin_row_layers.
Qed.

Lemma NNPS_update_layers s s' :
  NNPS.update s = Some s' → default_layers (NNPS.cells s').
Proof.
  unfold NNPS.update.
  apply (for_each_inv (λ s, default_layers (NNPS.cells s))).
  - intros s1 i s2 _ Hs1 Hb.
    destruct (NNPS.particles s1 !! i); simplify_eq/=.
    by eapply NNPS_bin_layers.
  - unfold NNPS._compute_cell_size. simpl.
    destruct (Qltb _ _); simpl; apply map_Forall_empty.
Qed.

Lemma NNPS_query_cells s a b c d r :
  NNPS.get_nearest_particles s a b c d = Some r →
  NNPS.cells r.1 = NNPS.cells s.
Proof.
  unfold NNPS.get_nearest_particles. intros H.
  apply bind_Some in H as (src & _ & H).
  apply bind_Some in H as (dst & _ & H).
  apply bind_Some in H as (buf & _ & H).
  by simplify_eq.
Qed.

Lemma run_layers calls s r :
  default_layers (NNPS.cells s) → run calls s = Some r →
  default_layers (NNPS.cells r.1).
Proof.
  unfold run. intros Hs.
  apply (for_each_inv (λ st, default_layers (NNPS.cells st.1))); [|done].
  intros st c st' _ Hst Hc. destruct c; simpl in Hc.
  - destruct (NNPS.update st.1) eqn:Hu; simplify_eq/=.
    by eapply NNPS_update_layers.
  - destruct (NNPS.get_nearest_particles _ _ _ _ _) eqn:Hq; simplify_eq/=.
    by rewrite (NNPS_query_cells _ _ _ _ _ _ Hq).
  - by simplify_eq/=.
Qed.

Lemma NNPS_bin_particles s k ind s' :
  NNPS._bin s k ind = Some s' →
  NNPS.particles s' = NNPS.particles s ∧ NNPS.narrays s' = NNPS.narrays s
  ∧ NNPS.cell_size s' = NNPS.cell_size s
  ∧ NNPS.radius_scale s' = NNPS.radius_scale s
  ∧ NNPS.console s' = NNPS.console s.
Proof.
  unfold NNPS._bin. intros Hb.
  destruct (NNPS.particles s !! k); by simplify_eq/=.
Qed.

Lemma NNPS_bin_Some s k ind pa :
  NNPS.particles s !! k = Some pa →
  NNPS._bin s k ind
  = Some (NNPS.set_cells s
            (foldl (NNPS.bin_row k (w_x pa) (w_y pa) (NNPS.cell_size s)
                                 (NNPS.narrays s))
                   (NNPS.cells s) ind)).
Proof. unfold NNPS._bin. by intros ->. Qed.

Lemma NNPS_update_loop_total (l : list nat) s0 :
  (∀ i, i ∈ l → (i < length (NNPS.particles s0))%nat) →
  is_Some
    (for_each
       (λ self i,
          pa ← NNPS.particles self !! i;
          NNPS._bin self i
            (arange_uint (Z.of_nat (get_number_of_particles pa)) (-1)))
       l s0).
Proof.
  revert s0. induction l as [|i l IH]; intros s0 Hl.
  - by eexists.
  - simpl. destruct (lookup_lt_is_Some_2 (NNPS.particles s0) i) as [pa Hpa].
    { apply Hl. by left. }
    rewrite Hpa. cbn [mbind option_bind].
    rewrite (NNPS_bin_Some _ _ _ _ Hpa). cbn [mbind option_bind].
    apply IH. intros j Hj. simpl. apply Hl. by right.
Qed.

Lemma NNPS_compute_cell_size_particles s :
  NNPS.particles (NNPS._compute_cell_size s) = NNPS.particles s
  ∧ NNPS.narrays (NNPS._compute_cell_size s) = NNPS.narrays s
  ∧ NNPS.radius_scale (NNPS._compute_cell_size s) = NNPS.radius_scale s
  ∧ NNPS.cells (NNPS._compute_cell_size s) = NNPS.cells s.
Proof. unfold NNPS._compute_cell_size. by destruct (Qltb _ _). Qed.

Lemma NNPS_update_total s :
  (NNPS.narrays s ≤ length (NNPS.particles s))%nat → is_Some (NNPS.update s).
Proof.
  intros Hn. unfold NNPS.update. apply NNPS_update_loop_total.
  destruct (NNPS_compute_cell_size_particles (NNPS.set_cells s ∅))
    as (Hp & Hn' & _).
  rewrite Hp, Hn'. simpl. intros i Hi%elem_of_seq. lia.
Qed.

(** C10: two serial search objects built from the same dimension, particle
    arrays, radius scale and domain but with different [ghost_layers]
    arguments go through every sequence of calls alike: same final state
    (cell map included) and same neighbour lists.  The constructor returns
    an object whatever [ghost_layers] is, and every cell of the map a run
    ends with has the default layer count of [Cell]. *)
Theorem NNPS_ignores_ghost_layers (dim : Z) (particles : list ParticleArray)
    (radius_scale : Q) (domain : option DomainLimits) (gl1 gl2 : Z)
    (calls : list call) :
  NNPS_session dim particles radius_scale gl1 domain calls
  = NNPS_session dim particles radius_scale gl2 domain calls
  ∧ is_Some (NNPS.init dim particles radius_scale gl1 domain)
  ∧ ∀ r, NNPS_session dim particles radius_scale gl1 domain calls = Some r →
         default_layers (NNPS.cells r.1).
Proof.
  split; [reflexivity|]. split.
  { unfold NNPS.init. apply NNPS_update_total. simpl. lia. }
  unfold NNPS_session, NNPS.init. intros r Hr.
  destruct (NNPS.update _) as [s|] eqn:Hu; simplify_eq/=.
  eapply run_layers; [|done]. by eapply NNPS_update_layers.
Qed.

(** The session of Scenario A with one query, built with five ghost layers,
    ends with cells of two layers. *)
Lemma NNPS_ignores_ghost_layers_witness :
  ∃ r, NNPS_session 2 [scenarioA_pa] 2.0 5 None
         [Update; GetNearest 0 0 0 []] = Some r
       ∧ default_layers (NNPS.cells r.1).
Proof.
  eexists. split; [vm_compute; reflexivity|].
  apply (proj2 (proj2 (NNPS_ignores_ghost_layers 2 [scenarioA_pa] 2.0 None 5 1
                         [Update; GetNearest 0 0 0 []]))).
  vm_compute. reflexivity.
Defined.

(** ** The neighbour buffer *)

Section buffer.
Context (radius_scale : Q) (s_h : list Q) (xi : cPoint) (hi : Q)
        (mk_xj : nat → cPoint).

Local Abbreviation visit := (visit_row radius_scale s_h xi hi mk_xj).
Local Abbreviation test := (is_neighbor radius_scale s_h xi hi mk_xj).

Lemma visit_row_written b j :
  buffer_ok b →
  buffer_ok (visit b j)
  ∧ written (visit b j) = written b ++ (if test j then [j] else []).
Proof.
  unfold buffer_ok, written, visit_row, is_neighbor. intros Hb.
  destruct (_ || _).
  2:{ split; [done|]. by rewrite app_nil_r. }
  destruct (Nat.eqb_spec (nnbrs b) (length (nbrs_data b))) as [He|Hne];
    cbn [nnbrs nbrs_data buf_console].
  - rewrite resize_ge by lia. rewrite length_insert, length_app, length_replicate.
    split; [lia|].
    rewrite He, firstn_all.
    erewrite take_S_r.
    2:{ rewrite list_lookup_insert_eq; [done|].
        rewrite length_app, length_replicate. lia. }
    rewrite take_insert_ge by lia. by rewrite take_app_length.
  - rewrite length_insert. split; [lia|].
    erewrite take_S_r.
    2:{ rewrite list_lookup_insert_eq; [done|]. lia. }
    by rewrite take_insert_ge by lia.
Qed.

Lemma visit_rows_written (rows : list nat) b :
  buffer_ok b →
  buffer_ok (foldl visit b rows)
  ∧ written (foldl visit b rows) = written b ++ filter (λ j, test j = true) rows.
Proof.
  revert b. induction rows as [|j rows IH]; intros b Hb; simpl.
  - split; [done|]. by rewrite app_nil_r.
  - destruct (visit_row_written b j Hb) as [Hok Hw].
    destruct (IH _ Hok) as [Hok' Hw']. split; [done|].
    rewrite Hw', Hw, <- app_assoc. f_equal.
    rewrite filter_cons. by destruct (test j); case_decide.
Qed.

Lemma visit_block_written (cells : gmap cIntPoint Cell) (src_index : nat)
    (block : list cIntPoint) b b' :
  buffer_ok b →
  for_each (visit_cell cells src_index visit) block b = Some b' →
  ∃ rows, block_rows cells src_index block = Some rows
          ∧ buffer_ok b'
          ∧ written b' = written b ++ filter (λ j, test j = true) rows.
Proof.
  unfold block_rows. revert b.
  induction block as [|cellid block IH]; intros b Hb Hrun; simpl in *.
  - simplify_eq. exists []. split; [done|]. split; [done|].
    by rewrite app_nil_r.
  - apply bind_Some in Hrun as (b1 & Hcell & Hrun).
    unfold visit_cell in Hcell.
    destruct (cells !! cellid) as [cell|] eqn:Hc.
    + apply bind_Some in Hcell as (lind & Hlind & Hcell). simplify_eq.
      destruct (visit_rows_written lind b Hb) as [Hok Hw].
      destruct (IH _ Hok Hrun) as (rows & Hrows & Hok' & Hw').
      apply bind_Some in Hrows as (rr & Hrr & Hrows). simplify_eq.
      exists (lind ++ concat rr). rewrite Hlind, Hrr. simpl.
      split; [done|]. split; [done|].
      by rewrite Hw', Hw, filter_app, app_assoc.
    + simplify_eq.
      destruct (IH _ Hb Hrun) as (rows & Hrows & Hok' & Hw').
      apply bind_Some in Hrows as (rr & Hrr & Hrows). simplify_eq.
      exists (concat rr). rewrite Hrr. simpl. done.
Qed.

Lemma visit_block_total (cells : gmap cIntPoint Cell) (src_index : nat)
    (block : list cIntPoint) b :
  (∀ cid c, cells !! cid = Some c → is_Some (lindices c !! src_index)) →
  is_Some (for_each (visit_cell cells src_index visit) block b).
Proof.
  intros Hc. revert b. induction block as [|cellid block IH]; intros b.
  - by eexists.
  - cbn [for_each].
    assert (is_Some (visit_cell cells src_index visit b cellid)) as [b1 ->].
    { unfold visit_cell. destruct (cells !! cellid) as [cell|] eqn:Hcell.
      - destruct (Hc _ _ Hcell) as [lind ->]. by eexists.
      - by eexists. }
    cbn [mbind option_bind]. apply IH.
Qed.
End buffer.

(** ** Cell size *)

Lemma maximum_upper (l : list Q) (m h : Q) :
  maximum l = Some m → h ∈ l → (h <= m)%Q.
Proof.
  revert m. induction l as [|a l IH]; intros m Hm Hin; [by inversion Hin|].
  simpl in Hm. destruct (maximum l) as [m'|] eqn:Hl.
  - injection Hm as <-. apply elem_of_cons in Hin as [->|Hin].
    + destruct (Qltb m' a) eqn:Hc; [apply Qle_refl|by apply Qltb_ge].
    + specialize (IH _ eq_refl Hin).
      destruct (Qltb m' a) eqn:Hc; [|done].
      apply Qltb_lt in Hc. eapply Qle_trans; [done|by apply Qlt_le_weak].
  - injection Hm as <-. apply elem_of_cons in Hin as [->|Hin].
    + apply Qle_refl.
    + destruct l; [by inversion Hin|]. simpl in Hl.
      by destruct (maximum l).
Qed.

Lemma maximum_is_Some (l : list Q) : l ≠ [] → is_Some (maximum l).
Proof. destruct l; [done|]. simpl. by destruct (maximum l); eexists. Qed.

Lemma raise_ge (M : Q) (v : list Q) :
  (M <= raise M v)%Q ∧ ∀ h, h ∈ v → (h <= raise M v)%Q.
Proof.
  unfold raise. destruct (maximum v) as [m|] eqn:Hm.
  - destruct (Qltb M m) eqn:Hc.
    + split; [apply Qlt_le_weak; by apply Qltb_lt|].
      intros h Hh. by eapply maximum_upper.
    + apply Qltb_ge in Hc. split; [apply Qle_refl|].
      intros h Hh. eapply Qle_trans; [by eapply maximum_upper|done].
  - split; [apply Qle_refl|]. intros h Hh.
    destruct (maximum_is_Some v) as [? Hs]; [by intros ->; inversion Hh|].
    congruence.
Qed.

Lemma hmax_step_ge (M : Q) (pa : ParticleArray) :
  (M <= NNPS.hmax_step M pa)%Q ∧ ∀ h, h ∈ w_h pa → (h <= NNPS.hmax_step M pa)%Q.
Proof. apply raise_ge. Qed.

Lemma foldl_hmax_ge (ps : list ParticleArray) (M : Q) :
  (M <= foldl NNPS.hmax_step M ps)%Q
  ∧ bounds_h ps (foldl NNPS.hmax_step M ps).
Proof.
  revert M. induction ps as [|pa ps IH]; intros M; simpl.
  - split; [apply Qle_refl|]. intros ?? Hin. inversion Hin.
  - destruct (IH (NNPS.hmax_step M pa)) as [H1 H2].
    destruct (hmax_step_ge M pa) as [H3 H4]. split.
    + by eapply Qle_trans.
    + intros pa' h [->|Hin]%elem_of_cons Hh.
      * eapply Qle_trans; [by apply H4|done].
      * by eapply H2.
Qed.

Lemma NNPS_compute_cell_size_rule (s : NNPS.t) :
  cell_size_rule Stdout (NNPS.radius_scale s) (NNPS_hmax s)
    (NNPS.console s) (NNPS.console (NNPS._compute_cell_size s))
    (NNPS.cell_size (NNPS._compute_cell_size s)).
Proof.
  unfold cell_size_rule, NNPS._compute_cell_size, NNPS_hmax.
  destruct (Qltb _ cell_size_floor) eqn:Hc; simpl; [right|left]; done.
Qed.

Lemma cell_size_rule_floor chan rs Mh before after cs :
  cell_size_rule chan rs Mh before after cs →
  Qltb cs cell_size_floor = false ∧ (rs * Mh <= cs)%Q.
Proof.
  intros [(Hc & -> & _)|(Hc & -> & _)].
  - split; [done|apply Qle_refl].
  - split; [done|]. apply Qltb_lt in Hc. apply Qlt_le_weak.
    eapply Qlt_trans; [done|]. reflexivity.
Qed.

Lemma Qmax'_ge (a b : Q) : (a <= Qmax' a b)%Q ∧ (b <= Qmax' a b)%Q.
Proof.
  unfold Qmax'. destruct (Qltb a b) eqn:Hc.
  - split; [apply Qlt_le_weak; by apply Qltb_lt|apply Qle_refl].
  - split; [apply Qle_refl|by apply Qltb_ge].
Qed.

Lemma Allreduce_max_ge (a : Q) (l : list Q) :
  (a <= Allreduce Qmax' a l)%Q ∧ ∀ b, b ∈ l → (b <= Allreduce Qmax' a l)%Q.
Proof.
  unfold Allreduce. revert a. induction l as [|c l IH]; intros a; simpl.
  - split; [apply Qle_refl|]. intros b Hb. inversion Hb.
  - destruct (IH (Qmax' a c)) as [H1 H2].
    destruct (Qmax'_ge a c) as [H3 H4]. split.
    + by eapply Qle_trans.
    + intros b [->|Hb]%elem_of_cons; [by eapply Qle_trans|by apply H2].
Qed.

Lemma bounds_step_Mh (b : Bounds) (pa : ParticleArray) :
  (b_Mh b <= b_Mh (ParallelManager.bounds_step b pa))%Q
  ∧ (w_x pa ≠ [] →
     ∀ h, h ∈ w_h pa → (h <= b_Mh (ParallelManager.bounds_step b pa))%Q).
Proof.
  unfold ParallelManager.bounds_step.
  destruct (w_x pa) as [|x0 xs] eqn:Hx; simpl.
  - split; [apply Qle_refl|done].
  - destruct (raise_ge (b_Mh b) (w_h pa)) as [H1 H2]. split; [done|].
    intros _. apply H2.
Qed.

Lemma foldl_bounds_step_Mh (ps : list ParticleArray) (b : Bounds) :
  (b_Mh b <= b_Mh (foldl ParallelManager.bounds_step b ps))%Q
  ∧ bounds_nonempty_h ps (b_Mh (foldl ParallelManager.bounds_step b ps)).
Proof.
  revert b. induction ps as [|pa ps IH]; intros b; simpl.
  - split; [apply Qle_refl|]. intros ?? Hin. inversion Hin.
  - destruct (IH (ParallelManager.bounds_step b pa)) as [H1 H2].
    destruct (bounds_step_Mh b pa) as [H3 H4]. split.
    + by eapply Qle_trans.
    + intros pa' h [->|Hin]%elem_of_cons Hne Hh.
      * eapply Qle_trans; [by apply H4|done].
      * by eapply H2.
Qed.

Lemma PM_Mh_bounds (others : list Bounds) (s : ParallelManager.t) :
  bounds_nonempty_h (ParallelManager.particles s) (PM_Mh others s)
  ∧ ∀ o, o ∈ others → (b_Mh o <= PM_Mh others s)%Q.
Proof.
  unfold PM_Mh.
  destruct (Allreduce_max_ge (b_Mh (PM_local_bounds s)) (b_Mh <$> others))
    as [H1 H2].
  destruct (foldl_bounds_step_Mh (ParallelManager.particles s)
              (mkBounds 1e20 1e20 1e20 (-1e20) (-1e20) (-1e20) (-1e20)))
    as [_ H3].
  split.
  - intros pa h Hpa Hne Hh. eapply Qle_trans; [by eapply H3|done].
  - intros o Ho. apply H2. by apply list_elem_of_fmap_2.
Qed.

(** Without the parallel branch [_compute_bounds] raises, and so do
    [compute_cell_size] and [local_bin]. *)
Lemma PM_compute_bounds_serial others s :
  ParallelManager.in_parallel s = false →
  ParallelManager._compute_bounds others s = None
  ∧ ParallelManager.compute_cell_size others s = None
  ∧ ParallelManager.local_bin others s = None.
Proof.
  intros Hp.
  assert (H1 : ∀ s, ParallelManager.in_parallel s = false →
                    ParallelManager._compute_bounds others s = None).
  { intros s1 H. unfold ParallelManager._compute_bounds. by rewrite H. }
  assert (H2 : ∀ s, ParallelManager.in_parallel s = false →
                    ParallelManager.compute_cell_size others s = None).
  { intros s1 H. unfold ParallelManager.compute_cell_size.
    by rewrite (H1 _ H). }
  split; [by apply H1|]. split; [by apply H2|].
  unfold ParallelManager.local_bin. by rewrite H2.
Qed.

Lemma PM_compute_cell_size_parallel others s :
  ParallelManager.in_parallel s = true →
  ∃ s', ParallelManager.compute_cell_size others s = Some s'
        ∧ cell_size_rule Stdout (ParallelManager.radius_scale s)
            (PM_Mh others s) (ParallelManager.console s)
            (ParallelManager.console s') (ParallelManager.cell_size s')
        ∧ b_Mh (ParallelManager.global_bounds s') = PM_Mh others s
        ∧ ParallelManager.pa_exchanges s' = ParallelManager.pa_exchanges s
        ∧ ParallelManager.cells s' = ParallelManager.cells s
        ∧ ParallelManager.narrays s' = ParallelManager.narrays s
        ∧ ParallelManager.num_local s' = ParallelManager.num_local s
        ∧ ParallelManager.radius_scale s' = ParallelManager.radius_scale s
        ∧ ParallelManager.ghost_layers s' = ParallelManager.ghost_layers s
        ∧ ParallelManager.num_global s' = ParallelManager.num_global s
        ∧ ParallelManager.num_remote s' = ParallelManager.num_remote s.
Proof.
  intros Hp.
  unfold ParallelManager.compute_cell_size, ParallelManager._compute_bounds.
  rewrite Hp. cbn [mbind option_bind ParallelManager.global_bounds
                   ParallelManager.radius_scale ParallelManager.console b_Mh].
  fold (PM_local_bounds s). fold (PM_Mh others s).
  unfold cell_size_rule.
  destruct (Qltb _ cell_size_floor) eqn:Hc; eexists; (split; [reflexivity|]);
    cbn [ParallelManager.global_bounds ParallelManager.radius_scale
         ParallelManager.console ParallelManager.cell_size
         ParallelManager.pa_exchanges ParallelManager.cells
         ParallelManager.narrays ParallelManager.num_local
         ParallelManager.num_global ParallelManager.num_remote
         ParallelManager.ghost_layers b_Mh];
    (split; [first [by right|by left]|by repeat split]).
Qed.

(** ** The maximum smoothing length is attained *)

Lemma maximum_elem (l : list Q) (m : Q) : maximum l = Some m → m ∈ l.
Proof.
  revert m. induction l as [|a l IH]; intros m; simpl; [done|].
  destruct (maximum l) as [m'|].
  - intros [= <-]. destruct (Qltb m' a); [by left|].
    right. by apply IH.
  - intros [= <-]. by left.
Qed.

Lemma greatest_refl (m0 : Q) : greatest m0 [] m0.
Proof.
  split; [apply Qle_refl|]. split; [|by left]. intros v Hv. inversion Hv.
Qed.

Lemma greatest_app (a b c : Q) (l k : list Q) :
  greatest a l b → greatest b k c → greatest a (l ++ k) c.
Proof.
  intros (H1 & H2 & H3) (H4 & H5 & H6). split; [by eapply Qle_trans|]. split.
  - intros v [Hv|Hv]%elem_of_app; [|by apply H5].
    eapply Qle_trans; [by apply H2|done].
  - destruct H6 as [->|H6]; [|right; apply elem_of_app; by right].
    destruct H3 as [->|H3]; [by left|right; apply elem_of_app; by left].
Qed.

Lemma raise_greatest (M : Q) (v : list Q) : greatest M v (raise M v).
Proof.
  destruct (raise_ge M v) as [H1 H2]. split; [done|]. split; [done|].
  unfold raise. destruct (maximum v) as [m|] eqn:Hm; [|by left].
  destruct (Qltb M m); [right; by apply maximum_elem|by left].
Qed.

Lemma foldl_hmax_greatest (ps : list ParticleArray) (M : Q) :
  greatest M (smoothing_lengths ps) (foldl NNPS.hmax_step M ps).
Proof.
  revert M. induction ps as [|pa ps IH]; intros M; [apply greatest_refl|].
  unfold smoothing_lengths. cbn [foldl mbind list_bind].
  eapply greatest_app; [|apply IH]. apply raise_greatest.
Qed.

Lemma Qmax'_greatest (a b : Q) : greatest a [b] (Qmax' a b).
Proof.
  destruct (Qmax'_ge a b) as [H1 H2]. split; [done|]. split.
  - by intros v ->%list_elem_of_singleton.
  - unfold Qmax'. destruct (Qltb a b); [right; by left|by left].
Qed.

Lemma Allreduce_max_greatest (a : Q) (l : list Q) :
  greatest a l (Allreduce Qmax' a l).
Proof.
  unfold Allreduce. revert a. induction l as [|c l IH]; intros a;
    [apply greatest_refl|].
  cbn [foldl]. apply (greatest_app a (Qmax' a c) _ [c] l); [|apply IH].
  apply Qmax'_greatest.
Qed.

Lemma bounds_step_greatest (b : Bounds) (pa : ParticleArray) :
  greatest (b_Mh b) (smoothing_lengths (populated [pa]))
           (b_Mh (ParallelManager.bounds_step b pa)).
Proof.
  unfold ParallelManager.bounds_step, populated, smoothing_lengths.
  rewrite filter_cons, filter_nil.
  destruct (decide (w_x pa ≠ [])) as [Hne|He].
  - cbn [mbind list_bind]. rewrite app_nil_r.
    destruct (w_x pa) as [|x0 xs]; [done|]. apply raise_greatest.
  - destruct (w_x pa) as [|x0 xs]; [apply greatest_refl|].
    exfalso. by apply He.
Qed.

Lemma foldl_bounds_step_greatest (ps : list ParticleArray) (b : Bounds) :
  greatest (b_Mh b) (smoothing_lengths (populated ps))
           (b_Mh (foldl ParallelManager.bounds_step b ps)).
Proof.
  revert b. induction ps as [|pa ps IH]; intros b; [apply greatest_refl|].
  cbn [foldl].
  assert (He : smoothing_lengths (populated (pa :: ps))
               = smoothing_lengths (populated [pa])
                 ++ smoothing_lengths (populated ps)).
  { unfold smoothing_lengths, populated. rewrite !filter_cons, filter_nil.
    case_decide; cbn [mbind list_bind]; [|done].
    by rewrite app_nil_r. }
  rewrite He. eapply greatest_app; [apply bounds_step_greatest|apply IH].
Qed.

Lemma rank_bounds_greatest (ps : list ParticleArray) :
  greatest (-1e20) (smoothing_lengths (populated ps)) (b_Mh (rank_bounds ps)).
Proof.
  exact (foldl_bounds_step_greatest ps
           (mkBounds 1e20 1e20 1e20 (-1e20) (-1e20) (-1e20) (-1e20))).
Qed.

Lemma greatest_ranks (m0 L G : Q) (X : list Q)
    (world : list (list ParticleArray)) :
  greatest m0 X L →
  (∀ ps, ps ∈ world →
         greatest m0 (smoothing_lengths (populated ps)) (b_Mh (rank_bounds ps))) →
  greatest L (b_Mh <$> (rank_bounds <$> world)) G →
  greatest m0 (X ++ global_smoothing_lengths world) G.
Proof.
  intros (H1 & H2 & H3) Hw (H4 & H5 & H6). split; [by eapply Qle_trans|].
  split.
  - intros v [Hv|Hv]%elem_of_app.
    + eapply Qle_trans; [by apply H2|done].
    + unfold global_smoothing_lengths in Hv.
      apply list_elem_of_bind in Hv as (ps & Hv & Hps).
      destruct (Hw ps Hps) as (_ & Hb & _).
      eapply Qle_trans; [by apply Hb|]. apply H5.
      apply list_elem_of_fmap_2. by apply list_elem_of_fmap_2.
  - destruct H6 as [->|H6].
    + destruct H3 as [->|H3]; [by left|right; apply elem_of_app; by left].
    + apply list_elem_of_fmap in H6 as (b & -> & Hb).
      apply list_elem_of_fmap in Hb as (ps & -> & Hps).
      destruct (Hw ps Hps) as (_ & _ & [->|Hin]); [by left|].
      right. apply elem_of_app. right. unfold global_smoothing_lengths.
      apply list_elem_of_bind. by exists ps.
Qed.

(** C8, as stated, fails: for one particle of smoothing length zero the
    serial search sets the cell size to 1.0 and the warning goes to the
    standard output, not to the standard error stream. *)
Lemma cell_size_warning_not_on_stderr :
  ¬ cell_size_rule Stderr (NNPS.radius_scale degenerate_nnps)
      (NNPS_hmax degenerate_nnps) (NNPS.console degenerate_nnps)
      (NNPS.console (NNPS._compute_cell_size degenerate_nnps))
      (NNPS.cell_size (NNPS._compute_cell_size degenerate_nnps)).
Proof.
  intros [(Hc & _)|(_ & _ & Hcon)].
  - vm_compute in Hc. discriminate Hc.
  - vm_compute in Hcon. discriminate Hcon.
Qed.

(** C8, amended: every cell-size computation that completes yields
    [radius_scale * Mh] unless that product is below 1e-6, in which case it
    yields 1.0 and writes a warning to the standard output; the result is
    never below 1e-6.  [Mh] is the maximum smoothing length: it bounds every
    smoothing length it was taken over and is one of them, or the start
    value of the scan when no smoothing length exceeds that.  In the serial
    search the scan starts at -1.0 and runs over all rows of all arrays.  In
    the manager, which completes whenever it runs in parallel, the scan
    starts at -1e20 and runs over the rows of the local arrays that hold a
    particle, and the reduction joins its result with the maxima of the
    other ranks: when these are the results of the same scan on the other
    ranks, [Mh] is the global maximum smoothing length, taken over the
    arrays of all ranks. *)
Theorem cell_size_floor_rule :
  (∀ s : NNPS.t,
     let s' := NNPS._compute_cell_size s in
     cell_size_rule Stdout (NNPS.radius_scale s) (NNPS_hmax s)
       (NNPS.console s) (NNPS.console s') (NNPS.cell_size s')
     ∧ Qltb (NNPS.cell_size s') cell_size_floor = false
     ∧ bounds_h (NNPS.particles s) (NNPS_hmax s)
     ∧ greatest (-1.0) (smoothing_lengths (NNPS.particles s)) (NNPS_hmax s))
  ∧ (∀ (others : list Bounds) (s : ParallelManager.t),
       ParallelManager.in_parallel s = true →
       ∃ s', ParallelManager.compute_cell_size others s = Some s'
             ∧ cell_size_rule Stdout (ParallelManager.radius_scale s)
                 (b_Mh (ParallelManager.global_bounds s'))
                 (ParallelManager.console s) (ParallelManager.console s')
                 (ParallelManager.cell_size s')
             ∧ Qltb (ParallelManager.cell_size s') cell_size_floor = false
             ∧ bounds_nonempty_h (ParallelManager.particles s)
                 (b_Mh (ParallelManager.global_bounds s'))
             ∧ (∀ o, o ∈ others →
                     (b_Mh o <= b_Mh (ParallelManager.global_bounds s'))%Q)
             ∧ greatest (-1e20)
                 (smoothing_lengths (populated (ParallelManager.particles s)))
                 (b_Mh (ParallelManager.local_bounds s'))
             ∧ greatest (b_Mh (ParallelManager.local_bounds s'))
                 (b_Mh <$> others)
                 (b_Mh (ParallelManager.global_bounds s')))
  ∧ (∀ (world : list (list ParticleArray)) (s : ParallelManager.t),
       ParallelManager.in_parallel s = true →
       ∃ s', ParallelManager.compute_cell_size (rank_bounds <$> world) s
             = Some s'
             ∧ cell_size_rule Stdout (ParallelManager.radius_scale s)
                 (b_Mh (ParallelManager.global_bounds s'))
                 (ParallelManager.console s) (ParallelManager.console s')
                 (ParallelManager.cell_size s')
             ∧ greatest (-1e20)
                 (global_smoothing_lengths
                    (ParallelManager.particles s :: world))
                 (b_Mh (ParallelManager.global_bounds s'))).
Proof.
  assert (Hpm : ∀ (others : list Bounds) (s : ParallelManager.t),
            ParallelManager.in_parallel s = true →
            ∃ s', ParallelManager.compute_cell_size others s = Some s'
                  ∧ cell_size_rule Stdout (ParallelManager.radius_scale s)
                      (b_Mh (ParallelManager.global_bounds s'))
                      (ParallelManager.console s) (ParallelManager.console s')
                      (ParallelManager.cell_size s')
                  ∧ b_Mh (ParallelManager.global_bounds s') = PM_Mh others s
                  ∧ b_Mh (ParallelManager.local_bounds s')
                    = b_Mh (PM_local_bounds s)).
  { intros others s Hp.
    destruct (PM_compute_cell_size_parallel others s Hp)
      as (s' & Hs' & Hr & HMh & _).
    exists s'. rewrite HMh. split; [done|]. split; [done|]. split; [done|].
    unfold ParallelManager.compute_cell_size,
      ParallelManager._compute_bounds in Hs'.
    rewrite Hp in Hs'. cbn [mbind option_bind] in Hs'.
    destruct (Qltb _ cell_size_floor) in Hs'; by injection Hs' as <-. }
  split; [|split].
  - intros s s'. pose proof (NNPS_compute_cell_size_rule s) as Hr.
    split; [done|]. split; [|split].
    + by destruct (cell_size_rule_floor _ _ _ _ _ _ Hr).
    + apply foldl_hmax_ge.
    + apply foldl_hmax_greatest.
  - intros others s Hp.
    destruct (Hpm others s Hp) as (s' & Hs' & Hr & HMh & Hl).
    exists s'. split; [done|]. split; [done|]. split; [|split; [|split; [|split]]].
    + by destruct (cell_size_rule_floor _ _ _ _ _ _ Hr).
    + rewrite HMh. apply PM_Mh_bounds.
    + rewrite HMh. apply PM_Mh_bounds.
    + rewrite Hl. apply (rank_bounds_greatest (ParallelManager.particles s)).
    + rewrite HMh, Hl. apply Allreduce_max_greatest.
  - intros world s Hp.
    destruct (Hpm (rank_bounds <$> world) s Hp) as (s' & Hs' & Hr & HMh & _).
    exists s'. split; [done|]. split; [done|]. rewrite HMh.
    unfold global_smoothing_lengths. cbn [mbind list_bind].
    apply (greatest_ranks _ (b_Mh (PM_local_bounds s))).
    + apply (rank_bounds_greatest (ParallelManager.particles s)).
    + intros ps _. apply rank_bounds_greatest.
    + apply Allreduce_max_greatest.
Qed.

(** The manager of Scenario A on two ranks computes a cell size that is not
    below the floor, from a maximum that is the greatest of the local
    smoothing lengths and of the maximum of the other rank. *)
Lemma cell_size_floor_rule_witness :
  ParallelManager.in_parallel (scenarioA_pm 2) = true
  ∧ ∃ s', ParallelManager.compute_cell_size [empty_rank_bounds]
            (scenarioA_pm 2) = Some s'
          ∧ Qltb (ParallelManager.cell_size s') cell_size_floor = false
          ∧ greatest (-1e20)
              (smoothing_lengths
                 (populated (ParallelManager.particles (scenarioA_pm 2))))
              (b_Mh (ParallelManager.local_bounds s'))
          ∧ greatest (b_Mh (ParallelManager.local_bounds s'))
              (b_Mh <$> [empty_rank_bounds])
              (b_Mh (ParallelManager.global_bounds s')).
Proof.
  split; [reflexivity|].
  destruct (proj1 (proj2 cell_size_floor_rule) [empty_rank_bounds]
              (scenarioA_pm 2) eq_refl)
    as (s' & Hs' & _ & Hfloor & _ & _ & Hlocal & Hglobal).
  exists s'. split; [exact Hs'|]. split; [exact Hfloor|].
  split; [exact Hlocal|exact Hglobal].
Defined.

(** ** Binning *)

(** The two steps that both [_bin] loops share: create the cell when the
    key is new, then update the cell under the key. *)
Lemma bin_lookup (f : Cell → Cell) (c0 : Cell) (cells : gmap cIntPoint Cell)
    (cid cid' : cIntPoint) :
  alter f cid
    (match cells !! cid with
     | None => <[cid := c0]> cells
     | Some _ => cells
     end) !! cid'
  = if decide (cid' = cid) then Some (f (default c0 (cells !! cid)))
    else cells !! cid'.
Proof.
  case_decide as Hd.
  - subst cid'. rewrite lookup_alter_eq.
    destruct (cells !! cid) as [c|] eqn:Hc.
    + by rewrite Hc.
    + by rewrite lookup_insert_eq.
  - rewrite lookup_alter_ne by done.
    destruct (cells !! cid) eqn:Hc; [done|].
    by rewrite lookup_insert_ne.
Qed.

Lemma Cell_init_lists cid cs n nl k :
  (lindices (Cell_init cid cs n nl) !! k = if decide (k < n)%nat then Some [] else None)
  ∧ (gindices (Cell_init cid cs n nl) !! k = if decide (k < n)%nat then Some [] else None).
Proof.
  cbn [Cell_init _compute_bounding_box lindices gindices].
  case_decide.
  - by rewrite !lookup_replicate_2.
  - split; apply lookup_replicate_None; lia.
Qed.

Lemma cell_invariant_init ps cs cid n nl :
  cell_invariant ps cs (Cell_init cid cs n nl).
Proof.
  intros k pa lind Hpa Hl.
  destruct (Cell_init_lists cid cs n nl k) as [H1 H2].
  rewrite H1 in Hl. rewrite H2. case_decide; [|done]. simplify_eq.
  exists []. split; [done|]. split; [done|]. intros i r Hi. inversion Hi.
Qed.

Lemma PM_bin_row_invariant ps pa k cs n nl cells i :
  ps !! k = Some pa →
  cells_invariant ps cs cells →
  cells_invariant ps cs
    (ParallelManager.bin_row k (w_x pa) (w_y pa) (w_gid pa) cs n nl cells i).
Proof.
  intros Hpa Hinv. unfold ParallelManager.bin_row.
  fold (home pa cs i). set (cid := home pa cs i).
  apply map_Forall_lookup. intros cid' c'. rewrite bin_lookup.
  case_decide as Hd; [|apply Hinv]. subst cid'. intros [= <-].
  set (c := default (Cell_init cid cs n nl) (cells !! cid)).
  assert (Hc : _cid c = cid ∧ cell_invariant ps cs c).
  { unfold c. destruct (cells !! cid) as [c1|] eqn:Hc1; simpl.
    - by apply (Hinv cid).
    - split; [done|apply cell_invariant_init]. }
  destruct Hc as [Hcid Hc]. split; [done|].
  intros k' pa' lind' Hpa' Hl'.
  cbn [append_gindex append_lindex lindices gindices _cid] in *.
  destruct (decide (k' = k)) as [->|Hne].
  - simplify_eq. rewrite list_lookup_alter_eq in Hl'.
    destruct (lindices c !! k) as [lind|] eqn:Hl; simplify_eq/=.
    destruct (Hc _ _ _ Hpa Hl) as (gind & Hg & Hlen & Hrows).
    exists (gind ++ [w_gid pa !!! i]).
    rewrite list_lookup_alter_eq, Hg. split; [done|].
    rewrite !length_app, Hlen. split; [done|].
    intros j r Hj. apply lookup_snoc_Some in Hj as [[_ Hj]|[-> <-]].
    + destruct (Hrows _ _ Hj) as [? Hgj]. split; [done|].
      by apply lookup_app_l_Some.
    + split; [done|]. apply lookup_snoc_Some. right. by rewrite Hlen.
  - rewrite list_lookup_alter_ne in Hl' by done.
    rewrite list_lookup_alter_ne by done. by eapply Hc.
Qed.

Lemma PM_bin_Some s k ind pa :
  ParallelManager.particles s !! k = Some pa →
  ParallelManager._bin s k ind
  = Some (ParallelManager.set_cells s
            (foldl (ParallelManager.bin_row k (w_x pa) (w_y pa) (w_gid pa)
                      (ParallelManager.cell_size s) (ParallelManager.narrays s)
                      (ParallelManager.ghost_layers s))
                   (ParallelManager.cells s) ind)).
Proof. unfold ParallelManager._bin. by intros ->. Qed.

Lemma PM_bin_inv s k ind s' :
  ParallelManager._bin s k ind = Some s' →
  ∃ pa, ParallelManager.particles s !! k = Some pa
        ∧ s' = ParallelManager.set_cells s
                 (foldl (ParallelManager.bin_row k (w_x pa) (w_y pa) (w_gid pa)
                           (ParallelManager.cell_size s)
                           (ParallelManager.narrays s)
                           (ParallelManager.ghost_layers s))
                        (ParallelManager.cells s) ind).
Proof.
  unfold ParallelManager._bin. intros H.
  apply bind_Some in H as (pa & Hpa & H). exists pa. by simplify_eq.
Qed.

(** The invariant of a manager: its cell map satisfies the cell invariant
    for its arrays and its cell size. *)
Lemma PM_bin_invariant s k ind s' :
  cells_invariant (ParallelManager.particles s) (ParallelManager.cell_size s)
                  (ParallelManager.cells s) →
  ParallelManager._bin s k ind = Some s' →
  cells_invariant (ParallelManager.particles s') (ParallelManager.cell_size s')
                  (ParallelManager.cells s').
Proof.
  intros Hinv Hb. apply PM_bin_inv in Hb as (pa & Hpa & ->).
  cbn [ParallelManager.set_cells ParallelManager.particles
       ParallelManager.pa_exchanges ParallelManager.cell_size
       ParallelManager.cells].
  apply foldl_inv; [|done]. intros cells i _ Hc.
  by apply PM_bin_row_invariant.
Qed.

Lemma for_each_total {A S : Type} (P : S → Prop) (body : S → A → option S)
    (l : list A) (s : S) :
  (∀ s a, a ∈ l → P s → ∃ s', body s a = Some s' ∧ P s') →
  P s → ∃ s', for_each body l s = Some s' ∧ P s'.
Proof.
  revert s. induction l as [|a l IH]; intros s Hstep Hs.
  - by exists s.
  - destruct (Hstep s a) as (s1 & Hb & Hs1); [by left|done|].
    cbn [for_each]. rewrite Hb. cbn [mbind option_bind].
    apply IH; [|done]. intros ?? Hin. apply Hstep. by right.
Qed.

Lemma PM_compute_cell_size_inv others s s' :
  ParallelManager.compute_cell_size others s = Some s' →
  ParallelManager.in_parallel s = true
  ∧ ParallelManager.pa_exchanges s' = ParallelManager.pa_exchanges s
  ∧ ParallelManager.cells s' = ParallelManager.cells s
  ∧ ParallelManager.narrays s' = ParallelManager.narrays s
  ∧ ParallelManager.num_local s' = ParallelManager.num_local s.
Proof.
  intros H. destruct (ParallelManager.in_parallel s) eqn:Hp.
  - destruct (PM_compute_cell_size_parallel others s Hp)
      as (s1 & Hs1 & _ & _ & ? & ? & ? & ? & _).
    rewrite Hs1 in H. by simplify_eq.
  - destruct (PM_compute_bounds_serial others s Hp) as (_ & Hn & _).
    congruence.
Qed.

Lemma PM_bin_frame s0 s k ind s' :
  PM_frame s0 s → ParallelManager._bin s k ind = Some s' → PM_frame s0 s'.
Proof.
  intros Hf Hb. apply PM_bin_inv in Hb as (pa & _ & ->). exact Hf.
Qed.

Lemma PM_particles_lookup s i :
  (i < length (ParallelManager.pa_exchanges s))%nat →
  ∃ e, ParallelManager.pa_exchanges s !! i = Some e
       ∧ ParallelManager.particles s !! i
         = Some (ParticleArrayExchange.pa e).
Proof.
  intros Hi. destruct (lookup_lt_is_Some_2 _ _ Hi) as [e He].
  exists e. split; [done|]. unfold ParallelManager.particles.
  by rewrite list_lookup_fmap, He.
Qed.

Lemma PM_local_bin_loop s0 (l : list nat) :
  (∀ i, i ∈ l → i < ParallelManager.narrays s0)%nat →
  PM_wf s0 →
  cells_invariant (ParallelManager.particles s0) (ParallelManager.cell_size s0)
                  (ParallelManager.cells s0) →
  ∃ s', for_each
          (λ self i,
             num_particles ← ParallelManager.num_local self !! i;
             ParallelManager._bin self i (arange_uint num_particles (-1)))
          l s0 = Some s'
        ∧ PM_frame s0 s'
        ∧ cells_invariant (ParallelManager.particles s')
            (ParallelManager.cell_size s') (ParallelManager.cells s').
Proof.
  intros Hl (Hw1 & Hw2 & Hw3 & Hw4) Hinv.
  match goal with
  | |- ∃ s', for_each ?body ?l ?s = _ ∧ _ =>
      destruct (for_each_total
        (λ s, PM_frame s0 s
              ∧ ParallelManager.num_local s = ParallelManager.num_local s0
              ∧ cells_invariant (ParallelManager.particles s)
                  (ParallelManager.cell_size s) (ParallelManager.cells s))
        body l s) as (s' & Hs' & Hf & _ & Hc)
  end; [| |by exists s'].
  - intros s i Hi (Hf & Hnl & Hc). specialize (Hl _ Hi).
    destruct Hf as (Hf1 & Hf2 & Hf3 & Hf4 & Hf5 & Hf6).
    destruct (lookup_lt_is_Some_2 (ParallelManager.num_local s) i)
      as [n Hn]; [lia|].
    destruct (PM_particles_lookup s i) as (e & He & Hpa); [rewrite Hf1; lia|].
    rewrite Hn. cbn [mbind option_bind].
    rewrite (PM_bin_Some _ _ _ _ Hpa). eexists. split; [done|].
    split; [by repeat split|]. split; [done|].
    eapply PM_bin_invariant; [done|]. by apply PM_bin_Some.
  - split; [by unfold PM_frame|]. by split.
Qed.

Lemma PM_local_bin_spec others s :
  PM_wf s → ParallelManager.in_parallel s = true →
  ∃ s', ParallelManager.local_bin others s = Some s'
        ∧ ParallelManager.pa_exchanges s' = ParallelManager.pa_exchanges s
        ∧ cells_invariant (ParallelManager.particles s')
            (ParallelManager.cell_size s') (ParallelManager.cells s').
Proof.
  intros Hwf Hp. unfold ParallelManager.local_bin.
  destruct (PM_compute_cell_size_parallel others
              (ParallelManager.set_cells s ∅) Hp)
    as (s1 & Hs1 & _ & _ & He & Hc & Hn & Hnl & _ & _ & Hng & Hnr).
  rewrite Hs1. cbn [mbind option_bind].
  destruct (PM_local_bin_loop s1 (seq 0 (ParallelManager.narrays s1)))
    as (s' & Hs' & Hf & Hinv).
  - intros i Hi%elem_of_seq. lia.
  - unfold PM_wf. rewrite He, Hn, Hnl, Hng, Hnr. exact Hwf.
  - rewrite Hc. apply map_Forall_empty.
  - exists s'. split; [done|]. split; [|done].
    destruct Hf as (-> & _). by rewrite He.
Qed.

Lemma PM_update_local_data_spec s :
  PM_wf s →
  ∃ s', ParallelManager.update_local_data s = Some s'
        ∧ ParallelManager.pa_exchanges s' = ParallelManager.pa_exchanges s
        ∧ ParallelManager.cell_size s' = ParallelManager.cell_size s
        ∧ cells_invariant (ParallelManager.particles s')
            (ParallelManager.cell_size s') (ParallelManager.cells s').
Proof.
  intros (Hw1 & Hw2 & Hw3 & Hw4). unfold ParallelManager.update_local_data.
  set (s0 := ParallelManager.set_cells s ∅).
  match goal with
  | |- ∃ s', for_each ?body ?l ?s = _ ∧ _ =>
      destruct (for_each_total
        (λ s, PM_frame s0 s
              ∧ cells_invariant (ParallelManager.particles s)
                  (ParallelManager.cell_size s) (ParallelManager.cells s))
        body l s) as (s' & Hs' & Hf & Hc)
  end.
  - intros s1 i Hi%elem_of_seq (Hf & Hc).
    destruct Hf as (Hf1 & Hf2 & Hf3 & Hf4 & Hf5 & Hf6).
    unfold s0 in *.
    cbn [ParallelManager.narrays ParallelManager.set_cells
         ParallelManager.pa_exchanges ParallelManager.num_local
         ParallelManager.num_global ParallelManager.num_remote] in *.
    destruct (PM_particles_lookup s1 i) as (e & He & Hpa); [rewrite Hf1; lia|].
    rewrite He. cbn [mbind option_bind].
    rewrite bool_decide_eq_true_2 by (rewrite Hf4, Hf5; lia).
    match goal with
    | |- ∃ s', ParallelManager._bin ?s2 _ ?ind = _ ∧ _ =>
        assert (Hpa2 : ParallelManager.particles s2 !! i
                       = Some (ParticleArrayExchange.pa e)) by exact Hpa;
        exists (ParallelManager.set_cells s2
                  (foldl (ParallelManager.bin_row i
                            (w_x (ParticleArrayExchange.pa e))
                            (w_y (ParticleArrayExchange.pa e))
                            (w_gid (ParticleArrayExchange.pa e))
                            (ParallelManager.cell_size s2)
                            (ParallelManager.narrays s2)
                            (ParallelManager.ghost_layers s2))
                         (ParallelManager.cells s2) ind));
        split; [by apply PM_bin_Some|];
        split;
        [ unfold PM_frame;
          cbn [ParallelManager.set_cells ParallelManager.set_counts
               ParallelManager.pa_exchanges ParallelManager.cell_size
               ParallelManager.narrays ParallelManager.num_local
               ParallelManager.num_global ParallelManager.num_remote];
          rewrite !length_insert; by repeat split
        | eapply (PM_bin_invariant s2); [exact Hc|by apply PM_bin_Some] ]
    end.
  - split; [by unfold PM_frame|]. apply map_Forall_empty.
  - exists s'. destruct Hf as (Hf1 & Hf2 & _).
    split; [exact Hs'|]. split; [exact Hf1|]. split; [exact Hf2|exact Hc].
Qed.

Lemma PM_update_remote_data_spec s :
  PM_wf s →
  cells_invariant (ParallelManager.particles s) (ParallelManager.cell_size s)
                  (ParallelManager.cells s) →
  ∃ s', ParallelManager.update_remote_data s = Some s'
        ∧ ParallelManager.pa_exchanges s' = ParallelManager.pa_exchanges s
        ∧ ParallelManager.cell_size s' = ParallelManager.cell_size s
        ∧ cells_invariant (ParallelManager.particles s')
            (ParallelManager.cell_size s') (ParallelManager.cells s').
Proof.
  intros (Hw1 & Hw2 & Hw3 & Hw4) Hinv.
  unfold ParallelManager.update_remote_data.
  match goal with
  | |- ∃ s', for_each ?body ?l ?s0 = _ ∧ _ =>
      destruct (for_each_total
        (λ s1, PM_frame s s1
               ∧ cells_invariant (ParallelManager.particles s1)
                   (ParallelManager.cell_size s1) (ParallelManager.cells s1))
        body l s0) as (s' & Hs' & Hf & Hc)
  end.
  - intros s1 i Hi%elem_of_seq (Hf & Hc).
    destruct Hf as (Hf1 & Hf2 & Hf3 & Hf4 & Hf5 & Hf6).
    destruct (PM_particles_lookup s1 i) as (e & He & Hpa); [rewrite Hf1; lia|].
    rewrite He. cbn [mbind option_bind].
    rewrite bool_decide_eq_true_2 by (rewrite Hf4, Hf6; lia).
    match goal with
    | |- ∃ s', ParallelManager._bin ?s2 _ ?ind = _ ∧ _ =>
        assert (Hpa2 : ParallelManager.particles s2 !! i
                       = Some (ParticleArrayExchange.pa e)) by exact Hpa;
        exists (ParallelManager.set_cells s2
                  (foldl (ParallelManager.bin_row i
                            (w_x (ParticleArrayExchange.pa e))
                            (w_y (ParticleArrayExchange.pa e))
                            (w_gid (ParticleArrayExchange.pa e))
                            (ParallelManager.cell_size s2)
                            (ParallelManager.narrays s2)
                            (ParallelManager.ghost_layers s2))
                         (ParallelManager.cells s2) ind));
        split; [by apply PM_bin_Some|];
        split;
        [ unfold PM_frame;
          cbn [ParallelManager.set_cells ParallelManager.set_counts
               ParallelManager.pa_exchanges ParallelManager.cell_size
               ParallelManager.narrays ParallelManager.num_local
               ParallelManager.num_global ParallelManager.num_remote];
          rewrite !length_insert; by repeat split
        | eapply (PM_bin_invariant s2); [exact Hc|by apply PM_bin_Some] ]
    end.
  - split; [by unfold PM_frame|]. exact Hinv.
  - exists s'. destruct Hf as (Hf1 & Hf2 & _).
    split; [exact Hs'|]. split; [exact Hf1|]. split; [exact Hf2|exact Hc].
Qed.

Lemma cell_rows_invariant_init ps cs cid n nl :
  cell_rows_invariant ps cs (Cell_init cid cs n nl).
Proof.
  intros k pa lind Hpa Hl.
  destruct (Cell_init_lists cid cs n nl k) as [H1 H2].
  rewrite H1 in Hl. rewrite H2. case_decide; [|done]. simplify_eq.
  split; [done|]. intros r Hr. inversion Hr.
Qed.

Lemma NNPS_bin_row_invariant ps pa k cs n cells i :
  ps !! k = Some pa →
  cells_rows_invariant ps cs cells →
  cells_rows_invariant ps cs
    (NNPS.bin_row k (w_x pa) (w_y pa) cs n cells i).
Proof.
  intros Hpa Hinv. unfold NNPS.bin_row.
  fold (home pa cs i). set (cid := home pa cs i).
  apply map_Forall_lookup. intros cid' c'. rewrite bin_lookup.
  case_decide as Hd; [|apply Hinv]. subst cid'. intros [= <-].
  set (c := default (Cell_init cid cs n Cell_default_layers) (cells !! cid)).
  assert (Hc : _cid c = cid ∧ cell_rows_invariant ps cs c).
  { unfold c. destruct (cells !! cid) as [c1|] eqn:Hc1; simpl.
    - by apply (Hinv cid).
    - split; [done|apply cell_rows_invariant_init]. }
  destruct Hc as [Hcid Hc]. split; [done|].
  intros k' pa' lind' Hpa' Hl'.
  cbn [append_lindex lindices gindices _cid] in *.
  destruct (decide (k' = k)) as [->|Hne].
  - simplify_eq. rewrite list_lookup_alter_eq in Hl'.
    destruct (lindices c !! k) as [lind|] eqn:Hl; simplify_eq/=.
    destruct (Hc _ _ _ Hpa Hl) as (Hg & Hrows). split; [done|].
    intros r [Hr|Hr%list_elem_of_singleton]%elem_of_app; [by apply Hrows|].
    by subst r.
  - rewrite list_lookup_alter_ne in Hl' by done. by eapply Hc.
Qed.

Lemma NNPS_update_invariant s s' :
  NNPS.update s = Some s' →
  cells_rows_invariant (NNPS.particles s') (NNPS.cell_size s') (NNPS.cells s').
Proof.
  unfold NNPS.update.
  apply (for_each_inv
           (λ s, cells_rows_invariant (NNPS.particles s) (NNPS.cell_size s)
                                      (NNPS.cells s))).
  - intros s1 i s2 _ Hs1 Hb.
    apply bind_Some in Hb as (pa & Hpa & Hb).
    rewrite (NNPS_bin_Some _ _ _ _ Hpa) in Hb. simplify_eq.
    cbn [NNPS.set_cells NNPS.particles NNPS.cell_size NNPS.cells].
    apply foldl_inv; [|done]. intros cells r _ Hc.
    by apply NNPS_bin_row_invariant.
  - destruct (NNPS_compute_cell_size_particles (NNPS.set_cells s ∅))
      as (_ & _ & _ & ->).
    apply map_Forall_empty.
Qed.

(** C5, as stated, fails for the serial search: after [NNPS.update] on the
    four particles of Scenario A the cell (0,0) lists two rows of array 0 and
    no global index. *)
Lemma NNPS_update_breaks_cell_invariant :
  ∃ s, NNPS.update scenarioA_nnps0 = Some s
       ∧ ¬ cells_invariant (NNPS.particles s) (NNPS.cell_size s)
                           (NNPS.cells s).
Proof.
  eexists. split; [vm_compute; reflexivity|]. intros H.
  match type of H with
  | cells_invariant ?ps ?cs ?cells =>
      assert (Hc : ∃ c, cells !! cIntPoint_new 0 0 0 = Some c
                        ∧ lindices c !! 0%nat = Some [0; 1]%nat
                        ∧ gindices c !! 0%nat = Some []
                        ∧ ps !! 0%nat = Some scenarioA_pa)
  end.
  { eexists. split; [vm_compute; reflexivity|].
    split; [reflexivity|]. split; reflexivity. }
  destruct Hc as (c & Hc & Hl & Hg & Hpa).
  destruct (H _ _ Hc) as [_ Hinv].
  destruct (Hinv _ _ _ Hpa Hl) as (gind & Hg' & Hlen & _).
  rewrite Hg in Hg'. injection Hg' as <-. discriminate Hlen.
Qed.

(** C5, amended: the binning operations of the parallel manager keep the
    cell invariant (equal lengths of the two index lists, every listed row in
    its cell, global index equal to the [gid] of the row): on a well-formed
    manager [local_bin] (run in parallel) and [update_local_data] complete
    and establish it, and [update_remote_data] completes and preserves it.
    [NNPS.update] completes and establishes the part about rows only: every
    listed row lies in its cell, and the lists of global indices stay
    empty. *)
Theorem binning_cell_invariant :
  (∀ others s,
     PM_wf s → ParallelManager.in_parallel s = true →
     ∃ s', ParallelManager.local_bin others s = Some s'
           ∧ cells_invariant (ParallelManager.particles s')
               (ParallelManager.cell_size s') (ParallelManager.cells s'))
  ∧ (∀ s,
       PM_wf s →
       ∃ s', ParallelManager.update_local_data s = Some s'
             ∧ cells_invariant (ParallelManager.particles s')
                 (ParallelManager.cell_size s') (ParallelManager.cells s'))
  ∧ (∀ s,
       PM_wf s →
       cells_invariant (ParallelManager.particles s)
         (ParallelManager.cell_size s) (ParallelManager.cells s) →
       ∃ s', ParallelManager.update_remote_data s = Some s'
             ∧ cells_invariant (ParallelManager.particles s')
                 (ParallelManager.cell_size s') (ParallelManager.cells s'))
  ∧ (∀ s,
       (NNPS.narrays s ≤ length (NNPS.particles s))%nat →
       ∃ s', NNPS.update s = Some s'
             ∧ cells_rows_invariant (NNPS.particles s') (NNPS.cell_size s')
                 (NNPS.cells s')).
Proof.
  repeat split.
  - intros others s Hwf Hp.
    destruct (PM_local_bin_spec others s Hwf Hp) as (s' & ? & _ & ?).
    by exists s'.
  - intros s Hwf.
    destruct (PM_update_local_data_spec s Hwf) as (s' & ? & _ & _ & ?).
    by exists s'.
  - intros s Hwf Hinv.
    destruct (PM_update_remote_data_spec s Hwf Hinv) as (s' & ? & _ & _ & ?).
    by exists s'.
  - intros s Hn. destruct (NNPS_update_total s Hn) as [s' Hs'].
    exists s'. split; [done|]. by eapply NNPS_update_invariant.
Qed.

(** ** The cell map after binning holds every row once *)

Lemma rows_at_snoc pa cs cid rows i :
  rows_at pa cs cid (rows ++ [i])
  = rows_at pa cs cid rows ++ (if decide (home pa cs i = cid) then [i] else []).
Proof.
  unfold rows_at. by rewrite filter_app.
Qed.

Lemma binned_ext ps cs n idx idx' cells :
  (∀ k, idx k = idx' k) → binned ps cs n idx cells → binned ps cs n idx' cells.
Proof.
  intros He Hb cid k pa Hpa Hk. rewrite <- He. by apply Hb.
Qed.

Lemma NNPS_bin_row_binned ps pa k cs n idx cells i :
  ps !! k = Some pa → (k < n)%nat →
  binned ps cs n idx cells →
  binned ps cs n (λ k', if decide (k' = k) then idx k ++ [i] else idx k')
         (NNPS.bin_row k (w_x pa) (w_y pa) cs n cells i).
Proof.
  intros Hpa Hk Hb cid k' pa' Hpa' Hk'. unfold NNPS.bin_row.
  fold (home pa cs i). rewrite bin_lookup.
  specialize (Hb cid k' pa' Hpa' Hk').
  destruct (decide (cid = home pa cs i)) as [->|Hne].
  - cbn [append_lindex lindices].
    destruct (decide (k' = k)) as [->|Hkk].
    + simplify_eq. rewrite list_lookup_alter_eq, rows_at_snoc.
      rewrite decide_True by done.
      destruct (cells !! home pa cs i) as [c1|]; simpl.
      * by rewrite Hb.
      * rewrite lookup_replicate_2 by done. simpl. by rewrite Hb.
    + rewrite list_lookup_alter_ne by done.
      destruct (cells !! home pa cs i) as [c1|]; simpl; [done|].
      rewrite lookup_replicate_2 by done. by rewrite Hb.
  - destruct (decide (k' = k)) as [->|Hkk]; [|done].
    simplify_eq. rewrite rows_at_snoc, decide_False by done.
    by rewrite app_nil_r.
Qed.

Lemma NNPS_bin_rows_binned ps pa k cs n (indices : list nat) idx cells :
  ps !! k = Some pa → (k < n)%nat →
  binned ps cs n idx cells →
  binned ps cs n (λ k', if decide (k' = k) then idx k ++ indices else idx k')
         (foldl (NNPS.bin_row k (w_x pa) (w_y pa) cs n) cells indices).
Proof.
  intros Hpa Hk. revert idx cells.
  induction indices as [|i indices IH]; intros idx cells Hb; simpl.
  - eapply binned_ext; [|done]. intros k'. case_decide; [|done].
    subst. by rewrite app_nil_r.
  - eapply binned_ext; [|apply IH, NNPS_bin_row_binned; done].
    intros k'. simpl. destruct (decide (k' = k)) as [->|]; [|done].
    rewrite decide_True by done. by rewrite <- app_assoc.
Qed.

Lemma arange_uint_all (n : nat) : arange_uint (Z.of_nat n) (-1) = seq 0 n.
Proof. unfold arange_uint. simpl. by rewrite Nat2Z.id. Qed.

Lemma NNPS_update_loop_binned (m a : nat) (s : NNPS.t) :
  (a + m ≤ length (NNPS.particles s))%nat →
  (a + m ≤ NNPS.narrays s)%nat →
  binned (NNPS.particles s) (NNPS.cell_size s) (NNPS.narrays s)
         (λ k, if decide (k < a)%nat then all_rows (NNPS.particles s) k else [])
         (NNPS.cells s) →
  ∃ s', for_each
          (λ self i,
             pa ← NNPS.particles self !! i;
             NNPS._bin self i
               (arange_uint (Z.of_nat (get_number_of_particles pa)) (-1)))
          (seq a m) s = Some s'
        ∧ NNPS.particles s' = NNPS.particles s
        ∧ NNPS.cell_size s' = NNPS.cell_size s
        ∧ NNPS.narrays s' = NNPS.narrays s
        ∧ NNPS.radius_scale s' = NNPS.radius_scale s
        ∧ binned (NNPS.particles s) (NNPS.cell_size s) (NNPS.narrays s)
            (λ k, if decide (k < a + m)%nat then all_rows (NNPS.particles s) k
                  else [])
            (NNPS.cells s').
Proof.
  revert a s. induction m as [|m IH]; intros a s Hlen Hn Hb.
  - exists s. rewrite Nat.add_0_r. by repeat split.
  - cbn [seq for_each].
    destruct (lookup_lt_is_Some_2 (NNPS.particles s) a) as [pa Hpa]; [lia|].
    rewrite Hpa. cbn [mbind option_bind].
    rewrite (NNPS_bin_Some _ _ _ _ Hpa), arange_uint_all.
    cbn [mbind option_bind].
    destruct (IH (S a)
                (NNPS.set_cells s
                   (foldl (NNPS.bin_row a (w_x pa) (w_y pa) (NNPS.cell_size s)
                             (NNPS.narrays s))
                          (NNPS.cells s) (seq 0 (get_number_of_particles pa)))))
      as (s' & Hs' & Hp & Hc & Hna & Hrs & Hb').
    + simpl. lia.
    + simpl. lia.
    + cbn [NNPS.set_cells NNPS.particles NNPS.cell_size NNPS.narrays NNPS.cells].
      eapply binned_ext;
        [|apply (NNPS_bin_rows_binned _ pa a); [done|lia|exact Hb]].
      intros k. simpl. destruct (decide (k = a)) as [->|Hne].
      * destruct (decide (a < a)%nat); [lia|].
        destruct (decide (a < S a)%nat); [|lia].
        unfold all_rows. by rewrite Hpa.
      * destruct (decide (k < a)%nat); destruct (decide (k < S a)%nat);
          done || lia.
    + exists s'. split; [done|]. repeat split; try done.
      eapply binned_ext; [|exact Hb']. intros k.
      cbn beta. repeat case_decide; done || lia.
Qed.

Lemma NNPS_update_current s :
  NNPS.narrays s = length (NNPS.particles s) →
  ∃ s', NNPS.update s = Some s'
        ∧ NNPS.particles s' = NNPS.particles s
        ∧ NNPS.narrays s' = NNPS.narrays s
        ∧ NNPS.radius_scale s' = NNPS.radius_scale s
        ∧ NNPS.cell_size s' = NNPS.cell_size (NNPS._compute_cell_size s)
        ∧ current (NNPS.particles s') (NNPS.cell_size s') (NNPS.narrays s')
                  (NNPS.cells s').
Proof.
  intros Hn. unfold NNPS.update.
  set (s0 := NNPS._compute_cell_size (NNPS.set_cells s ∅)).
  destruct (NNPS_compute_cell_size_particles (NNPS.set_cells s ∅))
    as (Hp & Hna & Hrs & Hc).
  fold s0 in Hp, Hna, Hrs, Hc.
  cbn [NNPS.set_cells NNPS.particles NNPS.narrays NNPS.radius_scale
       NNPS.cells] in Hp, Hna, Hrs, Hc.
  assert (Hcs : NNPS.cell_size s0 = NNPS.cell_size (NNPS._compute_cell_size s)).
  { unfold s0, NNPS._compute_cell_size. simpl. by destruct (Qltb _ _). }
  destruct (NNPS_update_loop_binned (NNPS.narrays s0) 0 s0)
    as (s' & Hs' & Hp' & Hc' & Hna' & Hrs' & Hb).
  - rewrite Hp, Hna. simpl. lia.
  - simpl. lia.
  - intros cid k pa Hpa Hk. rewrite Hc, lookup_empty. by simpl.
  - exists s'. split; [exact Hs'|].
    split; [congruence|]. split; [congruence|]. split; [congruence|].
    split; [congruence|].
    unfold current. rewrite Hp', Hc', Hna'.
    eapply binned_ext; [|exact Hb]. intros k. cbn beta.
    destruct (decide (k < 0 + NNPS.narrays s0)%nat); [done|].
    unfold all_rows. rewrite lookup_ge_None_2; [done|]. rewrite Hp, <- Hn. lia.
Qed.

(** ** Neighbours lie in the 3x3 block *)

Lemma Qsq_nonneg (q : Q) : (0 <= q * q)%Q.
Proof. nra. Qed.

Lemma sq_lt_abs (d r c : Q) :
  (0 < r)%Q → (r <= c)%Q → (d * d < r * r)%Q → (- c < d ∧ d < c)%Q.
Proof.
  intros Hr Hrc Hd.
  assert (Hlt : (- r < d ∧ d < r)%Q).
  { split.
    - destruct (Qlt_le_dec (- r) d) as [|Hle]; [assumption|]. exfalso.
      assert (r * r <= d * d)%Q by nra. lra.
    - destruct (Qlt_le_dec d r) as [|Hle]; [assumption|]. exfalso.
      assert (r * r <= d * d)%Q by nra. lra. }
  lra.
Qed.

Lemma floor_near (a b c : Q) :
  (0 < c)%Q → (- c < a - b)%Q → (a - b < c)%Q →
  Qfloor (b / c) - 1 <= Qfloor (a / c) <= Qfloor (b / c) + 1.
Proof.
  intros Hc H1 H2.
  pose proof (Qfloor_le (a / c)) as Ha1. pose proof (Qlt_floor (a / c)) as Ha2.
  pose proof (Qfloor_le (b / c)) as Hb1. pose proof (Qlt_floor (b / c)) as Hb2.
  assert (Hab1 : (a / c < b / c + 1)%Q).
  { apply Qlt_shift_div_r; [assumption|].
    assert (He : ((b / c + 1) * c == b + c)%Q) by (field; lra).
    rewrite He. lra. }
  assert (Hab2 : (b / c < a / c + 1)%Q).
  { apply Qlt_shift_div_r; [assumption|].
    assert (He : ((a / c + 1) * c == a + c)%Q) by (field; lra).
    rewrite He. lra. }
  rewrite inject_Z_plus in Ha2, Hb2.
  change (inject_Z 1) with 1%Q in Ha2, Hb2.
  assert (Hz1 : (inject_Z (Qfloor (a / c)) < inject_Z (Qfloor (b / c) + 2))%Q).
  { rewrite inject_Z_plus. change (inject_Z 2) with 2%Q. lra. }
  assert (Hz2 : (inject_Z (Qfloor (b / c)) < inject_Z (Qfloor (a / c) + 2))%Q).
  { rewrite inject_Z_plus. change (inject_Z 2) with 2%Q. lra. }
  rewrite <- Zlt_Qlt in Hz1, Hz2. lia.
Qed.

Lemma elem_of_block3x3 (cid c : cIntPoint) :
  c ∈ block3x3 cid
  ↔ iz c = 0 ∧ ix cid - 1 <= ix c <= ix cid + 1
    ∧ iy cid - 1 <= iy c <= iy cid + 1.
Proof.
  unfold block3x3. cbn [mbind list_bind app].
  rewrite !elem_of_cons, elem_of_nil. destruct c as [x y z]. simpl. split.
  - intros H. repeat (destruct H as [H|H]); simplify_eq; lia.
  - intros (-> & Hx & Hy).
    assert (Hx' : x = ix cid - 1 ∨ x = ix cid ∨ x = ix cid + 1) by lia.
    assert (Hy' : y = iy cid - 1 ∨ y = iy cid ∨ y = iy cid + 1) by lia.
    destruct Hx' as [->|[->| ->]]; destruct Hy' as [->|[->| ->]]; tauto.
Qed.

Lemma NoDup_block3x3 (cid : cIntPoint) : NoDup (block3x3 cid).
Proof.
  unfold block3x3. cbn [mbind list_bind app].
  repeat (apply NoDup_cons; split;
          [rewrite ?elem_of_cons, elem_of_nil; intros H;
           repeat (destruct H as [H|H]); simplify_eq; lia|]).
  apply NoDup_nil_2.
Qed.

Lemma distance_lt_block (xi xj : cPoint) (r cs : Q) :
  distance_lt xi xj r = true → (r <= cs)%Q →
  find_cell_id xj cs ∈ block3x3 (find_cell_id xi cs).
Proof.
  unfold distance_lt. intros [Hr Hd]%andb_prop Hrc.
  apply Qltb_lt in Hr, Hd. unfold cPoint_distance2 in Hd.
  assert (Hc : (0 < cs)%Q) by lra.
  pose proof (Qsq_nonneg (px xi - px xj)) as Hsx.
  pose proof (Qsq_nonneg (py xi - py xj)) as Hsy.
  pose proof (Qsq_nonneg (pz xi - pz xj)) as Hsz.
  assert (Hx : ((px xj - px xi) * (px xj - px xi) < r * r)%Q) by lra.
  assert (Hy : ((py xj - py xi) * (py xj - py xi) < r * r)%Q) by lra.
  destruct (sq_lt_abs _ _ _ Hr Hrc Hx) as [Hx1 Hx2].
  destruct (sq_lt_abs _ _ _ Hr Hrc Hy) as [Hy1 Hy2].
  apply elem_of_block3x3. unfold find_cell_id, real_to_int. simpl.
  split; [done|]. split; by apply floor_near.
Qed.

Lemma scaled_lookup_le (rs cs : Q) (l : list Q) (j : nat) :
  (0 < cs)%Q → (∀ h, h ∈ l → (rs * h <= cs)%Q) → (rs * (l !!! j) <= cs)%Q.
Proof.
  intros Hc Hl. rewrite list_lookup_total_alt.
  destruct (l !! j) as [h|] eqn:Hj; simpl.
  - apply Hl. by eapply list_elem_of_lookup_2.
  - unfold inhabitant, Q_inhabited. simpl. lra.
Qed.

(** ** The neighbour query returns the neighbour set *)

Lemma block_rows_current ps cs n cells src pa (block : list cIntPoint) :
  current ps cs n cells → ps !! src = Some pa → (src < n)%nat →
  block_rows cells src block
  = Some (concat ((λ cid, rows_at pa cs cid (all_rows ps src)) <$> block)).
Proof.
  intros Hcur Hpa Hsrc. unfold block_rows.
  assert (Hm : mapM (λ cellid,
                       match cells !! cellid with
                       | None => Some []
                       | Some cell => lindices cell !! src
                       end) block
               = Some ((λ cid, rows_at pa cs cid (all_rows ps src)) <$> block)).
  { induction block as [|cid block IH]; [done|].
    cbn [mapM fmap list_fmap]. rewrite IH.
    specialize (Hcur cid src pa Hpa Hsrc).
    destruct (cells !! cid) as [c|]; by rewrite Hcur. }
  by rewrite Hm.
Qed.

Lemma elem_of_rows_at pa cs cid rows j :
  j ∈ rows_at pa cs cid rows ↔ home pa cs j = cid ∧ j ∈ rows.
Proof. unfold rows_at. by rewrite list_elem_of_filter. Qed.

Lemma elem_of_block_rows pa cs (rows : list nat) (block : list cIntPoint) j :
  j ∈ concat ((λ cid, rows_at pa cs cid rows) <$> block)
  ↔ j ∈ rows ∧ home pa cs j ∈ block.
Proof.
  induction block as [|cid block IH]; simpl.
  - rewrite !elem_of_nil. tauto.
  - rewrite elem_of_app, IH, elem_of_rows_at, elem_of_cons. split.
    + intros [[<- ?]|[? ?]]; auto.
    + intros [? [<-|?]]; auto.
Qed.

Lemma NoDup_block_rows pa cs (rows : list nat) (block : list cIntPoint) :
  NoDup rows → NoDup block →
  NoDup (concat ((λ cid, rows_at pa cs cid rows) <$> block)).
Proof.
  intros Hrows. induction 1 as [|cid block Hnot Hnd IH]; simpl.
  - apply NoDup_nil_2.
  - apply NoDup_app. split; [by apply NoDup_filter|]. split; [|done].
    intros j [Hh _]%elem_of_rows_at [_ Hb]%elem_of_block_rows. congruence.
Qed.

Lemma elem_of_all_rows ps k pa j :
  ps !! k = Some pa → j ∈ all_rows ps k ↔ (j < get_number_of_particles pa)%nat.
Proof.
  intros Hpa. unfold all_rows. rewrite Hpa, elem_of_seq. lia.
Qed.

Lemma NoDup_all_rows ps k : NoDup (all_rows ps k).
Proof.
  unfold all_rows. destruct (ps !! k); [apply NoDup_seq|apply NoDup_nil_2].
Qed.

(** With a covering cell size, a row that passes the test of the query lies
    in the 3x3 block of the destination point. *)
Lemma is_neighbor_block ps rs cs src pa xi hi z j :
  covers ps rs cs → ps !! src = Some pa → (hi <= cs)%Q →
  is_neighbor rs (w_h pa) xi hi
    (λ j, cPoint_new (w_x pa !!! j) (w_y pa !!! j) (z j)) j = true →
  home pa cs j ∈ block3x3 (find_cell_id xi cs).
Proof.
  intros [Hc Hcov] Hpa Hhi. unfold is_neighbor.
  intros [Hd|Hd]%orb_prop.
  - apply (distance_lt_block _ _ _ cs) in Hd; done.
  - apply (distance_lt_block _ _ _ cs) in Hd; [done|].
    apply scaled_lookup_le; [done|]. intros h Hh. eapply Hcov; [|done].
    by eapply list_elem_of_lookup_2.
Qed.

Lemma NNPS_query_exact s src dst d_idx nbrs srcpa dstpa :
  NNPS.narrays s = length (NNPS.particles s) →
  current (NNPS.particles s) (NNPS.cell_size s) (NNPS.narrays s) (NNPS.cells s) →
  covers (NNPS.particles s) (NNPS.radius_scale s) (NNPS.cell_size s) →
  NNPS.particles s !! src = Some srcpa →
  NNPS.particles s !! dst = Some dstpa →
  let xi := cPoint_new (w_x dstpa !!! d_idx) (w_y dstpa !!! d_idx)
                       (w_z dstpa !!! d_idx) in
  let hi := (NNPS.radius_scale s * (w_h dstpa !!! d_idx))%Q in
  let xj j := cPoint_new (w_x srcpa !!! j) (w_y srcpa !!! j)
                         (w_z srcpa !!! j) in
  ∃ s' out,
    NNPS.get_nearest_particles s src dst d_idx nbrs = Some (s', out)
    ∧ NNPS.cells s' = NNPS.cells s
    ∧ NoDup out
    ∧ ∀ j, j ∈ out
           ↔ (j < get_number_of_particles srcpa)%nat
             ∧ is_neighbor (NNPS.radius_scale s) (w_h srcpa) xi hi xj j = true.
Proof.
  intros Hn Hcur Hcov Hsrc Hdst xi hi xj.
  assert (Hk : (src < NNPS.narrays s)%nat).
  { rewrite Hn. by eapply lookup_lt_Some. }
  unfold NNPS.get_nearest_particles. rewrite Hsrc, Hdst.
  cbn [mbind option_bind]. fold xi hi xj.
  set (visit := visit_row (NNPS.radius_scale s) (w_h srcpa) xi hi xj).
  set (b0 := mkBuf nbrs 0 (NNPS.console s)).
  set (block := block3x3 (find_cell_id xi (NNPS.cell_size s))).
  assert (Hblock : block = block3x3 (find_cell_id xi (NNPS.cell_size s)))
    by done.
  clearbody block.
  destruct (visit_block_total (NNPS.radius_scale s) (w_h srcpa) xi hi xj
              (NNPS.cells s) src block b0) as [b Hb].
  { intros cid c Hc. specialize (Hcur cid src srcpa Hsrc Hk).
    rewrite Hc in Hcur. by rewrite Hcur. }
  fold visit in Hb. rewrite Hb. cbn [mbind option_bind].
  destruct (visit_block_written (NNPS.radius_scale s) (w_h srcpa) xi hi xj
              (NNPS.cells s) src block b0 b) as (rows & Hrows & _ & Hw);
    [unfold buffer_ok; simpl; lia|done|].
  rewrite (block_rows_current _ _ _ _ _ _ block Hcur Hsrc Hk) in Hrows.
  injection Hrows as <-.
  change (written b0) with (@nil nat) in Hw. rewrite app_nil_l in Hw.
  unfold written in Hw.
  eexists _, _. split; [done|]. split; [done|]. rewrite Hw. split.
  - apply NoDup_filter, NoDup_block_rows;
      [apply NoDup_all_rows|rewrite Hblock; apply NoDup_block3x3].
  - intros j. rewrite list_elem_of_filter, elem_of_block_rows, Hblock.
    rewrite (elem_of_all_rows _ _ _ _ Hsrc). split; [tauto|].
    intros [Hj Ht]. split; [done|]. split; [done|].
    eapply (is_neighbor_block _ _ _ src srcpa xi hi (λ j, w_z srcpa !!! j));
      [done|done| |done].
    apply scaled_lookup_le; [apply Hcov|]. intros h Hh.
    eapply Hcov; [|done]. by eapply list_elem_of_lookup_2.
Qed.

Lemma NNPS_update_covers s s' :
  NNPS.narrays s = length (NNPS.particles s) →
  (0 <= NNPS.radius_scale s)%Q →
  NNPS.update s = Some s' →
  covers (NNPS.particles s') (NNPS.radius_scale s') (NNPS.cell_size s').
Proof.
  intros Hn Hrs Hu.
  destruct (NNPS_update_current s Hn) as (s1 & Hs1 & Hp & _ & Hr & Hc & _).
  rewrite Hu in Hs1. injection Hs1 as <-. rewrite Hp, Hr, Hc.
  pose proof (NNPS_compute_cell_size_rule s) as Hrule.
  destruct (cell_size_rule_floor _ _ _ _ _ _ Hrule) as [Hfl Hle].
  apply Qltb_ge in Hfl. split.
  - eapply Qlt_le_trans; [|exact Hfl]. reflexivity.
  - intros pa h Hpa Hh.
    pose proof (proj2 (foldl_hmax_ge (NNPS.particles s) (-1.0)%Q) pa h Hpa Hh)
      as Hb.
    fold (NNPS_hmax s) in Hb.
    eapply Qle_trans; [|exact Hle].
    rewrite (Qmult_comm _ h), (Qmult_comm _ (NNPS_hmax s)).
    by apply Qmult_le_compat_r.
Qed.

(** The serial query is exact after [update]: with a non-negative radius
    scale, the query for destination row [d_idx] completes and returns every
    row [j] of the source array with [d < hi] or [d < hj], each once, and
    nothing else. *)
Theorem NNPS_nearest_exact s0 s src dst d_idx nbrs srcpa dstpa :
  NNPS.narrays s0 = length (NNPS.particles s0) →
  (0 <= NNPS.radius_scale s0)%Q →
  NNPS.update s0 = Some s →
  NNPS.particles s !! src = Some srcpa →
  NNPS.particles s !! dst = Some dstpa →
  let xi := cPoint_new (w_x dstpa !!! d_idx) (w_y dstpa !!! d_idx)
                       (w_z dstpa !!! d_idx) in
  let hi := (NNPS.radius_scale s * (w_h dstpa !!! d_idx))%Q in
  let xj j := cPoint_new (w_x srcpa !!! j) (w_y srcpa !!! j)
                         (w_z srcpa !!! j) in
  ∃ s' out,
    NNPS.get_nearest_particles s src dst d_idx nbrs = Some (s', out)
    ∧ NNPS.cells s' = NNPS.cells s
    ∧ NoDup out
    ∧ ∀ j, j ∈ out
           ↔ (j < get_number_of_particles srcpa)%nat
             ∧ is_neighbor (NNPS.radius_scale s) (w_h srcpa) xi hi xj j = true.
Proof.
  intros Hn Hrs Hu Hsrc Hdst.
  pose proof (NNPS_update_covers _ _ Hn Hrs Hu) as Hcov.
  destruct (NNPS_update_current s0 Hn) as (s1 & Hs1 & Hp & Hna & _ & _ & Hcur).
  rewrite Hu in Hs1. injection Hs1 as <-.
  apply NNPS_query_exact; try done. by rewrite Hna, Hp.
Qed.

(** ** Scenarios *)

Lemma NNPS_query_rows s src dst d_idx nbrs srcpa dstpa :
  NNPS.narrays s = length (NNPS.particles s) →
  current (NNPS.particles s) (NNPS.cell_size s) (NNPS.narrays s) (NNPS.cells s) →
  NNPS.particles s !! src = Some srcpa →
  NNPS.particles s !! dst = Some dstpa →
  let xi := cPoint_new (w_x dstpa !!! d_idx) (w_y dstpa !!! d_idx)
                       (w_z dstpa !!! d_idx) in
  let hi := (NNPS.radius_scale s * (w_h dstpa !!! d_idx))%Q in
  let xj j := cPoint_new (w_x srcpa !!! j) (w_y srcpa !!! j)
                         (w_z srcpa !!! j) in
  ∃ s',
    NNPS.get_nearest_particles s src dst d_idx nbrs
    = Some (s',
            filter (λ j, is_neighbor (NNPS.radius_scale s) (w_h srcpa) xi hi
                                     xj j = true)
              (concat ((λ cid, rows_at srcpa (NNPS.cell_size s) cid
                                       (all_rows (NNPS.particles s) src))
                       <$> block3x3 (find_cell_id xi (NNPS.cell_size s))))).
Proof.
  intros Hn Hcur Hsrc Hdst xi hi xj.
  assert (Hk : (src < NNPS.narrays s)%nat).
  { rewrite Hn. by eapply lookup_lt_Some. }
  unfold NNPS.get_nearest_particles. rewrite Hsrc, Hdst.
  cbn [mbind option_bind]. fold xi hi xj.
  set (b0 := mkBuf nbrs 0 (NNPS.console s)).
  set (block := block3x3 (find_cell_id xi (NNPS.cell_size s))).
  clearbody block.
  destruct (visit_block_total (NNPS.radius_scale s) (w_h srcpa) xi hi xj
              (NNPS.cells s) src block b0) as [b Hb].
  { intros cid c Hc. specialize (Hcur cid src srcpa Hsrc Hk).
    rewrite Hc in Hcur. by rewrite Hcur. }
  rewrite Hb. cbn [mbind option_bind].
  destruct (visit_block_written (NNPS.radius_scale s) (w_h srcpa) xi hi xj
              (NNPS.cells s) src block b0 b) as (rows & Hrows & _ & Hw);
    [unfold buffer_ok; simpl; lia|done|].
  rewrite (block_rows_current _ _ _ _ _ _ block Hcur Hsrc Hk) in Hrows.
  injection Hrows as <-.
  change (written b0) with (@nil nat) in Hw. rewrite app_nil_l in Hw.
  unfold written in Hw. rewrite Hw. by eexists.
Qed.

(** The search object of Scenario A: the constructor returns it, with a
    current cell map. *)
Lemma scenarioA_nnps_current :
  ∃ s, scenarioA_nnps = Some s
       ∧ NNPS.particles s = [scenarioA_pa]
       ∧ NNPS.narrays s = 1%nat
       ∧ NNPS.radius_scale s = 2.0%Q
       ∧ (NNPS.cell_size s == 1)%Q
       ∧ rows_of 0 (NNPS.cells s) = scenarioA_rows
       ∧ current (NNPS.particles s) (NNPS.cell_size s) (NNPS.narrays s)
                 (NNPS.cells s).
Proof.
  unfold scenarioA_nnps, NNPS.init.
  match goal with
  | |- ∃ s, NNPS.update ?s0 = _ ∧ _ =>
      destruct (NNPS_update_current s0 eq_refl)
        as (s & Hs & Hp & Hn & Hr & Hc & Hcur)
  end.
  exists s. split; [exact Hs|]. split; [exact Hp|]. split; [exact Hn|].
  split; [exact Hr|]. split; [rewrite Hc; vm_compute; reflexivity|].
  split; [|exact Hcur].
  vm_compute in Hs. injection Hs as <-. vm_compute. reflexivity.
Qed.

(** C6, as stated, fails: the query for row 0 of Scenario A completes and
    does not return the set {0, 1, 3}; row 3 is farther from row 0 than the
    kernel radius. *)
Lemma scenarioB_not_013 :
  ∃ s r, scenarioA_nnps = Some s
         ∧ NNPS.get_nearest_particles s 0 0 0 [] = Some r
         ∧ ¬ scenarioB_claim r.2.
Proof.
  eexists _, _. split; [vm_compute; reflexivity|].
  split; [vm_compute; reflexivity|].
  intros Hclaim.
  assert (H3 : 3%nat ∈ [0; 1]%nat).
  { apply Hclaim. do 2 right. left. }
  rewrite !elem_of_cons, elem_of_nil in H3.
  destruct H3 as [H3|[H3|[]]]; discriminate H3.
Qed.

(** C6, amended: with the state of Scenario A and an up-to-date cell map the
    query for row 0 of array 0 returns exactly the rows 0 and 1, whatever the
    array passed in for the result holds; the manager on two ranks, the other
    without particles, returns the same rows. *)
Theorem scenarioB_neighbors (nbrs : list nat) :
  (∃ s s', scenarioA_nnps = Some s
           ∧ NNPS.get_nearest_particles s 0 0 0 nbrs = Some (s', [0; 1]%nat))
  ∧ (∃ m r, ParallelManager.local_bin [empty_rank_bounds] (scenarioA_pm 2)
            = Some m
            ∧ ParallelManager.get_nearest_particles m 0 0 0 [] = Some r
            ∧ r.2 = [0; 1]%nat).
Proof.
  split.
  - destruct scenarioA_nnps_current
      as (s & Hs & Hp & Hn & Hr & Hc & _ & Hcur).
    assert (Hsrc : NNPS.particles s !! 0%nat = Some scenarioA_pa)
      by (by rewrite Hp).
    destruct (NNPS_query_rows s 0 0 0 nbrs scenarioA_pa scenarioA_pa)
      as (s' & Hq); [by rewrite Hn, Hp|done|done|done|].
    exists s, s'. split; [done|]. rewrite Hq. f_equal. f_equal.
    rewrite Hp, Hr.
    assert (Hcs : NNPS.cell_size s = (2.0 * 0.5)%Q).
    { vm_compute in Hs. by injection Hs as <-. }
    rewrite Hcs. vm_compute. reflexivity.
  - eexists _, _. split; [vm_compute; reflexivity|].
    split; [vm_compute; reflexivity|]. reflexivity.
Qed.

(** C7: on Scenario A the serial search computes the cell size 1.0 and the
    cells (0,0), (1,0), (0,1) holding the rows {0,1}, {2}, {3}, and so does
    [local_bin] of the manager when it runs in parallel (two ranks, the
    other without particles); on a single rank [local_bin] raises in
    [_compute_bounds] before any cell is made. *)
Theorem scenarioA_binning :
  (∃ s, NNPS.init 2 [scenarioA_pa] 2.0 1 None = Some s
        ∧ (NNPS.cell_size s == 1)%Q
        ∧ rows_of 0 (NNPS.cells s) = scenarioA_rows)
  ∧ (∃ m, ParallelManager.local_bin [empty_rank_bounds] (scenarioA_pm 2)
          = Some m
          ∧ (ParallelManager.cell_size m == 1)%Q
          ∧ rows_of 0 (ParallelManager.cells m) = scenarioA_rows)
  ∧ ParallelManager.in_parallel (scenarioA_pm 1) = false
  ∧ ParallelManager.local_bin [] (scenarioA_pm 1) = None.
Proof.
  split; [|split; [|split]].
  - eexists. split; [vm_compute; reflexivity|]. split; vm_compute; reflexivity.
  - eexists. split; [vm_compute; reflexivity|]. split; vm_compute; reflexivity.
  - reflexivity.
  - vm_compute. reflexivity.
Qed.

(** C1: for two particles 0.7 apart with smoothing lengths 0.1 and 0.5 and
    radius scale 2, row 1 is a neighbour of row 0 by the criterion
    [d < hi or d < hj] (0.7 < 2 * 0.5) and [get_nearest_particles] returns
    rows 0 and 1, while [brute_force_neighbors], which compares with the
    unscaled [hj], returns row 0 only. *)
Theorem brute_force_misses_neighbor :
  ∃ s s', two_nnps = Some s
          ∧ NNPS.get_nearest_particles s 0 0 0 [] = Some (s', [0; 1]%nat)
          ∧ is_neighbor 2.0 (w_h two_pa)
              (cPoint_new 0 0 0) (2.0 * 0.1)
              (λ j, cPoint_new (w_x two_pa !!! j) (w_y two_pa !!! j)
                               (w_z two_pa !!! j)) 1 = true
          ∧ NNPS.brute_force_neighbors s 0 0 0 [] = Some [0%nat].
Proof.
  eexists _, _. split; [vm_compute; reflexivity|].
  split; [vm_compute; reflexivity|].
  split; vm_compute; reflexivity.
Qed.

(** ** Global ids are dense *)

Lemma zrange_app (a b c : Z) :
  a <= b <= c → zrange a b ++ zrange b c = zrange a c.
Proof.
  intros Habc. unfold zrange.
  replace (Z.to_nat (c - a)) with (Z.to_nat (b - a) + Z.to_nat (c - b))%nat
    by lia.
  rewrite seq_app, fmap_app. f_equal. cbn [Nat.add].
  assert (seq (Z.to_nat (b - a)) (Z.to_nat (c - b))
          = Nat.add (Z.to_nat (b - a)) <$> seq 0 (Z.to_nat (c - b))) as ->.
  { rewrite fmap_add_seq. f_equal. lia. }
  rewrite <- list_fmap_compose.
  apply list_fmap_ext. intros _ k _. simpl. lia.
Qed.

Lemma zrange_shift (p n : Z) :
  (λ i, p + i) <$> zrange 0 n = zrange p (p + n).
Proof.
  unfold zrange. rewrite <- list_fmap_compose.
  replace (p + n - p) with (n - 0) by lia.
  apply list_fmap_ext. intros _ k _. simpl. lia.
Qed.

Lemma zrange_bounds (a b v : Z) : v ∈ zrange a b → a <= v < b.
Proof.
  unfold zrange. intros (k & -> & Hk%elem_of_seq)%list_elem_of_fmap. lia.
Qed.

Lemma sum_list_Z_app (l k : list Z) :
  sum_list_Z (l ++ k) = sum_list_Z l + sum_list_Z k.
Proof. induction l as [|a l IH]; simpl; [done|]. rewrite IH. lia. Qed.

Lemma sum_list_Z_nonneg (l : list Z) :
  Forall (λ n, 0 <= n) l → 0 <= sum_list_Z l.
Proof. induction 1; simpl; lia. Qed.

Lemma ranks_from_counts r world :
  ranks_from r world →
  Forall (λ n, 0 <= n) (get_num_objects_per_proc world).
Proof.
  revert r. induction world as [|e w IH]; intros r; simpl; [done|].
  intros [(_ & Hn & _) Hw]. constructor; [done|]. by eapply IH.
Qed.

Lemma as_int_Some v :
  0 <= v <= INT_MAX →
  as_int v = Some v.
Proof.
  intros Hv. unfold as_int.
  unfold INT_MIN, INT_MAX in *.
  destruct (Z.leb_spec (- 2 ^ 31) v); [|lia].
  destruct (Z.leb_spec v (2 ^ 31 - 1)); [done|lia].
Qed.

(** One rank: with the counts [before ++ n :: after] gathered and [before]
    holding the counts of the lower ranks, the rank with count [n] gets the
    ids from [sum before] on. *)
Lemma update_particle_gids_rank (before after : list Z) e :
  ParticleArrayExchange.rank e = Z.of_nat (length before) →
  has_gid (ParticleArrayExchange.pa e) →
  Forall (λ n, 0 <= n) (before ++ ParticleArrayExchange.num_local e :: after) →
  sum_list_Z (before ++ ParticleArrayExchange.num_local e :: after)
    <= INT_MAX →
  ∃ e', ParticleArrayExchange.update_particle_gids
          (before ++ ParticleArrayExchange.num_local e :: after) e = Some e'
        ∧ w_gid (ParticleArrayExchange.pa e')
          = zrange (sum_list_Z before)
                   (sum_list_Z before + ParticleArrayExchange.num_local e)
        ∧ ParticleArrayExchange.num_local e' = ParticleArrayExchange.num_local e
        ∧ ParticleArrayExchange.rank e' = ParticleArrayExchange.rank e
        ∧ ParticleArrayExchange.num_global e'
          = sum_list_Z (before ++ ParticleArrayExchange.num_local e :: after).
Proof.
  intros Hr Hg Hpos Hsum.
  unfold ParticleArrayExchange.update_particle_gids.
  rewrite Hr, Nat2Z.id.
  rewrite lookup_app_r, Nat.sub_diag by lia. cbn [lookup list_lookup].
  cbn [mbind option_bind].
  apply Forall_app in Hpos as [Hb Hpos].
  apply Forall_cons in Hpos as [Hn Ha].
  pose proof (sum_list_Z_nonneg _ Hb) as Hb0.
  pose proof (sum_list_Z_nonneg _ Ha) as Ha0.
  rewrite sum_list_Z_app in Hsum |- *. cbn [sum_list_Z foldr] in Hsum |- *.
  fold (sum_list_Z after) in Hsum |- *.
  unfold INT_MAX in Hsum.
  rewrite (as_int_Some (sum_list_Z before
                        + (ParticleArrayExchange.num_local e
                           + sum_list_Z after)))
    by (unfold INT_MAX; lia).
  cbn [mbind option_bind].
  rewrite take_app_length.
  rewrite (as_int_Some (sum_list_Z before)) by (unfold INT_MAX; lia).
  cbn [mbind option_bind].
  unfold has_gid in Hg.
  destruct (get_carray (ParticleArrayExchange.pa e) "gid") as [[| d | |]|];
    try done.
  eexists. split; [reflexivity|].
  cbn [ParticleArrayExchange.set_num_global ParticleArrayExchange.set_pa
       ParticleArrayExchange.pa ParticleArrayExchange.num_local
       ParticleArrayExchange.rank ParticleArrayExchange.num_global].
  split; [|done].
  unfold w_gid, uints, get_carray. cbn [pa_props].
  rewrite lookup_insert_eq. rewrite <- zrange_shift.
  apply list_fmap_ext. intros _ i Hi%list_elem_of_lookup_2%zrange_bounds.
  unfold to_ZOLTAN_ID_TYPE.
  apply Z.mod_small. lia.
Qed.

Lemma update_particle_gids_suffix (before : list Z) world counts :
  counts = before ++ get_num_objects_per_proc world →
  ranks_from (length before) world →
  Forall (λ n, 0 <= n) counts →
  sum_list_Z counts <= INT_MAX →
  ∃ world',
    mapM (ParticleArrayExchange.update_particle_gids counts) world
    = Some world'
    ∧ Forall2 (λ e e',
         ParticleArrayExchange.num_local e' = ParticleArrayExchange.num_local e
         ∧ ParticleArrayExchange.rank e' = ParticleArrayExchange.rank e
         ∧ ParticleArrayExchange.num_global e' = sum_list_Z counts
         ∧ w_gid (ParticleArrayExchange.pa e')
           = zrange (sum_list_Z (take (Z.to_nat (ParticleArrayExchange.rank e))
                                      counts))
                    (sum_list_Z (take (Z.to_nat (ParticleArrayExchange.rank e))
                                      counts)
                     + ParticleArrayExchange.num_local e))
         world world'
    ∧ all_gids world' = zrange (sum_list_Z before) (sum_list_Z counts).
Proof.
  revert before. induction world as [|e w IH]; intros before -> Hr Hpos Hsum.
  - exists []. split; [done|]. split; [constructor|].
    unfold get_num_objects_per_proc. simpl. rewrite app_nil_r.
    unfold zrange. by rewrite Z.sub_diag.
  - destruct Hr as [(Hrank & Hn & Hg) Hw].
    unfold get_num_objects_per_proc in *. cbn [fmap list_fmap] in *.
    destruct (update_particle_gids_rank before
                (ParticleArrayExchange.num_local <$> w) e Hrank Hg Hpos Hsum)
      as (e' & He' & Hgid & Hnl & Hrk & Hng).
    destruct (IH (before ++ [ParticleArrayExchange.num_local e]))
      as (w' & Hw' & HF & Hall).
    + by rewrite <- app_assoc.
    + rewrite length_app. simpl. by rewrite Nat.add_1_r.
    + done.
    + done.
    + exists (e' :: w'). cbn [mapM]. rewrite He'. cbn [mbind option_bind].
      rewrite Hw'. cbn [mbind option_bind mret option_ret].
      split; [done|]. split.
      * constructor; [|done]. repeat split; try done.
        rewrite Hrank, Nat2Z.id, take_app_length. exact Hgid.
      * unfold all_gids in *. cbn [fmap list_fmap concat].
        rewrite Hall, Hgid. rewrite sum_list_Z_app. cbn [sum_list_Z foldr].
        rewrite Z.add_0_r. apply zrange_app.
        apply Forall_app in Hpos as [Hb Hpos].
        apply Forall_cons in Hpos as [_ Ha].
        pose proof (sum_list_Z_nonneg _ Ha) as Ha0.
        rewrite sum_list_Z_app. cbn [sum_list_Z foldr].
        fold (sum_list_Z (ParticleArrayExchange.num_local <$> w)). lia.
Qed.

(** C3: when every rank calls [update_particle_gids] (the ranks numbered in
    order, the total count within the range of a C [int]), every call
    completes, rank [r] gets the ids from [sum(counts[0:r])] up to
    [sum(counts[0:r]) + counts[r]] in row order, and the ids of all ranks
    taken together are 0, 1, ..., total - 1, each once. *)
Theorem update_particle_gids_dense (world : list ParticleArrayExchange.t) :
  ranks_from 0 world →
  sum_list_Z (get_num_objects_per_proc world) <= INT_MAX →
  let counts := get_num_objects_per_proc world in
  ∃ world',
    update_particle_gids_all world = Some world'
    ∧ Forall2 (λ e e',
         w_gid (ParticleArrayExchange.pa e')
         = zrange (sum_list_Z (take (Z.to_nat (ParticleArrayExchange.rank e))
                                    counts))
                  (sum_list_Z (take (Z.to_nat (ParticleArrayExchange.rank e))
                                    counts)
                   + ParticleArrayExchange.num_local e))
         world world'
    ∧ all_gids world' = zrange 0 (sum_list_Z counts)
    ∧ NoDup (all_gids world').
Proof.
  intros Hr Hsum counts.
  destruct (update_particle_gids_suffix [] world counts)
    as (world' & Hw' & HF & Hall); try done.
  { by eapply ranks_from_counts. }
  exists world'. split; [done|]. split.
  - eapply Forall2_impl; [exact HF|]. intros e e' (_ & _ & _ & H). exact H.
  - split; [exact Hall|]. rewrite Hall. unfold zrange.
    apply NoDup_fmap_2; [|apply NoDup_seq]. intros a b. lia.
Qed.

(** Scenario D: two ranks with four rows each get the ids 0..3 and 4..7. *)
Lemma update_particle_gids_dense_witness :
  ∃ world', update_particle_gids_all two_ranks = Some world'
            ∧ all_gids world' = [0; 1; 2; 3; 4; 5; 6; 7].
Proof.
  destruct (update_particle_gids_dense two_ranks) as (world' & Hw & _ & Hall & _).
  - simpl. unfold has_gid. repeat split; try lia; vm_compute; done.
  - vm_compute. discriminate.
  - exists world'. split; [exact Hw|]. rewrite Hall. reflexivity.
Defined.

(** ** Exchanges *)

(** C2: rank 1 holds two Local rows and imports one row from rank 0 with the
    default properties.  [remote_exchange_data] keeps the two rows and the
    cached local count, appends one row and counts it as remote, and the tag
    of the appended row is 0, the value of Local, and not the value of
    Remote. *)
Theorem remote_exchange_tags_local :
  ∃ e, ParticleArrayExchange.remote_exchange_data no_junk one_row_incoming
         importing_exchange = Some e
       ∧ ParticleArrayExchange.num_local e = 2
       ∧ ParticleArrayExchange.num_remote e = 1
       ∧ uniform_length (ParticleArrayExchange.pa e) 3
       ∧ w_gid (ParticleArrayExchange.pa e) = [0; 1; 9]
       ∧ w_tag (ParticleArrayExchange.pa e) = [0; 0; 0]
       ∧ tag_of (ParticleArrayExchange.pa e) 2 = Some (tag_value Local)
       ∧ tag_of (ParticleArrayExchange.pa e) 2 ≠ Some (tag_value Remote)
       ∧ tag_of (ParticleArrayExchange.pa
                   (ParticleArrayExchange.remote_prepare no_junk
                      importing_exchange).1) 2
         = Some (tag_value Local).
Proof.
  eexists. split; [vm_compute; reflexivity|].
  split; [reflexivity|]. split; [reflexivity|]. split.
  { apply map_Forall_to_list. vm_compute. repeat constructor. }
  split; [vm_compute; reflexivity|]. split; [vm_compute; reflexivity|].
  split; [vm_compute; reflexivity|]. split; [vm_compute; discriminate|].
  vm_compute. reflexivity.
Qed.

Lemma length_grow {A} (n : nat) (fill : nat → A) (d : list A) :
  length (grow n fill d) = n.
Proof.
  unfold grow. rewrite length_app, length_take, length_fmap, length_seq. lia.
Qed.

Lemma take_grow {A} (n m : nat) (fill : nat → A) (d : list A) :
  (m ≤ length d)%nat → (m ≤ n)%nat → take m (grow n fill d) = take m d.
Proof.
  intros Hd Hn. unfold grow.
  rewrite take_app_le by (rewrite length_take; lia).
  rewrite take_take. f_equal. lia.
Qed.

Lemma remove_rows_filter {A} (from : nat) (ids : list nat) (d : list A) :
  length (remove_rows from ids d)
  = length (filter (λ i, i ∉ ids) (seq from (length d))).
Proof.
  revert from. induction d as [|a d IH]; intros from; simpl; [done|].
  rewrite filter_cons. case_bool_decide; case_decide; try done; simpl;
    by rewrite IH.
Qed.

Lemma filter_partition_length {A} (P : A → Prop) `{∀ x, Decision (P x)}
    (l : list A) :
  (length (filter P l) + length (filter (λ x, ¬ P x) l) = length l)%nat.
Proof.
  induction l as [|a l IH]; simpl; [done|].
  rewrite !filter_cons. destruct (decide (P a)); simpl.
  - rewrite decide_False by tauto. lia.
  - rewrite decide_True by done. simpl. lia.
Qed.

Lemma length_remove_rows {A} (ids : list nat) (d : list A) :
  NoDup ids → Forall (λ i, i < length d)%nat ids →
  length (remove_rows 0 ids d) = (length d - length ids)%nat.
Proof.
  intros Hnd Hin. rewrite remove_rows_filter.
  pose proof (filter_partition_length (λ i, i ∈ ids) (seq 0 (length d))) as Hp.
  rewrite length_seq in Hp.
  assert (Hperm : filter (λ i, i ∈ ids) (seq 0 (length d)) ≡ₚ ids).
  { apply NoDup_Permutation; [apply NoDup_filter, NoDup_seq|done|].
    intros i. rewrite list_elem_of_filter, elem_of_seq. split; [tauto|].
    intros Hi. split; [done|]. rewrite Forall_forall in Hin.
    specialize (Hin _ Hi). lia. }
  rewrite Hperm in Hp. unfold not in *. lia.
Qed.

Lemma carray_length_remove (ids : list nat) (a : carray) :
  NoDup ids → Forall (λ i, i < carray_length a)%nat ids →
  carray_length (carray_remove ids a) = (carray_length a - length ids)%nat.
Proof. destruct a; simpl; apply length_remove_rows. Qed.

Lemma carray_length_resize junk prop n a :
  carray_length (carray_resize junk prop n a) = n.
Proof. destruct a; simpl; apply length_grow. Qed.

Lemma carray_take_resize junk prop n m a :
  (m ≤ carray_length a)%nat → (m ≤ n)%nat →
  carray_take m (carray_resize junk prop n a) = carray_take m a.
Proof.
  destruct a; simpl; intros; unfold carray_take; simpl; f_equal;
    by apply take_grow.
Qed.

Lemma carray_take_all a n :
  (carray_length a ≤ n)%nat → carray_take n a = a.
Proof.
  destruct a; simpl; intros; unfold carray_take; simpl; f_equal;
    by apply take_ge.
Qed.

Lemma foldl_tag_store (v : Z) (l : list Z) (t : list Z) :
  Forall (λ i, 0 <= i) l →
  length (foldl (ParticleArrayExchange.tag_store v) t l) = length t
  ∧ ∀ j, foldl (ParticleArrayExchange.tag_store v) t l !! j
         = if decide (Z.of_nat j ∈ l ∧ (j < length t)%nat) then Some v
           else t !! j.
Proof.
  revert t. induction l as [|i l IH]; intros t Hl; simpl.
  - split; [done|]. intros j.
    destruct (decide (Z.of_nat j ∈ [] ∧ (j < length t)%nat)) as [[H _]|];
      [inversion H|done].
  - apply Forall_cons in Hl as [Hi Hl].
    destruct (IH (ParticleArrayExchange.tag_store v t i) Hl) as [Hlen Hlk].
    assert (Hst : ParticleArrayExchange.tag_store v t i = <[Z.to_nat i := v]> t).
    { unfold ParticleArrayExchange.tag_store.
      destruct (Z.leb_spec 0 i); [done|lia]. }
    rewrite Hst in *. rewrite length_insert in *. split; [done|].
    intros j. rewrite Hlk, list_lookup_insert.
    destruct (decide (Z.of_nat j ∈ l ∧ (j < length t)%nat)) as [[H1 H2]|H1].
    + rewrite decide_True; [done|]. split; [by right|done].
    + destruct (decide (Z.to_nat i = j ∧ (Z.to_nat i < length t)%nat))
        as [[H2 H3]|H2].
      * rewrite decide_True; [done|]. subst j. split; [|done].
        rewrite Z2Nat.id by done. by left.
      * rewrite decide_False; [done|]. intros [H3 H4].
        apply elem_of_cons in H3 as [H3|H3].
        -- apply H2. subst i. rewrite Nat2Z.id. by split.
        -- by apply H1.
Qed.

Lemma elem_of_zrange (a b v : Z) : v ∈ zrange a b ↔ a <= v < b.
Proof.
  split; [apply zrange_bounds|]. intros Hv. unfold zrange.
  apply list_elem_of_fmap. exists (Z.to_nat (v - a)). split; [lia|].
  apply elem_of_seq. lia.
Qed.

Lemma carray_set_tag_spec prop start stop v a :
  0 <= start →
  same_kind a (carray_set_tag prop start stop v a)
  ∧ carray_length (carray_set_tag prop start stop v a) = carray_length a
  ∧ carray_take (Z.to_nat start) (carray_set_tag prop start stop v a)
    = carray_take (Z.to_nat start) a.
Proof.
  intros Hs. destruct a as [d|d|t|d]; simpl; try done.
  case_decide; [|done].
  destruct (foldl_tag_store v (zrange start stop) t) as [Hlen Hlk].
  { apply Forall_forall. intros i Hi%elem_of_zrange. lia. }
  simpl. split; [done|]. split; [done|].
  unfold carray_take. simpl. f_equal. apply list_eq. intros j.
  rewrite !lookup_take. case_decide; [|done]. rewrite Hlk.
  rewrite decide_False; [done|]. rewrite elem_of_zrange. lia.
Qed.

Lemma set_tag_lookup self a b v prop :
  pa_props (ParticleArrayExchange.pa (ParticleArrayExchange.set_tag self a b v))
    !! prop
  = carray_set_tag prop a b v
      <$> pa_props (ParticleArrayExchange.pa self) !! prop.
Proof.
  unfold ParticleArrayExchange.set_tag, get_carray.
  destruct (pa_props (ParticleArrayExchange.pa self) !! "tag")
    as [[d|d|t|d]|] eqn:Ht; simpl;
    try (destruct (pa_props (ParticleArrayExchange.pa self) !! prop)
           as [[d'|d'|t'|d']|] eqn:Hp; simpl; try done;
         case_decide; [subst; congruence|done]).
  destruct (decide (prop = "tag")) as [->|Hne].
  - rewrite lookup_insert_eq, Ht. reflexivity.
  - rewrite lookup_insert_ne by done.
    destruct (pa_props (ParticleArrayExchange.pa self) !! prop)
      as [[d'|d'|t'|d']|]; simpl; try done. by rewrite decide_False.
Qed.

Lemma set_tag_fields self a b v :
  ParticleArrayExchange.num_local (ParticleArrayExchange.set_tag self a b v)
  = ParticleArrayExchange.num_local self
  ∧ ParticleArrayExchange.num_remote (ParticleArrayExchange.set_tag self a b v)
    = ParticleArrayExchange.num_remote self
  ∧ ParticleArrayExchange.lb_props (ParticleArrayExchange.set_tag self a b v)
    = ParticleArrayExchange.lb_props self
  ∧ ParticleArrayExchange.rank (ParticleArrayExchange.set_tag self a b v)
    = ParticleArrayExchange.rank self.
Proof.
  unfold ParticleArrayExchange.set_tag.
  by destruct (get_carray _ _) as [[]|].
Qed.

Lemma lb_prepare_lookup junk self prop :
  pa_props (ParticleArrayExchange.pa
              (ParticleArrayExchange.lb_prepare junk self).1) !! prop
  = lb_prepare_one junk self prop
      <$> pa_props (ParticleArrayExchange.pa self) !! prop.
Proof.
  unfold ParticleArrayExchange.lb_prepare. cbn [fst].
  rewrite set_tag_lookup.
  cbn [ParticleArrayExchange.set_pa ParticleArrayExchange.pa pa_resize
       remove_particles pa_props pa_name
       ParticleArrayExchange.num_local ParticleArrayExchange.numParticleExport
       ParticleArrayExchange.numParticleImport
       ParticleArrayExchange.exportParticleLocalids].
  rewrite map_lookup_imap, lookup_fmap.
  by destruct (pa_props (ParticleArrayExchange.pa self) !! prop).
Qed.

Lemma remote_prepare_lookup junk self prop :
  pa_props (ParticleArrayExchange.pa
              (ParticleArrayExchange.remote_prepare junk self).1) !! prop
  = remote_prepare_one junk self prop
      <$> pa_props (ParticleArrayExchange.pa self) !! prop.
Proof.
  unfold ParticleArrayExchange.remote_prepare. cbn [fst].
  rewrite set_tag_lookup.
  cbn [ParticleArrayExchange.set_pa ParticleArrayExchange.pa pa_resize
       pa_props pa_name ParticleArrayExchange.num_local
       ParticleArrayExchange.numParticleImport].
  rewrite map_lookup_imap.
  by destruct (pa_props (ParticleArrayExchange.pa self) !! prop).
Qed.

(** One vector through the steps before the load-balance exchange: it ends
    with [newsize] rows, of which those below [count] are the rows that were
    not exported, in their order. *)
Lemma lb_prepare_one_spec junk self prop a :
  lists_ok self →
  carray_length a = Z.to_nat (ParticleArrayExchange.num_local self) →
  let newsize :=
    ParticleArrayExchange.num_local self
    - ParticleArrayExchange.numParticleExport self
    + ParticleArrayExchange.numParticleImport self in
  let count :=
    ParticleArrayExchange.num_local self
    - ParticleArrayExchange.numParticleExport self in
  0 <= count
  ∧ carray_length (lb_prepare_one junk self prop a) = Z.to_nat newsize
  ∧ carray_take (Z.to_nat count) (lb_prepare_one junk self prop a)
    = carray_remove (ParticleArrayExchange.exportParticleLocalids self) a.
Proof.
  intros (HN & HI & HE & Hnd & Hin & _) Ha newsize count.
  assert (Hrm : carray_length
                  (carray_remove
                     (ParticleArrayExchange.exportParticleLocalids self) a)
                = Z.to_nat count).
  { rewrite carray_length_remove; [unfold count; lia|done|].
    eapply Forall_impl; [exact Hin|]. simpl. intros i Hi. lia. }
  assert (Hc : 0 <= count).
  { unfold count. rewrite HE.
    assert (length (ParticleArrayExchange.exportParticleLocalids self)
            ≤ length (seq 0 (Z.to_nat (ParticleArrayExchange.num_local self))))%nat
      as Hle; [|rewrite length_seq in Hle; lia].
    apply submseteq_length, NoDup_submseteq; [done|].
    intros i Hi. rewrite Forall_forall in Hin. specialize (Hin _ Hi).
    apply elem_of_seq. lia. }
  split; [done|]. unfold lb_prepare_one. fold newsize count.
  destruct (carray_set_tag_spec prop count newsize 0
              (carray_resize junk prop (Z.to_nat newsize)
                 (carray_remove
                    (ParticleArrayExchange.exportParticleLocalids self) a)) Hc)
    as (_ & Hlen & Htake).
  rewrite Hlen, Htake, carray_length_resize. split; [done|].
  rewrite carray_take_resize by (unfold newsize, count in *; lia).
  apply carray_take_all. lia.
Qed.



Lemma take_inserts_le {A} (n i : nat) (k l : list A) :
  (n ≤ i)%nat → take n (list_inserts i k l) = take n l.
Proof.
  intros Hn. apply list_eq. intros j. rewrite !lookup_take.
  case_decide; [|done]. apply list_lookup_inserts_lt. lia.
Qed.

Lemma same_kind_refl a : same_kind a a.
Proof. by destruct a. Qed.

Lemma same_kind_trans a b c : same_kind a b → same_kind b c → same_kind a c.
Proof. by destruct a, b, c. Qed.

Lemma same_kind_sym a b : same_kind a b → same_kind b a.
Proof. by destruct a, b. Qed.

Lemma Recv_spec localbuf count recvbuf a' :
  Recv localbuf count recvbuf = Some a' →
  same_kind localbuf a'
  ∧ carray_length a' = carray_length localbuf
  ∧ ∀ n, (n ≤ count)%nat → carray_take n a' = carray_take n localbuf.
Proof.
  destruct localbuf, recvbuf; simpl; intros H; simplify_eq; simpl;
    (split; [done|]); (split; [apply length_inserts|]);
    intros n Hn; unfold carray_take; simpl; f_equal; by apply take_inserts_le.
Qed.

Lemma Recv_total localbuf count recvbuf :
  same_kind localbuf recvbuf → is_Some (Recv localbuf count recvbuf).
Proof. destruct localbuf, recvbuf; simpl; intros H; done || by eexists. Qed.

Lemma exchanged_refl count lbp p : exchanged count lbp p p.
Proof.
  intros prop. destruct (pa_props p !! prop); constructor.
  split; [apply same_kind_refl|]. by repeat split.
Qed.

Lemma exchanged_trans count lbp p1 p2 p3 :
  exchanged count lbp p1 p2 → exchanged count lbp p2 p3 →
  exchanged count lbp p1 p3.
Proof.
  intros H12 H23 prop. specialize (H12 prop). specialize (H23 prop).
  destruct H12 as [a b (Hk & Hl & Ht & Hn)|]; [|done].
  inversion H23 as [b' c (Hk' & Hl' & Ht' & Hn') Hb Hc|]; subst.
  constructor. split; [by eapply same_kind_trans|].
  split; [congruence|]. split; [congruence|].
  intros Hp. rewrite Hn', Hn; done.
Qed.

Lemma recv_prop_spec inc i n c count lbp p prop p' :
  ParticleArrayExchange.recv_prop inc i n c p prop = Some p' →
  (count ≤ c)%nat → prop ∈ lbp → exchanged count lbp p p'.
Proof.
  unfold ParticleArrayExchange.recv_prop, get_carray. intros H Hc Hin.
  apply bind_Some in H as (localbuf & Hl & H).
  case_bool_decide; [|done].
  apply bind_Some in H as (a' & Ha' & H). simplify_eq.
  destruct (Recv_spec _ _ _ _ Ha') as (Hk & Hlen & Htake).
  intros prop'. cbn [pa_props]. destruct (decide (prop' = prop)) as [->|Hne].
  - rewrite lookup_insert_eq, Hl. constructor.
    split; [done|]. split; [done|]. split; [by apply Htake|done].
  - rewrite lookup_insert_ne by done.
    destruct (pa_props p !! prop'); constructor.
    split; [apply same_kind_refl|]. by repeat split.
Qed.

Lemma recv_props_spec inc i n c count lbp (props : list string) p p' :
  (∀ prop, prop ∈ props → prop ∈ lbp) → (count ≤ c)%nat →
  for_each (ParticleArrayExchange.recv_prop inc i n c) props p = Some p' →
  exchanged count lbp p p'.
Proof.
  intros Hsub Hc.
  apply (for_each_inv (λ q, exchanged count lbp p q)).
  - intros q prop q' Hin Hq Hstep. eapply exchanged_trans; [done|].
    eapply recv_prop_spec; eauto.
  - apply exchanged_refl.
Qed.

Lemma recv_from_spec inc (props : list string) sel count lbp p0 st src st' :
  (∀ prop, prop ∈ props → prop ∈ lbp) →
  exchanged count lbp p0 st.1 ∧ (count ≤ st.2)%nat →
  ParticleArrayExchange.recv_from inc props sel st src = Some st' →
  exchanged count lbp p0 st'.1 ∧ (count ≤ st'.2)%nat.
Proof.
  intros Hsub [He Hc]. unfold ParticleArrayExchange.recv_from.
  destruct st as [p c], src as [i n]. simpl in *.
  destruct (sel i); [|by intros [= <-]].
  intros H. apply bind_Some in H as (p' & Hp' & H). simplify_eq. simpl.
  split; [|lia]. eapply exchanged_trans; [done|].
  by eapply recv_props_spec.
Qed.

Lemma exchange_data_spec self count inc self' :
  ParticleArrayExchange._exchange_data self count inc = Some self' →
  exchanged count (ParticleArrayExchange.lb_props self)
            (ParticleArrayExchange.pa self) (ParticleArrayExchange.pa self')
  ∧ self' = ParticleArrayExchange.set_pa self (ParticleArrayExchange.pa self').
Proof.
  unfold ParticleArrayExchange._exchange_data. intros H.
  apply bind_Some in H as (? & _ & H).
  apply bind_Some in H as (st1 & H1 & H).
  apply bind_Some in H as (st2 & H2 & H). simplify_eq.
  split; [|done].
  assert (Hsub : ∀ prop, prop ∈ remove_dups (ParticleArrayExchange.lb_props self)
                         → prop ∈ ParticleArrayExchange.lb_props self).
  { intros prop. by rewrite elem_of_remove_dups. }
  set (P := λ st : ParticleArray * nat,
         exchanged count (ParticleArrayExchange.lb_props self)
                   (ParticleArrayExchange.pa self) st.1
         ∧ (count ≤ st.2)%nat).
  assert (P1 : P st1).
  { revert H1. apply (for_each_inv P).
    - intros st src st' _ Hst Hstep. by eapply recv_from_spec.
    - split; [apply exchanged_refl|done]. }
  assert (P2 : P st2).
  { revert H2. apply (for_each_inv P); [|done].
    intros st src st' _ Hst Hstep. by eapply recv_from_spec. }
  apply P2.
Qed.

Lemma same_kinds_refl p : same_kinds p p.
Proof.
  intros prop. destruct (pa_props p !! prop); constructor.
  apply same_kind_refl.
Qed.

Lemma recv_prop_total inc i n c p0 p prop :
  same_kinds p0 p →
  is_Some (get_carray p0 prop) →
  (∀ a, get_carray p0 prop = Some a →
        same_kind a (inbox inc i prop) ∧ carray_length (inbox inc i prop) = n) →
  ∃ p', ParticleArrayExchange.recv_prop inc i n c p prop = Some p'
        ∧ same_kinds p0 p'.
Proof.
  intros Hk [a0 Ha0] Hfit. destruct (Hfit _ Ha0) as [Hk0 Hlen].
  pose proof (Hk prop) as Hp. unfold get_carray in *. rewrite Ha0 in Hp.
  inversion Hp as [a0' a Hka Heq1 Heq2|]; subst.
  unfold ParticleArrayExchange.recv_prop, get_carray.
  rewrite <- Heq2. cbn [mbind option_bind].
  rewrite bool_decide_eq_true_2 by done.
  destruct (Recv_total a c (inbox inc i prop)) as [a' Ha'].
  { eapply same_kind_trans; [by apply same_kind_sym|done]. }
  rewrite Ha'. cbn [mbind option_bind]. eexists. split; [done|].
  intros prop'. cbn [pa_props]. destruct (decide (prop' = prop)) as [->|Hne].
  - rewrite lookup_insert_eq, Ha0. constructor.
    destruct (Recv_spec _ _ _ _ Ha') as (Hk' & _).
    by eapply same_kind_trans.
  - rewrite lookup_insert_ne by done. apply Hk.
Qed.

Lemma recv_from_total inc (props : list string) sel p0 st src :
  same_kinds p0 st.1 →
  Forall (λ prop, is_Some (get_carray p0 prop)) props →
  Forall (λ prop,
     ∀ a, get_carray p0 prop = Some a →
          same_kind a (inbox inc src.1 prop)
          ∧ carray_length (inbox inc src.1 prop) = src.2) props →
  ∃ st', ParticleArrayExchange.recv_from inc props sel st src = Some st'
         ∧ same_kinds p0 st'.1.
Proof.
  intros Hk Hex Hfit. unfold ParticleArrayExchange.recv_from.
  destruct st as [p c], src as [i n]. simpl in *.
  destruct (sel i); [|by eexists].
  destruct (for_each_total (λ q, same_kinds p0 q)
              (ParticleArrayExchange.recv_prop inc i n c) props p)
    as (p' & Hp' & Hk'); [|done|].
  - intros q prop Hin Hq. rewrite Forall_forall in Hex, Hfit.
    apply recv_prop_total; [done|by apply Hex|by apply Hfit].
  - rewrite Hp'. cbn [mbind option_bind]. by eexists.
Qed.

Lemma kinds_fit_remove_dups p lbp inc :
  kinds_fit p lbp inc → kinds_fit p (remove_dups lbp) inc.
Proof.
  intros [H1 H2]. split.
  - apply Forall_forall. intros prop Hin.
    rewrite elem_of_remove_dups in Hin.
    rewrite Forall_forall in H1. exact (H1 prop Hin).
  - eapply Forall_impl; [exact H2|]. intros src Hs. cbn beta in *.
    apply Forall_forall. intros prop Hin.
    rewrite elem_of_remove_dups in Hin.
    rewrite Forall_forall in Hs. exact (Hs prop Hin).
Qed.

Lemma exchange_data_total self count inc :
  incoming_ok self inc →
  is_Some (ParticleArrayExchange._exchange_data self count inc).
Proof.
  intros Hok%kinds_fit_remove_dups. destruct Hok as [Hex Hfit].
  unfold ParticleArrayExchange._exchange_data.
  destruct (proj2 (mapM_is_Some (get_carray (ParticleArrayExchange.pa self))
                     (remove_dups (ParticleArrayExchange.lb_props self))) Hex)
    as [vs ->].
  cbn [mbind option_bind].
  set (Q := λ st : ParticleArray * nat,
         same_kinds (ParticleArrayExchange.pa self) st.1).
  destruct (for_each_total Q
              (ParticleArrayExchange.recv_from inc
                 (remove_dups (ParticleArrayExchange.lb_props self))
                 (λ i, i <? ParticleArrayExchange.rank self))
              (recv inc) (ParticleArrayExchange.pa self, count))
    as (st1 & -> & Q1).
  { intros st src Hin Hst. rewrite Forall_forall in Hfit.
    by apply recv_from_total; [|exact Hex|apply Hfit]. }
  { apply same_kinds_refl. }
  cbn [mbind option_bind].
  destruct (for_each_total Q
              (ParticleArrayExchange.recv_from inc
                 (remove_dups (ParticleArrayExchange.lb_props self))
                 (λ i, ParticleArrayExchange.rank self <? i))
              (recv inc) st1)
    as (st2 & -> & Q2); [|done|by eexists].
  intros st src Hin Hst. rewrite Forall_forall in Hfit.
  by apply recv_from_total; [|exact Hex|apply Hfit].
Qed.

Lemma lb_prepare_one_kind junk self prop a :
  same_kind a (lb_prepare_one junk self prop a).
Proof.
  unfold lb_prepare_one. destruct a; simpl; try done. by case_decide.
Qed.

Lemma remote_prepare_one_kind junk self prop a :
  same_kind a (remote_prepare_one junk self prop a).
Proof.
  unfold remote_prepare_one. destruct a; simpl; try done. by case_decide.
Qed.

Lemma kinds_fit_same_kinds p p' lbp inc :
  same_kinds p p' → kinds_fit p lbp inc → kinds_fit p' lbp inc.
Proof.
  intros Hk [H1 H2]. split.
  - eapply Forall_impl; [exact H1|]. intros prop [a Ha]. cbn beta.
    specialize (Hk prop). unfold get_carray in *. rewrite Ha in Hk.
    inversion Hk. by eexists.
  - eapply Forall_impl; [exact H2|]. intros src Hs. cbn beta in *.
    eapply Forall_impl; [exact Hs|]. intros prop Hp a' Ha'. cbn beta in *.
    specialize (Hk prop). unfold get_carray in *. rewrite Ha' in Hk.
    inversion Hk as [a a'' Hka Heq1 Heq2|]; subst.
    destruct (Hp a (eq_sym Heq1)) as [Hk1 Hl1]. split; [|done].
    eapply same_kind_trans; [by apply same_kind_sym|done].
Qed.

Lemma lb_prepare_props junk self prop :
  lists_ok self →
  let newsize :=
    ParticleArrayExchange.num_local self
    - ParticleArrayExchange.numParticleExport self
    + ParticleArrayExchange.numParticleImport self in
  let count :=
    ParticleArrayExchange.num_local self
    - ParticleArrayExchange.numParticleExport self in
  option_Forall2
    (λ a a', same_kind a a'
             ∧ carray_length a' = Z.to_nat newsize
             ∧ carray_take (Z.to_nat count) a'
               = carray_remove
                   (ParticleArrayExchange.exportParticleLocalids self) a)
    (pa_props (ParticleArrayExchange.pa self) !! prop)
    (pa_props (ParticleArrayExchange.pa
                 (ParticleArrayExchange.lb_prepare junk self).1) !! prop).
Proof.
  intros Hok newsize count. rewrite lb_prepare_lookup.
  destruct (pa_props (ParticleArrayExchange.pa self) !! prop) as [a|] eqn:Ha;
    constructor.
  split; [apply lb_prepare_one_kind|].
  destruct (lb_prepare_one_spec junk self prop a Hok) as (_ & ? & ?); [|done].
  destruct Hok as (_ & _ & _ & _ & _ & Hu). by apply (Hu prop).
Qed.

Lemma set_tag_new_rows (t : list Z) (start stop : Z) (i : nat) :
  0 <= start → start <= Z.of_nat i < stop → (i < length t)%nat →
  match carray_set_tag "tag" start stop 0 (IntArray t) with
  | IntArray t' => t' !! i
  | _ => None
  end = Some 0.
Proof.
  intros Hs Hi Hlen. simpl.
  destruct (foldl_tag_store 0 (zrange start stop) t) as [_ Hlk].
  { apply Forall_forall. intros j Hj%elem_of_zrange. lia. }
  rewrite Hlk, decide_True; [done|]. by rewrite elem_of_zrange.
Qed.

Lemma lb_prepare_tags junk self i :
  lists_ok self → has_tag (ParticleArrayExchange.pa self) →
  ParticleArrayExchange.num_local self
  - ParticleArrayExchange.numParticleExport self <= Z.of_nat i
  < ParticleArrayExchange.num_local self
    - ParticleArrayExchange.numParticleExport self
    + ParticleArrayExchange.numParticleImport self →
  tag_of (ParticleArrayExchange.pa (ParticleArrayExchange.lb_prepare junk self).1)
         i = Some (tag_value Local).
Proof.
  intros Hok Ht Hi. unfold tag_of, w_tag, ints, get_carray, has_tag in *.
  rewrite lb_prepare_lookup. unfold get_carray in Ht.
  destruct (pa_props (ParticleArrayExchange.pa self) !! "tag")
    as [[| |t|]|] eqn:Htag; try done.
  destruct (lb_prepare_one_spec junk self "tag" (IntArray t) Hok)
    as (Hc & _ & _).
  { destruct Hok as (_ & _ & _ & _ & _ & Hu). by apply (Hu "tag"). }
  cbn [fmap option_fmap option_map]. unfold lb_prepare_one.
  cbn [carray_remove carray_resize].
  apply set_tag_new_rows; [done|done|]. rewrite length_grow. lia.
Qed.

Lemma lb_exchange_data_inv junk inc self self' :
  ParticleArrayExchange.lb_exchange_data junk inc self = Some self' →
  let prepared := (ParticleArrayExchange.lb_prepare junk self).1 in
  let count :=
    ParticleArrayExchange.num_local self
    - ParticleArrayExchange.numParticleExport self in
  ParticleArrayExchange.num_local self'
  = ParticleArrayExchange.num_local self
    - ParticleArrayExchange.numParticleExport self
    + ParticleArrayExchange.numParticleImport self
  ∧ exchanged (Z.to_nat count) (ParticleArrayExchange.lb_props self)
              (ParticleArrayExchange.pa prepared)
              (ParticleArrayExchange.pa self').
Proof.
  unfold ParticleArrayExchange.lb_exchange_data.
  destruct (ParticleArrayExchange.lb_prepare junk self) as [s1 c] eqn:Hprep.
  assert (Hc : c = ParticleArrayExchange.num_local self
                   - ParticleArrayExchange.numParticleExport self).
  { unfold ParticleArrayExchange.lb_prepare in Hprep. by injection Hprep. }
  assert (Hl : ParticleArrayExchange.lb_props s1
               = ParticleArrayExchange.lb_props self).
  { unfold ParticleArrayExchange.lb_prepare in Hprep.
    injection Hprep as <- _.
    by destruct (set_tag_fields
                   (ParticleArrayExchange.set_pa
                      (ParticleArrayExchange.set_pa self
                         (remove_particles
                            (ParticleArrayExchange.exportParticleLocalids self)
                            (ParticleArrayExchange.pa self)))
                      (pa_resize junk
                         (Z.to_nat
                            (ParticleArrayExchange.num_local self
                             - ParticleArrayExchange.numParticleExport self
                             + ParticleArrayExchange.numParticleImport self))
                         (remove_particles
                            (ParticleArrayExchange.exportParticleLocalids self)
                            (ParticleArrayExchange.pa self))))
                   (ParticleArrayExchange.num_local self
                    - ParticleArrayExchange.numParticleExport self)
                   (ParticleArrayExchange.num_local self
                    - ParticleArrayExchange.numParticleExport self
                    + ParticleArrayExchange.numParticleImport self) 0)
      as (_ & _ & ? & _). }
  intros H. apply bind_Some in H as (s2 & Hs2 & H). simplify_eq.
  apply exchange_data_spec in Hs2 as [Hex Heq]. cbn [fst]. split.
  - done.
  - by rewrite <- Hl.
Qed.

(** C4: for an exchange object whose lists fit its array (the cached local
    count is the row count of every vector, the exported rows are distinct
    rows of the array and [numExport] is their number), [lb_exchange_data]
    removes the exported rows, resizes every vector to
    [N_local - numExport + numImport] and sets the tags of the rows from
    [N_local - numExport] on to Local (0); the exchange that follows keeps the
    size and the rows below [N_local - numExport], and afterwards the cached
    local count is the new size.  The call completes when the rows that
    arrive fit the vectors. *)
Theorem lb_exchange_data_resizes (junk : Junk) (inc : Incoming)
    (self : ParticleArrayExchange.t) :
  lists_ok self → has_tag (ParticleArrayExchange.pa self) →
  let exported := ParticleArrayExchange.exportParticleLocalids self in
  let count :=
    ParticleArrayExchange.num_local self
    - ParticleArrayExchange.numParticleExport self in
  let newsize := count + ParticleArrayExchange.numParticleImport self in
  let prepared := (ParticleArrayExchange.lb_prepare junk self).1 in
  (uniform_length (ParticleArrayExchange.pa prepared) (Z.to_nat newsize)
   ∧ (∀ prop a, get_carray (ParticleArrayExchange.pa self) prop = Some a →
        ∃ a', get_carray (ParticleArrayExchange.pa prepared) prop = Some a'
              ∧ carray_take (Z.to_nat count) a' = carray_remove exported a)
   ∧ (∀ i, count <= Z.of_nat i < newsize →
           tag_of (ParticleArrayExchange.pa prepared) i
           = Some (tag_value Local)))
  ∧ (∀ self',
       ParticleArrayExchange.lb_exchange_data junk inc self = Some self' →
       ParticleArrayExchange.num_local self' = newsize
       ∧ uniform_length (ParticleArrayExchange.pa self') (Z.to_nat newsize)
       ∧ (∀ prop a, get_carray (ParticleArrayExchange.pa self) prop = Some a →
            ∃ a', get_carray (ParticleArrayExchange.pa self') prop = Some a'
                  ∧ carray_take (Z.to_nat count) a' = carray_remove exported a)
       ∧ ("tag" ∉ ParticleArrayExchange.lb_props self →
          ∀ i, count <= Z.of_nat i < newsize →
               tag_of (ParticleArrayExchange.pa self') i
               = Some (tag_value Local)))
  ∧ (incoming_ok self inc →
     is_Some (ParticleArrayExchange.lb_exchange_data junk inc self)).
Proof.
  intros Hok Htag exported count newsize prepared.
  assert (Hprep : ∀ prop,
            option_Forall2
              (λ a a', same_kind a a'
                       ∧ carray_length a' = Z.to_nat newsize
                       ∧ carray_take (Z.to_nat count) a'
                         = carray_remove exported a)
              (pa_props (ParticleArrayExchange.pa self) !! prop)
              (pa_props (ParticleArrayExchange.pa prepared) !! prop)).
  { intros prop. apply (lb_prepare_props junk self prop Hok). }
  split; [|split].
  - split; [|split].
    + apply map_Forall_lookup. intros prop a' Ha'.
      specialize (Hprep prop). rewrite Ha' in Hprep.
      inversion Hprep as [a a'' (_ & Hl & _)|]. done.
    + intros prop a Ha. specialize (Hprep prop). unfold get_carray in *.
      rewrite Ha in Hprep. inversion Hprep as [a0 a' (_ & _ & Ht)|].
      by exists a'.
    + intros i Hi. by apply lb_prepare_tags.
  - intros self' Hs'.
    destruct (lb_exchange_data_inv junk inc self self' Hs') as [Hn Hex].
    fold prepared count in Hex. split; [done|]. split; [|split].
    + apply map_Forall_lookup. intros prop a'' Ha''.
      specialize (Hprep prop). specialize (Hex prop). rewrite Ha'' in Hex.
      inversion Hex as [a' a3 (_ & Hl & _) Heq1 Heq2|]; subst.
      rewrite <- Heq1 in Hprep.
      inversion Hprep as [a a3 (_ & Hl' & _)|]. congruence.
    + intros prop a Ha. specialize (Hprep prop). specialize (Hex prop).
      unfold get_carray in *. rewrite Ha in Hprep.
      inversion Hprep as [a0 a' (_ & _ & Ht) Heq1 Heq2|]; subst.
      rewrite <- Heq2 in Hex.
      inversion Hex as [a0 a'' (_ & _ & Ht' & _)|]; subst.
      exists a''. split; [done|]. congruence.
    + intros Hnot i Hi.
      pose proof (lb_prepare_tags junk self i Hok Htag Hi) as Hti.
      fold prepared in Hti. unfold tag_of, w_tag, ints, get_carray in *.
      specialize (Hex "tag").
      destruct (pa_props (ParticleArrayExchange.pa prepared) !! "tag")
        as [a'|] eqn:Ha'; [|done].
      inversion Hex as [a0 a'' (_ & _ & _ & Hsame)|]; subst.
      by rewrite (Hsame Hnot).
  - intros Hinc. unfold ParticleArrayExchange.lb_exchange_data.
    destruct (ParticleArrayExchange.lb_prepare junk self) as [s1 c] eqn:Hp.
    destruct (exchange_data_total s1 (Z.to_nat c) inc) as [s2 Hs2].
    + assert (Hs1 : s1 = (ParticleArrayExchange.lb_prepare junk self).1)
        by (by rewrite Hp).
      assert (Hs1' : s1 = prepared) by reflexivity.
      unfold incoming_ok.
      assert (Hl : ParticleArrayExchange.lb_props s1
                   = ParticleArrayExchange.lb_props self).
      { rewrite Hs1. unfold ParticleArrayExchange.lb_prepare.
        cbn [fst].
        match goal with
        | |- ParticleArrayExchange.lb_props
               (ParticleArrayExchange.set_tag ?s ?a ?b ?v) = _ =>
            by destruct (set_tag_fields s a b v) as (_ & _ & -> & _)
        end. }
      rewrite Hl. eapply kinds_fit_same_kinds; [|exact Hinc].
      intros prop. specialize (Hprep prop). rewrite Hs1'.
      destruct Hprep as [a a' (Hk & _)|]; by constructor.
    + rewrite Hs2. by eexists.
Qed.

Lemma balancing_exchange_lists_ok : lists_ok balancing_exchange.
Proof.
  unfold lists_ok. split; [by vm_compute|]. split; [by vm_compute|].
  split; [reflexivity|]. split; [apply NoDup_singleton|].
  split; [repeat constructor|].
  apply map_Forall_to_list. vm_compute. repeat constructor.
Qed.

Lemma balancing_exchange_incoming_ok :
  incoming_ok balancing_exchange one_row_incoming.
Proof.
  split.
  - apply Forall_forall. intros prop Hprop.
    repeat (apply elem_of_cons in Hprop as [->|Hprop];
            [vm_compute; by eexists|]).
    inversion Hprop.
  - apply Forall_forall. intros src Hsrc.
    apply list_elem_of_singleton in Hsrc as ->.
    apply Forall_forall. intros prop Hprop a Ha.
    repeat (apply elem_of_cons in Hprop as [->|Hprop];
            [vm_compute in Ha; injection Ha as <-; vm_compute;
             split; [exact I|reflexivity]|]).
    inversion Hprop.
Qed.

(** Rank 1 exports row 0 of its two rows and imports one row: the array has
    two rows again, the kept row first, and the cached count is 2. *)
Lemma lb_exchange_data_resizes_witness :
  ∃ self',
    ParticleArrayExchange.lb_exchange_data no_junk one_row_incoming
      balancing_exchange = Some self'
    ∧ ParticleArrayExchange.num_local self' = 2
    ∧ uniform_length (ParticleArrayExchange.pa self') 2
    ∧ tag_of (ParticleArrayExchange.pa
                (ParticleArrayExchange.lb_prepare no_junk
                   balancing_exchange).1) 1 = Some (tag_value Local).
Proof.
  destruct (lb_exchange_data_resizes no_junk one_row_incoming
              balancing_exchange balancing_exchange_lists_ok I)
    as ((_ & _ & Ht) & Hafter & Htotal).
  destruct (Htotal balancing_exchange_incoming_ok) as [self' Hs'].
  destruct (Hafter self' Hs') as (Hn & Hu & _).
  exists self'. split; [exact Hs'|]. split; [exact Hn|]. split; [exact Hu|].
  apply Ht. vm_compute. split; [discriminate|reflexivity].
Defined.

(** The manager of Scenario A on two ranks and the serial search object of
    Scenario A are well formed; the binning operations complete on them and
    leave the invariant. *)
Lemma binning_cell_invariant_witness :
  (∃ s', ParallelManager.local_bin [empty_rank_bounds] (scenarioA_pm 2)
         = Some s'
         ∧ cells_invariant (ParallelManager.particles s')
             (ParallelManager.cell_size s') (ParallelManager.cells s'))
  ∧ (∃ s', ParallelManager.update_local_data (scenarioA_pm 2) = Some s'
           ∧ cells_invariant (ParallelManager.particles s')
               (ParallelManager.cell_size s') (ParallelManager.cells s'))
  ∧ (∃ s', ParallelManager.update_remote_data (scenarioA_pm 2) = Some s'
           ∧ cells_invariant (ParallelManager.particles s')
               (ParallelManager.cell_size s') (ParallelManager.cells s'))
  ∧ (∃ s', NNPS.update scenarioA_nnps0 = Some s'
           ∧ cells_rows_invariant (NNPS.particles s') (NNPS.cell_size s')
               (NNPS.cells s')).
Proof.
  assert (Hwf : PM_wf (scenarioA_pm 2)).
  { unfold PM_wf. vm_compute. repeat split; reflexivity. }
  destruct binning_cell_invariant as (H1 & H2 & H3 & H4).
  split; [|split; [|split]].
  - apply H1; [exact Hwf|reflexivity].
  - apply H2. exact Hwf.
  - apply H3; [exact Hwf|]. apply map_Forall_empty.
  - apply H4. vm_compute. apply le_n.
Defined.

(** ** What [remote_exchange_data] does for every input *)

Lemma remote_prepare_one_spec junk self prop a :
  0 <= ParticleArrayExchange.num_local self →
  0 <= ParticleArrayExchange.numParticleImport self →
  carray_length a = Z.to_nat (ParticleArrayExchange.num_local self) →
  carray_length (remote_prepare_one junk self prop a)
  = Z.to_nat (ParticleArrayExchange.num_local self
              + ParticleArrayExchange.numParticleImport self)
  ∧ carray_take (Z.to_nat (ParticleArrayExchange.num_local self))
                (remote_prepare_one junk self prop a) = a.
Proof.
  intros HN HI Ha. unfold remote_prepare_one.
  destruct (carray_set_tag_spec prop (ParticleArrayExchange.num_local self)
              (ParticleArrayExchange.num_local self
               + ParticleArrayExchange.numParticleImport self) 0
              (carray_resize junk prop
                 (Z.to_nat (ParticleArrayExchange.num_local self
                            + ParticleArrayExchange.numParticleImport self))
                 a) HN)
    as (_ & Hlen & Htake).
  rewrite Hlen, Htake, carray_length_resize. split; [done|].
  rewrite carray_take_resize by lia. apply carray_take_all. lia.
Qed.

(** For every exchange object whose cached local count is the row count of
    its vectors, [remote_exchange_data] leaves the cached local count and
    the rows below it as they are, and the reset before the exchange writes
    tag 0, the value of Local, into every appended row. *)
Lemma remote_exchange_data_tags_every_row_local junk inc self :
  0 <= ParticleArrayExchange.num_local self →
  0 <= ParticleArrayExchange.numParticleImport self →
  uniform_length (ParticleArrayExchange.pa self)
                 (Z.to_nat (ParticleArrayExchange.num_local self)) →
  has_tag (ParticleArrayExchange.pa self) →
  let N := ParticleArrayExchange.num_local self in
  let prepared := (ParticleArrayExchange.remote_prepare junk self).1 in
  (∀ i, N <= Z.of_nat i < N + ParticleArrayExchange.numParticleImport self →
        tag_of (ParticleArrayExchange.pa prepared) i = Some (tag_value Local))
  ∧ ∀ self',
      ParticleArrayExchange.remote_exchange_data junk inc self = Some self' →
      ParticleArrayExchange.num_local self' = N
      ∧ ParticleArrayExchange.num_remote self'
        = ParticleArrayExchange.numParticleImport self
      ∧ ∀ prop a, get_carray (ParticleArrayExchange.pa self) prop = Some a →
          ∃ a', get_carray (ParticleArrayExchange.pa self') prop = Some a'
                ∧ carray_length a'
                  = Z.to_nat (N + ParticleArrayExchange.numParticleImport self)
                ∧ carray_take (Z.to_nat N) a' = a.
Proof.
  intros HN HI Hu Htag N prepared. subst N prepared. split.
  - intros i Hi. unfold has_tag, tag_of, w_tag, ints in *.
    unfold get_carray in *.
    rewrite remote_prepare_lookup.
    destruct (pa_props (ParticleArrayExchange.pa self) !! "tag")
      as [[| |t|]|] eqn:Ht; try done.
    cbn [fmap option_fmap option_map]. unfold remote_prepare_one.
    cbn [carray_resize].
    apply set_tag_new_rows; [done|done|]. rewrite length_grow. lia.
  - intros self' Hs'. unfold ParticleArrayExchange.remote_exchange_data in Hs'.
    destruct (ParticleArrayExchange.remote_prepare junk self) as [s1 c] eqn:Hp.
    assert (Hs1 : s1 = (ParticleArrayExchange.remote_prepare junk self).1)
      by (by rewrite Hp).
    assert (Hc : c = ParticleArrayExchange.num_local self).
    { unfold ParticleArrayExchange.remote_prepare in Hp. by injection Hp. }
    assert (Hf : ParticleArrayExchange.num_local s1
                 = ParticleArrayExchange.num_local self).
    { rewrite Hs1. unfold ParticleArrayExchange.remote_prepare. cbn [fst].
      match goal with
      | |- ParticleArrayExchange.num_local
             (ParticleArrayExchange.set_tag ?s ?a ?b ?v) = _ =>
          by destruct (set_tag_fields s a b v) as (-> & _)
      end. }
    apply bind_Some in Hs' as (s2 & Hs2 & Hs').
    injection Hs' as <-.
    apply exchange_data_spec in Hs2 as [Hex Heq]. rewrite Heq.
    cbn [ParticleArrayExchange.set_num_remote ParticleArrayExchange.set_pa
         ParticleArrayExchange.num_local ParticleArrayExchange.num_remote
         ParticleArrayExchange.pa].
    split; [done|]. split; [lia|].
    intros prop a Ha. specialize (Hex prop). unfold get_carray in *.
    rewrite Hs1, remote_prepare_lookup, Ha in Hex.
    cbn [fmap option_fmap option_map] in Hex.
    inversion Hex as [a1 a' (_ & Hl & Ht & _)|]; subst.
    destruct (remote_prepare_one_spec junk self prop a HN HI) as [Hl1 Ht1].
    { by apply (Hu prop). }
    exists a'. split; [done|]. split; congruence.
Qed.

(** ** The query of the manager after [local_bin] *)

Lemma PM_bin_row_binned ps pa k cs n nl idx cells i :
  ps !! k = Some pa → (k < n)%nat →
  binned ps cs n idx cells →
  binned ps cs n (λ k', if decide (k' = k) then idx k ++ [i] else idx k')
         (ParallelManager.bin_row k (w_x pa) (w_y pa) (w_gid pa) cs n nl
            cells i).
Proof.
  intros Hpa Hk Hb cid k' pa' Hpa' Hk'. unfold ParallelManager.bin_row.
  fold (home pa cs i). rewrite bin_lookup.
  specialize (Hb cid k' pa' Hpa' Hk').
  destruct (decide (cid = home pa cs i)) as [->|Hne].
  - cbn [append_gindex append_lindex lindices].
    destruct (decide (k' = k)) as [->|Hkk].
    + simplify_eq. rewrite list_lookup_alter_eq, rows_at_snoc.
      rewrite decide_True by done.
      destruct (cells !! home pa cs i) as [c1|]; simpl.
      * by rewrite Hb.
      * rewrite lookup_replicate_2 by done. simpl. by rewrite Hb.
    + rewrite list_lookup_alter_ne by done.
      destruct (cells !! home pa cs i) as [c1|]; simpl; [done|].
      rewrite lookup_replicate_2 by done. by rewrite Hb.
  - destruct (decide (k' = k)) as [->|Hkk]; [|done].
    simplify_eq. rewrite rows_at_snoc, decide_False by done.
    by rewrite app_nil_r.
Qed.

Lemma PM_bin_rows_binned ps pa k cs n nl (indices : list nat) idx cells :
  ps !! k = Some pa → (k < n)%nat →
  binned ps cs n idx cells →
  binned ps cs n (λ k', if decide (k' = k) then idx k ++ indices else idx k')
         (foldl (ParallelManager.bin_row k (w_x pa) (w_y pa) (w_gid pa) cs n nl)
                cells indices).
Proof.
  intros Hpa Hk. revert idx cells.
  induction indices as [|i indices IH]; intros idx cells Hb; simpl.
  - eapply binned_ext; [|done]. intros k'. case_decide; [|done].
    subst. by rewrite app_nil_r.
  - eapply binned_ext; [|apply IH, PM_bin_row_binned; done].
    intros k'. simpl. destruct (decide (k' = k)) as [->|]; [|done].
    rewrite decide_True by done. by rewrite <- app_assoc.
Qed.

Lemma PM_local_bin_loop_binned (m a : nat) (s : ParallelManager.t) :
  (a + m ≤ length (ParallelManager.particles s))%nat →
  (a + m ≤ ParallelManager.narrays s)%nat →
  counts_current s →
  binned (ParallelManager.particles s) (ParallelManager.cell_size s)
         (ParallelManager.narrays s)
         (λ k, if decide (k < a)%nat
               then all_rows (ParallelManager.particles s) k else [])
         (ParallelManager.cells s) →
  ∃ s', for_each
          (λ self i,
             num_particles ← ParallelManager.num_local self !! i;
             ParallelManager._bin self i (arange_uint num_particles (-1)))
          (seq a m) s = Some s'
        ∧ PM_frame s s'
        ∧ ParallelManager.radius_scale s' = ParallelManager.radius_scale s
        ∧ binned (ParallelManager.particles s) (ParallelManager.cell_size s)
            (ParallelManager.narrays s)
            (λ k, if decide (k < a + m)%nat
                  then all_rows (ParallelManager.particles s) k else [])
            (ParallelManager.cells s').
Proof.
  revert a s. induction m as [|m IH]; intros a s Hlen Hn Hcnt Hb.
  - exists s. rewrite Nat.add_0_r. split; [done|]. split; [by unfold PM_frame|].
    by split.
  - cbn [seq for_each].
    destruct (lookup_lt_is_Some_2 (ParallelManager.particles s) a)
      as [pa Hpa]; [lia|].
    rewrite (Hcnt _ _ Hpa). cbn [mbind option_bind].
    rewrite (PM_bin_Some _ _ _ _ Hpa), arange_uint_all.
    cbn [mbind option_bind].
    match goal with
    | |- ∃ s', for_each _ _ ?s1 = _ ∧ _ =>
        destruct (IH (S a) s1) as (s' & Hs' & Hf & Hrs & Hb')
    end.
    + unfold ParallelManager.particles in *.
      cbn [ParallelManager.set_cells ParallelManager.pa_exchanges]. lia.
    + cbn [ParallelManager.set_cells ParallelManager.narrays]. lia.
    + exact Hcnt.
    + unfold ParallelManager.particles in *.
      cbn [ParallelManager.set_cells ParallelManager.pa_exchanges
           ParallelManager.cell_size ParallelManager.narrays
           ParallelManager.cells].
      eapply binned_ext;
        [|apply (PM_bin_rows_binned _ pa a); [done|lia|exact Hb]].
      intros k. simpl. destruct (decide (k = a)) as [->|Hne].
      * destruct (decide (a < a)%nat); [lia|].
        destruct (decide (a < S a)%nat); [|lia].
        unfold all_rows. by rewrite Hpa.
      * destruct (decide (k < a)%nat); destruct (decide (k < S a)%nat);
          done || lia.
    + exists s'. split; [done|]. split; [exact Hf|]. split; [exact Hrs|].
      eapply binned_ext; [|exact Hb']. intros k.
      cbn beta. repeat case_decide; done || lia.
Qed.

Lemma PM_local_bin_current others s :
  PM_wf s → ParallelManager.in_parallel s = true → counts_current s →
  ∃ s', ParallelManager.local_bin others s = Some s'
        ∧ ParallelManager.pa_exchanges s' = ParallelManager.pa_exchanges s
        ∧ ParallelManager.narrays s' = ParallelManager.narrays s
        ∧ ParallelManager.radius_scale s' = ParallelManager.radius_scale s
        ∧ cell_size_rule Stdout (ParallelManager.radius_scale s)
            (PM_Mh others s) (ParallelManager.console s)
            (ParallelManager.console s') (ParallelManager.cell_size s')
        ∧ current (ParallelManager.particles s') (ParallelManager.cell_size s')
                  (ParallelManager.narrays s') (ParallelManager.cells s').
Proof.
  intros (Hw1 & Hw2 & _) Hp Hcnt. unfold ParallelManager.local_bin.
  destruct (PM_compute_cell_size_parallel others
              (ParallelManager.set_cells s ∅) Hp)
    as (s1 & Hs1 & Hrule & _ & He & Hc & Hn & Hnl & Hrs & _).
  rewrite Hs1. cbn [mbind option_bind].
  cbn [ParallelManager.set_cells ParallelManager.pa_exchanges
       ParallelManager.cells ParallelManager.narrays
       ParallelManager.num_local ParallelManager.radius_scale
       ParallelManager.console] in He, Hc, Hn, Hnl, Hrs, Hrule.
  assert (Hps : ParallelManager.particles s1 = ParallelManager.particles s).
  { unfold ParallelManager.particles. by rewrite He. }
  destruct (PM_local_bin_loop_binned (ParallelManager.narrays s1) 0 s1)
    as (s' & Hs' & Hf & Hrs' & Hb).
  - rewrite Hps, Hn. unfold ParallelManager.particles.
    rewrite length_fmap. simpl. lia.
  - simpl. lia.
  - intros k pa Hpa. rewrite Hnl. apply Hcnt. by rewrite <- Hps.
  - intros cid k pa Hpa Hk. rewrite Hc, lookup_empty. by simpl.
  - destruct Hf as (Hf1 & Hf2 & Hf3 & _).
    assert (Hps' : ParallelManager.particles s' = ParallelManager.particles s1).
    { unfold ParallelManager.particles. by rewrite Hf1. }
    exists s'. split; [exact Hs'|].
    split; [congruence|]. split; [congruence|]. split; [congruence|].
    split.
    + assert (Hcon : ParallelManager.console s' = ParallelManager.console s1).
      { revert Hs'.
        apply (for_each_inv
                 (λ st, ParallelManager.console st
                        = ParallelManager.console s1)); [|done].
        intros st i st' _ Hst Hstep.
        apply bind_Some in Hstep as (n & _ & Hstep).
        apply PM_bin_inv in Hstep as (pa & _ & ->). exact Hst. }
      rewrite Hcon, Hf2. unfold PM_Mh, PM_local_bounds in *.
      exact Hrule.
    + unfold current. rewrite Hps', Hf2, Hf3.
      eapply binned_ext; [|exact Hb]. intros k. cbn beta.
      destruct (decide (k < 0 + ParallelManager.narrays s1)%nat); [done|].
      unfold all_rows. rewrite lookup_ge_None_2; [done|].
      rewrite Hps. unfold ParallelManager.particles.
      rewrite length_fmap. rewrite Hn in *. lia.
Qed.

Lemma PM_query_exact s src dst i nbrs srcpa dstpa :
  ParallelManager.narrays s = length (ParallelManager.particles s) →
  current (ParallelManager.particles s) (ParallelManager.cell_size s)
          (ParallelManager.narrays s) (ParallelManager.cells s) →
  (0 < ParallelManager.cell_size s)%Q →
  ParallelManager.particles s !! src = Some srcpa →
  ParallelManager.particles s !! dst = Some dstpa →
  (ParallelManager.radius_scale s * (w_h dstpa !!! i)
   <= ParallelManager.cell_size s)%Q →
  (w_x srcpa ≠ [] →
   ∀ h, h ∈ w_h srcpa →
        (ParallelManager.radius_scale s * h <= ParallelManager.cell_size s)%Q) →
  let xi := cPoint_new (w_x dstpa !!! i) (w_y dstpa !!! i) 0.0 in
  let hi := (ParallelManager.radius_scale s * (w_h dstpa !!! i))%Q in
  let xj j := cPoint_new (w_x srcpa !!! j) (w_y srcpa !!! j) 0.0 in
  ∃ s' out,
    ParallelManager.get_nearest_particles s src dst i nbrs = Some (s', out)
    ∧ ParallelManager.cells s' = ParallelManager.cells s
    ∧ NoDup out
    ∧ ∀ j, j ∈ out
           ↔ (j < get_number_of_particles srcpa)%nat
             ∧ is_neighbor (ParallelManager.radius_scale s) (w_h srcpa)
                           xi hi xj j = true.
Proof.
  intros Hn Hcur Hcs Hsrc Hdst Hhi Hhj xi hi xj.
  assert (Hk : (src < ParallelManager.narrays s)%nat).
  { rewrite Hn. by eapply lookup_lt_Some. }
  unfold ParallelManager.get_nearest_particles. rewrite Hsrc, Hdst.
  cbn [mbind option_bind]. fold xi hi xj.
  set (b0 := mkBuf nbrs 0 (ParallelManager.console s)).
  set (block := block3x3 (find_cell_id xi (ParallelManager.cell_size s))).
  assert (Hblock : block
                   = block3x3 (find_cell_id xi (ParallelManager.cell_size s)))
    by done.
  clearbody block.
  destruct (visit_block_total (ParallelManager.radius_scale s) (w_h srcpa)
              xi hi xj (ParallelManager.cells s) src block b0) as [b Hb].
  { intros cid c Hc. specialize (Hcur cid src srcpa Hsrc Hk).
    rewrite Hc in Hcur. by rewrite Hcur. }
  rewrite Hb. cbn [mbind option_bind].
  destruct (visit_block_written (ParallelManager.radius_scale s) (w_h srcpa)
              xi hi xj (ParallelManager.cells s) src block b0 b)
    as (rows & Hrows & _ & Hw); [unfold buffer_ok; simpl; lia|done|].
  rewrite (block_rows_current _ _ _ _ _ _ block Hcur Hsrc Hk) in Hrows.
  injection Hrows as <-.
  change (written b0) with (@nil nat) in Hw. rewrite app_nil_l in Hw.
  unfold written in Hw.
  eexists _, _. split; [done|]. split; [done|]. rewrite Hw. split.
  - apply NoDup_filter, NoDup_block_rows;
      [apply NoDup_all_rows|rewrite Hblock; apply NoDup_block3x3].
  - intros j. rewrite list_elem_of_filter, elem_of_block_rows, Hblock.
    rewrite (elem_of_all_rows _ _ _ _ Hsrc). split; [tauto|].
    intros [Hj Ht]. split; [done|]. split; [done|].
    assert (Hne : w_x srcpa ≠ []).
    { unfold get_number_of_particles in Hj. fold (w_x srcpa) in Hj.
      intros He. rewrite He in Hj. simpl in Hj. lia. }
    unfold is_neighbor in Ht. apply orb_prop in Ht as [Hd|Hd].
    + by apply (distance_lt_block _ _ _ (ParallelManager.cell_size s)) in Hd.
    + apply (distance_lt_block _ _ _ (ParallelManager.cell_size s)) in Hd;
        [done|].
      apply scaled_lookup_le; [done|]. by apply Hhj.
Qed.

(** The query of the manager is exact after [local_bin]: on a parallel run
    with a non-negative radius scale and cached local counts that are the
    row counts, the query for a destination row [i] completes and returns
    every row [j] of the source array with [d < hi] or [d < hj] (distances
    in the plane), each once, and nothing else. *)
Theorem PM_nearest_exact others s0 s src dst i nbrs srcpa dstpa :
  PM_wf s0 → ParallelManager.in_parallel s0 = true → counts_current s0 →
  (0 <= ParallelManager.radius_scale s0)%Q →
  ParallelManager.local_bin others s0 = Some s →
  ParallelManager.particles s !! src = Some srcpa →
  ParallelManager.particles s !! dst = Some dstpa →
  (i < get_number_of_particles dstpa)%nat →
  let xi := cPoint_new (w_x dstpa !!! i) (w_y dstpa !!! i) 0.0 in
  let hi := (ParallelManager.radius_scale s * (w_h dstpa !!! i))%Q in
  let xj j := cPoint_new (w_x srcpa !!! j) (w_y srcpa !!! j) 0.0 in
  ∃ s' out,
    ParallelManager.get_nearest_particles s src dst i nbrs = Some (s', out)
    ∧ ParallelManager.cells s' = ParallelManager.cells s
    ∧ NoDup out
    ∧ ∀ j, j ∈ out
           ↔ (j < get_number_of_particles srcpa)%nat
             ∧ is_neighbor (ParallelManager.radius_scale s) (w_h srcpa)
                           xi hi xj j = true.
Proof.
  intros Hwf Hp Hcnt Hrs Hbin Hsrc Hdst Hi.
  destruct (PM_local_bin_current others s0 Hwf Hp Hcnt)
    as (s1 & Hs1 & He & Hn & Hr & Hrule & Hcur).
  rewrite Hbin in Hs1. injection Hs1 as <-.
  assert (Hps : ParallelManager.particles s = ParallelManager.particles s0).
  { unfold ParallelManager.particles. by rewrite He. }
  destruct (cell_size_rule_floor _ _ _ _ _ _ Hrule) as [Hfl Hle].
  apply Qltb_ge in Hfl.
  assert (Hcs : (0 < ParallelManager.cell_size s)%Q).
  { eapply Qlt_le_trans; [|exact Hfl]. reflexivity. }
  destruct (PM_Mh_bounds others s0) as [Hb _].
  assert (Hcov : ∀ pa h, pa ∈ ParallelManager.particles s → w_x pa ≠ [] →
                          h ∈ w_h pa →
                          (ParallelManager.radius_scale s * h
                           <= ParallelManager.cell_size s)%Q).
  { intros pa h Hpa Hne Hh. rewrite Hps in Hpa.
    pose proof (Hb pa h Hpa Hne Hh) as Hm. rewrite Hr.
    eapply Qle_trans; [|exact Hle].
    rewrite (Qmult_comm _ h), (Qmult_comm _ (PM_Mh others s0)).
    by apply Qmult_le_compat_r. }
  apply PM_query_exact; try done.
  - destruct Hwf as [Hw _]. rewrite Hn, <- Hw, Hps.
    unfold ParallelManager.particles. by rewrite length_fmap.
  - apply scaled_lookup_le; [done|]. intros h Hh.
    apply (Hcov dstpa); [by eapply list_elem_of_lookup_2| |done].
    unfold get_number_of_particles in Hi. fold (w_x dstpa) in Hi.
    intros Hx. rewrite Hx in Hi. simpl in Hi. lia.
  - intros Hne h Hh. apply (Hcov srcpa); [|done|done].
    by eapply list_elem_of_lookup_2.
Qed.

(** ** The index of a point, the centroid and the box of a cell *)

Lemma Qfloor_ge_iff (x : Q) (z : Z) : z <= Qfloor x ↔ (inject_Z z <= x)%Q.
Proof.
  split.
  - intros H. eapply Qle_trans; [|apply Qfloor_le]. by rewrite <- Zle_Qle.
  - intros H. rewrite <- (Qfloor_Z z). by apply Qfloor_resp_le.
Qed.

Lemma Qfloor_lt_iff (x : Q) (z : Z) : Qfloor x < z ↔ (x < inject_Z z)%Q.
Proof.
  split.
  - intros H. destruct (Qlt_le_dec x (inject_Z z)) as [|Hle]; [done|].
    apply Qfloor_ge_iff in Hle. lia.
  - intros H. destruct (Z_lt_le_dec (Qfloor x) z) as [|Hle]; [done|].
    apply Qfloor_ge_iff in Hle. exfalso. exact (Qlt_not_le _ _ H Hle).
Qed.





(** The centroid of a cell lies in the cell: for a cell size other than
    zero and an index [cid] of the plane, the index of [get_centroid
    cell_size cid] is [cid] again. *)
Theorem find_cell_id_centroid (cell_size : Q) (cid : cIntPoint) :
  ¬ (cell_size == 0)%Q → iz cid = 0 →
  find_cell_id (get_centroid cell_size cid) cell_size = cid.
Proof.
  intros Hc Hz. unfold get_centroid, _get_centroid, find_cell_id, real_to_int.
  destruct cid as [x y z]. cbn [iz ix iy px py pz] in *. subst z.
  assert (Hf : ∀ k, Qfloor ((inject_Z k + 0.5) * cell_size / cell_size) = k).
  { intros k.
    assert (He : ((inject_Z k + 0.5) * cell_size / cell_size
                  == inject_Z k + 0.5)%Q) by (field; done).
    rewrite He.
    assert (H1 : k <= Qfloor (inject_Z k + 0.5)).
    { apply Qfloor_ge_iff. lra. }
    assert (H2 : Qfloor (inject_Z k + 0.5) < k + 1).
    { apply Qfloor_lt_iff. rewrite inject_Z_plus.
      change (inject_Z 1) with 1%Q. lra. }
    lia. }
  by rewrite !Hf.
Qed.

Lemma find_cell_id_centroid_witness :
  find_cell_id (get_centroid 0.25 (cIntPoint_new 3 (-2) 0)) 0.25
  = cIntPoint_new 3 (-2) 0.
Proof.
  apply (find_cell_id_centroid 0.25 (cIntPoint_new 3 (-2) 0));
    [discriminate|reflexivity].
Defined.



(** [get_bounding_box] recomputes the box around the stored centroid and
    overwrites the layer count of the cell: on a cell of the constructor,
    asked with the layer count of the construction and no cell size it
    returns the stored box and leaves the cell as it is; asked with another
    count [l] it leaves a cell with [l] layers whose box corners have moved
    by [(layers - l) * cell_size] towards the centroid on both axes. *)
Theorem get_bounding_box_overwrites (cid : cIntPoint) (cell_size : Q)
    (narrays : nat) (nlayers l : Z) :
  let c := Cell_init cid cell_size narrays nlayers in
  get_bounding_box c nlayers None = (c, boxmin c, boxmax c)
  ∧ ∀ c' bmin bmax, get_bounding_box c l None = (c', bmin, bmax) →
      layers c' = l ∧ boxmin c' = bmin ∧ boxmax c' = bmax
      ∧ centroid c' = centroid c ∧ lindices c' = lindices c
      ∧ gindices c' = gindices c
      ∧ (px bmin == px (boxmin c) + inject_Z (nlayers - l) * cell_size
         ∧ py bmin == py (boxmin c) + inject_Z (nlayers - l) * cell_size
         ∧ px bmax == px (boxmax c) - inject_Z (nlayers - l) * cell_size
         ∧ py bmax == py (boxmax c) - inject_Z (nlayers - l) * cell_size)%Q.
Proof.
  intros c. split; [reflexivity|].
  intros c' bmin bmax [= <- <- <-].
  repeat (split; [reflexivity|]).
  cbn [Cell_init _compute_bounding_box boxmin boxmax centroid _get_centroid
       px py c_cell_size c].
  unfold Z.sub. rewrite inject_Z_plus, inject_Z_opp.
  repeat split; ring.
Qed.

(** ** Python list indexing and [set_indices] *)

Lemma py_index_Some {A} (l : list A) (index : Z) (i : nat) :
  py_index l index = Some i
  ↔ (i < length l)%nat
    ∧ (index = Z.of_nat i ∨ index = Z.of_nat i - Z.of_nat (length l)).
Proof.
  unfold py_index.
  destruct (0 <=? index) eqn:H0; destruct (index <? Z.of_nat (length l)) eqn:H1;
    destruct (- Z.of_nat (length l) <=? index) eqn:H2;
    destruct (index <? 0) eqn:H3; simpl;
    (split; [intros H; simplify_eq|intros [? [?|?]]; try f_equal]); lia.
Qed.

Lemma py_index_None {A} (l : list A) (index : Z) :
  py_index l index = None
  ↔ index < - Z.of_nat (length l) ∨ Z.of_nat (length l) <= index.
Proof.
  unfold py_index.
  destruct (0 <=? index) eqn:H0; destruct (index <? Z.of_nat (length l)) eqn:H1;
    destruct (- Z.of_nat (length l) <=? index) eqn:H2;
    destruct (index <? 0) eqn:H3; simpl;
    (split; [intros H; simplify_eq|intros [?|?]; try done]); lia.
Qed.

(** [set_indices] on a cell of the constructor: an index outside
    [-narrays .. narrays - 1] raises; any other index addresses an array [k]
    (a negative one counting from the end), and afterwards the two index
    lists of [k] are the ones passed in and the particle count of [k] is
    the length of the local list, while the lists and counts of every other
    array and the geometry of the cell are as before. *)
Theorem set_indices_lookup (cid : cIntPoint) (cell_size : Q) (narrays : nat)
    (nlayers : Z) (index : Z) (lind : list nat) (gind : list Z) :
  let c := Cell_init cid cell_size narrays nlayers in
  (set_indices c index lind gind = None
   ↔ index < - Z.of_nat narrays ∨ Z.of_nat narrays <= index)
  ∧ ∀ c', set_indices c index lind gind = Some c' →
      ∃ k, (k < narrays)%nat
           ∧ (index = Z.of_nat k ∨ index = Z.of_nat k - Z.of_nat narrays)
           ∧ lindices c' !! k = Some lind
           ∧ gindices c' !! k = Some gind
           ∧ nparticles c' !! k = Some (length lind)
           ∧ (∀ j, j ≠ k → lindices c' !! j = lindices c !! j
                           ∧ gindices c' !! j = gindices c !! j
                           ∧ nparticles c' !! j = nparticles c !! j)
           ∧ _cid c' = cid ∧ centroid c' = centroid c
           ∧ boxmin c' = boxmin c ∧ boxmax c' = boxmax c
           ∧ layers c' = nlayers.
Proof.
  intros c.
  assert (Hl : length (lindices c) = narrays) by apply length_replicate.
  assert (Hg : length (gindices c) = narrays) by apply length_replicate.
  assert (Hn : length (nparticles c) = narrays) by apply length_replicate.
  assert (Hcid : _cid c = cid) by reflexivity.
  assert (Hlay : layers c = nlayers) by reflexivity.
  clearbody c.
  assert (Hi : ∀ A B (l : list A) (l' : list B),
             length l = length l' → py_index l index = py_index l' index).
  { intros A B l l' H. unfold py_index. by rewrite H. }
  unfold set_indices, py_setitem.
  rewrite (Hi _ _ (gindices c) (lindices c)) by congruence.
  rewrite (Hi _ _ (nparticles c) (lindices c)) by congruence.
  destruct (py_index (lindices c) index) as [k|] eqn:Hk.
  - cbn [mbind option_bind]. apply py_index_Some in Hk as [Hk1 Hk2].
    rewrite Hl in Hk1, Hk2. split.
    + split; [done|]. lia.
    + intros c' [= <-]. exists k. split; [done|]. split; [done|].
      cbn [lindices gindices nparticles _cid centroid boxmin boxmax layers].
      rewrite !list_lookup_insert_eq by lia.
      repeat (split; [done|]). split; [|done].
      intros j Hj. by rewrite !list_lookup_insert_ne.
  - cbn [mbind option_bind]. apply py_index_None in Hk. rewrite Hl in Hk.
    split; [done|]. done.
Qed.

(** ** [arange_uint] *)

(** For [0 <= a <= b], [arange_uint a b] holds the [b - a] integers from
    [a] on in ascending order, and [arange_uint a] followed by
    [arange_uint a b] is [arange_uint b]: the range of the local rows
    followed by the range of the remote rows is the range of all rows. *)
Theorem arange_uint_ranges (a b : Z) :
  0 <= a <= b →
  length (arange_uint a b) = Z.to_nat (b - a)
  ∧ (∀ i, (i < Z.to_nat (b - a))%nat →
          arange_uint a b !! i = Some (Z.to_nat a + i)%nat)
  ∧ arange_uint a (-1) ++ arange_uint a b = arange_uint b (-1).
Proof.
  intros Hab. unfold arange_uint.
  replace (b =? -1) with false by (symmetry; apply Z.eqb_neq; lia).
  change (-1 =? -1) with true. cbn match.
  split; [apply length_seq|]. split.
  - intros i Hi. by apply lookup_seq_lt.
  - replace (Z.to_nat b) with (Z.to_nat a + Z.to_nat (b - a))%nat by lia.
    by rewrite seq_app.
Qed.

Lemma arange_uint_ranges_witness :
  arange_uint 2 (-1) ++ arange_uint 2 5 = arange_uint 5 (-1).
Proof. apply (arange_uint_ranges 2 5). lia. Defined.

(** ** [DomainLimits] *)

(** The constructor of [DomainLimits] raises exactly when some maximum is
    below its minimum; otherwise it stores the limits and the flag as given
    and the translate of each axis is [max - min], which is not negative.
    The defaults pass the check. *)
Theorem DomainLimits_init_checks (dim : Z) (x0 x1 y0 y1 z0 z1 : Q)
    (periodic : bool) :
  (DomainLimits_init dim x0 x1 y0 y1 z0 z1 periodic = None
   ↔ (x1 < x0 ∨ y1 < y0 ∨ z1 < z0)%Q)
  ∧ (∀ d, DomainLimits_init dim x0 x1 y0 y1 z0 z1 periodic = Some d →
          xmin d = x0 ∧ xmax d = x1 ∧ ymin d = y0 ∧ ymax d = y1
          ∧ zmin d = z0 ∧ zmax d = z1 ∧ is_periodic d = periodic
          ∧ d_dim d = dim
          ∧ xtranslate d = (x1 - x0)%Q ∧ ytranslate d = (y1 - y0)%Q
          ∧ ztranslate d = (z1 - z0)%Q
          ∧ (0 <= xtranslate d ∧ 0 <= ytranslate d ∧ 0 <= ztranslate d)%Q)
  ∧ DomainLimits_init dim (-1000) 1000 0 0 0 0 false
    = Some (DomainLimits_default dim).
Proof.
  unfold DomainLimits_init, _check_limits.
  destruct (Qltb x1 x0) eqn:Hx; destruct (Qltb y1 y0) eqn:Hy;
    destruct (Qltb z1 z0) eqn:Hz; cbn [orb mbind option_bind];
    rewrite ?Qltb_lt, ?Qltb_ge in *;
    (split; [split; [intros H; first [discriminate H|tauto]
                    |intros H; first [done|lra]]|]);
    (split; [|reflexivity]); intros d Hd; try discriminate Hd.
  injection Hd as <-. cbn. repeat split; lra.
Qed.

(** ** The serial query: symmetry, buffer, brute force *)

Lemma distance2_sym (a b : cPoint) :
  (cPoint_distance2 a b == cPoint_distance2 b a)%Q.
Proof. unfold cPoint_distance2. ring. Qed.

Lemma Qltb_proper (a a' b b' : Q) :
  (a == a')%Q → (b == b')%Q → Qltb a b = Qltb a' b'.
Proof.
  intros Ha Hb. destruct (Qltb a b) eqn:H1; destruct (Qltb a' b') eqn:H2;
    try done; rewrite ?Qltb_lt, ?Qltb_ge in *; exfalso;
    rewrite Ha, Hb in H1; lra.
Qed.

Lemma distance_lt_sym (a b : cPoint) (r : Q) :
  distance_lt a b r = distance_lt b a r.
Proof.
  unfold distance_lt. f_equal. apply Qltb_proper; [|reflexivity].
  apply distance2_sym.
Qed.

Lemma distance_lt_self (a : cPoint) (r : Q) :
  distance_lt a a r = Qltb 0 r.
Proof.
  unfold distance_lt. destruct (Qltb 0 r) eqn:Hr; [|done]. simpl.
  apply Qltb_lt in Hr. apply Qltb_lt. unfold cPoint_distance2. nra.
Qed.

(** What [update] establishes for the queries that follow. *)
Lemma NNPS_update_ready s0 s :
  NNPS.narrays s0 = length (NNPS.particles s0) →
  (0 <= NNPS.radius_scale s0)%Q →
  NNPS.update s0 = Some s →
  NNPS.particles s = NNPS.particles s0
  ∧ NNPS.radius_scale s = NNPS.radius_scale s0
  ∧ NNPS.narrays s = length (NNPS.particles s)
  ∧ current (NNPS.particles s) (NNPS.cell_size s) (NNPS.narrays s)
            (NNPS.cells s)
  ∧ covers (NNPS.particles s) (NNPS.radius_scale s) (NNPS.cell_size s).
Proof.
  intros Hn Hrs Hu.
  pose proof (NNPS_update_covers _ _ Hn Hrs Hu) as Hcov.
  destruct (NNPS_update_current s0 Hn) as (s1 & Hs1 & Hp & Hna & Hr & _ & Hcur).
  rewrite Hu in Hs1. injection Hs1 as <-.
  split; [done|]. split; [done|]. split; [by rewrite Hna, Hp|]. done.
Qed.

(** The neighbour lists of one array are symmetric: after [update] with a
    non-negative radius scale, the queries for two rows [i] and [j] of an
    array against itself both complete, and [j] is in the list of [i]
    exactly when [i] is in the list of [j]. *)
Theorem NNPS_neighbors_symmetric s0 s k pa (i j : nat) nbrs nbrs' :
  NNPS.narrays s0 = length (NNPS.particles s0) →
  (0 <= NNPS.radius_scale s0)%Q →
  NNPS.update s0 = Some s →
  NNPS.particles s !! k = Some pa →
  (i < get_number_of_particles pa)%nat →
  (j < get_number_of_particles pa)%nat →
  ∃ si outi sj outj,
    NNPS.get_nearest_particles s k k i nbrs = Some (si, outi)
    ∧ NNPS.get_nearest_particles s k k j nbrs' = Some (sj, outj)
    ∧ (j ∈ outi ↔ i ∈ outj).
Proof.
  intros Hn Hrs Hu Hpa Hi Hj.
  destruct (NNPS_update_ready _ _ Hn Hrs Hu) as (_ & _ & Hn' & Hcur & Hcov).
  destruct (NNPS_query_exact s k k i nbrs pa pa Hn' Hcur Hcov Hpa Hpa)
    as (si & outi & Hqi & _ & _ & Hini).
  destruct (NNPS_query_exact s k k j nbrs' pa pa Hn' Hcur Hcov Hpa Hpa)
    as (sj & outj & Hqj & _ & _ & Hinj).
  exists si, outi, sj, outj. split; [done|]. split; [done|].
  rewrite Hini, Hinj. unfold is_neighbor.
  rewrite (distance_lt_sym (cPoint_new (w_x pa !!! i) _ _)).
  rewrite (distance_lt_sym (cPoint_new (w_x pa !!! i) _ _)).
  rewrite (orb_comm (distance_lt _ _ (NNPS.radius_scale s * (w_h pa !!! i)))).
  tauto.
Qed.

(** A row is its own neighbour exactly when its scaled smoothing length is
    positive: after [update] with a non-negative radius scale, the list
    that the query for row [i] of an array against itself returns holds
    [i] if and only if [0 < radius_scale * h[i]]. *)
Theorem NNPS_self_neighbor s0 s k pa (i : nat) nbrs :
  NNPS.narrays s0 = length (NNPS.particles s0) →
  (0 <= NNPS.radius_scale s0)%Q →
  NNPS.update s0 = Some s →
  NNPS.particles s !! k = Some pa →
  (i < get_number_of_particles pa)%nat →
  ∃ s' out,
    NNPS.get_nearest_particles s k k i nbrs = Some (s', out)
    ∧ (i ∈ out ↔ (0 < NNPS.radius_scale s * (w_h pa !!! i))%Q).
Proof.
  intros Hn Hrs Hu Hpa Hi.
  destruct (NNPS_update_ready _ _ Hn Hrs Hu) as (_ & _ & Hn' & Hcur & Hcov).
  destruct (NNPS_query_exact s k k i nbrs pa pa Hn' Hcur Hcov Hpa Hpa)
    as (s' & out & Hq & _ & _ & Hin).
  exists s', out. split; [done|]. rewrite Hin. unfold is_neighbor.
  rewrite !distance_lt_self, orb_diag, Qltb_lt. tauto.
Qed.

Lemma scenarioA_updated :
  ∃ s, NNPS.update scenarioA_nnps0 = Some s
       ∧ NNPS.particles s !! 0%nat = Some scenarioA_pa.
Proof.
  destruct (NNPS_update_current scenarioA_nnps0 eq_refl)
    as (s & Hs & Hp & _).
  exists s. split; [done|]. by rewrite Hp.
Qed.

Lemma NNPS_neighbors_symmetric_witness :
  ∃ s si outi sj outj,
    NNPS.update scenarioA_nnps0 = Some s
    ∧ NNPS.get_nearest_particles s 0 0 0 [] = Some (si, outi)
    ∧ NNPS.get_nearest_particles s 0 0 1 [] = Some (sj, outj)
    ∧ (1%nat ∈ outi ↔ 0%nat ∈ outj).
Proof.
  destruct scenarioA_updated as (s & Hs & Hpa).
  destruct (NNPS_neighbors_symmetric scenarioA_nnps0 s 0 scenarioA_pa 0 1
              [] [] eq_refl) as (si & outi & sj & outj & H1 & H2 & H3);
    [discriminate|exact Hs|exact Hpa|vm_compute; lia|vm_compute; lia|].
  by exists s, si, outi, sj, outj.
Defined.

Lemma NNPS_self_neighbor_witness :
  ∃ s s' out,
    NNPS.update scenarioA_nnps0 = Some s
    ∧ NNPS.get_nearest_particles s 0 0 2 [] = Some (s', out)
    ∧ 2%nat ∈ out.
Proof.
  destruct scenarioA_updated as (s & Hs & Hpa).
  destruct (NNPS_self_neighbor scenarioA_nnps0 s 0 scenarioA_pa 2
              [] eq_refl) as (s' & out & H1 & H2);
    [discriminate|exact Hs|exact Hpa|vm_compute; lia|].
  exists s, s', out. split; [done|]. split; [done|].
  apply H2.
  destruct (NNPS_update_current scenarioA_nnps0 eq_refl)
    as (s1 & Hs1 & _ & _ & Hr & _).
  rewrite Hs in Hs1. injection Hs1 as <-. rewrite Hr. reflexivity.
Defined.

Lemma NNPS_nearest_exact_witness :
  ∃ s s' out,
    NNPS.update scenarioA_nnps0 = Some s
    ∧ NNPS.get_nearest_particles s 0 0 0 [] = Some (s', out)
    ∧ NoDup out.
Proof.
  destruct scenarioA_updated as (s & Hs & Hpa).
  destruct (NNPS_nearest_exact scenarioA_nnps0 s 0 0 0 [] scenarioA_pa
              scenarioA_pa eq_refl) as (s' & out & H1 & _ & H2 & _);
    [discriminate|exact Hs|exact Hpa|exact Hpa|].
  by exists s, s', out.
Defined.

(** ** Growth of the neighbour buffer *)

Lemma extension_messages_S (n k : nat) :
  extension_messages n (S k)
  = extension_messages n k
    ++ [(Stdout, ExtendingNeighborList (n + 50 * S k)%nat)].
Proof.
  unfold extension_messages. rewrite seq_S, fmap_app. done.
Qed.

Lemma visit_row_grown rs s_h xi hi mk_xj n0 c0 b k j :
  grown n0 c0 b k →
  ∃ k', grown n0 c0 (visit_row rs s_h xi hi mk_xj b j) k'.
Proof.
  intros (Hl & Hc & Hn & Hk). unfold visit_row.
  destruct (_ || _); [|by exists k].
  destruct (Nat.eqb_spec (nnbrs b) (length (nbrs_data b))) as [He|Hne].
  - exists (S k). unfold grown. cbn [nnbrs nbrs_data buf_console].
    rewrite length_insert, length_resize. unfold print.
    rewrite Hc, extension_messages_S, <- app_assoc, Hl.
    replace (n0 + 50 * k + 50)%nat with (n0 + 50 * S k)%nat by lia.
    split; [done|]. split; [done|]. split; [lia|]. right. lia.
  - exists k. unfold grown. cbn [nnbrs nbrs_data buf_console].
    rewrite length_insert. split; [done|]. split; [done|].
    split; [lia|]. destruct Hk as [->|Hk]; [by left|right; lia].
Qed.

Lemma visit_rows_grown rs s_h xi hi mk_xj n0 c0 (rows : list nat) b k :
  grown n0 c0 b k →
  ∃ k', grown n0 c0 (foldl (visit_row rs s_h xi hi mk_xj) b rows) k'.
Proof.
  revert b k. induction rows as [|j rows IH]; intros b k Hg; simpl.
  - by exists k.
  - destruct (visit_row_grown rs s_h xi hi mk_xj _ _ _ _ j Hg) as [k1 Hg1].
    by eapply IH.
Qed.

Lemma visit_block_grown rs s_h xi hi mk_xj cells src n0 c0
    (block : list cIntPoint) b k b' :
  grown n0 c0 b k →
  for_each (visit_cell cells src (visit_row rs s_h xi hi mk_xj)) block b
  = Some b' →
  ∃ k', grown n0 c0 b' k'.
Proof.
  revert b k. induction block as [|cid block IH]; intros b k Hg Hrun;
    simpl in Hrun.
  - simplify_eq. by exists k.
  - apply bind_Some in Hrun as (b1 & Hcell & Hrun). unfold visit_cell in Hcell.
    destruct (cells !! cid) as [cell|].
    + apply bind_Some in Hcell as (lind & _ & Hcell). simplify_eq.
      destruct (visit_rows_grown rs s_h xi hi mk_xj _ _ lind _ _ Hg)
        as [k1 Hg1].
      by eapply IH.
    + simplify_eq. by eapply IH.
Qed.

(** The buffer of a query grows in steps of 50 and every step is
    announced: a query that returns a list [out] into a buffer of [n] slots
    leaves the search object as it was but for the console, which has
    gained the [k] messages of the extensions to [n + 50], ..., [n + 50 * k]
    slots, where [k] is the least number with [length out <= n + 50 * k];
    when the list fits the buffer the object is unchanged. *)
Theorem NNPS_query_extends_buffer s src dst d_idx (nbrs : list nat) s' out :
  NNPS.get_nearest_particles s src dst d_idx nbrs = Some (s', out) →
  ∃ k,
    s' = NNPS.set_console s
           (NNPS.console s ++ extension_messages (length nbrs) k)
    ∧ (length out ≤ length nbrs + 50 * k)%nat
    ∧ (k = 0%nat ∨ length nbrs + 50 * (k - 1) < length out)%nat
    ∧ ((length out ≤ length nbrs)%nat → s' = s).
Proof.
  unfold NNPS.get_nearest_particles. intros H.
  apply bind_Some in H as (srcpa & _ & H).
  apply bind_Some in H as (dstpa & _ & H).
  apply bind_Some in H as (b & Hb & H). injection H as <- <-.
  eapply (visit_block_grown _ _ _ _ _ _ _ (length nbrs) (NNPS.console s)
            _ _ 0%nat) in Hb as (k & Hl & Hc & Hn & Hk).
  2:{ unfold grown, extension_messages. simpl.
      rewrite app_nil_r. split; [lia|]. split; [done|]. split; [lia|by left]. }
  assert (Hlen : length (take (nnbrs b) (nbrs_data b)) = nnbrs b).
  { rewrite length_take. lia. }
  exists k. rewrite Hlen, Hc. split; [done|]. split; [lia|]. split; [done|].
  intros Hfit. assert (k = 0%nat) as -> by lia.
  unfold extension_messages. simpl. rewrite app_nil_r. by destruct s.
Qed.

Lemma scenarioA_queried :
  ∃ s s' out,
    NNPS.update scenarioA_nnps0 = Some s
    ∧ NNPS.get_nearest_particles s 0 0 0 [] = Some (s', out).
Proof.
  destruct scenarioA_updated as (s & Hs & Hpa).
  destruct (NNPS_update_ready scenarioA_nnps0 s eq_refl) as
    (_ & _ & Hn & Hcur & Hcov); [discriminate|done|].
  destruct (NNPS_query_exact s 0 0 0 [] scenarioA_pa scenarioA_pa
              Hn Hcur Hcov Hpa Hpa) as (s' & out & Hq & _).
  by exists s, s', out.
Qed.

Lemma NNPS_query_extends_buffer_witness :
  ∃ s s' out k,
    NNPS.update scenarioA_nnps0 = Some s
    ∧ NNPS.get_nearest_particles s 0 0 0 [] = Some (s', out)
    ∧ s' = NNPS.set_console s
             (NNPS.console s ++ extension_messages 0 k).
Proof.
  destruct scenarioA_queried as (s & s' & out & Hs & Hq).
  destruct (NNPS_query_extends_buffer s 0 0 0 [] s' out Hq) as (k & Hk & _).
  by exists s, s', out, k.
Defined.

Lemma visit_cell_same_written rs s_h xi hi mk_xj cells src b1 b2 cid :
  buffer_ok b1 → buffer_ok b2 → written b1 = written b2 →
  match visit_cell cells src (visit_row rs s_h xi hi mk_xj) b1 cid,
        visit_cell cells src (visit_row rs s_h xi hi mk_xj) b2 cid with
  | Some b1', Some b2' =>
      buffer_ok b1' ∧ buffer_ok b2' ∧ written b1' = written b2'
  | None, None => True
  | _, _ => False
  end.
Proof.
  intros H1 H2 Hw. unfold visit_cell. destruct (cells !! cid) as [cell|]; [|done].
  destruct (lindices cell !! src) as [lind|]; cbn [mbind option_bind];
    [|exact I].
  destruct (visit_rows_written rs s_h xi hi mk_xj lind b1 H1) as [Ho1 Hw1].
  destruct (visit_rows_written rs s_h xi hi mk_xj lind b2 H2) as [Ho2 Hw2].
  split; [done|]. split; [done|]. congruence.
Qed.

Lemma visit_block_same_written rs s_h xi hi mk_xj cells src
    (block : list cIntPoint) b1 b2 :
  buffer_ok b1 → buffer_ok b2 → written b1 = written b2 →
  match for_each (visit_cell cells src (visit_row rs s_h xi hi mk_xj)) block b1,
        for_each (visit_cell cells src (visit_row rs s_h xi hi mk_xj)) block b2
  with
  | Some b1', Some b2' => written b1' = written b2'
  | None, None => True
  | _, _ => False
  end.
Proof.
  revert b1 b2. induction block as [|cid block IH]; intros b1 b2 H1 H2 Hw;
    cbn [for_each]; [done|].
  pose proof (visit_cell_same_written rs s_h xi hi mk_xj cells src b1 b2 cid
                H1 H2 Hw) as Hc.
  destruct (visit_cell _ _ _ b1 cid) as [b1'|],
           (visit_cell _ _ _ b2 cid) as [b2'|]; cbn [mbind option_bind];
    try done.
  destruct Hc as (Ho1 & Ho2 & Hw'). by apply IH.
Qed.

(** The list a query returns does not depend on the buffer it is given:
    two queries on one search object for the same row, with buffers of any
    content and size, fail alike or return the same list. *)
Theorem NNPS_query_any_buffer s src dst d_idx (nbrs nbrs' : list nat) :
  snd <$> NNPS.get_nearest_particles s src dst d_idx nbrs
  = snd <$> NNPS.get_nearest_particles s src dst d_idx nbrs'.
Proof.
  unfold NNPS.get_nearest_particles.
  destruct (NNPS.particles s !! src) as [srcpa|]; [|done].
  destruct (NNPS.particles s !! dst) as [dstpa|]; [|done].
  cbn [mbind option_bind].
  match goal with
  | |- context [for_each (visit_cell ?cells ?src
                            (visit_row ?rs ?s_h ?xi ?hi ?mk)) ?block
                         (mkBuf nbrs 0 ?c)] =>
      pose proof (visit_block_same_written rs s_h xi hi mk cells src block
                    (mkBuf nbrs 0 c) (mkBuf nbrs' 0 c)) as Hgen
  end.
  destruct (for_each _ _ (mkBuf nbrs _ _)) as [b1|],
           (for_each _ _ (mkBuf nbrs' _ _)) as [b2|];
    cbn [mbind option_bind fmap option_fmap option_map snd];
    try (exfalso; apply Hgen; unfold buffer_ok; simpl; lia || done);
    [|done].
  f_equal. apply Hgen; unfold buffer_ok; simpl; lia || done.
Qed.

(** ** [brute_force_neighbors] *)









(** ** [update] builds the index from the particle data alone *)

Lemma same_but_console_bin s t k ind s' :
  same_but_console s t → NNPS._bin s k ind = Some s' →
  ∃ t', NNPS._bin t k ind = Some t' ∧ same_but_console s' t'
        ∧ NNPS.console s' = NNPS.console s
        ∧ NNPS.console t' = NNPS.console t.
Proof.
  intros (Hp & Hn & Hr & Hd & Hdo & Hc & Hcs). unfold NNPS._bin.
  rewrite <- Hp. destruct (NNPS.particles s !! k) as [pa|]; [|done].
  cbn [mbind option_bind]. intros [= <-]. eexists. split; [done|].
  unfold same_but_console.
  cbn [NNPS.set_cells NNPS.particles NNPS.narrays NNPS.radius_scale NNPS.dim
       NNPS.domain NNPS.cells NNPS.cell_size NNPS.console].
  rewrite Hc, Hcs, Hn. by repeat split.
Qed.

Lemma same_but_console_loop (l : list nat) s t s' :
  same_but_console s t →
  for_each
    (λ self i,
       pa ← NNPS.particles self !! i;
       NNPS._bin self i
         (arange_uint (Z.of_nat (get_number_of_particles pa)) (-1)))
    l s = Some s' →
  ∃ t', for_each
          (λ self i,
             pa ← NNPS.particles self !! i;
             NNPS._bin self i
               (arange_uint (Z.of_nat (get_number_of_particles pa)) (-1)))
          l t = Some t'
        ∧ same_but_console s' t'
        ∧ NNPS.console s' = NNPS.console s
        ∧ NNPS.console t' = NNPS.console t.
Proof.
  revert s t. induction l as [|i l IH]; intros s t Hst Hrun;
    cbn [for_each] in *.
  - simplify_eq. by exists t.
  - apply bind_Some in Hrun as (s1 & Hstep & Hrun).
    apply bind_Some in Hstep as (pa & Hpa & Hstep).
    destruct (same_but_console_bin _ _ _ _ _ Hst Hstep)
      as (t1 & Ht1 & Hst1 & Hc1 & Hc2).
    destruct (IH _ _ Hst1 Hrun) as (t' & Ht' & Hst' & Hc1' & Hc2').
    exists t'. destruct Hst as (Hp & _). rewrite <- Hp, Hpa.
    cbn [mbind option_bind]. rewrite Ht1. cbn [mbind option_bind].
    split; [done|]. split; [done|]. split; congruence.
Qed.

(** [update] is idempotent on the index: a second [update] right after a
    first one completes and leaves the same particle references, cell
    size and cell map; the console gains, once more, what the first
    [update] wrote to it (the warning about a degenerate cell size, or
    nothing). *)
Theorem NNPS_update_idempotent s s1 :
  NNPS.update s = Some s1 →
  ∃ s2 w,
    NNPS.update s1 = Some s2
    ∧ same_but_console s1 s2
    ∧ NNPS.console s1 = NNPS.console s ++ w
    ∧ NNPS.console s2 = NNPS.console s1 ++ w.
Proof.
  unfold NNPS.update. intros Hu.
  set (a := NNPS._compute_cell_size (NNPS.set_cells s ∅)) in *.
  set (b := NNPS._compute_cell_size (NNPS.set_cells s1 ∅)).
  assert (Hfr : NNPS.particles s1 = NNPS.particles a
                ∧ NNPS.narrays s1 = NNPS.narrays a
                ∧ NNPS.radius_scale s1 = NNPS.radius_scale a
                ∧ NNPS.dim s1 = NNPS.dim a
                ∧ NNPS.domain s1 = NNPS.domain a
                ∧ NNPS.cell_size s1 = NNPS.cell_size a
                ∧ NNPS.console s1 = NNPS.console a).
  { revert Hu.
    apply (for_each_inv
             (λ st, NNPS.particles st = NNPS.particles a
                    ∧ NNPS.narrays st = NNPS.narrays a
                    ∧ NNPS.radius_scale st = NNPS.radius_scale a
                    ∧ NNPS.dim st = NNPS.dim a
                    ∧ NNPS.domain st = NNPS.domain a
                    ∧ NNPS.cell_size st = NNPS.cell_size a
                    ∧ NNPS.console st = NNPS.console a)); [|done].
    intros st i st' _ Hst Hstep.
    apply bind_Some in Hstep as (pa & _ & Hstep). unfold NNPS._bin in Hstep.
    apply bind_Some in Hstep as (pw & _ & Hstep). by simplify_eq. }
  destruct Hfr as (Hp & Hn & Hr & Hd & Hdo & Hcs & Hco).
  assert (Ha : NNPS.particles a = NNPS.particles s
               ∧ NNPS.narrays a = NNPS.narrays s
               ∧ NNPS.radius_scale a = NNPS.radius_scale s
               ∧ NNPS.dim a = NNPS.dim s ∧ NNPS.domain a = NNPS.domain s).
  { unfold a, NNPS._compute_cell_size. by destruct (Qltb _ _). }
  destruct Ha as (Hpa & Hna & Hra & Hda & Hdoa).
  set (hm := (NNPS.radius_scale s * foldl NNPS.hmax_step (-1.0)%Q
                                           (NNPS.particles s))%Q).
  set (w := if Qltb hm cell_size_floor
            then [(Stdout, CellSizeTooSmall hm)] else []).
  assert (Hca : NNPS.console a = NNPS.console s ++ w).
  { unfold a, w, hm, NNPS._compute_cell_size, print.
    cbn [NNPS.set_cells NNPS.particles NNPS.radius_scale NNPS.console].
    destruct (Qltb _ _); cbn [NNPS.console]; [done|by rewrite app_nil_r]. }
  assert (Hab : same_but_console a b ∧ NNPS.console b = NNPS.console s1 ++ w).
  { unfold a, b, w, hm, same_but_console, NNPS._compute_cell_size, print.
    cbn [NNPS.set_cells NNPS.particles NNPS.radius_scale NNPS.console
         NNPS.narrays NNPS.dim NNPS.domain NNPS.cells].
    rewrite Hp, Hpa, Hr, Hra, Hn, Hna, Hd, Hda, Hdo, Hdoa.
    destruct (Qltb _ _);
      cbn [NNPS.particles NNPS.radius_scale NNPS.console NNPS.narrays
           NNPS.dim NNPS.domain NNPS.cells NNPS.cell_size];
      rewrite ?app_nil_r; by repeat split. }
  destruct Hab as [Hab Hcb].
  assert (Hnb : NNPS.narrays b = NNPS.narrays a) by (symmetry; apply Hab).
  rewrite Hnb.
  destruct (same_but_console_loop _ a b s1 Hab Hu)
    as (s2 & Hs2 & Hs12 & _ & Hc2).
  exists s2, w. split; [done|]. split; [done|]. split; congruence.
Qed.

Lemma NNPS_update_idempotent_witness :
  ∃ s1 s2,
    NNPS.update scenarioA_nnps0 = Some s1
    ∧ NNPS.update s1 = Some s2
    ∧ NNPS.cells s2 = NNPS.cells s1.
Proof.
  destruct scenarioA_updated as (s1 & Hs1 & _).
  destruct (NNPS_update_idempotent scenarioA_nnps0 s1 Hs1)
    as (s2 & w & Hs2 & Hsame & _).
  exists s1, s2. split; [done|]. split; [done|]. symmetry. apply Hsame.
Defined.

(** ** The cell map as a partition of the rows *)

Lemma current_listed ps cs n cells k pa r cid :
  current ps cs n cells → ps !! k = Some pa → (k < n)%nat →
  listed cells k r cid
  ↔ (r < get_number_of_particles pa)%nat ∧ cid = home pa cs r.
Proof.
  intros Hcur Hpa Hk. specialize (Hcur cid k pa Hpa Hk). unfold listed.
  split.
  - intros (c & rows & Hc & Hrows & Hr). rewrite Hc, Hrows in Hcur.
    injection Hcur as ->. apply elem_of_rows_at in Hr as [Hh Hr].
    apply (elem_of_all_rows _ _ _ _ Hpa) in Hr. done.
  - intros [Hr ->].
    assert (Hin : r ∈ rows_at pa cs (home pa cs r) (all_rows ps k)).
    { apply elem_of_rows_at. split; [done|].
      by apply (elem_of_all_rows _ _ _ _ Hpa). }
    destruct (cells !! home pa cs r) as [c|].
    + exists c. eexists. split; [done|]. split; [exact Hcur|done].
    + rewrite Hcur in Hin. inversion Hin.
Qed.

Lemma current_NoDup ps cs n cells k pa cid c rows :
  current ps cs n cells → ps !! k = Some pa → (k < n)%nat →
  cells !! cid = Some c → lindices c !! k = Some rows → NoDup rows.
Proof.
  intros Hcur Hpa Hk Hc Hrows. specialize (Hcur cid k pa Hpa Hk).
  rewrite Hc, Hrows in Hcur. injection Hcur as ->.
  apply NoDup_filter, NoDup_all_rows.
Qed.

(** [update] sorts every row into exactly one cell: afterwards a row [r]
    of array [k] is listed in the cell under a key [cid] if and only if [r]
    is a row of the array and [cid] is the index of its point at the cell
    size of the object, and no list of a cell holds a row twice. *)
Theorem NNPS_update_partitions s s' :
  NNPS.narrays s = length (NNPS.particles s) →
  NNPS.update s = Some s' →
  ∀ k pa, NNPS.particles s' !! k = Some pa →
    (∀ r cid, listed (NNPS.cells s') k r cid
              ↔ (r < get_number_of_particles pa)%nat
                ∧ cid = find_cell_id
                          (cPoint_new (w_x pa !!! r) (w_y pa !!! r) 0.0)
                          (NNPS.cell_size s'))
    ∧ (∀ cid c rows, NNPS.cells s' !! cid = Some c →
                     lindices c !! k = Some rows → NoDup rows).
Proof.
  intros Hn Hu k pa Hpa.
  destruct (NNPS_update_current s Hn) as (s1 & Hs1 & Hp & Hna & _ & _ & Hcur).
  rewrite Hu in Hs1. injection Hs1 as <-.
  assert (Hk : (k < NNPS.narrays s')%nat).
  { rewrite Hna, Hn, <- Hp. by eapply lookup_lt_Some. }
  split.
  - intros r cid. by apply (current_listed _ _ _ _ _ _ _ _ Hcur Hpa Hk).
  - intros cid c rows. by apply (current_NoDup _ _ _ _ _ _ _ _ _ Hcur Hpa Hk).
Qed.

Lemma NNPS_update_partitions_witness :
  ∃ s', NNPS.update scenarioA_nnps0 = Some s'
        ∧ listed (NNPS.cells s') 0 2
            (find_cell_id (cPoint_new 1.2 0.2 0.0) (NNPS.cell_size s')).
Proof.
  destruct scenarioA_updated as (s' & Hs' & Hpa).
  destruct (NNPS_update_partitions scenarioA_nnps0 s' eq_refl Hs' 0
              scenarioA_pa Hpa) as [Hl _].
  exists s'. split; [done|]. apply Hl. split; [vm_compute; lia|reflexivity].
Defined.

Lemma binned_cell_step (f : Cell → Cell) (k i n : nat) (nl : Z) cid cs
    (cells : gmap cIntPoint Cell) :
  (k < n)%nat →
  (∀ c, lindices (f c) = alter (λ l, l ++ [i]) k (lindices c)
        ∧ nparticles (f c) = nparticles c) →
  map_Forall (λ _, binned_cell n) cells →
  map_Forall (λ _, binned_cell n)
    (alter f cid
       (match cells !! cid with
        | None => <[cid := Cell_init cid cs n nl]> cells
        | Some _ => cells
        end)).
Proof.
  intros Hk Hf Hall cid' c'. rewrite bin_lookup. case_decide as Hd.
  - intros [= <-]. destruct (Hf (default (Cell_init cid cs n nl)
                                          (cells !! cid))) as [Hl Hn].
    assert (Hc0 : length (lindices (default (Cell_init cid cs n nl)
                                            (cells !! cid))) = n
                  ∧ nparticles (default (Cell_init cid cs n nl)
                                        (cells !! cid))
                    = replicate n 0%nat).
    { destruct (cells !! cid) as [c|] eqn:Hc; simpl.
      - destruct (Hall _ _ Hc) as (? & _ & ?). done.
      - split; [apply length_replicate|done]. }
    destruct Hc0 as [Hlen Hnp]. unfold binned_cell. rewrite Hl, Hn.
    rewrite length_alter. split; [done|]. split; [|done].
    destruct (lookup_lt_is_Some_2
                (lindices (default (Cell_init cid cs n nl) (cells !! cid)))
                k) as [rows Hrows]; [lia|].
    exists k, (rows ++ [i]). split.
    + by rewrite Hl, list_lookup_alter_eq, Hrows.
    + by destruct rows.
  - intros Hc. by apply (Hall cid').
Qed.

Lemma NNPS_bin_binned_cell s k ind s' :
  (k < NNPS.narrays s)%nat →
  map_Forall (λ _, binned_cell (NNPS.narrays s)) (NNPS.cells s) →
  NNPS._bin s k ind = Some s' →
  map_Forall (λ _, binned_cell (NNPS.narrays s')) (NNPS.cells s')
  ∧ NNPS.narrays s' = NNPS.narrays s.
Proof.
  intros Hk Hall. unfold NNPS._bin. intros H.
  apply bind_Some in H as (pa & _ & H). injection H as <-.
  cbn [NNPS.set_cells NNPS.narrays NNPS.cells]. split; [|done].
  revert Hall. generalize (NNPS.cells s).
  induction ind as [|i ind IH]; intros cells Hall; cbn [foldl]; [done|].
  apply IH. unfold NNPS.bin_row.
  apply (binned_cell_step _ k i); [done| |done]. intros c. by split.
Qed.

(** [update] leaves occupied cells only, and never counts their rows:
    afterwards every cell of the map has one list of rows per array, lists
    at least one row, and has the particle counts of the constructor (all
    zero), since [_bin] appends to the lists without touching
    [nparticles]. *)
Theorem NNPS_update_cells_occupied s s' :
  NNPS.narrays s = length (NNPS.particles s) →
  NNPS.update s = Some s' →
  map_Forall (λ _ c, length (lindices c) = NNPS.narrays s ∧ occupied c
                     ∧ nparticles c = replicate (NNPS.narrays s) 0%nat)
             (NNPS.cells s').
Proof.
  intros Hn Hu. unfold NNPS.update in Hu.
  set (a := NNPS._compute_cell_size (NNPS.set_cells s ∅)) in *.
  assert (Ha : NNPS.narrays a = NNPS.narrays s ∧ NNPS.cells a = ∅).
  { unfold a, NNPS._compute_cell_size. by destruct (Qltb _ _). }
  destruct Ha as [Hna Hca]. rewrite Hna in Hu.
  cut (map_Forall (λ _, binned_cell (NNPS.narrays s')) (NNPS.cells s')
       ∧ NNPS.narrays s' = NNPS.narrays s).
  { intros [H Heq]. rewrite Heq in H. exact H. }
  revert Hu.
  apply (for_each_inv
           (λ st, map_Forall (λ _, binned_cell (NNPS.narrays st))
                             (NNPS.cells st)
                  ∧ NNPS.narrays st = NNPS.narrays s)).
  - intros st i st' Hi%elem_of_seq [Hall Hnst] Hstep.
    apply bind_Some in Hstep as (pa & _ & Hstep).
    destruct (NNPS_bin_binned_cell st i _ st' ltac:(lia) Hall Hstep)
      as [H1 H2].
    split; [done|congruence].
  - rewrite Hca. split; [apply map_Forall_empty|done].
Qed.

Lemma NNPS_update_cells_occupied_witness :
  ∃ s', NNPS.update scenarioA_nnps0 = Some s'
        ∧ map_Forall (λ _ c, nparticles c = [0%nat]) (NNPS.cells s').
Proof.
  destruct scenarioA_updated as (s' & Hs' & _).
  pose proof (NNPS_update_cells_occupied scenarioA_nnps0 s' eq_refl Hs') as H.
  exists s'. split; [done|]. intros cid c Hc. by destruct (H cid c Hc) as (_ & _ & ?).
Defined.

(** ** A query away from every cell *)

(** A query whose 3x3 block holds no cell finds nothing and changes
    nothing: when the cell map has no cell under any of the nine keys around
    the index of the destination point, [get_nearest_particles] returns the
    empty list and the search object as it was, whatever buffer it is
    given. *)
Theorem NNPS_query_empty_block s src dst d_idx nbrs srcpa dstpa :
  NNPS.particles s !! src = Some srcpa →
  NNPS.particles s !! dst = Some dstpa →
  (∀ cid, cid ∈ block3x3
                  (find_cell_id
                     (cPoint_new (w_x dstpa !!! d_idx) (w_y dstpa !!! d_idx)
                                 (w_z dstpa !!! d_idx))
                     (NNPS.cell_size s)) →
          NNPS.cells s !! cid = None) →
  NNPS.get_nearest_particles s src dst d_idx nbrs = Some (s, []).
Proof.
  intros Hsrc Hdst Hnone. unfold NNPS.get_nearest_particles.
  rewrite Hsrc, Hdst. cbn [mbind option_bind].
  set (block := block3x3 _) in *. clearbody block.
  match goal with
  | |- for_each ?f block ?b0 ≫= _ = _ =>
      assert (Hrun : for_each f block b0 = Some b0)
  end.
  { induction block as [|cid block IH]; [done|]. cbn [for_each].
    match goal with
    | |- visit_cell ?c ?k ?v ?b cid ≫= _ = _ =>
        assert (visit_cell c k v b cid = Some b) as ->
    end.
    { unfold visit_cell. by rewrite Hnone by (by left). }
    cbn [mbind option_bind]. apply IH. intros c Hc. apply Hnone. by right. }
  rewrite Hrun. cbn [mbind option_bind nnbrs nbrs_data buf_console take].
  by destruct s.
Qed.

Lemma NNPS_query_empty_block_witness :
  ∃ s, NNPS.update scenarioA_nnps0 = Some s
       ∧ NNPS.get_nearest_particles (NNPS_set_particles s [far_pa]) 0 0 0 []
         = Some (NNPS_set_particles s [far_pa], []).
Proof.
  destruct scenarioA_nnps_current as (s & Hs & _ & _ & _ & _ & Hrows & _).
  change scenarioA_nnps with (NNPS.update scenarioA_nnps0) in Hs.
  destruct (NNPS_update_current scenarioA_nnps0 eq_refl)
    as (s1 & Hs1 & _ & _ & _ & Hcs & _).
  rewrite Hs in Hs1. injection Hs1 as <-.
  exists s. split; [done|].
  apply (NNPS_query_empty_block (NNPS_set_particles s [far_pa]) 0 0 0 []
           far_pa far_pa); [reflexivity|reflexivity|].
  cbn [NNPS_set_particles NNPS.cell_size NNPS.cells]. rewrite Hcs.
  intros cid Hcid.
  assert (Hnone : rows_of 0 (NNPS.cells s) !! cid = None).
  { rewrite Hrows. vm_compute in Hcid.
    repeat (apply elem_of_cons in Hcid as [->|Hcid]; [reflexivity|]).
    inversion Hcid. }
  unfold rows_of in Hnone. rewrite lookup_fmap in Hnone.
  by destruct (NNPS.cells s !! cid).
Defined.

(** ** [set_tag] *)



(** ** Errors of the exchanges *)

Lemma exchange_data_missing self count inc prop :
  prop ∈ ParticleArrayExchange.lb_props self →
  get_carray (ParticleArrayExchange.pa self) prop = None →
  ParticleArrayExchange._exchange_data self count inc = None.
Proof.
  intros Hin Hnone. unfold ParticleArrayExchange._exchange_data.
  destruct (mapM _ _) as [vs|] eqn:Hm; [|done]. exfalso.
  assert (Hs : is_Some (mapM (get_carray (ParticleArrayExchange.pa self))
                          (remove_dups (ParticleArrayExchange.lb_props self))))
    by (by eexists).
  apply mapM_is_Some in Hs. rewrite Forall_forall in Hs.
  destruct (Hs prop) as [a Ha]; [by apply elem_of_remove_dups|].
  simpl in Ha. congruence.
Qed.

(** An exchange over a property that the array does not have raises: when
    [lb_props] names a property without vector, [_exchange_data] fails for
    every cursor, and so do [lb_exchange_data] and [remote_exchange_data],
    whatever the other ranks send. *)
Theorem exchange_raises_on_missing_property junk inc self prop :
  prop ∈ ParticleArrayExchange.lb_props self →
  get_carray (ParticleArrayExchange.pa self) prop = None →
  (∀ count, ParticleArrayExchange._exchange_data self count inc = None)
  ∧ ParticleArrayExchange.lb_exchange_data junk inc self = None
  ∧ ParticleArrayExchange.remote_exchange_data junk inc self = None.
Proof.
  intros Hin Hnone. split; [|split].
  - intros count. by eapply exchange_data_missing.
  - unfold ParticleArrayExchange.lb_exchange_data.
    destruct (ParticleArrayExchange.lb_prepare junk self) as [s1 c] eqn:Hp.
    assert (Hs1 : s1 = (ParticleArrayExchange.lb_prepare junk self).1)
      by (by rewrite Hp).
    rewrite (exchange_data_missing s1 _ inc prop); [done| |].
    + rewrite Hs1. unfold ParticleArrayExchange.lb_prepare. cbn [fst].
      match goal with
      | |- _ ∈ ParticleArrayExchange.lb_props
                 (ParticleArrayExchange.set_tag ?s ?a ?b ?v) =>
          by destruct (set_tag_fields s a b v) as (_ & _ & -> & _)
      end.
    + unfold get_carray in *. by rewrite Hs1, lb_prepare_lookup, Hnone.
  - unfold ParticleArrayExchange.remote_exchange_data.
    destruct (ParticleArrayExchange.remote_prepare junk self) as [s1 c] eqn:Hp.
    assert (Hs1 : s1 = (ParticleArrayExchange.remote_prepare junk self).1)
      by (by rewrite Hp).
    rewrite (exchange_data_missing s1 _ inc prop); [done| |].
    + rewrite Hs1. unfold ParticleArrayExchange.remote_prepare. cbn [fst].
      match goal with
      | |- _ ∈ ParticleArrayExchange.lb_props
                 (ParticleArrayExchange.set_tag ?s ?a ?b ?v) =>
          by destruct (set_tag_fields s a b v) as (_ & _ & -> & _)
      end.
    + unfold get_carray in *. by rewrite Hs1, remote_prepare_lookup, Hnone.
Qed.

Lemma exchange_raises_on_missing_property_witness :
  ParticleArrayExchange.lb_exchange_data no_junk one_row_incoming
    (scenarioA_exchange 2) = None
  ∧ ParticleArrayExchange.remote_exchange_data no_junk one_row_incoming
      (scenarioA_exchange 2) = None.
Proof.
  destruct (exchange_raises_on_missing_property no_junk one_row_incoming
              (scenarioA_exchange 2) "ax") as (_ & H1 & H2);
    [repeat constructor|reflexivity|].
  by split.
Defined.

(** ** [remote_exchange_data] and [remove_remote_particles] *)

Lemma remote_prepare_fields junk self :
  let s1 := (ParticleArrayExchange.remote_prepare junk self).1 in
  ParticleArrayExchange.num_local s1 = ParticleArrayExchange.num_local self
  ∧ ParticleArrayExchange.lb_props s1 = ParticleArrayExchange.lb_props self
  ∧ (ParticleArrayExchange.remote_prepare junk self).2
    = ParticleArrayExchange.num_local self.
Proof.
  unfold ParticleArrayExchange.remote_prepare. cbn [fst snd].
  match goal with
  | |- context [ParticleArrayExchange.set_tag ?s ?a ?b ?v] =>
      destruct (set_tag_fields s a b v) as (-> & _ & -> & _)
  end.
  done.
Qed.

(** For an exchange object whose cached local count [N] is the row count
    of its vectors, [remote_exchange_data] completes when the rows that
    arrive fit the vectors, and then no row has been removed: the cached
    local count is [N] as before, the count of remote rows is
    [numImport], every vector has [N + numImport] rows and its first [N]
    rows are the rows it had. *)
Theorem remote_exchange_data_appends junk inc self :
  0 <= ParticleArrayExchange.num_local self →
  0 <= ParticleArrayExchange.numParticleImport self →
  uniform_length (ParticleArrayExchange.pa self)
                 (Z.to_nat (ParticleArrayExchange.num_local self)) →
  incoming_ok self inc →
  let N := ParticleArrayExchange.num_local self in
  let M := ParticleArrayExchange.numParticleImport self in
  ∃ self',
    ParticleArrayExchange.remote_exchange_data junk inc self = Some self'
    ∧ ParticleArrayExchange.num_local self' = N
    ∧ ParticleArrayExchange.num_remote self' = M
    ∧ uniform_length (ParticleArrayExchange.pa self') (Z.to_nat (N + M))
    ∧ ∀ prop,
        option_Forall2 (λ a a', carray_take (Z.to_nat N) a' = a)
          (get_carray (ParticleArrayExchange.pa self) prop)
          (get_carray (ParticleArrayExchange.pa self') prop).
Proof.
  intros HN HI Hu Hinc N M.
  destruct (remote_prepare_fields junk self) as (Hf1 & Hf2 & Hf3).
  unfold ParticleArrayExchange.remote_exchange_data.
  destruct (ParticleArrayExchange.remote_prepare junk self) as [s1 c] eqn:Hp.
  cbn [fst snd] in Hf1, Hf2, Hf3. subst c.
  assert (Hs1 : s1 = (ParticleArrayExchange.remote_prepare junk self).1)
    by (by rewrite Hp).
  destruct (exchange_data_total s1
              (Z.to_nat (ParticleArrayExchange.num_local self)) inc)
    as [s2 Hs2].
  { unfold incoming_ok. rewrite Hf2.
    eapply kinds_fit_same_kinds; [|exact Hinc].
    intros prop. rewrite Hs1, remote_prepare_lookup.
    destruct (pa_props (ParticleArrayExchange.pa self) !! prop);
      constructor. apply remote_prepare_one_kind. }
  rewrite Hs2. cbn [mbind option_bind]. eexists. split; [done|].
  apply exchange_data_spec in Hs2 as [Hex Heq]. rewrite Heq.
  cbn [ParticleArrayExchange.set_num_remote ParticleArrayExchange.set_pa
       ParticleArrayExchange.num_local ParticleArrayExchange.num_remote
       ParticleArrayExchange.pa].
  split; [done|]. split; [subst N M; lia|].
  assert (Hprop : ∀ prop,
            option_Forall2
              (λ a a', carray_length a' = Z.to_nat (N + M)
                       ∧ carray_take (Z.to_nat N) a' = a)
              (pa_props (ParticleArrayExchange.pa self) !! prop)
              (pa_props (ParticleArrayExchange.pa s2) !! prop)).
  { intros prop. specialize (Hex prop).
    rewrite Hs1, remote_prepare_lookup in Hex.
    destruct (pa_props (ParticleArrayExchange.pa self) !! prop)
      as [a|] eqn:Ha; cbn [fmap option_fmap option_map] in Hex;
      inversion Hex as [a1 a' (_ & Hl & Ht & _)|]; constructor.
    destruct (remote_prepare_one_spec junk self prop a HN HI) as [Hl1 Ht1].
    { by apply (Hu prop). }
    subst N M. split; congruence. }
  split.
  - apply map_Forall_lookup. intros prop a' Ha'. specialize (Hprop prop).
    rewrite Ha' in Hprop. by inversion Hprop as [a a'' [? ?]|].
  - intros prop. specialize (Hprop prop). unfold get_carray.
    destruct Hprop as [a a' [_ Ht]|]; by constructor.
Qed.

Lemma importing_exchange_incoming_ok :
  incoming_ok importing_exchange one_row_incoming.
Proof.
  split.
  - apply Forall_forall. intros prop Hprop.
    repeat (apply elem_of_cons in Hprop as [->|Hprop];
            [vm_compute; by eexists|]).
    inversion Hprop.
  - apply Forall_forall. intros src Hsrc.
    apply list_elem_of_singleton in Hsrc as ->.
    apply Forall_forall. intros prop Hprop a Ha.
    repeat (apply elem_of_cons in Hprop as [->|Hprop];
            [vm_compute in Ha; injection Ha as <-; vm_compute;
             split; [exact I|reflexivity]|]).
    inversion Hprop.
Qed.

Lemma importing_exchange_uniform :
  uniform_length (ParticleArrayExchange.pa importing_exchange) 2.
Proof. apply map_Forall_to_list. vm_compute. repeat constructor. Qed.

Lemma importing_exchange_completes :
  ∃ self',
    ParticleArrayExchange.remote_exchange_data no_junk one_row_incoming
      importing_exchange = Some self'.
Proof. eexists. vm_compute. reflexivity. Qed.

Lemma remote_exchange_data_appends_witness :
  ∃ self',
    ParticleArrayExchange.remote_exchange_data no_junk one_row_incoming
      importing_exchange = Some self'
    ∧ ParticleArrayExchange.num_local self' = 2
    ∧ ParticleArrayExchange.num_remote self' = 1.
Proof.
  destruct (remote_exchange_data_appends no_junk one_row_incoming
              importing_exchange)
    as (self' & H1 & H2 & H3 & _);
    [vm_compute; discriminate|vm_compute; discriminate
    |exact importing_exchange_uniform|exact importing_exchange_incoming_ok|].
  exists self'. split; [exact H1|]. split; [exact H2|exact H3].
Defined.

Lemma reorder_seq {A} (d : list A) (a n : nat) :
  reorder (seq a n) d = take n (drop a d).
Proof.
  unfold reorder. revert a. induction n as [|n IH]; intros a; [done|].
  cbn [seq omap list_omap]. rewrite IH.
  destruct (d !! a) as [x|] eqn:Hx.
  - by rewrite (drop_S _ _ _ Hx).
  - apply lookup_ge_None in Hx.
    rewrite !drop_ge by lia. by rewrite take_nil.
Qed.

Lemma filter_seq_all (P : nat → Prop) `{∀ x, Decision (P x)} (l : list nat) :
  (∀ i, i ∈ l → P i) → filter P l = l.
Proof.
  induction l as [|i l IH]; intros Hl; [done|].
  rewrite filter_cons, decide_True by (apply Hl; by left).
  f_equal. apply IH. intros j Hj. apply Hl. by right.
Qed.

Lemma filter_seq_none (P : nat → Prop) `{∀ x, Decision (P x)} (l : list nat) :
  (∀ i, i ∈ l → ¬ P i) → filter P l = [].
Proof.
  induction l as [|i l IH]; intros Hl; [done|].
  rewrite filter_cons, decide_False by (apply Hl; by left).
  apply IH. intros j Hj. apply Hl. by right.
Qed.

Lemma align_order_local (tag : list Z) :
  (∀ i, (i < length tag)%nat → tag !! i = Some (tag_value Local)) →
  align_order tag = seq 0 (length tag).
Proof.
  intros Hl. unfold align_order. cbn [mbind list_bind].
  rewrite filter_seq_all.
  2:{ intros i Hi%elem_of_seq. by rewrite Hl by lia. }
  rewrite !filter_seq_none; [by rewrite !app_nil_r| | |];
    intros i Hi%elem_of_seq; rewrite Hl by lia; discriminate.
Qed.

Lemma align_particles_local pa n :
  uniform_length pa n → local_rows pa n → align_particles pa = pa.
Proof.
  intros Hu Hl. unfold align_particles, get_carray.
  destruct (pa_props pa !! "tag") as [[| |tag|]|] eqn:Ht; try done.
  assert (Hlen : length tag = n) by exact (Hu "tag" _ Ht).
  rewrite align_order_local.
  2:{ intros i Hi. specialize (Hl i ltac:(lia)).
      unfold tag_of, w_tag, ints, get_carray in Hl. by rewrite Ht in Hl. }
  destruct pa as [name props]. cbn [pa_name pa_props] in *. f_equal.
  apply map_eq. intros prop. rewrite lookup_fmap.
  destruct (props !! prop) as [a|] eqn:Ha; [|done]. simpl. f_equal.
  pose proof (Hu prop a Ha) as Hla. rewrite Hlen.
  destruct a; simpl in *; f_equal; rewrite reorder_seq, drop_0;
    apply take_ge; lia.
Qed.

Lemma set_tag_set_pa self a b v :
  ParticleArrayExchange.set_tag self a b v
  = ParticleArrayExchange.set_pa self
      (ParticleArrayExchange.pa (ParticleArrayExchange.set_tag self a b v)).
Proof.
  unfold ParticleArrayExchange.set_tag.
  destruct (get_carray _ _) as [[| |t|]|]; try by destruct self.
Qed.

(** What [remove_remote_particles] keeps: when every vector has at least
    [num_local] rows, the first [num_local] rows of every vector, and
    nothing else; with those rows tagged Local they stay in their places. *)
Lemma remove_remote_particles_lookup junk self :
  0 <= ParticleArrayExchange.num_local self →
  map_Forall (λ _ a, (Z.to_nat (ParticleArrayExchange.num_local self)
                      ≤ carray_length a)%nat)
             (pa_props (ParticleArrayExchange.pa self)) →
  local_rows (ParticleArrayExchange.pa self)
             (Z.to_nat (ParticleArrayExchange.num_local self)) →
  Exchange.remove_remote_particles junk self
  = ParticleArrayExchange.set_num_remote
      (ParticleArrayExchange.set_pa self
         (mkParticleArray (pa_name (ParticleArrayExchange.pa self))
            (carray_take (Z.to_nat (ParticleArrayExchange.num_local self))
               <$> pa_props (ParticleArrayExchange.pa self)))) 0.
Proof.
  intros HN Hlen Hl. unfold Exchange.remove_remote_particles.
  set (N := Z.to_nat (ParticleArrayExchange.num_local self)) in *.
  assert (Hres : pa_resize junk N (ParticleArrayExchange.pa self)
                 = mkParticleArray (pa_name (ParticleArrayExchange.pa self))
                     (carray_take N
                        <$> pa_props (ParticleArrayExchange.pa self))).
  { unfold pa_resize. f_equal. apply map_eq. intros prop.
    rewrite map_lookup_imap, lookup_fmap.
    destruct (pa_props (ParticleArrayExchange.pa self) !! prop)
      as [a|] eqn:Ha; [|done]. simpl. f_equal.
    pose proof (Hlen prop a Ha) as Hla. cbn beta in Hla.
    destruct a; simpl in *; unfold carray_take, grow; simpl; f_equal;
      (replace (N - length data)%nat with 0%nat by lia);
      by rewrite app_nil_r. }
  cbn [ParticleArrayExchange.set_pa ParticleArrayExchange.pa
       ParticleArrayExchange.num_local]. fold N. rewrite Hres.
  rewrite (align_particles_local _ N).
  - by destruct self.
  - intros prop a'. cbn [pa_props]. rewrite lookup_fmap.
    destruct (pa_props (ParticleArrayExchange.pa self) !! prop)
      as [a|] eqn:Ha; [|done]. simpl. intros [= <-].
    pose proof (Hlen prop a Ha) as Hla. cbn beta in Hla.
    destruct a; simpl in *; rewrite length_take; lia.
  - intros i Hi. specialize (Hl i Hi).
    unfold tag_of, w_tag, ints, get_carray in *. cbn [pa_props].
    rewrite lookup_fmap.
    destruct (pa_props (ParticleArrayExchange.pa self) !! "tag")
      as [[| |t|]|]; simpl in *; try done.
    rewrite lookup_take_lt by done. done.
Qed.


Lemma exchange_data_name self count inc self' :
  ParticleArrayExchange._exchange_data self count inc = Some self' →
  pa_name (ParticleArrayExchange.pa self')
  = pa_name (ParticleArrayExchange.pa self).
Proof.
  unfold ParticleArrayExchange._exchange_data. intros H.
  apply bind_Some in H as (? & _ & H).
  apply bind_Some in H as (st1 & H1 & H).
  apply bind_Some in H as (st2 & H2 & H). simplify_eq.
  cbn [ParticleArrayExchange.set_pa ParticleArrayExchange.pa].
  assert (Hstep : ∀ props sel (st st' : ParticleArray * nat) src,
            ParticleArrayExchange.recv_from inc props sel st src = Some st' →
            pa_name st'.1 = pa_name st.1).
  { intros props sel [p c] st' [i n]. unfold ParticleArrayExchange.recv_from.
    destruct (sel i); [|by intros [= <-]].
    intros H. apply bind_Some in H as (p' & Hp' & H). simplify_eq. simpl.
    revert Hp'. apply (for_each_inv (λ q, pa_name q = pa_name p)); [|done].
    intros q prop q' _ Hq Hr. unfold ParticleArrayExchange.recv_prop in Hr.
    apply bind_Some in Hr as (lb & _ & Hr). case_bool_decide; [|done].
    apply bind_Some in Hr as (a & _ & Hr). by simplify_eq. }
  assert (H1' : pa_name st1.1 = pa_name (ParticleArrayExchange.pa self)).
  { revert H1.
    apply (for_each_inv
             (λ st : ParticleArray * nat,
                pa_name st.1 = pa_name (ParticleArrayExchange.pa self)));
      [|done].
    intros st src st' _ Hst Hr. rewrite (Hstep _ _ _ _ _ Hr). done. }
  revert H2.
  apply (for_each_inv
           (λ st : ParticleArray * nat,
              pa_name st.1 = pa_name (ParticleArrayExchange.pa self)));
    [|done].
  intros st src st' _ Hst Hr. rewrite (Hstep _ _ _ _ _ Hr). done.
Qed.

Lemma set_tag_name self a b v :
  pa_name (ParticleArrayExchange.pa (ParticleArrayExchange.set_tag self a b v))
  = pa_name (ParticleArrayExchange.pa self).
Proof.
  unfold ParticleArrayExchange.set_tag.
  by destruct (get_carray _ _) as [[| |t|]|].
Qed.

(** [remove_remote_particles] undoes [remote_exchange_data]: for an
    exchange object whose cached local count is the row count of its
    vectors and whose rows are tagged Local, a remote exchange that
    completes followed by [remove_remote_particles] gives back the particle
    array and the exchange object as they were, with the count of remote
    rows at 0. *)
Theorem remove_remote_particles_undoes_exchange junk junk' inc self self' :
  0 <= ParticleArrayExchange.num_local self →
  0 <= ParticleArrayExchange.numParticleImport self →
  uniform_length (ParticleArrayExchange.pa self)
                 (Z.to_nat (ParticleArrayExchange.num_local self)) →
  local_rows (ParticleArrayExchange.pa self)
             (Z.to_nat (ParticleArrayExchange.num_local self)) →
  ParticleArrayExchange.remote_exchange_data junk inc self = Some self' →
  Exchange.remove_remote_particles junk' self'
  = ParticleArrayExchange.set_num_remote self 0.
Proof.
  intros HN HI Hu Hl Hs'.
  destruct (remote_prepare_fields junk self) as (Hf1 & Hf2 & Hf3).
  unfold ParticleArrayExchange.remote_exchange_data in Hs'.
  assert (Hs1eq : (ParticleArrayExchange.remote_prepare junk self).1
                  = ParticleArrayExchange.set_pa self
                      (ParticleArrayExchange.pa
                         (ParticleArrayExchange.remote_prepare junk self).1)).
  { unfold ParticleArrayExchange.remote_prepare. cbn [fst].
    rewrite set_tag_set_pa at 1. by destruct self. }
  assert (Hn1 : pa_name (ParticleArrayExchange.pa
                           (ParticleArrayExchange.remote_prepare junk self).1)
                = pa_name (ParticleArrayExchange.pa self)).
  { unfold ParticleArrayExchange.remote_prepare. cbn [fst].
    by rewrite set_tag_name. }
  destruct (ParticleArrayExchange.remote_prepare junk self) as [s1 c] eqn:Hp.
  cbn [fst snd] in Hf1, Hf2, Hf3, Hs1eq, Hn1. subst c.
  assert (Hs1 : s1 = (ParticleArrayExchange.remote_prepare junk self).1)
    by (by rewrite Hp).
  apply bind_Some in Hs' as (s2 & Hs2 & Hs'). injection Hs' as <-.
  pose proof (exchange_data_name _ _ _ _ Hs2) as Hn2.
  apply exchange_data_spec in Hs2 as [Hex Heq].
  set (N := Z.to_nat (ParticleArrayExchange.num_local self)) in *.
  assert (Hprop : ∀ prop,
            option_Forall2
              (λ a a', (N ≤ carray_length a')%nat ∧ carray_take N a' = a)
              (pa_props (ParticleArrayExchange.pa self) !! prop)
              (pa_props (ParticleArrayExchange.pa s2) !! prop)).
  { intros prop. specialize (Hex prop).
    rewrite Hs1, remote_prepare_lookup in Hex.
    destruct (pa_props (ParticleArrayExchange.pa self) !! prop)
      as [a|] eqn:Ha; cbn [fmap option_fmap option_map] in Hex;
      inversion Hex as [a1 a' (_ & Hl' & Ht & _)|]; constructor.
    destruct (remote_prepare_one_spec junk self prop a HN HI) as [Hl1 Ht1].
    { by apply (Hu prop). }
    fold N in Ht, Ht1. split; [lia|congruence]. }
  assert (HN2 : ParticleArrayExchange.num_local s2
                = ParticleArrayExchange.num_local self).
  { rewrite Heq. cbn [ParticleArrayExchange.set_pa
                      ParticleArrayExchange.num_local]. done. }
  rewrite remove_remote_particles_lookup.
  - cbn [ParticleArrayExchange.set_num_remote ParticleArrayExchange.set_pa
         ParticleArrayExchange.num_local ParticleArrayExchange.pa].
    rewrite HN2. fold N.
    assert (Hpa : mkParticleArray (pa_name (ParticleArrayExchange.pa s2))
                    (carray_take N <$> pa_props (ParticleArrayExchange.pa s2))
                  = ParticleArrayExchange.pa self).
    { rewrite Hn2, Hn1. destruct (ParticleArrayExchange.pa self)
        as [name props] eqn:Hself. cbn [pa_name pa_props] in *. f_equal.
      apply map_eq. intros prop. rewrite lookup_fmap.
      specialize (Hprop prop).
      destruct Hprop as [a a' [_ Ht]|]; simpl; [by rewrite Ht|done]. }
    rewrite Hpa, Heq, Hs1eq. by destruct self.
  - cbn [ParticleArrayExchange.set_num_remote
         ParticleArrayExchange.num_local]. lia.
  - cbn [ParticleArrayExchange.set_num_remote ParticleArrayExchange.pa
         ParticleArrayExchange.num_local]. rewrite HN2. fold N.
    intros prop a' Ha'. specialize (Hprop prop). rewrite Ha' in Hprop.
    by inversion Hprop as [a a'' [? ?]|].
  - cbn [ParticleArrayExchange.set_num_remote ParticleArrayExchange.pa
         ParticleArrayExchange.num_local]. rewrite HN2. fold N.
    intros i Hi. specialize (Hl i Hi).
    unfold tag_of, w_tag, ints, get_carray in *.
    specialize (Hprop "tag").
    destruct Hprop as [a a' [_ Ht]|]; [|done].
    destruct a as [| |t|]; try done.
    destruct a' as [| |t'|]; try done.
    unfold carray_take in Ht. simpl in Ht. injection Ht as <-.
    by rewrite lookup_take_lt in Hl.
Qed.

Lemma importing_exchange_local_rows :
  local_rows (ParticleArrayExchange.pa importing_exchange) 2.
Proof.
  intros i Hi. destruct i as [|[|i]]; [reflexivity|reflexivity|lia].
Qed.

Lemma remove_remote_particles_undoes_exchange_witness :
  ∃ self',
    ParticleArrayExchange.remote_exchange_data no_junk one_row_incoming
      importing_exchange = Some self'
    ∧ Exchange.remove_remote_particles no_junk self'
      = ParticleArrayExchange.set_num_remote importing_exchange 0.
Proof.
  destruct importing_exchange_completes as (self' & Hs').
  exists self'. split; [done|].
  apply (remove_remote_particles_undoes_exchange no_junk no_junk
           one_row_incoming importing_exchange self');
    [vm_compute; discriminate|vm_compute; discriminate
    |exact importing_exchange_uniform|exact importing_exchange_local_rows
    |exact Hs'].
Defined.


(** ** The layout of the rows that [_exchange_data] receives *)

Lemma slice_inserts {A} (c : nat) (v d : list A) :
  (c + length v ≤ length d)%nat →
  take (length v) (drop c (list_inserts c v d)) = v.
Proof.
  intros Hlen. apply list_eq. intros j.
  destruct (decide (j < length v)%nat) as [Hj|Hj].
  - rewrite lookup_take_lt, lookup_drop by done.
    rewrite list_lookup_inserts by lia. f_equal. lia.
  - rewrite lookup_take_ge by lia. symmetry. apply lookup_ge_None. lia.
Qed.

Lemma Recv_slice localbuf c recvbuf a' :
  Recv localbuf c recvbuf = Some a' →
  (c + carray_length recvbuf ≤ carray_length a')%nat →
  carray_slice c (carray_length recvbuf) a' = recvbuf.
Proof.
  destruct localbuf, recvbuf; simpl; intros H; simplify_eq; simpl;
    rewrite length_inserts; intros Hlen; unfold carray_slice; simpl; f_equal;
    by apply slice_inserts.
Qed.

Lemma slice_take {A} (c n m : nat) (d : list A) :
  (c + n ≤ m)%nat → take n (drop c (take m d)) = take n (drop c d).
Proof.
  intros Hm. apply list_eq. intros j.
  destruct (decide (j < n)%nat) as [Hj|Hj].
  - rewrite !lookup_take_lt, !lookup_drop by done.
    rewrite lookup_take_lt by lia. done.
  - by rewrite !lookup_take_ge by lia.
Qed.

Lemma carray_slice_take c n m a a' :
  (c + n ≤ m)%nat → carray_take m a' = carray_take m a →
  carray_slice c n a' = carray_slice c n a.
Proof.
  intros Hm. unfold carray_take, carray_slice.
  destruct a, a'; simpl; intros H; simplify_eq; f_equal;
    rewrite <- (slice_take c n m data), <- (slice_take c n m data0) by done;
    congruence.
Qed.

Lemma take_le_eq {A} (n m : nat) (d d' : list A) :
  (n ≤ m)%nat → take m d' = take m d → take n d' = take n d.
Proof.
  intros Hn H.
  assert (Ht : ∀ l : list A, take n l = take n (take m l)).
  { intros l. rewrite take_take. f_equal. lia. }
  by rewrite (Ht d'), (Ht d), H.
Qed.

Lemma carray_take_le n m a a' :
  (n ≤ m)%nat → carray_take m a' = carray_take m a →
  carray_take n a' = carray_take n a.
Proof.
  intros Hn. unfold carray_take.
  destruct a, a'; cbn [carray_map]; intros H; try discriminate H;
    injection H as H; f_equal; by apply (take_le_eq n m).
Qed.

Lemma recv_props_layout inc i n c (props : list string) p p1 :
  for_each (ParticleArrayExchange.recv_prop inc i n c) props p = Some p1 →
  ∀ prop a1, get_carray p1 prop = Some a1 →
    (prop ∈ props → (c + n ≤ carray_length a1)%nat →
     carray_slice c n a1 = inbox inc i prop)
    ∧ (prop ∉ props → get_carray p prop = Some a1).
Proof.
  revert p. induction props as [|q qs IH]; intros p Hrun prop a1 Ha1;
    cbn [for_each] in Hrun.
  - simplify_eq. split; [by intros ?%elem_of_nil|done].
  - apply bind_Some in Hrun as (pm & Hq & Hrun).
    destruct (IH _ Hrun prop a1 Ha1) as [IH1 IH2].
    unfold ParticleArrayExchange.recv_prop in Hq.
    apply bind_Some in Hq as (lb & Hlb & Hq). case_bool_decide as Hn; [|done].
    apply bind_Some in Hq as (aq & Haq & Hq). simplify_eq.
    destruct (decide (prop ∈ qs)) as [Hin|Hnin].
    + split; [by intros _; apply IH1|].
      intros Hnot. exfalso. apply Hnot. by right.
    + specialize (IH2 Hnin). unfold get_carray in IH2. cbn [pa_props] in IH2.
      destruct (decide (prop = q)) as [->|Hne].
      * rewrite lookup_insert_eq in IH2. injection IH2 as ->. split.
        -- intros _ Hlen. by apply (Recv_slice lb).
        -- intros Hnot. exfalso. apply Hnot. by left.
      * rewrite lookup_insert_ne in IH2 by done. split; [|done].
        intros [?|?]%elem_of_cons; done.
Qed.

Lemma recv_all_layout inc lbp (props : list string)
    (srcs : list (Z * nat)) p c st' :
  (∀ prop, prop ∈ props → prop ∈ lbp) →
  for_each (ParticleArrayExchange.recv_from inc props (λ _, true)) srcs (p, c)
  = Some st' →
  exchanged c lbp p st'.1
  ∧ ∀ k i n prop a', srcs !! k = Some (i, n) → prop ∈ props →
      get_carray st'.1 prop = Some a' →
      (cursor_at c srcs k + n ≤ carray_length a')%nat →
      carray_slice (cursor_at c srcs k) n a' = inbox inc i prop.
Proof.
  intros Hsub. revert p c.
  induction srcs as [|[i0 n0] rest IH]; intros p c Hrun; cbn [for_each] in Hrun.
  - simplify_eq. split; [apply exchanged_refl|]. intros k ? ? ? ? Hk.
    inversion Hk.
  - apply bind_Some in Hrun as (st1 & Hfirst & Hrun).
    pose proof Hfirst as Hfirst'.
    apply (recv_from_spec inc props _ c lbp p (p, c)) in Hfirst'
      as [Hex1 _]; [|done|by split; [apply exchanged_refl|]].
    unfold ParticleArrayExchange.recv_from in Hfirst.
    apply bind_Some in Hfirst as (p1 & Hp1 & Hfirst). injection Hfirst as <-.
    destruct (IH _ _ Hrun) as [Hex2 Hlay]. cbn [fst] in *.
    assert (Hex2' : exchanged c lbp p1 st'.1).
    { intros prop. specialize (Hex2 prop).
      destruct Hex2 as [a a' (Hk & Hl & Ht & Hn)|]; constructor.
      split; [done|]. split; [done|]. split; [|done].
      apply (carray_take_le c (c + n0)); [lia|done]. }
    split; [by eapply exchanged_trans|].
    intros k i n prop a' Hk Hprop Ha' Hlen. destruct k as [|k].
    + injection Hk as -> ->. unfold cursor_at in *. cbn [take fmap list_fmap
        sum_list sum_list_with] in *. rewrite Nat.add_0_r in *.
      specialize (Hex2 prop). unfold get_carray in Ha'. rewrite Ha' in Hex2.
      inversion Hex2 as [a1 a'' (_ & Hl & Ht & _) Ha1 Heq|]; subst.
      destruct (recv_props_layout _ _ _ _ _ _ _ Hp1 prop a1 (eq_sym Ha1))
        as [Hs _].
      rewrite <- Hs; [|done|lia].
      by apply (carray_slice_take _ _ (c + n)).
    + cbn [lookup list_lookup] in Hk.
      assert (Hc : cursor_at c ((i0, n0) :: rest) (S k)
                   = cursor_at (c + n0) rest k).
      { unfold cursor_at. cbn [take fmap list_fmap sum_list sum_list_with snd].
        unfold id. lia. }
      rewrite Hc in *. by eapply Hlay.
Qed.

Lemma for_each_recv_filter inc (props : list string) (sel : Z → bool)
    (l : list (Z * nat)) st :
  for_each (ParticleArrayExchange.recv_from inc props sel) l st
  = for_each (ParticleArrayExchange.recv_from inc props (λ _, true))
      (filter (λ s, sel s.1 = true) l) st.
Proof.
  revert st. induction l as [|[i n] l IH]; intros st; [done|].
  rewrite filter_cons. cbn [for_each fst]. destruct (sel i) eqn:Hsel.
  - rewrite decide_True by reflexivity. cbn [for_each].
    assert (He : ParticleArrayExchange.recv_from inc props sel st (i, n)
                 = ParticleArrayExchange.recv_from inc props (λ _, true) st
                     (i, n)).
    { unfold ParticleArrayExchange.recv_from. destruct st. by rewrite Hsel. }
    rewrite He.
    destruct (ParticleArrayExchange.recv_from inc props (λ _, true) st (i, n))
      as [st1|]; cbn [mbind option_bind]; [apply IH|reflexivity].
  - rewrite decide_False by discriminate.
    assert (He : ParticleArrayExchange.recv_from inc props sel st (i, n)
                 = Some st).
    { unfold ParticleArrayExchange.recv_from. destruct st. by rewrite Hsel. }
    rewrite He. cbn [mbind option_bind]. apply IH.
Qed.

Lemma for_each_app {A S} (body : S → A → option S) (l1 l2 : list A) (s : S) :
  for_each body (l1 ++ l2) s = (s' ← for_each body l1 s; for_each body l2 s').
Proof.
  revert s. induction l1 as [|a l1 IH]; intros s; [done|].
  cbn [app for_each]. destruct (body s a); [|done]. cbn [mbind option_bind].
  apply IH.
Qed.

Lemma exchange_data_reception self count inc :
  ParticleArrayExchange._exchange_data self count inc
  = (_ ← mapM (get_carray (ParticleArrayExchange.pa self))
              (remove_dups (ParticleArrayExchange.lb_props self));
     st ← for_each
            (ParticleArrayExchange.recv_from inc
               (remove_dups (ParticleArrayExchange.lb_props self))
               (λ _, true))
            (reception_order (ParticleArrayExchange.rank self) (recv inc))
            (ParticleArrayExchange.pa self, count);
     Some (ParticleArrayExchange.set_pa self st.1)).
Proof.
  unfold ParticleArrayExchange._exchange_data, reception_order.
  destruct (mapM _ _); [|done]. cbn [mbind option_bind].
  set (props := remove_dups (ParticleArrayExchange.lb_props self)).
  set (r := ParticleArrayExchange.rank self).
  assert (H1 : filter (λ s : Z * nat, (s.1 <? r) = true) (recv inc)
               = filter (λ s, s.1 < r) (recv inc)).
  { apply list_filter_iff. intros s. apply Z.ltb_lt. }
  assert (H2 : filter (λ s : Z * nat, (r <? s.1) = true) (recv inc)
               = filter (λ s, r < s.1) (recv inc)).
  { apply list_filter_iff. intros s. apply Z.ltb_lt. }
  rewrite for_each_app.
  rewrite (for_each_recv_filter inc props (λ i, i <? r)), H1.
  destruct (for_each _ (filter _ _) _) as [st1|]; [|done].
  cbn [mbind option_bind].
  by rewrite (for_each_recv_filter inc props (λ i, r <? i)), H2.
Qed.

(** [_exchange_data] lays the received rows out in the order of reception:
    the sources of lower rank in the order of the keys of [recv], then
    those of higher rank, and never the rank itself.  After an exchange
    that starts at row [count], for the [k]-th source [(i, n)] of this
    order and every exchanged property, the [n] rows of the vector from
    the cursor of that source on (the start plus the row counts of the
    sources before it) are the rows that [i] sent, provided the vector
    has that many rows; the rows below [count] and the vectors of the
    properties that are not exchanged are as before. *)
Theorem exchange_data_layout self count inc self' :
  ParticleArrayExchange._exchange_data self count inc = Some self' →
  let srcs :=
    reception_order (ParticleArrayExchange.rank self) (recv inc) in
  exchanged count (ParticleArrayExchange.lb_props self)
            (ParticleArrayExchange.pa self) (ParticleArrayExchange.pa self')
  ∧ ∀ k i n prop a',
      srcs !! k = Some (i, n) →
      prop ∈ ParticleArrayExchange.lb_props self →
      get_carray (ParticleArrayExchange.pa self') prop = Some a' →
      (cursor_at count srcs k + n ≤ carray_length a')%nat →
      carray_slice (cursor_at count srcs k) n a' = inbox inc i prop.
Proof.
  rewrite exchange_data_reception. intros H srcs.
  apply bind_Some in H as (? & _ & H).
  apply bind_Some in H as (st & Hst & H). injection H as <-.
  cbn [ParticleArrayExchange.set_pa ParticleArrayExchange.pa].
  destruct (recv_all_layout inc (ParticleArrayExchange.lb_props self)
              _ _ _ _ _ (λ prop, proj1 (elem_of_remove_dups _ prop)) Hst)
    as [Hex Hlay].
  split; [done|]. intros k i n prop a' Hk Hprop.
  apply Hlay; [done|]. by apply elem_of_remove_dups.
Qed.

Lemma importing_exchange_received :
  ∃ self',
    ParticleArrayExchange._exchange_data
      (ParticleArrayExchange.remote_prepare no_junk importing_exchange).1 2
      one_row_incoming = Some self'
    ∧ get_carray (ParticleArrayExchange.pa self') "gid"
      = Some (UIntArray [0; 1; 9]).
Proof. eexists. split; vm_compute; reflexivity. Qed.

Lemma exchange_data_layout_witness :
  ∃ self' a',
    ParticleArrayExchange._exchange_data
      (ParticleArrayExchange.remote_prepare no_junk importing_exchange).1 2
      one_row_incoming = Some self'
    ∧ get_carray (ParticleArrayExchange.pa self') "gid" = Some a'
    ∧ carray_slice 2 1 a' = UIntArray [9].
Proof.
  destruct importing_exchange_received as (self' & Hs' & Hgid).
  destruct (exchange_data_layout _ _ _ _ Hs') as [_ Hlay].
  exists self', (UIntArray [0; 1; 9]). split; [done|]. split; [done|].
  apply (Hlay 0%nat 0 1%nat "gid" (UIntArray [0; 1; 9]));
    [reflexivity| |exact Hgid|vm_compute; apply le_n].
  vm_compute. repeat constructor.
Defined.
(** ** The query of the manager on Scenario A *)

Lemma PM_nearest_exact_witness :
  ∃ s s' out,
    ParallelManager.local_bin [empty_rank_bounds] (scenarioA_pm 2) = Some s
    ∧ ParallelManager.get_nearest_particles s 0 0 0 [] = Some (s', out)
    ∧ NoDup out.
Proof.
  assert (Hwf : PM_wf (scenarioA_pm 2)) by (by repeat split).
  assert (Hcnt : counts_current (scenarioA_pm 2)).
  { intros k pa Hk. destruct k as [|k]; [|done].
    injection Hk as <-. reflexivity. }
  destruct (PM_local_bin_current [empty_rank_bounds] (scenarioA_pm 2)
              Hwf eq_refl Hcnt) as (s & Hs & He & _).
  assert (Hpa : ParallelManager.particles s !! 0%nat = Some scenarioA_pa).
  { unfold ParallelManager.particles. by rewrite He. }
  assert (Hrs : (0 <= ParallelManager.radius_scale (scenarioA_pm 2))%Q)
    by (by vm_compute).
  assert (Hi : (0 < get_number_of_particles scenarioA_pa)%nat)
    by (vm_compute; lia).
  destruct (PM_nearest_exact [empty_rank_bounds] (scenarioA_pm 2) s 0 0 0 []
              scenarioA_pa scenarioA_pa Hwf eq_refl Hcnt Hrs Hs Hpa Hpa Hi)
    as (s' & out & Hq & _ & Hnd & _).
  exists s, s', out. split; [exact Hs|]. split; [exact Hq|exact Hnd].
Defined.

(** ** The local and the remote pass over the cell map *)

Lemma PM_update_local_loop (m a : nat) (s0 s : ParallelManager.t) :
  PM_frame s0 s → PM_wf s0 → (a + m ≤ ParallelManager.narrays s0)%nat →
  binned (ParallelManager.particles s0) (ParallelManager.cell_size s0)
         (ParallelManager.narrays s0)
         (λ k, if decide (k < a)%nat then local_range s0 k else [])
         (ParallelManager.cells s) →
  (∀ k, (k < a)%nat →
        ParallelManager.num_local s !! k
        = ParticleArrayExchange.num_local
            <$> ParallelManager.pa_exchanges s0 !! k
        ∧ ParallelManager.num_global s !! k
          = ParticleArrayExchange.num_global
              <$> ParallelManager.pa_exchanges s0 !! k) →
  ∃ s',
    for_each
      (λ self i,
         pa_exchange ← ParallelManager.pa_exchanges self !! i;
         let num_particles := ParticleArrayExchange.num_local pa_exchange in
         if bool_decide (i < length (ParallelManager.num_local self)
                         ∧ i < length (ParallelManager.num_global self))%nat
         then
           let self :=
             ParallelManager.set_counts self
               (<[i := ParticleArrayExchange.num_local pa_exchange]>
                  (ParallelManager.num_local self))
               (<[i := ParticleArrayExchange.num_global pa_exchange]>
                  (ParallelManager.num_global self))
               (ParallelManager.num_remote self) in
           let indices := arange_uint num_particles (-1) in
           ParallelManager._bin self i indices
         else None)
      (seq a m) s = Some s'
    ∧ PM_frame s0 s'
    ∧ ParallelManager.num_remote s' = ParallelManager.num_remote s
    ∧ binned (ParallelManager.particles s0) (ParallelManager.cell_size s0)
        (ParallelManager.narrays s0)
        (λ k, if decide (k < a + m)%nat then local_range s0 k else [])
        (ParallelManager.cells s')
    ∧ ∀ k, (k < a + m)%nat →
        ParallelManager.num_local s' !! k
        = ParticleArrayExchange.num_local
            <$> ParallelManager.pa_exchanges s0 !! k
        ∧ ParallelManager.num_global s' !! k
          = ParticleArrayExchange.num_global
              <$> ParallelManager.pa_exchanges s0 !! k.
Proof.
  revert a s. induction m as [|m IH]; intros a s Hf Hwf Hn Hb Hc.
  - exists s. rewrite Nat.add_0_r. split; [done|]. split; [exact Hf|].
    split; [done|]. split; [exact Hb|exact Hc].
  - cbn [seq for_each].
    pose proof Hf as (Hf1 & Hf2 & Hf3 & Hf4 & Hf5 & Hf6).
    pose proof Hwf as (Hw1 & Hw2 & Hw3 & Hw4).
    destruct (PM_particles_lookup s a) as (e & He & Hpa);
      [rewrite Hf1; lia|].
    rewrite He. cbn [mbind option_bind].
    rewrite bool_decide_eq_true_2 by (rewrite Hf4, Hf5; lia).
    match goal with
    | |- ∃ s', (ParallelManager._bin ?s2 _ ?ind ≫= _) = _ ∧ _ =>
        assert (Hpa2 : ParallelManager.particles s2 !! a
                       = Some (ParticleArrayExchange.pa e)) by exact Hpa;
        rewrite (PM_bin_Some s2 a ind _ Hpa2)
    end.
    cbn [mbind option_bind].
    match goal with
    | |- ∃ s', for_each _ _ ?s1 = _ ∧ _ =>
        destruct (IH (S a) s1) as (s' & Hs' & Hf' & Hr' & Hb' & Hc')
    end.
    + unfold PM_frame.
      cbn [ParallelManager.set_cells ParallelManager.set_counts
           ParallelManager.pa_exchanges ParallelManager.cell_size
           ParallelManager.narrays ParallelManager.num_local
           ParallelManager.num_global ParallelManager.num_remote].
      rewrite !length_insert. by repeat split.
    + exact Hwf.
    + lia.
    + cbn [ParallelManager.set_cells ParallelManager.set_counts
           ParallelManager.cells ParallelManager.cell_size
           ParallelManager.narrays ParallelManager.ghost_layers].
      assert (Hpa0 : ParallelManager.particles s0 !! a
                     = Some (ParticleArrayExchange.pa e)).
      { unfold ParallelManager.particles in *. by rewrite <- Hf1. }
      rewrite Hf2, Hf3.
      eapply binned_ext;
        [|apply (PM_bin_rows_binned _ (ParticleArrayExchange.pa e) a);
          [exact Hpa0|lia|exact Hb]].
      intros k. cbn beta. destruct (decide (k = a)) as [->|Hne].
      * destruct (decide (a < a)%nat); [lia|].
        destruct (decide (a < S a)%nat); [|lia].
        unfold local_range. rewrite <- Hf1, He. reflexivity.
      * destruct (decide (k < a)%nat); destruct (decide (k < S a)%nat);
          done || lia.
    + intros k Hk.
      cbn [ParallelManager.set_cells ParallelManager.set_counts
           ParallelManager.num_local ParallelManager.num_global].
      destruct (decide (k = a)) as [->|Hne].
      * rewrite !list_lookup_insert_eq by lia.
        rewrite <- Hf1, He. by split.
      * rewrite !list_lookup_insert_ne by done. apply Hc. lia.
    + exists s'. split; [exact Hs'|]. split; [exact Hf'|].
      split; [exact Hr'|]. split.
      * eapply binned_ext; [|exact Hb']. intros k. cbn beta.
        repeat case_decide; done || lia.
      * intros k Hk. apply Hc'. lia.
Qed.

Lemma PM_update_remote_loop (m a : nat) (s0 s : ParallelManager.t) :
  PM_frame s0 s → PM_wf s0 → (a + m ≤ ParallelManager.narrays s0)%nat →
  (∀ k e, ParallelManager.pa_exchanges s0 !! k = Some e →
          0 <= ParticleArrayExchange.num_local e
          ∧ 0 <= ParticleArrayExchange.num_remote e) →
  binned (ParallelManager.particles s0) (ParallelManager.cell_size s0)
         (ParallelManager.narrays s0)
         (λ k, if decide (k < a)%nat
               then local_range s0 k ++ remote_range s0 k
               else local_range s0 k)
         (ParallelManager.cells s) →
  (∀ k, (k < a)%nat →
        ParallelManager.num_local s !! k
        = ParticleArrayExchange.num_local
            <$> ParallelManager.pa_exchanges s0 !! k
        ∧ ParallelManager.num_remote s !! k
          = ParticleArrayExchange.num_remote
              <$> ParallelManager.pa_exchanges s0 !! k) →
  ∃ s',
    for_each
      (λ self i,
         pa_exchange ← ParallelManager.pa_exchanges self !! i;
         let num_local' := ParticleArrayExchange.num_local pa_exchange in
         let num_remote' := ParticleArrayExchange.num_remote pa_exchange in
         if bool_decide (i < length (ParallelManager.num_local self)
                         ∧ i < length (ParallelManager.num_remote self))%nat
         then
           let self :=
             ParallelManager.set_counts self
               (<[i := num_local']> (ParallelManager.num_local self))
               (ParallelManager.num_global self)
               (<[i := num_remote']> (ParallelManager.num_remote self)) in
           let indices := arange_uint num_local' (num_local' + num_remote') in
           ParallelManager._bin self i indices
         else None)
      (seq a m) s = Some s'
    ∧ PM_frame s0 s'
    ∧ ParallelManager.num_global s' = ParallelManager.num_global s
    ∧ binned (ParallelManager.particles s0) (ParallelManager.cell_size s0)
        (ParallelManager.narrays s0)
        (λ k, if decide (k < a + m)%nat
              then local_range s0 k ++ remote_range s0 k
              else local_range s0 k)
        (ParallelManager.cells s')
    ∧ ∀ k, (k < a + m)%nat →
        ParallelManager.num_local s' !! k
        = ParticleArrayExchange.num_local
            <$> ParallelManager.pa_exchanges s0 !! k
        ∧ ParallelManager.num_remote s' !! k
          = ParticleArrayExchange.num_remote
              <$> ParallelManager.pa_exchanges s0 !! k.
Proof.
  revert a s. induction m as [|m IH]; intros a s Hf Hwf Hn Hpos Hb Hc.
  - exists s. rewrite Nat.add_0_r. split; [done|]. split; [exact Hf|].
    split; [done|]. split; [exact Hb|exact Hc].
  - cbn [seq for_each].
    pose proof Hf as (Hf1 & Hf2 & Hf3 & Hf4 & Hf5 & Hf6).
    pose proof Hwf as (Hw1 & Hw2 & Hw3 & Hw4).
    destruct (PM_particles_lookup s a) as (e & He & Hpa);
      [rewrite Hf1; lia|].
    rewrite He. cbn [mbind option_bind].
    rewrite bool_decide_eq_true_2 by (rewrite Hf4, Hf6; lia).
    match goal with
    | |- ∃ s', (ParallelManager._bin ?s2 _ ?ind ≫= _) = _ ∧ _ =>
        assert (Hpa2 : ParallelManager.particles s2 !! a
                       = Some (ParticleArrayExchange.pa e)) by exact Hpa;
        rewrite (PM_bin_Some s2 a ind _ Hpa2)
    end.
    cbn [mbind option_bind].
    assert (He0 : ParallelManager.pa_exchanges s0 !! a = Some e)
      by (by rewrite <- Hf1).
    destruct (Hpos _ _ He0) as [Hnl Hnr].
    match goal with
    | |- ∃ s', for_each _ _ ?s1 = _ ∧ _ =>
        destruct (IH (S a) s1) as (s' & Hs' & Hf' & Hr' & Hb' & Hc')
    end.
    + unfold PM_frame.
      cbn [ParallelManager.set_cells ParallelManager.set_counts
           ParallelManager.pa_exchanges ParallelManager.cell_size
           ParallelManager.narrays ParallelManager.num_local
           ParallelManager.num_global ParallelManager.num_remote].
      rewrite !length_insert. by repeat split.
    + exact Hwf.
    + lia.
    + exact Hpos.
    + cbn [ParallelManager.set_cells ParallelManager.set_counts
           ParallelManager.cells ParallelManager.cell_size
           ParallelManager.narrays ParallelManager.ghost_layers].
      assert (Hpa0 : ParallelManager.particles s0 !! a
                     = Some (ParticleArrayExchange.pa e)).
      { unfold ParallelManager.particles in *. by rewrite <- Hf1. }
      rewrite Hf2, Hf3.
      eapply binned_ext;
        [|apply (PM_bin_rows_binned _ (ParticleArrayExchange.pa e) a);
          [exact Hpa0|lia|exact Hb]].
      intros k. cbn beta. destruct (decide (k = a)) as [->|Hne].
      * destruct (decide (a < a)%nat); [lia|].
        destruct (decide (a < S a)%nat); [|lia].
        f_equal. unfold remote_range, arange_uint. rewrite He0.
        destruct (Z.eqb_spec (ParticleArrayExchange.num_local e
                              + ParticleArrayExchange.num_remote e) (-1));
          [lia|].
        f_equal. lia.
      * destruct (decide (k < a)%nat); destruct (decide (k < S a)%nat);
          done || lia.
    + intros k Hk.
      cbn [ParallelManager.set_cells ParallelManager.set_counts
           ParallelManager.num_local ParallelManager.num_remote].
      destruct (decide (k = a)) as [->|Hne].
      * rewrite !list_lookup_insert_eq by lia.
        rewrite He0. by split.
      * rewrite !list_lookup_insert_ne by done. apply Hc. lia.
    + exists s'. split; [exact Hs'|]. split; [exact Hf'|].
      split; [exact Hr'|]. split.
      * eapply binned_ext; [|exact Hb']. intros k. cbn beta.
        repeat case_decide; done || lia.
      * intros k Hk. apply Hc'. lia.
Qed.

Lemma lookups_fmap {A B} (f : A → B) (l : list B) (es : list A) :
  length l = length es →
  (∀ k, (k < length es)%nat → l !! k = f <$> es !! k) →
  l = f <$> es.
Proof.
  intros Hlen H. apply list_eq. intros k. rewrite list_lookup_fmap.
  destruct (decide (k < length es)%nat) as [Hk|Hk]; [by apply H|].
  rewrite !lookup_ge_None_2; [done| |]; lia.
Qed.

(** The two passes of [update] over the cell map compose: for a manager
    whose exchange objects have counts that are not negative and account
    for every row, [update_local_data] completes with a map of exactly the
    local rows, and [update_remote_data] after it completes with a map that
    is current for all rows, the remote ones included; the counts of the
    manager are then those of the exchange objects, and arrays and cell size
    are untouched. *)
Theorem update_data_current s :
  PM_wf s → exchange_counts_ok s →
  ∃ s1 s2,
    ParallelManager.update_local_data s = Some s1
    ∧ ParallelManager.update_remote_data s1 = Some s2
    ∧ binned (ParallelManager.particles s) (ParallelManager.cell_size s)
             (ParallelManager.narrays s) (local_range s)
             (ParallelManager.cells s1)
    ∧ current (ParallelManager.particles s2) (ParallelManager.cell_size s2)
              (ParallelManager.narrays s2) (ParallelManager.cells s2)
    ∧ ParallelManager.pa_exchanges s2 = ParallelManager.pa_exchanges s
    ∧ ParallelManager.cell_size s2 = ParallelManager.cell_size s
    ∧ ParallelManager.num_local s2
      = ParticleArrayExchange.num_local <$> ParallelManager.pa_exchanges s
    ∧ ParallelManager.num_global s2
      = ParticleArrayExchange.num_global <$> ParallelManager.pa_exchanges s
    ∧ ParallelManager.num_remote s2
      = ParticleArrayExchange.num_remote <$> ParallelManager.pa_exchanges s.
Proof.
  intros Hwf Hok. pose proof Hwf as (Hw1 & Hw2 & Hw3 & Hw4).
  set (s0 := ParallelManager.set_cells s ∅).
  assert (Hwf0 : PM_wf s0) by exact Hwf.
  destruct (PM_update_local_loop (ParallelManager.narrays s0) 0 s0 s0)
    as (s1 & Hs1 & Hf1 & Hr1 & Hb1 & Hc1).
  { by unfold PM_frame. }
  { exact Hwf0. }
  { simpl. lia. }
  { intros cid k pa Hpa Hk. cbn [ParallelManager.cells s0
      ParallelManager.set_cells]. by rewrite lookup_empty. }
  { intros k Hk. lia. }
  assert (Hl : ParallelManager.update_local_data s = Some s1) by exact Hs1.
  exists s1.
  assert (Hls : ∀ k, local_range s0 k = local_range s k) by reflexivity.
  unfold PM_frame, PM_wf in Hf1, Hwf0.
  change (ParallelManager.pa_exchanges s0)
    with (ParallelManager.pa_exchanges s) in *.
  change (ParallelManager.particles s0)
    with (ParallelManager.particles s) in *.
  change (ParallelManager.narrays s0) with (ParallelManager.narrays s) in *.
  change (ParallelManager.cell_size s0)
    with (ParallelManager.cell_size s) in *.
  change (ParallelManager.num_local s0)
    with (ParallelManager.num_local s) in *.
  change (ParallelManager.num_global s0)
    with (ParallelManager.num_global s) in *.
  change (ParallelManager.num_remote s0)
    with (ParallelManager.num_remote s) in *.
  clear Hs1. clearbody s0.
  pose proof Hf1 as (Hf11 & Hf12 & Hf13 & Hf14 & Hf15 & Hf16).
  assert (Hwf1 : PM_wf s1).
  { unfold PM_wf. rewrite Hf11, Hf13, Hf14, Hf15, Hf16. exact Hwf0. }
  assert (Hb1' : binned (ParallelManager.particles s1)
                   (ParallelManager.cell_size s1) (ParallelManager.narrays s1)
                   (λ k, if decide (k < 0)%nat
                         then local_range s1 k ++ remote_range s1 k
                         else local_range s1 k)
                   (ParallelManager.cells s1)).
  { unfold ParallelManager.particles. rewrite Hf11, Hf12, Hf13.
    eapply binned_ext; [|exact Hb1]. intros k. cbn beta.
    destruct (decide (k < 0)%nat); [lia|].
    rewrite Hls. unfold local_range. rewrite Hf11.
    destruct (decide (k < 0 + ParallelManager.narrays s)%nat) as [|Hk];
      [done|].
    rewrite lookup_ge_None_2; [done|]. rewrite Hw1. lia. }
  destruct (PM_update_remote_loop (ParallelManager.narrays s1) 0 s1 s1)
    as (s2 & Hs2 & Hf2 & Hg2 & Hb2 & Hc2).
  { by unfold PM_frame. }
  { exact Hwf1. }
  { simpl. lia. }
  { intros k e He. rewrite Hf11 in He.
    destruct (Hok k e He) as (? & ? & _). by split. }
  { exact Hb1'. }
  { intros k Hk. lia. }
  exists s2. pose proof Hf2 as (Hf21 & Hf22 & Hf23 & Hf24 & Hf25 & Hf26).
  split; [exact Hl|]. split; [exact Hs2|]. split.
  { eapply binned_ext; [|exact Hb1]. intros k. cbn beta. rewrite Hls.
    destruct (decide (k < 0 + ParallelManager.narrays s)%nat) as [|Hk];
      [done|].
    unfold local_range. rewrite lookup_ge_None_2; [done|].
    rewrite Hw1. lia. }
  split.
  { unfold current, ParallelManager.particles. rewrite Hf21, Hf22, Hf23.
    eapply binned_ext; [|exact Hb2]. intros k. cbn beta.
    unfold local_range, remote_range, all_rows.
    rewrite list_lookup_fmap.
    destruct (ParallelManager.pa_exchanges s1 !! k) as [e|] eqn:He;
      cbn [fmap option_fmap option_map]; [|by case_decide].
    assert (Hk : (k < ParallelManager.narrays s1)%nat).
    { apply lookup_lt_Some in He. destruct Hwf1 as (Hl1 & _). lia. }
    rewrite decide_True by lia.
    rewrite Hf11 in He. destruct (Hok k e He) as (Hnl & Hnr & Htot).
    rewrite <- Htot, Z2Nat.inj_add by lia. by rewrite seq_app. }
  split; [by rewrite Hf21, Hf11|]. split; [by rewrite Hf22, Hf12|].
  assert (Hlen2 : ∀ k, (k < length (ParallelManager.pa_exchanges s))%nat →
                       (k < 0 + ParallelManager.narrays s1)%nat).
  { intros k Hk. rewrite Hf13. lia. }
  split; [|split].
  - apply lookups_fmap.
    + rewrite Hf24, Hf14. lia.
    + intros k Hk. destruct (Hc2 k (Hlen2 k Hk)) as [-> _].
      by rewrite Hf11.
  - rewrite Hg2. apply lookups_fmap.
    + rewrite Hf15. lia.
    + intros k Hk. destruct (Hc1 k) as [_ ->]; [|done]. lia.
  - apply lookups_fmap.
    + rewrite Hf26, Hf16. lia.
    + intros k Hk. destruct (Hc2 k (Hlen2 k Hk)) as [_ ->].
      by rewrite Hf11.
Qed.

Lemma update_data_current_witness :
  ∃ s1 s2,
    ParallelManager.update_local_data halo_pm = Some s1
    ∧ ParallelManager.update_remote_data s1 = Some s2
    ∧ ParallelManager.num_local s2 = [3]
    ∧ ParallelManager.num_remote s2 = [1]
    ∧ current (ParallelManager.particles s2) (ParallelManager.cell_size s2)
              (ParallelManager.narrays s2) (ParallelManager.cells s2).
Proof.
  assert (Hwf : PM_wf halo_pm) by (by repeat split).
  assert (Hok : exchange_counts_ok halo_pm).
  { intros k e He. destruct k as [|k]; [|done].
    injection He as <-. split; [by vm_compute|].
    split; [by vm_compute|reflexivity]. }
  destruct (update_data_current halo_pm Hwf Hok)
    as (s1 & s2 & H1 & H2 & _ & Hcur & _ & _ & Hnl & _ & Hnr).
  exists s1, s2. split; [exact H1|]. split; [exact H2|].
  split; [exact Hnl|]. split; [exact Hnr|exact Hcur].
Defined.
(** ** The halo lists of the Zoltan manager *)

Lemma add_exports_nil (pz : PyZoltan) : add_exports pz [] = pz.
Proof.
  destruct pz. unfold add_exports. simpl. by rewrite !app_nil_r.
Qed.

Lemma add_exports_app (pz : PyZoltan) (T1 T2 : list ExportEntry) :
  add_exports (add_exports pz T1) T2 = add_exports pz (T1 ++ T2).
Proof.
  unfold add_exports. simpl. by rewrite !fmap_app, !app_assoc.
Qed.

Lemma export_remote_rows (l : list nat) (g : list Z) (p : Z) (js : list nat)
    (pz : PyZoltan) :
  foldl (ZoltanParallelManager.export_remote_row l g p) pz js
  = add_exports pz ((λ j, (g !!! j, l !!! j, p)) <$> js).
Proof.
  revert pz. induction js as [|j js IH]; intros pz; cbn [foldl fmap list_fmap].
  - by rewrite add_exports_nil.
  - rewrite IH.
    change (ZoltanParallelManager.export_remote_row l g p pz j)
      with (add_exports pz [(g !!! j, l !!! j, p)]).
    by rewrite add_exports_app.
Qed.

Lemma export_remote_procs (l : list nat) (g : list Z) (nbrs : list Z)
    (pz : PyZoltan) :
  foldl (λ pz nbrproc,
           foldl (ZoltanParallelManager.export_remote_row l g nbrproc) pz
                 (seq 0 (length l)))
        pz nbrs
  = add_exports pz
      (p ← nbrs; (λ j, (g !!! j, l !!! j, p)) <$> seq 0 (length l)).
Proof.
  revert pz. induction nbrs as [|p nbrs IH]; intros pz;
    cbn [foldl mbind list_bind].
  - by rewrite add_exports_nil.
  - by rewrite IH, export_remote_rows, add_exports_app.
Qed.

Section halo.
Context `{Zoltan}.

Lemma mark_boundary_fields (rank : Z) (c : Cell) :
  lindices (mark_boundary rank c) = lindices c
  ∧ gindices (mark_boundary rank c) = gindices c
  ∧ boxmin (mark_boundary rank c) = boxmin c
  ∧ boxmax (mark_boundary rank c) = boxmax c.
Proof. unfold mark_boundary. by case_match. Qed.

Lemma cell_nbrprocs_mark (rank : Z) (c : Cell) :
  cell_nbrprocs rank (mark_boundary rank c) = cell_nbrprocs rank c.
Proof.
  unfold cell_nbrprocs.
  destruct (mark_boundary_fields rank c) as (_ & _ & -> & ->). done.
Qed.

Lemma mark_boundary_idemp (rank : Z) (c : Cell) :
  mark_boundary rank (mark_boundary rank c) = mark_boundary rank c.
Proof.
  unfold mark_boundary at 1. rewrite cell_nbrprocs_mark.
  unfold mark_boundary. by case_match.
Qed.

Lemma remote_cell_exports_mark (rank : Z) (pa_index : nat) (c : Cell) :
  remote_cell_exports rank pa_index (mark_boundary rank c)
  = remote_cell_exports rank pa_index c.
Proof.
  unfold remote_cell_exports. rewrite cell_nbrprocs_mark.
  unfold cell_exports.
  destruct (mark_boundary_fields rank c) as (-> & -> & _). done.
Qed.

Lemma remote_cell_spec (rank : Z) (pa_index : nat)
    (cells : gmap cIntPoint Cell) (pz : PyZoltan) (cid : cIntPoint)
    (c : Cell) :
  cells !! cid = Some c →
  is_Some (lindices c !! pa_index) → is_Some (gindices c !! pa_index) →
  ZoltanParallelManager.remote_cell rank pa_index (cells, pz) cid
  = Some (<[cid := mark_boundary rank c]> cells,
          add_exports pz (remote_cell_exports rank pa_index c)).
Proof.
  intros Hc [l Hl] [g Hg]. unfold ZoltanParallelManager.remote_cell.
  rewrite Hc. cbn [mbind option_bind].
  unfold mark_boundary, remote_cell_exports. fold (cell_nbrprocs rank c).
  destruct (0 <? length (cell_nbrprocs rank c))%nat eqn:Hn.
  - rewrite Hl, Hg. cbn [mbind option_bind].
    rewrite export_remote_procs. unfold cell_exports. by rewrite Hl, Hg.
  - apply Nat.ltb_ge in Hn.
    destruct (cell_nbrprocs rank c); [|simpl in Hn; lia].
    cbn [mbind list_bind]. by rewrite add_exports_nil, insert_id.
Qed.

Lemma remote_cells_spec (rank : Z) (pa_index : nat)
    (cells0 : gmap cIntPoint Cell) (ks : list cIntPoint) :
  cell_lists pa_index cells0 →
  (∀ cid, cid ∈ ks → is_Some (cells0 !! cid)) →
  ∀ (seen : list cIntPoint) (cells : gmap cIntPoint Cell) (pz : PyZoltan),
    (∀ cid, cells !! cid
            = if decide (cid ∈ seen) then mark_boundary rank <$> cells0 !! cid
              else cells0 !! cid) →
    ∃ cells',
      for_each (ZoltanParallelManager.remote_cell rank pa_index) ks
               (cells, pz)
      = Some (cells',
              add_exports pz
                (cid ← ks;
                 from_option (remote_cell_exports rank pa_index) []
                             (cells0 !! cid)))
      ∧ ∀ cid, cells' !! cid
               = if decide (cid ∈ seen ++ ks)
                 then mark_boundary rank <$> cells0 !! cid
                 else cells0 !! cid.
Proof.
  intros Hlists. induction ks as [|k ks IH]; intros Hks seen cells pz Hinv.
  - exists cells. cbn [for_each mbind list_bind].
    rewrite add_exports_nil, app_nil_r. by split.
  - destruct (Hks k) as [c0 Hc0]; [by left|].
    destruct (Hlists k c0 Hc0) as (l & g & Hl & Hg & _).
    assert (Hc : ∃ c, cells !! k = Some c
                      ∧ (c = c0 ∨ c = mark_boundary rank c0)).
    { rewrite Hinv, Hc0. case_decide; eauto. }
    destruct Hc as (c & Hc & Hcc).
    assert (Hf : lindices c = lindices c0 ∧ gindices c = gindices c0
                 ∧ mark_boundary rank c = mark_boundary rank c0
                 ∧ remote_cell_exports rank pa_index c
                   = remote_cell_exports rank pa_index c0).
    { destruct Hcc as [->| ->]; [done|].
      destruct (mark_boundary_fields rank c0) as (-> & -> & _).
      by rewrite mark_boundary_idemp, remote_cell_exports_mark. }
    destruct Hf as (Hfl & Hfg & Hfm & Hfe).
    cbn [for_each].
    rewrite (remote_cell_spec rank pa_index cells pz k c Hc)
      by (rewrite ?Hfl, ?Hfg; eauto).
    cbn [mbind option_bind]. rewrite Hfm, Hfe.
    destruct (IH (λ cid Hin, Hks cid (list_elem_of_further _ _ _ Hin))
                 (seen ++ [k]) (<[k := mark_boundary rank c0]> cells)
                 (add_exports pz (remote_cell_exports rank pa_index c0)))
      as (cells' & Hrun & Hinv').
    + intros cid. destruct (decide (cid = k)) as [->|Hne].
      * rewrite lookup_insert_eq, Hc0.
        rewrite decide_True by (apply elem_of_app; right; by left). done.
      * rewrite lookup_insert_ne by done. rewrite Hinv.
        destruct (decide (cid ∈ seen)) as [Hs|Hs].
        -- rewrite decide_True by (apply elem_of_app; by left). done.
        -- rewrite decide_False; [done|].
           rewrite elem_of_app, list_elem_of_singleton. tauto.
    + exists cells'. split.
      * rewrite Hrun, add_exports_app. cbn [mbind list_bind].
        by rewrite Hc0.
      * intros cid. rewrite Hinv'. rewrite <- app_assoc. done.
Qed.

End halo.

Lemma copy_lists_spec (pz : PyZoltan) (e : ParticleArrayExchange.t) :
  numExport pz = Z.of_nat (length (exportGlobalids pz)) →
  numExport pz = Z.of_nat (length (exportLocalids pz)) →
  numExport pz = Z.of_nat (length (exportProcs pz)) →
  numImport pz = Z.of_nat (length (importGlobalids pz)) →
  numImport pz = Z.of_nat (length (importLocalids pz)) →
  numImport pz = Z.of_nat (length (importProcs pz)) →
  ZoltanParallelManager.copy_lists pz e
  = Some (ParticleArrayExchange.mk
            (ParticleArrayExchange.pa e) (ParticleArrayExchange.rank e)
            (ParticleArrayExchange.size e)
            (ParticleArrayExchange.num_local e)
            (ParticleArrayExchange.num_remote e)
            (ParticleArrayExchange.num_global e)
            (ParticleArrayExchange.num_ghost e)
            (exportGlobalids pz) (exportLocalids pz) (exportProcs pz)
            (numExport pz)
            (importGlobalids pz) (importLocalids pz) (importProcs pz)
            (numImport pz) (ParticleArrayExchange.lb_props e)).
Proof.
  intros H1 H2 H3 H4 H5 H6.
  unfold ZoltanParallelManager.copy_lists, resize_copy.
  rewrite <- H1 at 1. rewrite Z.eqb_refl. cbn [mbind option_bind].
  rewrite <- H2 at 1. rewrite Z.eqb_refl. cbn [mbind option_bind].
  rewrite <- H3 at 1. rewrite Z.eqb_refl. cbn [mbind option_bind].
  rewrite <- H4 at 1. rewrite Z.eqb_refl. cbn [mbind option_bind].
  rewrite <- H5 at 1. rewrite Z.eqb_refl. cbn [mbind option_bind].
  rewrite <- H6 at 1. rewrite Z.eqb_refl. cbn [mbind option_bind].
  done.
Qed.

Lemma dict_items_lookup `{DictOrder} (cells : gmap cIntPoint Cell)
    (cid : cIntPoint) (c : Cell) :
  DictOrder_ok → (cid, c) ∈ dict_items cells ↔ cells !! cid = Some c.
Proof. intros Hd. by rewrite (Hd cells), elem_of_map_to_list. Qed.

Lemma bind_keys_items {B} (f : Cell → list B) (cells : gmap cIntPoint Cell)
    (items : list (cIntPoint * Cell)) :
  (∀ cid c, (cid, c) ∈ items → cells !! cid = Some c) →
  (cid ← items.*1; from_option f [] (cells !! cid))
  = (item ← items; f item.2).
Proof.
  induction items as [|[cid c] items IH]; intros Hin; [done|].
  cbn [fmap list_fmap mbind list_bind fst snd].
  rewrite (Hin cid c) by (by left). cbn [from_option]. f_equal.
  apply IH. intros ?? Hi. apply Hin. by right.
Qed.

Lemma elem_of_cell_exports (pa_index : nat) (c : Cell) (p : Z)
    (t : ExportEntry) (l : list nat) (g : list Z) :
  lindices c !! pa_index = Some l → gindices c !! pa_index = Some g →
  length l = length g →
  t ∈ cell_exports pa_index c p
  ↔ ∃ j r, l !! j = Some r ∧ g !! j = Some (entry_gid t)
           ∧ entry_lid t = r ∧ entry_proc t = p.
Proof.
  intros Hl Hg Hlen. unfold cell_exports. rewrite Hl, Hg.
  rewrite list_elem_of_fmap. setoid_rewrite elem_of_seq. split.
  - intros (j & -> & _ & Hj). simpl in Hj.
    destruct (lookup_lt_is_Some_2 l j) as [r Hr]; [lia|].
    destruct (lookup_lt_is_Some_2 g j) as [gid Hgid]; [lia|].
    exists j, r. unfold entry_gid, entry_lid, entry_proc. simpl.
    rewrite (list_lookup_total_correct _ _ _ Hr).
    rewrite (list_lookup_total_correct _ _ _ Hgid). done.
  - intros (j & r & Hr & Hgid & Hlid & Hp). exists j. split.
    + destruct t as [[tg tl] tp].
      unfold entry_gid, entry_lid, entry_proc in *. simpl in *.
      rewrite (list_lookup_total_correct _ _ _ Hr).
      rewrite (list_lookup_total_correct _ _ _ Hgid). by subst.
    + apply lookup_lt_Some in Hr. lia.
Qed.

Section remote_lists.
Context `{Zoltan} `{DictOrder}.

Lemma binned_cell_lists ps cs n idx cells (pa_index : nat) pa :
  ps !! pa_index = Some pa → (pa_index < n)%nat →
  binned ps cs n idx cells → cells_invariant ps cs cells →
  ∀ cid c, cells !! cid = Some c →
    ∃ g, lindices c !! pa_index = Some (rows_at pa cs cid (idx pa_index))
         ∧ gindices c !! pa_index = Some g
         ∧ length (rows_at pa cs cid (idx pa_index)) = length g
         ∧ ∀ j r, rows_at pa cs cid (idx pa_index) !! j = Some r →
                  g !! j = Some (w_gid pa !!! r).
Proof.
  intros Hpa Hk Hb Hinv cid c Hc.
  specialize (Hb cid pa_index pa Hpa Hk). rewrite Hc in Hb.
  destruct (Hinv cid c Hc) as [_ Hci].
  destruct (Hci pa_index pa _ Hpa Hb) as (g & Hg & Hlen & Hrows).
  exists g. split; [done|]. split; [done|]. split; [done|].
  intros j r Hr. by destruct (Hrows j r Hr).
Qed.

(** The halo lists: on a cell map that holds the rows [idx k] of every
    array [k] with their global ids, [compute_remote_particles] completes;
    it flags every cell whose box meets the sub-domain of another rank and
    records these ranks in the cell, and it leaves the exchange object of
    the array with export lists of one length in which a row [r] is listed
    for a rank [p], with the global id of the row, exactly when [r] is one
    of the rows held, [p] is not the rank itself and the sub-domain of [p]
    meets the box of the cell of [r].  The array itself, the counts and the
    other exchange objects are left alone. *)
Theorem compute_remote_particles_exports (pa_index : nat)
    (self : ZoltanParallelManager.t) (e : ParticleArrayExchange.t)
    (idx : nat → list nat) :
  Zoltan_ok → DictOrder_ok →
  ParallelManager.pa_exchanges (ZoltanParallelManager.manager self)
    !! pa_index = Some e →
  (pa_index < ParallelManager.narrays (ZoltanParallelManager.manager self))%nat →
  binned (ParallelManager.particles (ZoltanParallelManager.manager self))
         (ParallelManager.cell_size (ZoltanParallelManager.manager self))
         (ParallelManager.narrays (ZoltanParallelManager.manager self))
         idx
         (ParallelManager.cells (ZoltanParallelManager.manager self)) →
  cells_invariant
    (ParallelManager.particles (ZoltanParallelManager.manager self))
    (ParallelManager.cell_size (ZoltanParallelManager.manager self))
    (ParallelManager.cells (ZoltanParallelManager.manager self)) →
  let m := ZoltanParallelManager.manager self in
  let rank := ParallelManager.rank m in
  let T := remote_exports rank pa_index (ParallelManager.cells m) in
  ∃ self' e',
    ZoltanParallelManager.compute_remote_particles pa_index self = Some self'
    ∧ (∀ cid,
         ParallelManager.cells (ZoltanParallelManager.manager self') !! cid
         = mark_boundary rank <$> ParallelManager.cells m !! cid)
    ∧ ParallelManager.pa_exchanges (ZoltanParallelManager.manager self')
      = <[pa_index := e']> (ParallelManager.pa_exchanges m)
    ∧ ParticleArrayExchange.pa e' = ParticleArrayExchange.pa e
    ∧ ParticleArrayExchange.num_local e' = ParticleArrayExchange.num_local e
    ∧ ParticleArrayExchange.lb_props e' = ParticleArrayExchange.lb_props e
    ∧ ParticleArrayExchange.exportParticleGlobalids e' = entry_gid <$> T
    ∧ ParticleArrayExchange.exportParticleLocalids e' = entry_lid <$> T
    ∧ ParticleArrayExchange.exportParticleProcs e' = entry_proc <$> T
    ∧ ParticleArrayExchange.numParticleExport e' = Z.of_nat (length T)
    ∧ ParticleArrayExchange.numParticleImport e'
      = Z.of_nat (length (ParticleArrayExchange.importParticleLocalids e'))
    ∧ ∀ g r p,
        (g, r, p) ∈ T
        ↔ r ∈ idx pa_index
          ∧ g = w_gid (ParticleArrayExchange.pa e) !!! r
          ∧ ∃ c, ParallelManager.cells m
                   !! home (ParticleArrayExchange.pa e)
                           (ParallelManager.cell_size m) r = Some c
                 ∧ p ∈ Zoltan_LB_Box_PP_Assign (boxmin c) (boxmax c)
                 ∧ p ≠ -1 ∧ p ≠ rank.
Proof.
  intros [Hreset Hinvert] Hdict He Hk Hb Hinv m rank T.
  unfold m in *. clear m.
  set (m := ZoltanParallelManager.manager self) in *.
  assert (Hpa : ParallelManager.particles m !! pa_index
                = Some (ParticleArrayExchange.pa e)).
  { unfold ParallelManager.particles. by rewrite list_lookup_fmap, He. }
  pose proof (binned_cell_lists _ _ _ _ _ _ _ Hpa Hk Hb Hinv) as Hcl.
  assert (Hlists : cell_lists pa_index (ParallelManager.cells m)).
  { intros cid c Hc. destruct (Hcl cid c Hc) as (g & Hl & Hg & Hlen & _).
    eauto. }
  destruct (remote_cells_spec rank pa_index (ParallelManager.cells m)
              (dict_items (ParallelManager.cells m)).*1 Hlists)
    with (seen := @nil cIntPoint) (cells := ParallelManager.cells m)
         (pz := reset_Zoltan_lists (ZoltanParallelManager.pz self))
    as (cells' & Hrun & Hcells).
  { intros cid [[cid' c] [-> Hin]]%list_elem_of_fmap.
    apply dict_items_lookup in Hin; [|done]. by eexists. }
  { intros cid. by rewrite decide_False by apply not_elem_of_nil. }
  rewrite bind_keys_items in Hrun
    by (intros cid c Hin; by apply dict_items_lookup in Hin).
  fold (remote_exports rank pa_index (ParallelManager.cells m)) in Hrun.
  fold T in Hrun.
  destruct (Hreset (ZoltanParallelManager.pz self)) as (Hr1 & Hr2 & Hr3).
  set (pz1 := add_exports
                (reset_Zoltan_lists (ZoltanParallelManager.pz self)) T)
    in *.
  set (pz2 := mkPyZoltan (Z.of_nat (length (exportProcs pz1)))
                (exportGlobalids pz1) (exportLocalids pz1) (exportProcs pz1)
                0 (importGlobalids pz1) (importLocalids pz1)
                (importProcs pz1)).
  destruct (Hinvert pz2) as (Hi1 & Hi2 & Hi3 & Hi4 & Hi5 & Hi6 & Hi7).
  assert (Hg1 : exportGlobalids pz1 = entry_gid <$> T)
    by (unfold pz1; simpl; by rewrite Hr1).
  assert (Hl1 : exportLocalids pz1 = entry_lid <$> T)
    by (unfold pz1; simpl; by rewrite Hr2).
  assert (Hp1 : exportProcs pz1 = entry_proc <$> T)
    by (unfold pz1; simpl; by rewrite Hr3).
  cbn [numExport exportGlobalids exportLocalids exportProcs pz2]
    in Hi1, Hi2, Hi3, Hi4.
  rewrite Hp1, length_fmap in Hi1. rewrite Hg1 in Hi2. rewrite Hl1 in Hi3.
  rewrite Hp1 in Hi4.
  eexists _, _. split.
  { unfold ZoltanParallelManager.compute_remote_particles.
    fold m. rewrite He. cbn [mbind option_bind]. fold rank.
    rewrite Hrun. cbn [mbind option_bind]. fold pz1 pz2.
    rewrite (copy_lists_spec (Zoltan_Invert_Lists pz2) e);
      [reflexivity|..]; rewrite ?Hi1, ?Hi2, ?Hi3, ?Hi4, ?length_fmap;
      done. }
  cbn [ZoltanParallelManager.manager ZoltanParallelManager.set_manager
       ParallelManager.cells ParallelManager.pa_exchanges
       ParticleArrayExchange.pa ParticleArrayExchange.num_local
       ParticleArrayExchange.lb_props
       ParticleArrayExchange.exportParticleGlobalids
       ParticleArrayExchange.exportParticleLocalids
       ParticleArrayExchange.exportParticleProcs
       ParticleArrayExchange.numParticleExport
       ParticleArrayExchange.numParticleImport
       ParticleArrayExchange.importParticleLocalids].
  split.
  { intros cid. rewrite Hcells. cbn [app]. case_decide as Hin; [done|].
    destruct (ParallelManager.cells m !! cid) as [c|] eqn:Hc; [|done].
    exfalso. apply Hin. apply list_elem_of_fmap. exists (cid, c).
    split; [done|]. by apply dict_items_lookup. }
  split; [done|]. split; [done|]. split; [done|]. split; [done|].
  split; [exact Hi2|]. split; [exact Hi3|]. split; [exact Hi4|].
  split; [exact Hi1|]. split; [exact Hi6|].
  intros g r p. unfold T, remote_exports.
  rewrite list_elem_of_bind. split.
  - intros ([cid c] & Hin & Hitem). simpl in Hin.
    apply dict_items_lookup in Hitem; [|done].
    unfold remote_cell_exports in Hin.
    apply list_elem_of_bind in Hin as (p' & Hin & Hp').
    destruct (Hcl cid c Hitem) as (gl & Hl & Hg & Hlen & Hgid).
    apply (elem_of_cell_exports _ _ _ _ _ _ Hl Hg Hlen) in Hin
      as (j & r' & Hj & Hgj & Hlid & Hproc).
    unfold entry_gid, entry_lid, entry_proc in *. simpl in *. subst r' p'.
    pose proof (list_elem_of_lookup_2 _ _ _ Hj) as Hr.
    apply elem_of_rows_at in Hr as [Hhome Hr].
    split; [done|]. split.
    + rewrite (Hgid j r Hj) in Hgj. by injection Hgj.
    + exists c. rewrite Hhome. split; [done|].
      unfold cell_nbrprocs, ZoltanParallelManager.neighbour_procs in Hp'.
      apply list_elem_of_filter in Hp' as [[? ?] ?]. done.
  - intros (Hr & -> & c & Hc & Hp & Hp1' & Hp2').
    exists (home (ParticleArrayExchange.pa e) (ParallelManager.cell_size m) r,
            c).
    split; [|by apply dict_items_lookup].
    simpl. unfold remote_cell_exports. apply list_elem_of_bind. exists p.
    split.
    + destruct (Hcl _ c Hc) as (gl & Hl & Hg & Hlen & Hgid).
      apply (elem_of_cell_exports _ _ _ _ _ _ Hl Hg Hlen).
      assert (Hin : r ∈ rows_at (ParticleArrayExchange.pa e)
                          (ParallelManager.cell_size m)
                          (home (ParticleArrayExchange.pa e)
                                (ParallelManager.cell_size m) r)
                          (idx pa_index))
        by (by apply elem_of_rows_at).
      apply list_elem_of_lookup_1 in Hin as [j Hj].
      exists j, r. split; [done|]. split; [by apply Hgid|done].
    + unfold cell_nbrprocs, ZoltanParallelManager.neighbour_procs.
      apply list_elem_of_filter. done.
Qed.

End remote_lists.

(** ** The particle lists of the load balancing *)

Lemma add_entries_nil (l : ExportLists) : add_entries l [] = l.
Proof.
  destruct l. unfold add_entries. simpl.
  by rewrite !app_nil_r, Z.add_0_r.
Qed.

Lemma add_entries_app (l : ExportLists) (T1 T2 : list ExportEntry) :
  add_entries (add_entries l T1) T2 = add_entries l (T1 ++ T2).
Proof.
  unfold add_entries. simpl. rewrite !fmap_app, !app_assoc, length_app.
  f_equal. lia.
Qed.

Lemma export_rows (l : list nat) (g : list Z) (p : Z) (js : list nat)
    (L : ExportLists) :
  foldl (ZoltanParallelManager.export_row l g p) L js
  = add_entries L ((λ j, (g !!! j, l !!! j, p)) <$> js).
Proof.
  revert L. induction js as [|j js IH]; intros L; cbn [foldl fmap list_fmap].
  - by rewrite add_entries_nil.
  - rewrite IH.
    change (ZoltanParallelManager.export_row l g p L j)
      with (add_entries L [(g !!! j, l !!! j, p)]).
    by rewrite add_entries_app.
Qed.

Lemma export_cell_spec (pa_index : nat) (items : list (cIntPoint * Cell))
    (ecl : list nat) (ecp : list Z) (cell_map : gmap cIntPoint Cell)
    (L : ExportLists) (k i : nat) (p : Z) (cid : cIntPoint) (c : Cell) :
  ecl !! k = Some i → ecp !! k = Some p → items !! i = Some (cid, c) →
  is_Some (lindices c !! pa_index) → is_Some (gindices c !! pa_index) →
  is_Some (cell_map !! cid) →
  ZoltanParallelManager.export_cell pa_index items.*1 items.*2 ecl ecp
    (cell_map, L) k
  = Some (delete cid cell_map,
          add_entries L (cell_export_at pa_index items ecl ecp k)).
Proof.
  intros Hi Hp Hitem [l Hl] [g Hg] [c' Hc'].
  unfold ZoltanParallelManager.export_cell, cell_export_at.
  rewrite (list_lookup_total_correct _ _ _ Hi).
  rewrite (list_lookup_total_correct _ _ _ Hp).
  rewrite !list_lookup_fmap, Hi, Hp, Hitem.
  cbn [fmap option_fmap option_map mbind option_bind fst snd].
  rewrite Hl, Hg. cbn [mbind option_bind]. rewrite Hc'.
  cbn [mbind option_bind]. rewrite export_rows.
  unfold cell_exports. by rewrite Hl, Hg.
Qed.

Lemma NoDup_lookup_eq {A} (l : list A) (i j : nat) (x : A) :
  NoDup l → l !! i = Some x → l !! j = Some x → i = j.
Proof. intros Hn. by apply NoDup_alt. Qed.

Lemma elem_of_exported_cellids (items : list (cIntPoint * Cell))
    (ecl : list nat) (cid : cIntPoint) :
  cid ∈ exported_cellids items ecl
  ↔ ∃ i, i ∈ ecl ∧ items.*1 !! i = Some cid.
Proof. unfold exported_cellids. by rewrite list_elem_of_omap. Qed.

Lemma export_cells_spec (pa_index : nat) (items : list (cIntPoint * Cell))
    (ecl : list nat) (ecp : list Z) (cells0 : gmap cIntPoint Cell) :
  (∀ cid c, (cid, c) ∈ items → cells0 !! cid = Some c) →
  NoDup items.*1 → cell_lists pa_index cells0 →
  length ecp = length ecl → NoDup ecl →
  (∀ i, i ∈ ecl → (i < length items)%nat) →
  ∀ (m a : nat) (cell_map : gmap cIntPoint Cell) (L : ExportLists),
    (a + m ≤ length ecl)%nat →
    (∀ cid, cell_map !! cid
            = if decide (cid ∈ exported_cellids items (take a ecl))
              then None else cells0 !! cid) →
    ∃ cell_map',
      for_each (ZoltanParallelManager.export_cell pa_index items.*1 items.*2
                  ecl ecp)
               (seq a m) (cell_map, L)
      = Some (cell_map',
              add_entries L
                (k ← seq a m; cell_export_at pa_index items ecl ecp k))
      ∧ ∀ cid, cell_map' !! cid
               = if decide (cid ∈ exported_cellids items (take (a + m) ecl))
                 then None else cells0 !! cid.
Proof.
  intros Hitems Hkeys Hlists Hlen Hnd Hlt.
  induction m as [|m IH]; intros a cell_map L Ham Hinv.
  - exists cell_map. cbn [seq for_each mbind list_bind].
    rewrite add_entries_nil, Nat.add_0_r. by split.
  - destruct (lookup_lt_is_Some_2 ecl a) as [i Hi]; [lia|].
    destruct (lookup_lt_is_Some_2 ecp a) as [p Hp]; [lia|].
    destruct (lookup_lt_is_Some_2 items i) as [[cid c] Hitem].
    { apply Hlt. by eapply list_elem_of_lookup_2. }
    assert (Hc0 : cells0 !! cid = Some c).
    { apply Hitems. by eapply list_elem_of_lookup_2. }
    assert (Hkey : items.*1 !! i = Some cid)
      by (by rewrite list_lookup_fmap, Hitem).
    assert (Hfresh : cid ∉ exported_cellids items (take a ecl)).
    { rewrite elem_of_exported_cellids. intros (i' & Hi' & Hkey').
      assert (i' = i) as ->
        by (by apply (NoDup_lookup_eq items.*1 _ _ cid)).
      apply list_elem_of_lookup_1 in Hi' as [j Hj].
      pose proof (lookup_lt_Some _ _ _ Hj) as Hjlt.
      rewrite length_take in Hjlt.
      rewrite lookup_take_lt in Hj by lia.
      assert (j = a) by (by apply (NoDup_lookup_eq ecl _ _ i)). lia. }
    destruct (Hlists cid c Hc0) as (l & g & Hl & Hg & _).
    cbn [seq for_each].
    rewrite (export_cell_spec pa_index items ecl ecp cell_map L a i p cid c)
      by (rewrite ?Hinv, ?decide_False by done; eauto).
    cbn [mbind option_bind].
    destruct (IH (S a) (delete cid cell_map)
                 (add_entries L (cell_export_at pa_index items ecl ecp a)))
      as (cell_map' & Hrun & Hinv'); [lia| |].
    + intros cid'. rewrite (take_S_r _ _ _ Hi).
      unfold exported_cellids. rewrite omap_app. cbn [omap list_omap].
      rewrite Hkey. fold (exported_cellids items (take a ecl)).
      destruct (decide (cid' = cid)) as [->|Hne].
      * rewrite lookup_delete_eq.
        rewrite decide_True; [done|]. apply elem_of_app. right. by left.
      * rewrite lookup_delete_ne by done. rewrite Hinv.
        destruct (decide (cid' ∈ exported_cellids items (take a ecl)))
          as [Hs|Hs].
        -- rewrite decide_True by (apply elem_of_app; by left). done.
        -- rewrite decide_False; [done|].
           rewrite elem_of_app, list_elem_of_singleton. tauto.
    + exists cell_map'. split.
      * rewrite Hrun, add_entries_app. by cbn [mbind list_bind].
      * intros cid'. rewrite Hinv'. by rewrite Nat.add_succ_r.
Qed.

Lemma resize_copy_length {A} (n : Z) (l : list A) :
  n = Z.of_nat (length l) → resize_copy n l = Some l.
Proof. intros ->. unfold resize_copy. by rewrite Z.eqb_refl. Qed.

Section balance_lists.
Context `{Zoltan} `{DictOrder}.

Lemma create_particle_lists_run (pa_index : nat)
    (self : ZoltanParallelManager.t) (e : ParticleArrayExchange.t)
    (idx : nat → list nat) :
  Zoltan_ok → DictOrder_ok → cell_exports_ok self →
  ParallelManager.pa_exchanges (ZoltanParallelManager.manager self)
    !! pa_index = Some e →
  (pa_index < ParallelManager.narrays (ZoltanParallelManager.manager self))%nat →
  binned (ParallelManager.particles (ZoltanParallelManager.manager self))
         (ParallelManager.cell_size (ZoltanParallelManager.manager self))
         (ParallelManager.narrays (ZoltanParallelManager.manager self))
         idx
         (ParallelManager.cells (ZoltanParallelManager.manager self)) →
  cells_invariant
    (ParallelManager.particles (ZoltanParallelManager.manager self))
    (ParallelManager.cell_size (ZoltanParallelManager.manager self))
    (ParallelManager.cells (ZoltanParallelManager.manager self)) →
  let m := ZoltanParallelManager.manager self in
  let items := dict_items (ParallelManager.cells m) in
  let T := balance_exports pa_index self in
  ∃ self' e',
    ZoltanParallelManager.create_particle_lists pa_index self = Some self'
    ∧ (∀ cid,
         ParallelManager.cells (ZoltanParallelManager.manager self') !! cid
         = if decide (cid ∈ exported_cellids items
                              (ZoltanParallelManager.exportCellLocalids self))
           then None else ParallelManager.cells m !! cid)
    ∧ ParallelManager.pa_exchanges (ZoltanParallelManager.manager self')
      = <[pa_index := e']> (ParallelManager.pa_exchanges m)
    ∧ ParticleArrayExchange.pa e' = ParticleArrayExchange.pa e
    ∧ ParticleArrayExchange.num_local e' = ParticleArrayExchange.num_local e
    ∧ ParticleArrayExchange.lb_props e' = ParticleArrayExchange.lb_props e
    ∧ ParticleArrayExchange.exportParticleGlobalids e' = entry_gid <$> T
    ∧ ParticleArrayExchange.exportParticleLocalids e' = entry_lid <$> T
    ∧ ParticleArrayExchange.exportParticleProcs e' = entry_proc <$> T
    ∧ ParticleArrayExchange.numParticleExport e' = Z.of_nat (length T)
    ∧ ParticleArrayExchange.numParticleImport e'
      = Z.of_nat (length (ParticleArrayExchange.importParticleLocalids e')).
Proof.
  intros [_ Hinvert] Hdict (Hnum & Hlen & Hnd & Hlt) He Hk Hb Hinv m items T.
  unfold m in *. clear m.
  set (m := ZoltanParallelManager.manager self) in *.
  set (ecl := ZoltanParallelManager.exportCellLocalids self) in *.
  set (ecp := ZoltanParallelManager.exportCellProcs self) in *.
  assert (Hpa : ParallelManager.particles m !! pa_index
                = Some (ParticleArrayExchange.pa e)).
  { unfold ParallelManager.particles. by rewrite list_lookup_fmap, He. }
  pose proof (binned_cell_lists _ _ _ _ _ _ _ Hpa Hk Hb Hinv) as Hcl.
  assert (Hlists : cell_lists pa_index (ParallelManager.cells m)).
  { intros cid c Hc. destruct (Hcl cid c Hc) as (g & Hl & Hg & Hlen' & _).
    eauto. }
  assert (Hitems : ∀ cid c, (cid, c) ∈ items
                            → ParallelManager.cells m !! cid = Some c).
  { intros cid c Hin. by apply dict_items_lookup in Hin. }
  assert (Hkeys : NoDup items.*1).
  { unfold items. rewrite (Hdict (ParallelManager.cells m)).
    apply NoDup_fst_map_to_list. }
  assert (Hsize : length items = size (ParallelManager.cells m)).
  { unfold items. rewrite (Hdict (ParallelManager.cells m)).
    apply length_map_to_list. }
  destruct (export_cells_spec pa_index items ecl ecp
              (ParallelManager.cells m) Hitems Hkeys Hlists Hlen Hnd)
    with (m := length ecl) (a := 0%nat)
         (cell_map := ParallelManager.cells m)
         (L := mkExportLists [] [] [] 0)
    as (cell_map' & Hrun & Hcells).
  { intros i Hi. rewrite Hsize. by apply Hlt. }
  { lia. }
  { intros cid. rewrite take_0. by rewrite decide_False by apply not_elem_of_nil. }
  assert (HT : (k ← seq 0 (length ecl); cell_export_at pa_index items ecl ecp k)
               = T).
  { unfold T, balance_exports. fold m items ecl ecp.
    by rewrite Hnum, Nat2Z.id. }
  rewrite HT in Hrun.
  set (L1 := add_entries (mkExportLists [] [] [] 0) T) in *.
  set (pz2 := mkPyZoltan (_numExport L1) (_exportGlobalids L1)
                (_exportLocalids L1) (_exportProcs L1)
                (numImport (ZoltanParallelManager.pz self))
                (importGlobalids (ZoltanParallelManager.pz self))
                (importLocalids (ZoltanParallelManager.pz self))
                (importProcs (ZoltanParallelManager.pz self))).
  destruct (Hinvert pz2) as (Hi1 & Hi2 & Hi3 & Hi4 & Hi5 & Hi6 & Hi7).
  cbn [numExport exportGlobalids exportLocalids exportProcs pz2 L1
       add_entries _numExport _exportGlobalids _exportLocalids _exportProcs
       app] in Hi1, Hi2, Hi3, Hi4.
  rewrite Z.add_0_l in Hi1.
  eexists _, _. split.
  { unfold ZoltanParallelManager.create_particle_lists.
    fold m. rewrite He. cbn [mbind option_bind]. fold items ecl ecp.
    rewrite Hnum, Nat2Z.id, Hrun. cbn [mbind option_bind].
    rewrite !resize_copy_length
      by (unfold L1; simpl; rewrite length_fmap; lia).
    cbn [mbind option_bind]. fold pz2.
    rewrite (copy_lists_spec (Zoltan_Invert_Lists pz2) e);
      [reflexivity|..]; rewrite ?Hi1, ?Hi2, ?Hi3, ?Hi4, ?length_fmap;
      done. }
  cbn [ZoltanParallelManager.manager ZoltanParallelManager.set_manager
       ParallelManager.cells ParallelManager.pa_exchanges
       ParticleArrayExchange.pa ParticleArrayExchange.num_local
       ParticleArrayExchange.lb_props
       ParticleArrayExchange.exportParticleGlobalids
       ParticleArrayExchange.exportParticleLocalids
       ParticleArrayExchange.exportParticleProcs
       ParticleArrayExchange.numParticleExport
       ParticleArrayExchange.numParticleImport
       ParticleArrayExchange.importParticleLocalids].
  split.
  { intros cid. rewrite Hcells. cbn [Nat.add].
    by rewrite firstn_all. }
  split; [done|]. split; [done|]. split; [done|]. split; [done|].
  split; [exact Hi2|]. split; [exact Hi3|]. split; [exact Hi4|].
  split; [exact Hi1|exact Hi6].
Qed.

(** The particle lists of the load balancing: on a cell map that holds the
    rows [idx k] of every array [k] with their global ids, and for a cell
    export list that names cells of the map by their position, each at most
    once, [create_particle_lists] completes.  It removes the named cells
    from the map and keeps the others, and it leaves the exchange object of
    the array with export lists of one length in which a row [r] is listed
    for a rank [p], with the global id of the row, exactly when [r] is one
    of the rows held and the cell export list sends the cell of [r] to
    [p].  The array itself, the counts and the other exchange objects are
    left alone. *)
Theorem create_particle_lists_exports (pa_index : nat)
    (self : ZoltanParallelManager.t) (e : ParticleArrayExchange.t)
    (idx : nat → list nat) :
  Zoltan_ok → DictOrder_ok → cell_exports_ok self →
  ParallelManager.pa_exchanges (ZoltanParallelManager.manager self)
    !! pa_index = Some e →
  (pa_index < ParallelManager.narrays (ZoltanParallelManager.manager self))%nat →
  binned (ParallelManager.particles (ZoltanParallelManager.manager self))
         (ParallelManager.cell_size (ZoltanParallelManager.manager self))
         (ParallelManager.narrays (ZoltanParallelManager.manager self))
         idx
         (ParallelManager.cells (ZoltanParallelManager.manager self)) →
  cells_invariant
    (ParallelManager.particles (ZoltanParallelManager.manager self))
    (ParallelManager.cell_size (ZoltanParallelManager.manager self))
    (ParallelManager.cells (ZoltanParallelManager.manager self)) →
  let m := ZoltanParallelManager.manager self in
  let items := dict_items (ParallelManager.cells m) in
  let T := balance_exports pa_index self in
  ∃ self' e',
    ZoltanParallelManager.create_particle_lists pa_index self = Some self'
    ∧ (∀ cid,
         ParallelManager.cells (ZoltanParallelManager.manager self') !! cid
         = if decide (cid ∈ exported_cellids items
                              (ZoltanParallelManager.exportCellLocalids self))
           then None else ParallelManager.cells m !! cid)
    ∧ ParallelManager.pa_exchanges (ZoltanParallelManager.manager self')
      = <[pa_index := e']> (ParallelManager.pa_exchanges m)
    ∧ ParticleArrayExchange.pa e' = ParticleArrayExchange.pa e
    ∧ ParticleArrayExchange.num_local e' = ParticleArrayExchange.num_local e
    ∧ ParticleArrayExchange.lb_props e' = ParticleArrayExchange.lb_props e
    ∧ ParticleArrayExchange.exportParticleGlobalids e' = entry_gid <$> T
    ∧ ParticleArrayExchange.exportParticleLocalids e' = entry_lid <$> T
    ∧ ParticleArrayExchange.exportParticleProcs e' = entry_proc <$> T
    ∧ ParticleArrayExchange.numParticleExport e' = Z.of_nat (length T)
    ∧ ParticleArrayExchange.numParticleImport e'
      = Z.of_nat (length (ParticleArrayExchange.importParticleLocalids e'))
    ∧ ∀ g r p,
        (g, r, p) ∈ T
        ↔ r ∈ idx pa_index
          ∧ g = w_gid (ParticleArrayExchange.pa e) !!! r
          ∧ ∃ k i c,
              ZoltanParallelManager.exportCellLocalids self !! k = Some i
              ∧ ZoltanParallelManager.exportCellProcs self !! k = Some p
              ∧ items !! i
                = Some (home (ParticleArrayExchange.pa e)
                             (ParallelManager.cell_size m) r, c).
Proof.
  intros Hz Hdict Hok He Hk Hb Hinv m items T.
  destruct (create_particle_lists_run pa_index self e idx Hz Hdict Hok He Hk
              Hb Hinv)
    as (self' & e' & Hrun & Hcells & Hex & Hpa' & Hnl & Hlb & Hg & Hl & Hp
        & Hne & Hni).
  exists self', e'. split; [exact Hrun|]. split; [exact Hcells|].
  split; [exact Hex|]. split; [exact Hpa'|]. split; [exact Hnl|].
  split; [exact Hlb|]. split; [exact Hg|]. split; [exact Hl|].
  split; [exact Hp|]. split; [exact Hne|]. split; [exact Hni|].
  clear self' e' Hrun Hcells Hex Hpa' Hnl Hlb Hg Hl Hp Hne Hni.
  destruct Hok as (Hnum & Hlen & Hnd & Hlt).
  unfold m in *. clear m.
  set (m := ZoltanParallelManager.manager self) in *.
  set (ecl := ZoltanParallelManager.exportCellLocalids self) in *.
  set (ecp := ZoltanParallelManager.exportCellProcs self) in *.
  assert (Hpa : ParallelManager.particles m !! pa_index
                = Some (ParticleArrayExchange.pa e)).
  { unfold ParallelManager.particles. by rewrite list_lookup_fmap, He. }
  pose proof (binned_cell_lists _ _ _ _ _ _ _ Hpa Hk Hb Hinv) as Hcl.
  assert (Hitems : ∀ cid c, (cid, c) ∈ items
                            → ParallelManager.cells m !! cid = Some c).
  { intros cid c Hin. by apply dict_items_lookup in Hin. }
  assert (HT : (k ← seq 0 (length ecl); cell_export_at pa_index items ecl ecp k)
               = T).
  { unfold T, balance_exports. fold m items ecl ecp.
    by rewrite Hnum, Nat2Z.id. }
  intros g r p. rewrite <- HT. rewrite list_elem_of_bind.
  setoid_rewrite elem_of_seq. unfold cell_export_at. split.
  - intros (k & Hin & _).
    destruct (ecl !! k) as [i|] eqn:Hi; [|by apply elem_of_nil in Hin].
    destruct (ecp !! k) as [p'|] eqn:Hp; [|by apply elem_of_nil in Hin].
    destruct (items !! i) as [[cid c]|] eqn:Hitem;
      [|by apply elem_of_nil in Hin].
    simpl in Hin.
    assert (Hc : ParallelManager.cells m !! cid = Some c).
    { apply Hitems. by eapply list_elem_of_lookup_2. }
    destruct (Hcl cid c Hc) as (gl & Hl & Hg & Hlen' & Hgid).
    apply (elem_of_cell_exports _ _ _ _ _ _ Hl Hg Hlen') in Hin
      as (j & r' & Hj & Hgj & Hlid & Hproc).
    unfold entry_gid, entry_lid, entry_proc in *. simpl in *. subst r' p'.
    pose proof (list_elem_of_lookup_2 _ _ _ Hj) as Hr.
    apply elem_of_rows_at in Hr as [Hhome Hr].
    split; [done|]. split.
    + rewrite (Hgid j r Hj) in Hgj. by injection Hgj.
    + exists k, i, c. by rewrite Hhome.
  - intros (Hr & -> & k & i & c & Hi & Hp & Hitem).
    exists k. rewrite Hi, Hp, Hitem. simpl. split.
    + assert (Hc : ParallelManager.cells m
                     !! home (ParticleArrayExchange.pa e)
                             (ParallelManager.cell_size m) r = Some c).
      { apply Hitems. by eapply list_elem_of_lookup_2. }
      destruct (Hcl _ c Hc) as (gl & Hl & Hg & Hlen' & Hgid).
      apply (elem_of_cell_exports _ _ _ _ _ _ Hl Hg Hlen').
      assert (Hin : r ∈ rows_at (ParticleArrayExchange.pa e)
                          (ParallelManager.cell_size m)
                          (home (ParticleArrayExchange.pa e)
                                (ParallelManager.cell_size m) r)
                          (idx pa_index))
        by (by apply elem_of_rows_at).
      apply list_elem_of_lookup_1 in Hin as [j Hj].
      exists j, r. split; [done|]. split; [by apply Hgid|done].
    + apply lookup_lt_Some in Hi. lia.
Qed.

End balance_lists.

Lemma two_rank_zoltan_ok : @Zoltan_ok two_rank_zoltan.
Proof. split; intros pz; by repeat split. Qed.

Lemma key_order_ok : @DictOrder_ok key_order.
Proof. intros m. reflexivity. Qed.

Lemma scenarioA_pm_binned :
  ∃ s, ParallelManager.local_bin [empty_rank_bounds] (scenarioA_pm 2) = Some s
       ∧ ParallelManager.pa_exchanges s = [scenarioA_exchange 2]
       ∧ ParallelManager.narrays s = 1%nat
       ∧ current (ParallelManager.particles s) (ParallelManager.cell_size s)
                 (ParallelManager.narrays s) (ParallelManager.cells s)
       ∧ cells_invariant (ParallelManager.particles s)
           (ParallelManager.cell_size s) (ParallelManager.cells s)
       ∧ (0 < size (ParallelManager.cells s))%nat.
Proof.
  assert (Hwf : PM_wf (scenarioA_pm 2)) by (by repeat split).
  assert (Hcnt : counts_current (scenarioA_pm 2)).
  { intros k pa Hk. destruct k as [|k]; [|done].
    injection Hk as <-. reflexivity. }
  destruct (PM_local_bin_current [empty_rank_bounds] (scenarioA_pm 2)
              Hwf eq_refl Hcnt) as (s & Hs & He & Hn & _ & _ & Hcur).
  destruct (PM_local_bin_spec [empty_rank_bounds] (scenarioA_pm 2)
              Hwf eq_refl) as (s' & Hs' & _ & Hinv).
  rewrite Hs in Hs'. injection Hs' as <-.
  exists s. split; [exact Hs|]. split; [exact He|]. split; [exact Hn|].
  split; [exact Hcur|]. split; [exact Hinv|].
  vm_compute in Hs. injection Hs as <-. vm_compute. lia.
Qed.

Lemma compute_remote_particles_exports_witness :
  ∃ s self',
    ParallelManager.local_bin [empty_rank_bounds] (scenarioA_pm 2) = Some s
    ∧ @ZoltanParallelManager.compute_remote_particles two_rank_zoltan key_order 0
        (zoltan_manager s [] []) = Some self'.
Proof.
  destruct scenarioA_pm_binned as (s & Hs & He & Hn & Hcur & Hinv & _).
  assert (Hk : (0 < ParallelManager.narrays s)%nat) by (rewrite Hn; lia).
  assert (He0 : ParallelManager.pa_exchanges s !! 0%nat
                = Some (scenarioA_exchange 2)) by (by rewrite He).
  destruct (@compute_remote_particles_exports two_rank_zoltan key_order 0
              (zoltan_manager s [] []) (scenarioA_exchange 2)
              (all_rows (ParallelManager.particles s))
              two_rank_zoltan_ok key_order_ok He0 Hk Hcur Hinv)
    as (self' & e' & Hrun & _).
  exists s, self'. split; [exact Hs|exact Hrun].
Defined.

Lemma create_particle_lists_exports_witness :
  ∃ s self',
    ParallelManager.local_bin [empty_rank_bounds] (scenarioA_pm 2) = Some s
    ∧ @ZoltanParallelManager.create_particle_lists two_rank_zoltan key_order 0
        (zoltan_manager s [0%nat] [1]) = Some self'.
Proof.
  destruct scenarioA_pm_binned as (s & Hs & He & Hn & Hcur & Hinv & Hsz).
  assert (Hk : (0 < ParallelManager.narrays s)%nat) by (rewrite Hn; lia).
  assert (He0 : ParallelManager.pa_exchanges s !! 0%nat
                = Some (scenarioA_exchange 2)) by (by rewrite He).
  assert (Hok : @cell_exports_ok key_order (zoltan_manager s [0%nat] [1])).
  { split; [reflexivity|]. split; [reflexivity|]. split.
    - apply NoDup_singleton.
    - intros i Hi. apply list_elem_of_singleton in Hi as ->. exact Hsz. }
  destruct (@create_particle_lists_exports two_rank_zoltan key_order 0
              (zoltan_manager s [0%nat] [1]) (scenarioA_exchange 2)
              (all_rows (ParallelManager.particles s))
              two_rank_zoltan_ok key_order_ok Hok He0 Hk Hcur Hinv)
    as (self' & e' & Hrun & _).
  exists s, self'. split; [exact Hs|exact Hrun].
Defined.
(** ** The first steps of [update] *)

Lemma remove_remote_particles_count junk e :
  local_rows_in_place e →
  ParticleArrayExchange.num_local (Exchange.remove_remote_particles junk e)
  = ParticleArrayExchange.num_local e
  ∧ ParticleArrayExchange.num_remote (Exchange.remove_remote_particles junk e)
    = 0
  ∧ Z.of_nat (get_number_of_particles
                (ParticleArrayExchange.pa
                   (Exchange.remove_remote_particles junk e)))
    = ParticleArrayExchange.num_local e.
Proof.
  intros (HN & Hlen & Hl & d & Hx).
  rewrite (remove_remote_particles_lookup junk e HN Hlen Hl).
  split; [done|]. split; [done|].
  cbn [ParticleArrayExchange.set_num_remote ParticleArrayExchange.set_pa
       ParticleArrayExchange.pa].
  unfold get_number_of_particles, doubles, get_carray in *.
  cbn [pa_props]. rewrite lookup_fmap, Hx. simpl.
  pose proof (Hlen "x" _ Hx) as Hd. simpl in Hd.
  rewrite length_take. lia.
Qed.

Lemma PM_remove_remote_loop junk (m a : nat) (s0 s : ParallelManager.t) :
  PM_wf s0 → (a + m ≤ ParallelManager.narrays s0)%nat →
  ParallelManager.narrays s = ParallelManager.narrays s0 →
  length (ParallelManager.num_local s) = ParallelManager.narrays s0 →
  length (ParallelManager.num_remote s) = ParallelManager.narrays s0 →
  (∀ k, ParallelManager.pa_exchanges s !! k
        = if decide (k < a)%nat
          then Exchange.remove_remote_particles junk
                 <$> ParallelManager.pa_exchanges s0 !! k
          else ParallelManager.pa_exchanges s0 !! k) →
  (∀ k, (k < a)%nat →
        ParallelManager.num_local s !! k
        = (λ e, ParticleArrayExchange.num_local
                  (Exchange.remove_remote_particles junk e))
            <$> ParallelManager.pa_exchanges s0 !! k
        ∧ ParallelManager.num_remote s !! k
          = (λ e, ParticleArrayExchange.num_remote
                    (Exchange.remove_remote_particles junk e))
              <$> ParallelManager.pa_exchanges s0 !! k) →
  ∃ s',
    for_each
      (λ self i,
         pa_exchange ← ParallelManager.pa_exchanges self !! i;
         let pa_exchange :=
           Exchange.remove_remote_particles junk pa_exchange in
         if bool_decide (i < length (ParallelManager.num_local self)
                         ∧ i < length (ParallelManager.num_remote self))%nat
         then
           Some (ParallelManager.mk (ParallelManager.narrays self)
                   (<[i := pa_exchange]> (ParallelManager.pa_exchanges self))
                   (<[i := ParticleArrayExchange.num_local pa_exchange]>
                      (ParallelManager.num_local self))
                   (ParallelManager.num_global self)
                   (<[i := ParticleArrayExchange.num_remote pa_exchange]>
                      (ParallelManager.num_remote self))
                   (ParallelManager.local_bounds self)
                   (ParallelManager.global_bounds self)
                   (ParallelManager.in_parallel self)
                   (ParallelManager.rank self) (ParallelManager.size self)
                   (ParallelManager.cells self)
                   (ParallelManager.radius_scale self)
                   (ParallelManager.ghost_layers self)
                   (ParallelManager.cell_size self)
                   (ParallelManager.console self))
         else None)
      (seq a m) s = Some s'
    ∧ ParallelManager.narrays s' = ParallelManager.narrays s0
    ∧ length (ParallelManager.num_local s') = ParallelManager.narrays s0
    ∧ length (ParallelManager.num_remote s') = ParallelManager.narrays s0
    ∧ ParallelManager.num_global s' = ParallelManager.num_global s
    ∧ ParallelManager.in_parallel s' = ParallelManager.in_parallel s
    ∧ ParallelManager.radius_scale s' = ParallelManager.radius_scale s
    ∧ (∀ k, ParallelManager.pa_exchanges s' !! k
            = if decide (k < a + m)%nat
              then Exchange.remove_remote_particles junk
                     <$> ParallelManager.pa_exchanges s0 !! k
              else ParallelManager.pa_exchanges s0 !! k)
    ∧ ∀ k, (k < a + m)%nat →
        ParallelManager.num_local s' !! k
        = (λ e, ParticleArrayExchange.num_local
                  (Exchange.remove_remote_particles junk e))
            <$> ParallelManager.pa_exchanges s0 !! k
        ∧ ParallelManager.num_remote s' !! k
          = (λ e, ParticleArrayExchange.num_remote
                    (Exchange.remove_remote_particles junk e))
              <$> ParallelManager.pa_exchanges s0 !! k.
Proof.
  revert a s. induction m as [|m IH]; intros a s Hwf Ham Hn Hl Hr He Hc.
  - exists s. rewrite Nat.add_0_r. split; [done|]. split; [exact Hn|].
    split; [exact Hl|]. split; [exact Hr|]. split; [done|]. split; [done|].
    split; [done|]. split; [exact He|exact Hc].
  - cbn [seq for_each].
    pose proof Hwf as (Hw1 & _).
    destruct (lookup_lt_is_Some_2 (ParallelManager.pa_exchanges s0) a)
      as [e He0]; [lia|].
    assert (Hea : ParallelManager.pa_exchanges s !! a = Some e).
    { rewrite He. by rewrite decide_False by lia. }
    rewrite Hea. cbn [mbind option_bind].
    rewrite bool_decide_eq_true_2 by lia. cbn [mbind option_bind].
    match goal with
    | |- ∃ s', for_each _ _ ?s1 = _ ∧ _ =>
        destruct (IH (S a) s1) as (s' & Hs' & H1 & H2 & H3 & H4 & H5 & H6
                                   & H7 & H8)
    end.
    + exact Hwf.
    + lia.
    + exact Hn.
    + cbn [ParallelManager.num_local]. by rewrite length_insert.
    + cbn [ParallelManager.num_remote]. by rewrite length_insert.
    + intros k. cbn [ParallelManager.pa_exchanges].
      destruct (decide (k = a)) as [->|Hne].
      * rewrite list_lookup_insert_eq
          by (apply lookup_lt_Some in Hea; lia).
        rewrite decide_True by lia. by rewrite He0.
      * rewrite list_lookup_insert_ne by done. rewrite He.
        destruct (decide (k < a)%nat); destruct (decide (k < S a)%nat);
          done || lia.
    + intros k Hk. cbn [ParallelManager.num_local ParallelManager.num_remote].
      destruct (decide (k = a)) as [->|Hne].
      * rewrite !list_lookup_insert_eq by lia. by rewrite He0.
      * rewrite !list_lookup_insert_ne by done. apply Hc. lia.
    + exists s'. split; [exact Hs'|]. split; [exact H1|].
      split; [exact H2|]. split; [exact H3|]. split; [exact H4|].
      split; [exact H5|]. split; [exact H6|]. split.
      * intros k. rewrite H7.
        destruct (decide (k < S a + m)%nat); destruct (decide (k < a + S m)%nat);
          done || lia.
      * intros k Hk. apply H8. lia.
Qed.

(** The first steps of [update] and of the constructor on a parallel run:
    when the local rows of every exchange object are in place,
    [remove_remote_particles] completes and cuts every array down to its
    local rows, the counts of the manager become those of the exchange
    objects, with no remote row left, and [local_bin] after it completes
    with a cell map that is current for the arrays as they are then. *)
Theorem remove_remote_then_local_bin junk others s :
  PM_wf s → ParallelManager.in_parallel s = true →
  (∀ k e, ParallelManager.pa_exchanges s !! k = Some e →
          local_rows_in_place e) →
  ∃ s1 s2,
    Manager.remove_remote_particles junk s = Some s1
    ∧ ParallelManager.local_bin others s1 = Some s2
    ∧ ParallelManager.pa_exchanges s1
      = Exchange.remove_remote_particles junk
          <$> ParallelManager.pa_exchanges s
    ∧ ParallelManager.num_local s1
      = ParticleArrayExchange.num_local <$> ParallelManager.pa_exchanges s
    ∧ ParallelManager.num_remote s1
      = (λ _, 0) <$> ParallelManager.pa_exchanges s
    ∧ counts_current s1
    ∧ ParallelManager.pa_exchanges s2 = ParallelManager.pa_exchanges s1
    ∧ current (ParallelManager.particles s2) (ParallelManager.cell_size s2)
              (ParallelManager.narrays s2) (ParallelManager.cells s2).
Proof.
  intros Hwf Hp Hok. pose proof Hwf as (Hw1 & Hw2 & Hw3 & Hw4).
  destruct (PM_remove_remote_loop junk (ParallelManager.narrays s) 0 s s)
    as (s1 & Hs1 & H1 & H2 & H3 & H4 & H5 & H6 & H7 & H8);
    [done|simpl; lia|done|done|done| |intros k Hk; lia|].
  { intros k. by rewrite decide_False by lia. }
  assert (He1 : ParallelManager.pa_exchanges s1
                = Exchange.remove_remote_particles junk
                    <$> ParallelManager.pa_exchanges s).
  { apply list_eq. intros k. rewrite H7, list_lookup_fmap.
    case_decide as Hk; [done|].
    rewrite lookup_ge_None_2; [done|]. simpl in Hk. lia. }
  assert (Hnl : ParallelManager.num_local s1
                = ParticleArrayExchange.num_local
                    <$> ParallelManager.pa_exchanges s).
  { apply lookups_fmap; [lia|]. intros k Hk.
    destruct (H8 k) as [-> _]; [simpl; lia|].
    destruct (ParallelManager.pa_exchanges s !! k) as [e|] eqn:He; [|done].
    reflexivity. }
  assert (Hnr : ParallelManager.num_remote s1
                = (λ _, 0) <$> ParallelManager.pa_exchanges s).
  { apply lookups_fmap; [lia|]. intros k Hk.
    destruct (H8 k) as [_ ->]; [simpl; lia|].
    destruct (ParallelManager.pa_exchanges s !! k) as [e|] eqn:He; [|done].
    reflexivity. }
  assert (Hcnt : counts_current s1).
  { intros k pa Hpa. unfold ParallelManager.particles in Hpa.
    rewrite He1, !list_lookup_fmap in Hpa. rewrite Hnl, list_lookup_fmap.
    destruct (ParallelManager.pa_exchanges s !! k) as [e|] eqn:He; [|done].
    cbn [fmap option_fmap option_map] in *. injection Hpa as <-. f_equal.
    destruct (remove_remote_particles_count junk e (Hok k e He))
      as (_ & _ & Hrows). symmetry. exact Hrows. }
  assert (Hwf1 : PM_wf s1).
  { unfold PM_wf. rewrite He1, length_fmap, H1, H2, H3, H4. done. }
  destruct (PM_local_bin_current others s1 Hwf1) as
    (s2 & Hs2 & He2 & _ & _ & _ & Hcur); [congruence|exact Hcnt|].
  exists s1, s2. split; [exact Hs1|]. split; [exact Hs2|].
  split; [exact He1|]. split; [exact Hnl|]. split; [exact Hnr|].
  split; [exact Hcnt|]. split; [exact He2|exact Hcur].
Qed.

Lemma halo_exchange_in_place : local_rows_in_place halo_exchange.
Proof.
  split; [by vm_compute|]. split; [|split].
  - apply (bool_decide_unpack _). vm_compute. reflexivity.
  - intros i Hi. destruct i as [|[|[|i]]]; [reflexivity..|].
    vm_compute in Hi. lia.
  - eexists. reflexivity.
Qed.

Lemma remove_remote_then_local_bin_witness :
  ∃ s1 s2,
    Manager.remove_remote_particles no_junk halo_pm = Some s1
    ∧ ParallelManager.local_bin [empty_rank_bounds] s1 = Some s2
    ∧ ParallelManager.num_local s1 = [3]
    ∧ ParallelManager.num_remote s1 = [0].
Proof.
  assert (Hwf : PM_wf halo_pm) by (by repeat split).
  assert (Hok : ∀ k e, ParallelManager.pa_exchanges halo_pm !! k = Some e
                       → local_rows_in_place e).
  { intros k e He. destruct k as [|k]; [|done].
    injection He as <-. exact halo_exchange_in_place. }
  destruct (remove_remote_then_local_bin no_junk [empty_rank_bounds] halo_pm
              Hwf eq_refl Hok)
    as (s1 & s2 & H1 & H2 & _ & Hnl & Hnr & _).
  exists s1, s2. split; [exact H1|]. split; [exact H2|].
  split; [exact Hnl|exact Hnr].
Defined.

(** ** From the particle lists to the exchange *)

Lemma fmap_bind_list {A B C} (f : B → C) (g : A → list B) (l : list A) :
  f <$> (l ≫= g) = l ≫= (λ x, f <$> g x).
Proof.
  induction l as [|x l IH]; [done|].
  cbn [mbind list_bind]. by rewrite fmap_app, IH.
Qed.

Lemma fmap_lookup_total_seq `{Inhabited A} (l : list A) :
  (λ j, l !!! j) <$> seq 0 (length l) = l.
Proof.
  apply list_eq. intros j. rewrite list_lookup_fmap.
  destruct (decide (j < length l)%nat) as [Hj|Hj].
  - rewrite lookup_seq_lt by done. simpl.
    destruct (lookup_lt_is_Some_2 l j Hj) as [x Hx].
    by rewrite (list_lookup_total_correct _ _ _ Hx).
  - rewrite lookup_seq_ge by lia. simpl. symmetry.
    apply lookup_ge_None_2. lia.
Qed.

Lemma cell_export_at_lids (pa_index : nat) (items : list (cIntPoint * Cell))
    (ecl : list nat) (ecp : list Z) (k : nat) :
  entry_lid <$> cell_export_at pa_index items ecl ecp k = []
  ∨ ∃ i cid c l,
      ecl !! k = Some i ∧ items !! i = Some (cid, c)
      ∧ lindices c !! pa_index = Some l
      ∧ entry_lid <$> cell_export_at pa_index items ecl ecp k = l.
Proof.
  unfold cell_export_at.
  destruct (ecl !! k) as [i|] eqn:Hi; [|by left].
  destruct (ecp !! k) as [p|] eqn:Hp; [|by left].
  destruct (items !! i) as [[cid c]|] eqn:Hitem; [|by left].
  unfold cell_exports. simpl.
  destruct (lindices c !! pa_index) as [l|] eqn:Hl; [|by left].
  destruct (gindices c !! pa_index) as [g|]; [|by left].
  right. exists i, cid, c, l. split; [done|]. split; [done|].
  split; [done|]. rewrite <- list_fmap_compose.
  apply fmap_lookup_total_seq.
Qed.

Section balance_exchange.
Context `{Zoltan} `{DictOrder}.

(** The lists that [create_particle_lists] builds fit the exchange that
    follows it: on a cell map that holds the local rows of every array,
    for an exchange object whose local count is not negative and is the row
    count of its vectors, the export list names rows of the array, each at
    most once, [numParticleExport] is their number and [numParticleImport]
    is not negative, so that [lb_exchange_data] finds its lists in order. *)
Theorem create_particle_lists_fits (pa_index : nat)
    (self : ZoltanParallelManager.t) (e : ParticleArrayExchange.t) :
  Zoltan_ok → DictOrder_ok → cell_exports_ok self →
  ParallelManager.pa_exchanges (ZoltanParallelManager.manager self)
    !! pa_index = Some e →
  (pa_index < ParallelManager.narrays (ZoltanParallelManager.manager self))%nat →
  0 <= ParticleArrayExchange.num_local e →
  uniform_length (ParticleArrayExchange.pa e)
                 (Z.to_nat (ParticleArrayExchange.num_local e)) →
  binned (ParallelManager.particles (ZoltanParallelManager.manager self))
         (ParallelManager.cell_size (ZoltanParallelManager.manager self))
         (ParallelManager.narrays (ZoltanParallelManager.manager self))
         (local_range (ZoltanParallelManager.manager self))
         (ParallelManager.cells (ZoltanParallelManager.manager self)) →
  cells_invariant
    (ParallelManager.particles (ZoltanParallelManager.manager self))
    (ParallelManager.cell_size (ZoltanParallelManager.manager self))
    (ParallelManager.cells (ZoltanParallelManager.manager self)) →
  ∃ self' e',
    ZoltanParallelManager.create_particle_lists pa_index self = Some self'
    ∧ ParallelManager.pa_exchanges (ZoltanParallelManager.manager self')
        !! pa_index = Some e'
    ∧ ParticleArrayExchange.pa e' = ParticleArrayExchange.pa e
    ∧ lists_ok e'.
Proof.
  intros Hz Hdict Hok He Hk HN Hu Hb Hinv.
  destruct (create_particle_lists_run pa_index self e _ Hz Hdict Hok He Hk
              Hb Hinv)
    as (self' & e' & Hrun & _ & Hex & Hpa' & Hnl & _ & _ & Hl & _
        & Hne & Hni).
  destruct Hok as (Hnum & Hlen & Hnd & Hlt).
  set (m := ZoltanParallelManager.manager self) in *.
  set (items := dict_items (ParallelManager.cells m)) in *.
  set (ecl := ZoltanParallelManager.exportCellLocalids self) in *.
  set (ecp := ZoltanParallelManager.exportCellProcs self) in *.
  assert (Hpa : ParallelManager.particles m !! pa_index
                = Some (ParticleArrayExchange.pa e)).
  { unfold ParallelManager.particles. by rewrite list_lookup_fmap, He. }
  pose proof (binned_cell_lists _ _ _ _ _ _ _ Hpa Hk Hb Hinv) as Hcl.
  assert (Hitems : ∀ cid c, (cid, c) ∈ items
                            → ParallelManager.cells m !! cid = Some c).
  { intros cid c Hin. by apply dict_items_lookup in Hin. }
  assert (Hkeys : NoDup items.*1).
  { unfold items. rewrite (Hdict (ParallelManager.cells m)).
    apply NoDup_fst_map_to_list. }
  assert (Hrows : ∀ k r,
            r ∈ entry_lid <$> cell_export_at pa_index items ecl ecp k →
            ∃ i c, ecl !! k = Some i
                   ∧ items !! i
                     = Some (home (ParticleArrayExchange.pa e)
                                  (ParallelManager.cell_size m) r, c)
                   ∧ r ∈ local_range m pa_index).
  { intros k r Hr.
    destruct (cell_export_at_lids pa_index items ecl ecp k)
      as [Hnil|(i & cid & c & l & Hi & Hitem & Hlc & Heq)].
    - rewrite Hnil in Hr. by apply elem_of_nil in Hr.
    - rewrite Heq in Hr.
      assert (Hc : ParallelManager.cells m !! cid = Some c).
      { apply Hitems. by eapply list_elem_of_lookup_2. }
      destruct (Hcl cid c Hc) as (gl & Hl' & _).
      rewrite Hl' in Hlc. injection Hlc as <-.
      apply elem_of_rows_at in Hr as [<- Hr]. by exists i, c. }
  assert (Hlids : ParticleArrayExchange.exportParticleLocalids e'
                  = k ← seq 0 (length ecl);
                    entry_lid <$> cell_export_at pa_index items ecl ecp k).
  { rewrite Hl. unfold balance_exports. fold m items ecl ecp.
    by rewrite Hnum, Nat2Z.id, fmap_bind_list. }
  exists self', e'. split; [exact Hrun|]. split.
  { rewrite Hex. apply list_lookup_insert_eq.
    by apply lookup_lt_Some in He. }
  split; [exact Hpa'|].
  unfold lists_ok. rewrite Hnl, Hpa'.
  split; [exact HN|]. split; [lia|]. split.
  { rewrite Hne, Hl. by rewrite length_fmap. }
  split; [|split; [|exact Hu]].
  - rewrite Hlids. apply NoDup_bind; [| |apply NoDup_seq].
    + intros k1 k2 r _ _ Hr1 Hr2.
      destruct (Hrows k1 r Hr1) as (i1 & c1 & Hi1 & Hit1 & _).
      destruct (Hrows k2 r Hr2) as (i2 & c2 & Hi2 & Hit2 & _).
      assert (i1 = i2) as ->.
      { apply (NoDup_lookup_eq items.*1 _ _
                 (home (ParticleArrayExchange.pa e)
                       (ParallelManager.cell_size m) r)); [done| |].
        - by rewrite list_lookup_fmap, Hit1.
        - by rewrite list_lookup_fmap, Hit2. }
      by apply (NoDup_lookup_eq ecl _ _ i2).
    + intros k _.
      destruct (cell_export_at_lids pa_index items ecl ecp k)
        as [->|(i & cid & c & l & Hi & Hitem & Hlc & ->)];
        [apply NoDup_nil_2|].
      assert (Hc : ParallelManager.cells m !! cid = Some c).
      { apply Hitems. by eapply list_elem_of_lookup_2. }
      destruct (Hcl cid c Hc) as (gl & Hl' & _).
      rewrite Hl' in Hlc. injection Hlc as <-.
      apply NoDup_filter. unfold local_range.
      destruct (ParallelManager.pa_exchanges m !! pa_index);
        [apply NoDup_seq|apply NoDup_nil_2].
  - rewrite Hlids. apply Forall_forall. intros r Hr.
    apply list_elem_of_bind in Hr as (k & Hr & _).
    destruct (Hrows k r Hr) as (_ & _ & _ & _ & Hloc).
    unfold local_range in Hloc. fold m in He. rewrite He in Hloc.
    apply elem_of_seq in Hloc. lia.
Qed.

End balance_exchange.

Lemma create_particle_lists_fits_witness :
  ∃ s self' e',
    ParallelManager.local_bin [empty_rank_bounds] (scenarioA_pm 2) = Some s
    ∧ @ZoltanParallelManager.create_particle_lists two_rank_zoltan key_order 0
        (zoltan_manager s [0%nat] [1]) = Some self'
    ∧ ParallelManager.pa_exchanges (ZoltanParallelManager.manager self')
        !! 0%nat = Some e'
    ∧ lists_ok e'.
Proof.
  destruct scenarioA_pm_binned as (s & Hs & He & Hn & Hcur & Hinv & Hsz).
  assert (Hk : (0 < ParallelManager.narrays s)%nat) by (rewrite Hn; lia).
  assert (He0 : ParallelManager.pa_exchanges s !! 0%nat
                = Some (scenarioA_exchange 2)) by (by rewrite He).
  assert (Hok : @cell_exports_ok key_order (zoltan_manager s [0%nat] [1])).
  { split; [reflexivity|]. split; [reflexivity|]. split.
    - apply NoDup_singleton.
    - intros i Hi. apply list_elem_of_singleton in Hi as ->. exact Hsz. }
  assert (Hu : uniform_length
                 (ParticleArrayExchange.pa (scenarioA_exchange 2))
                 (Z.to_nat (ParticleArrayExchange.num_local
                              (scenarioA_exchange 2)))).
  { apply (bool_decide_unpack _). vm_compute. reflexivity. }
  assert (Hb : binned (ParallelManager.particles s)
                 (ParallelManager.cell_size s) (ParallelManager.narrays s)
                 (local_range s) (ParallelManager.cells s)).
  { eapply binned_ext; [|exact Hcur]. intros k.
    unfold all_rows, local_range, ParallelManager.particles. rewrite He.
    destruct k as [|k]; reflexivity. }
  destruct (@create_particle_lists_fits two_rank_zoltan key_order 0
              (zoltan_manager s [0%nat] [1]) (scenarioA_exchange 2)
              two_rank_zoltan_ok key_order_ok Hok He0 Hk ltac:(by vm_compute) Hu
              Hb Hinv)
    as (self' & e' & Hrun & He' & _ & Hlists).
  exists s, self', e'. split; [exact Hs|]. split; [exact Hrun|].
  split; [exact He'|exact Hlists].
Defined.
